(** * Traffic-Management-System: a shallow embedding of the simulation core

    The development follows the C++ sources:
    - [types.h], [data_structures.h], [data_structures.cpp]: the data model;
    - [traffic_validator.cpp]: the input validator;
    - [traffic_network.cpp]: router, admission control and the two engines,
      the loader with the parser of the input file and the sample network,
      the loop of the step-by-step simulation;
    - [thread_pool.cpp], [thread_pool.h]: the pool that runs the loops of the
      automatic simulation;
    - [display.cpp]: the header box and the colours.

    Conventions.
    - An [int] of the source is a [Z].  Increments and decrements of [int]
      fields are written with [int_succ] and [int_pred], the two's-complement
      wrap-around of the machine instruction (signed overflow is undefined in
      C++; the theorems say where they need a value below [INT_MAX]).
    - Sizes and loop indices ([size_t], the [int] counters that range over a
      vector) are [nat].
    - A [vector] is a list, read with [!!]/[!!!] and updated with
      [<[i:=x]>]/[alter]; the source never indexes out of range when the
      network is well formed, and the theorems carry that hypothesis.
    - A [while] loop is a [Fixpoint] on a fuel argument that returns [None]
      when the fuel runs out; the functions pass a fuel computed from the
      size of the graph and the totality lemmas show that it is enough.
    - What the step-by-step engine prints on [cout] is kept as a list of
      [Event]s in the network state.
    - A function that can throw returns an [option], [None] for the
      exception.  The steady clock and the random generator are oracles:
      [clock k] is the reading at the construction of the [k]-th vehicle,
      [draw k] the [k]-th number drawn.
    - The threads of the automatic simulation are a transition system: a
      function gives the state after an action of a thread, and a run is a
      sequence of actions in any order. *)

From Stdlib Require Import Floats Ascii DecimalString DecimalZ.
From stdpp Require Import base tactics option list numbers gmap strings.

Local Open Scope Z_scope.

(** ** Machine integers *)

Definition INT_MAX : Z := 2147483647.
Definition INT_MIN : Z := -2147483648.

Definition int_wrap (z : Z) : Z := (z + 2147483648) `mod` 4294967296 - 2147483648.

Definition int_succ (z : Z) : Z := int_wrap (z + 1).
Definition int_pred (z : Z) : Z := int_wrap (z - 1).

Definition in_int (z : Z) : Prop := INT_MIN ≤ z ≤ INT_MAX.

(** ** types.h *)

Inductive VehicleType := REGULAR | FIRE_TRUCK | AMBULANCE.

Inductive NodeType := WAIT_NODE | TRAFFIC_CONTROLLER.

Inductive InputValidationResult :=
  | INPUT_VALID
  | INVALID_ADJACENCY_MATRIX
  | UNREACHABLE_DESTINATION
  | INVALID_CAPACITY
  | INVALID_TRAFFIC_CONTROLLER
  | DISCONNECTED_GRAPH.

#[global] Instance VehicleType_eq_dec : EqDecision VehicleType.
Proof. solve_decision. Defined.

#[global] Instance InputValidationResult_eq_dec : EqDecision InputValidationResult.
Proof. solve_decision. Defined.

(** [static_cast<int>(type)] *)
Definition type_to_int (t : VehicleType) : Z :=
  match t with REGULAR => 0 | FIRE_TRUCK => 1 | AMBULANCE => 2 end.

(** ** data_structures.h *)

(** [struct Vehicle].  [start_time] and [path] are never read by the engine
    and are left out; [arrival_time] is the tick of the steady clock at
    construction. *)
Record Vehicle := mkVehicle {
  vehicle_id : Z;
  type : VehicleType;
  source_node : Z;
  destination_node : Z;
  current_node : Z;
  arrival_time : Z;
  blocked_attempts : Z
}.

(** [struct NodeData].  [node_char] and [last_token_time] are display data
    and are left out; the field [type] of the source is [node_type] here. *)
Record NodeData := mkNodeData {
  node_id : Z;
  node_type : NodeType;
  capacity : Z;
  current_vehicles : Z;
  waiting_queue : list Vehicle;
  emergency_queue : list Vehicle;
  adjacent_nodes : list nat
}.

(** [struct SystemStats], the integer counters. *)
Record SystemStats := mkSystemStats {
  total_vehicles_processed : Z;
  emergency_vehicles_processed : Z;
  successful_routes : Z;
  rerouting_attempts : Z;
  total_moves : Z;
  step_count : Z
}.

(** The lines the step-by-step engine writes to the console. *)
Inductive Event :=
  | EvProcessing (v : Vehicle) (node : nat)
  | EvNoPath
  | EvBlocked (next : Z)
  | EvMove (v : Vehicle) (from_node : nat) (to_node : Z)
  | EvReached
  | EvQueued (v : Vehicle) (to_node : Z).

(** The part of [class TrafficNetwork] the engine works on;
    [next_vehicle_id] starts at 1 and is incremented for every vehicle the
    loader creates. *)
Record TrafficNetwork := mkNet {
  nodes : list NodeData;
  stats : SystemStats;
  next_vehicle_id : Z;
  console : list Event
}.

(** *** Field updates *)

Definition set_current_node (n : Z) (v : Vehicle) : Vehicle :=
  mkVehicle (vehicle_id v) (type v) (source_node v) (destination_node v) n
            (arrival_time v) (blocked_attempts v).

Definition set_blocked_attempts (b : Z) (v : Vehicle) : Vehicle :=
  mkVehicle (vehicle_id v) (type v) (source_node v) (destination_node v)
            (current_node v) (arrival_time v) b.

Definition set_current_vehicles (c : Z) (nd : NodeData) : NodeData :=
  mkNodeData (node_id nd) (node_type nd) (capacity nd) c (waiting_queue nd)
             (emergency_queue nd) (adjacent_nodes nd).

Definition set_waiting_queue (q : list Vehicle) (nd : NodeData) : NodeData :=
  mkNodeData (node_id nd) (node_type nd) (capacity nd) (current_vehicles nd) q
             (emergency_queue nd) (adjacent_nodes nd).

Definition set_emergency_queue (q : list Vehicle) (nd : NodeData) : NodeData :=
  mkNodeData (node_id nd) (node_type nd) (capacity nd) (current_vehicles nd)
             (waiting_queue nd) q (adjacent_nodes nd).

Definition set_nodes (ns : list NodeData) (net : TrafficNetwork) : TrafficNetwork :=
  mkNet ns (stats net) (next_vehicle_id net) (console net).

Definition set_stats (s : SystemStats) (net : TrafficNetwork) : TrafficNetwork :=
  mkNet (nodes net) s (next_vehicle_id net) (console net).

(** [cout << ...] *)
Definition emit (e : Event) (net : TrafficNetwork) : TrafficNetwork :=
  mkNet (nodes net) (stats net) (next_vehicle_id net) (console net ++ [e]).

(** [nodes[i].f(...)] for an in-place change of node [i]. *)
Definition update_node (i : nat) (f : NodeData → NodeData) (net : TrafficNetwork)
  : TrafficNetwork :=
  set_nodes (alter f i (nodes net)) net.

(** ** data_structures.cpp *)

(** [Vehicle::operator<] *)
Definition vehicle_lt (a other : Vehicle) : bool :=
  if negb (bool_decide (type a = type other))
  then type_to_int (type a) <? type_to_int (type other)
  else arrival_time a >? arrival_time other.

(** [NodeData::has_emergency_vehicles] *)
Definition has_emergency_vehicles (nd : NodeData) : bool :=
  negb (bool_decide (emergency_queue nd = [])).

(** [NodeData::get_queue_size] *)
Definition get_queue_size (nd : NodeData) : nat :=
  (length (waiting_queue nd) + length (emergency_queue nd))%nat.

(** [NodeData::is_at_capacity] *)
Definition is_at_capacity (nd : NodeData) : bool :=
  current_vehicles nd >=? capacity nd.

#[global] Instance Vehicle_eq_dec : EqDecision Vehicle.
Proof. solve_decision. Defined.

#[global] Instance Vehicle_inhabited : Inhabited Vehicle :=
  populate (mkVehicle 0 REGULAR 0 0 0 0 0).

#[global] Instance NodeData_inhabited : Inhabited NodeData :=
  populate (mkNodeData 0 WAIT_NODE 0 0 [] [] []).

(** ** The two queues of a node *)

(** [std::queue<Vehicle>]: [push] appends, [front]/[pop] take the head. *)
Definition queue_push (v : Vehicle) (q : list Vehicle) : list Vehicle := q ++ [v].

(** [std::priority_queue<Vehicle>] holds its elements in a list; [top] is a
    greatest element for [operator<] and [pop] removes it.  Between elements
    that [operator<] does not order, the standard leaves the choice open, and
    a heap need not serve them in the order of their insertion; the model
    takes the one that was inserted first.  No theorem below depends on that
    choice: a theorem that names the vehicle taken from the queue says that
    it is a greatest element ([extracted]), and the queue that is left is
    described by the vehicles it holds. *)
Definition pq_push (v : Vehicle) (q : list Vehicle) : list Vehicle := q ++ [v].

Fixpoint pq_extract (q : list Vehicle) : option (Vehicle * list Vehicle) :=
  match q with
  | [] => None
  | x :: r =>
      match pq_extract r with
      | None => Some (x, [])
      | Some (m, r') => if vehicle_lt x m then Some (m, x :: r') else Some (x, r)
      end
  end.

Definition pq_top (q : list Vehicle) : option Vehicle := fst <$> pq_extract q.
Definition pq_pop (q : list Vehicle) : list Vehicle :=
  match pq_extract q with Some (_, r) => r | None => [] end.

(** ** traffic_network.cpp: router *)

Inductive loop_exit (A : Type) :=
  | Return (a : A)      (* a [return] inside the loop *)
  | Fallthrough         (* the loop condition became false *)
  | OutOfFuel.
Arguments Return {A} a.
Arguments Fallthrough {A}.
Arguments OutOfFuel {A}.

(** [nodes[i].adjacent_nodes] *)
Definition adjacent_of (ns : list NodeData) (i : nat) : list nat :=
  adjacent_nodes (ns !!! i).

Record BfsState := mkBfs {
  bfs_parent : list Z;
  bfs_visited : list bool;
  bfs_queue : list nat
}.

(** Body of [for (int neighbor : nodes[curr].adjacent_nodes)]. *)
Definition bfs_visit (curr : nat) (st : BfsState) (neighbor : nat) : BfsState :=
  if negb (bfs_visited st !!! neighbor)
  then mkBfs (<[neighbor := Z.of_nat curr]> (bfs_parent st))
             (<[neighbor := true]> (bfs_visited st))
             (bfs_queue st ++ [neighbor])
  else st.

(** [while (parent[next] != from_node && parent[next] != -1) next = parent[next];] *)
Fixpoint walk_back (fuel : nat) (parent : list Z) (from_node : nat) (next : nat)
  : option nat :=
  match fuel with
  | O => None
  | S fuel' =>
      let p := parent !!! next in
      if negb (p =? Z.of_nat from_node) && negb (p =? -1)
      then walk_back fuel' parent from_node (Z.to_nat p)
      else Some next
  end.

(** [while (!q.empty())] of [find_best_next_hop]. *)
Fixpoint bfs_loop (fuel : nat) (ns : list NodeData) (from_node : nat)
    (destination : Z) (st : BfsState) : loop_exit Z :=
  match fuel with
  | O => OutOfFuel
  | S fuel' =>
      match bfs_queue st with
      | [] => Fallthrough
      | curr :: q =>
          if Z.of_nat curr =? destination then
            match walk_back (length ns) (bfs_parent st) from_node curr with
            | Some next => Return (Z.of_nat next)
            | None => OutOfFuel
            end
          else
            bfs_loop fuel' ns from_node destination
              (foldl (bfs_visit curr)
                     (mkBfs (bfs_parent st) (bfs_visited st) q)
                     (adjacent_of ns curr))
      end
  end.

(** [TrafficNetwork::find_best_next_hop] *)
Definition find_best_next_hop (ns : list NodeData) (from_node : nat)
    (destination : Z) : option Z :=
  if decide (length ns ≤ from_node)%nat then Some (-1) else
  let adjacent := adjacent_of ns from_node in
  match adjacent with
  | [] => Some (-1)
  | first :: _ =>
      if existsb (λ adj, Z.of_nat adj =? destination) adjacent
      then Some destination
      else
        let n := length ns in
        match bfs_loop (S n) ns from_node destination
                (mkBfs (replicate n (-1))
                       (<[from_node := true]> (replicate n false))
                       [from_node]) with
        | Return next => Some next
        | Fallthrough => Some (Z.of_nat first)
        | OutOfFuel => None
        end
  end.

(** ** traffic_network.cpp: admission control *)

(** [TrafficNetwork::can_move_to_node_safe] *)
Definition can_move_to_node_safe (net : TrafficNetwork) (node_idx : Z)
    (vehicle_type : VehicleType) : bool :=
  if (node_idx <? 0) || (node_idx >=? Z.of_nat (length (nodes net))) then false
  else
    let nd := nodes net !!! Z.to_nat node_idx in
    let max_allowed := capacity nd in
    let max_allowed :=
      if negb (bool_decide (vehicle_type = REGULAR))
      then int_succ max_allowed   (* Emergency vehicles get +1 capacity *)
      else max_allowed in
    current_vehicles nd <? max_allowed.

(** ** traffic_network.cpp: vehicle movement *)

Definition with_stats (f : SystemStats → SystemStats) (net : TrafficNetwork)
  : TrafficNetwork :=
  set_stats (f (stats net)) net.

(** [stats.total_moves++] *)
Definition incr_total_moves (s : SystemStats) : SystemStats :=
  mkSystemStats (total_vehicles_processed s) (emergency_vehicles_processed s)
    (successful_routes s) (rerouting_attempts s) (int_succ (total_moves s))
    (step_count s).

(** [stats.total_vehicles_processed++] *)
Definition incr_total_vehicles_processed (s : SystemStats) : SystemStats :=
  mkSystemStats (int_succ (total_vehicles_processed s))
    (emergency_vehicles_processed s) (successful_routes s)
    (rerouting_attempts s) (total_moves s) (step_count s).

(** [stats.emergency_vehicles_processed++] *)
Definition incr_emergency_vehicles_processed (s : SystemStats) : SystemStats :=
  mkSystemStats (total_vehicles_processed s)
    (int_succ (emergency_vehicles_processed s)) (successful_routes s)
    (rerouting_attempts s) (total_moves s) (step_count s).

(** [stats.successful_routes++] *)
Definition incr_successful_routes (s : SystemStats) : SystemStats :=
  mkSystemStats (total_vehicles_processed s) (emergency_vehicles_processed s)
    (int_succ (successful_routes s)) (rerouting_attempts s) (total_moves s)
    (step_count s).

(** [stats.rerouting_attempts++] *)
Definition incr_rerouting_attempts (s : SystemStats) : SystemStats :=
  mkSystemStats (total_vehicles_processed s) (emergency_vehicles_processed s)
    (successful_routes s) (int_succ (rerouting_attempts s)) (total_moves s)
    (step_count s).

(** The block "Vehicle reached destination" shared by both move functions. *)
Definition record_arrival (vehicle : Vehicle) (s : SystemStats) : SystemStats :=
  incr_successful_routes
    (if bool_decide (type vehicle = REGULAR)
     then incr_total_vehicles_processed s
     else incr_emergency_vehicles_processed s).

(** [nodes[i].current_vehicles--] and [++] *)
Definition leave_node (nd : NodeData) : NodeData :=
  set_current_vehicles (int_pred (current_vehicles nd)) nd.
Definition enter_node (nd : NodeData) : NodeData :=
  set_current_vehicles (int_succ (current_vehicles nd)) nd.

(** [nodes[i].waiting_queue.push(v)] and [nodes[i].emergency_queue.push(v)] *)
Definition push_waiting (v : Vehicle) (nd : NodeData) : NodeData :=
  set_waiting_queue (queue_push v (waiting_queue nd)) nd.
Definition push_emergency (v : Vehicle) (nd : NodeData) : NodeData :=
  set_emergency_queue (pq_push v (emergency_queue nd)) nd.

(** [TrafficNetwork::return_vehicle_to_queue] *)
Definition return_vehicle_to_queue (vehicle : Vehicle) (node_idx : nat)
    (is_emergency : bool) (net : TrafficNetwork) : TrafficNetwork :=
  if is_emergency
  then update_node node_idx (push_emergency vehicle) net
  else update_node node_idx (push_waiting vehicle) net.

(** [TrafficNetwork::attempt_rerouting] *)
Definition attempt_rerouting (vehicle : Vehicle) (current : nat)
    (net : TrafficNetwork) : Vehicle * TrafficNetwork :=
  let net := with_stats incr_rerouting_attempts net in
  let vehicle := set_blocked_attempts 0 vehicle in
  (vehicle, net).

(** "Remove from source", the first statement of both move functions. *)
Definition remove_from_source (from_node : nat) (net : TrafficNetwork)
  : TrafficNetwork :=
  if current_vehicles (nodes net !!! from_node) >? 0
  then update_node from_node leave_node net
  else net.

(** [TrafficNetwork::perform_vehicle_move]; a function that takes
    [Vehicle&] returns the vehicle as the caller sees it afterwards. *)
Definition perform_vehicle_move (vehicle : Vehicle) (from_node : nat)
    (to_node : Z) (net : TrafficNetwork) : Vehicle * TrafficNetwork :=
  let net := remove_from_source from_node net in
  let vehicle := set_current_node to_node vehicle in
  let net := with_stats incr_total_moves net in
  if to_node =? destination_node vehicle then
    let net := with_stats (record_arrival vehicle) net in
    (vehicle, net)
  else
    let to := Z.to_nat to_node in
    let max_capacity := capacity (nodes net !!! to) in
    let max_capacity :=
      if negb (bool_decide (type vehicle = REGULAR))
      then int_succ max_capacity else max_capacity in
    if current_vehicles (nodes net !!! to) <? max_capacity then
      let net := update_node to enter_node net in
      let net :=
        if bool_decide (type vehicle = REGULAR)
        then update_node to (push_waiting vehicle) net
        else update_node to (push_emergency vehicle) net in
      (vehicle, net)
    else
      (* Return to source *)
      let net := update_node from_node enter_node net in
      let net := return_vehicle_to_queue vehicle from_node
                   (negb (bool_decide (type vehicle = REGULAR))) net in
      let vehicle := set_blocked_attempts (int_succ (blocked_attempts vehicle)) vehicle in
      (vehicle, net).

(** [TrafficNetwork::perform_vehicle_move_with_display] *)
Definition perform_vehicle_move_with_display (vehicle : Vehicle) (from_node : nat)
    (to_node : Z) (net : TrafficNetwork) : Vehicle * TrafficNetwork :=
  let net := remove_from_source from_node net in
  let vehicle := set_current_node to_node vehicle in
  let net := emit (EvMove vehicle from_node to_node) net in
  let net := with_stats incr_total_moves net in
  if to_node =? destination_node vehicle then
    let net := emit EvReached net in
    let net := with_stats (record_arrival vehicle) net in
    (vehicle, net)
  else
    let to := Z.to_nat to_node in
    let net := update_node to enter_node net in
    let net :=
      if bool_decide (type vehicle = REGULAR)
      then update_node to (push_waiting vehicle) net
      else update_node to (push_emergency vehicle) net in
    let net := emit (EvQueued vehicle to_node) net in
    (vehicle, net).

(** ** traffic_network.cpp: the engines *)

(** The selection both engines make at a node
    ([process_single_vehicle_movement], [process_node_vehicles]):
    [emergency_queue.top()] and [pop()] when the node has emergency vehicles,
    else [waiting_queue.front()] and [pop()].  The result is the vehicle, the
    flag [is_emergency] and the node without the vehicle. *)
Definition select_vehicle (node : NodeData)
  : option (Vehicle * bool * NodeData) :=
  match pq_extract (emergency_queue node) with
  | Some (vehicle, rest) => Some (vehicle, true, set_emergency_queue rest node)
  | None =>
      match waiting_queue node with
      | vehicle :: rest => Some (vehicle, false, set_waiting_queue rest node)
      | [] => None
      end
  end.

(** [TrafficNetwork::process_vehicle_step_by_step] *)
Definition process_vehicle_step_by_step (vehicle : Vehicle) (from_node : nat)
    (is_emergency : bool) (net : TrafficNetwork)
  : option (bool * Vehicle * TrafficNetwork) :=
  let net := emit (EvProcessing vehicle from_node) net in
  next_node ← find_best_next_hop (nodes net) from_node (destination_node vehicle);
  if next_node =? -1 then
    let net := emit EvNoPath net in
    let net := return_vehicle_to_queue vehicle from_node is_emergency net in
    Some (false, vehicle, net)
  else if can_move_to_node_safe net next_node (type vehicle) then
    let '(vehicle, net) :=
      perform_vehicle_move_with_display vehicle from_node next_node net in
    Some (true, vehicle, net)
  else
    let net := emit (EvBlocked next_node) net in
    let net := return_vehicle_to_queue vehicle from_node is_emergency net in
    let vehicle := set_blocked_attempts (int_succ (blocked_attempts vehicle)) vehicle in
    Some (false, vehicle, net).

(** [TrafficNetwork::process_single_vehicle_movement] *)
Definition process_single_vehicle_movement (node_idx : nat) (net : TrafficNetwork)
  : option (bool * TrafficNetwork) :=
  if decide (length (nodes net) ≤ node_idx)%nat then Some (false, net) else
  match select_vehicle (nodes net !!! node_idx) with
  | Some (vehicle, is_emergency, node) =>
      let net := set_nodes (<[node_idx := node]> (nodes net)) net in
      '(moved, _, net) ← process_vehicle_step_by_step vehicle node_idx is_emergency net;
      Some (moved, net)
  | None => Some (false, net)
  end.

(** The [for] loop of [execute_single_step] over the indices still to visit;
    it is left as soon as [movement_occurred] is set. *)
Fixpoint step_scan (idxs : list nat) (net : TrafficNetwork)
  : option (bool * TrafficNetwork) :=
  match idxs with
  | [] => Some (false, net)
  | i :: rest =>
      if bool_decide (0 < get_queue_size (nodes net !!! i))%nat then
        '(movement_occurred, net) ← process_single_vehicle_movement i net;
        if movement_occurred : bool then Some (true, net) else step_scan rest net
      else step_scan rest net
  end.

(** [TrafficNetwork::execute_single_step] *)
Definition execute_single_step (net : TrafficNetwork)
  : option (bool * TrafficNetwork) :=
  step_scan (seq 0 (length (nodes net))) net.

(** [TrafficNetwork::process_vehicle] *)
Definition process_vehicle (vehicle : Vehicle) (from_node : nat)
    (is_emergency : bool) (net : TrafficNetwork)
  : option (Vehicle * TrafficNetwork) :=
  next_node ← find_best_next_hop (nodes net) from_node (destination_node vehicle);
  if next_node =? -1 then
    Some (vehicle, return_vehicle_to_queue vehicle from_node is_emergency net)
  else if can_move_to_node_safe net next_node (type vehicle) then
    Some (perform_vehicle_move vehicle from_node next_node net)
  else
    let net := return_vehicle_to_queue vehicle from_node is_emergency net in
    let vehicle := set_blocked_attempts (int_succ (blocked_attempts vehicle)) vehicle in
    if blocked_attempts vehicle >? 5
    then Some (attempt_rerouting vehicle from_node net)
    else Some (vehicle, net).

(** [TrafficNetwork::process_node_vehicles] *)
Definition process_node_vehicles (node_idx : nat) (net : TrafficNetwork)
  : option TrafficNetwork :=
  if decide (length (nodes net) ≤ node_idx)%nat then Some net else
  match select_vehicle (nodes net !!! node_idx) with
  | Some (vehicle, is_emergency, node) =>
      let net := set_nodes (<[node_idx := node]> (nodes net)) net in
      '(_, net) ← process_vehicle vehicle node_idx is_emergency net;
      Some net
  | None => Some net
  end.

(** One sweep of [token_allocation_loop], made under the coordinator lock. *)
Fixpoint sweep_nodes (idxs : list nat) (net : TrafficNetwork)
  : option TrafficNetwork :=
  match idxs with
  | [] => Some net
  | i :: rest =>
      if bool_decide (0 < get_queue_size (nodes net !!! i))%nat then
        net ← process_node_vehicles i net;
        sweep_nodes rest net
      else sweep_nodes rest net
  end.

Definition token_allocation_sweep (net : TrafficNetwork) : option TrafficNetwork :=
  sweep_nodes (seq 0 (length (nodes net))) net.

(** ** traffic_validator.cpp *)

(** [adj_matrix[i][j]] *)
Definition adj_entry (adj_matrix : list (list Z)) (i j : nat) : Z :=
  (adj_matrix !!! i) !!! j.

Record DfsState := mkDfs {
  dfs_visited : list bool;
  dfs_stack : list nat;     (* top of the stack first *)
  dfs_count : nat
}.

(** Body of the [for] loop of [is_graph_connected]. *)
Definition dfs_visit (adj_matrix : list (list Z)) (curr : nat) (st : DfsState)
    (i : nat) : DfsState :=
  if (adj_entry adj_matrix curr i >? 0) && negb (dfs_visited st !!! i)
  then mkDfs (<[i := true]> (dfs_visited st)) (i :: dfs_stack st) (S (dfs_count st))
  else st.

(** [while (!st.empty())] of [is_graph_connected]; the result is [count]. *)
Fixpoint dfs_loop (fuel : nat) (adj_matrix : list (list Z)) (n : nat)
    (st : DfsState) : option nat :=
  match fuel with
  | O => None
  | S fuel' =>
      match dfs_stack st with
      | [] => Some (dfs_count st)
      | curr :: rest =>
          dfs_loop fuel' adj_matrix n
            (foldl (dfs_visit adj_matrix curr)
                   (mkDfs (dfs_visited st) rest (dfs_count st))
                   (seq 0 n))
      end
  end.

(** [TrafficValidator::is_graph_connected] *)
Definition is_graph_connected (adj_matrix : list (list Z)) : option bool :=
  let n := length adj_matrix in
  if bool_decide (n = 0%nat) then Some false else
  count ← dfs_loop (S n) adj_matrix n
             (mkDfs (<[0%nat := true]> (replicate n false)) [0%nat] 1);
  Some (bool_decide (count = n)).

Record PathState := mkPath {
  path_visited : list bool;
  path_queue : list nat
}.

Inductive scan_result :=
  | Found                       (* [return true] inside the [for] loop *)
  | Scanned (st : PathState).

(** The [for] loop of [is_path_exists] over the columns still to visit. *)
Fixpoint path_scan (adj_matrix : list (list Z)) (curr dest : nat)
    (cols : list nat) (st : PathState) : scan_result :=
  match cols with
  | [] => Scanned st
  | i :: rest =>
      if (adj_entry adj_matrix curr i >? 0) && negb (path_visited st !!! i) then
        if bool_decide (i = dest) then Found
        else path_scan adj_matrix curr dest rest
               (mkPath (<[i := true]> (path_visited st)) (path_queue st ++ [i]))
      else path_scan adj_matrix curr dest rest st
  end.

(** [while (!q.empty())] of [is_path_exists]. *)
Fixpoint path_loop (fuel : nat) (adj_matrix : list (list Z)) (n dest : nat)
    (st : PathState) : option bool :=
  match fuel with
  | O => None
  | S fuel' =>
      match path_queue st with
      | [] => Some false
      | curr :: q =>
          match path_scan adj_matrix curr dest (seq 0 n)
                  (mkPath (path_visited st) q) with
          | Found => Some true
          | Scanned st' => path_loop fuel' adj_matrix n dest st'
          end
      end
  end.

(** [TrafficValidator::is_path_exists] *)
Definition is_path_exists (adj_matrix : list (list Z)) (src dest : Z)
  : option bool :=
  let n := length adj_matrix in
  if (src <? 0) || (src >=? Z.of_nat n) || (dest <? 0) || (dest >=? Z.of_nat n)
  then Some false
  else if src =? dest then Some true
  else
    path_loop (S n) adj_matrix n (Z.to_nat dest)
      (mkPath (<[Z.to_nat src := true]> (replicate n false)) [Z.to_nat src]).

(** The loop of [are_destinations_reachable] over the pairs of the map, in
    the order the iteration yields them. *)
Fixpoint all_paths_exist (adj_matrix : list (list Z)) (pairs : list (Z * Z))
  : option bool :=
  match pairs with
  | [] => Some true
  | (src, dest) :: rest =>
      found ← is_path_exists adj_matrix src dest;
      if found : bool then all_paths_exist adj_matrix rest else Some false
  end.

(** [TrafficValidator::are_destinations_reachable]; the
    [unordered_map<int,int>] is a [gmap Z Z]. *)
Definition are_destinations_reachable (adj_matrix : list (list Z))
    (destinations : gmap Z Z) : option bool :=
  all_paths_exist adj_matrix (map_to_list destinations).

(** [TrafficValidator::validate_input] *)
Definition validate_input (adj_matrix : list (list Z)) (nodes : list NodeData)
    (destinations : gmap Z Z) : option InputValidationResult :=
  connected ← is_graph_connected adj_matrix;
  if negb connected then Some DISCONNECTED_GRAPH else
  reachable ← are_destinations_reachable adj_matrix destinations;
  if negb reachable then Some UNREACHABLE_DESTINATION else
  if existsb (λ node, capacity node <=? 0) nodes then Some INVALID_CAPACITY
  else Some INPUT_VALID.

(** ** traffic_network.cpp: the loader *)

Definition set_capacity (c : Z) (nd : NodeData) : NodeData :=
  mkNodeData (node_id nd) (node_type nd) c (current_vehicles nd) (waiting_queue nd)
             (emergency_queue nd) (adjacent_nodes nd).

Definition set_node_type (t : NodeType) (nd : NodeData) : NodeData :=
  mkNodeData (node_id nd) t (capacity nd) (current_vehicles nd) (waiting_queue nd)
             (emergency_queue nd) (adjacent_nodes nd).

(** [nodes[i].adjacent_nodes.push_back(j)] *)
Definition push_adjacent (j : nat) (nd : NodeData) : NodeData :=
  mkNodeData (node_id nd) (node_type nd) (capacity nd) (current_vehicles nd)
             (waiting_queue nd) (emergency_queue nd) (adjacent_nodes nd ++ [j]).

(** [NodeData::NodeData(id, c, t, cap)] *)
Definition new_node (id : Z) (t : NodeType) (cap : Z) : NodeData :=
  mkNodeData id t cap 0 [] [] [].

(** [char node_char = 'A' + i]: the sum is reduced to a byte.  Both places
    that construct a node ([load_input] and [create_sample_input]) give it
    the character ['A' + node_id], so the field [node_char], which
    [NodeData] above leaves out, is read off [node_id]. *)
Definition node_char_of (i : Z) : ascii :=
  ascii_of_N (Z.to_N ((65 + i) `mod` 256)).
Definition node_char (nd : NodeData) : ascii := node_char_of (node_id nd).

(** [Vehicle::Vehicle(id, t, src, dest)]; [now] is the reading of the
    steady clock. *)
Definition new_vehicle (now : Z) (id : Z) (t : VehicleType) (src dest : Z) : Vehicle :=
  mkVehicle id t src dest src now 0.

(** The nodes [load_input] creates for a matrix of [n] rows. *)
Definition initial_nodes (n : nat) : list NodeData :=
  (λ i : nat, new_node (Z.of_nat i) WAIT_NODE 5) <$> seq 0 n.

(** "Apply capacities" and "Set node types" of [apply_configuration]. *)
Definition apply_capacity (capacities : gmap ascii Z) (node : NodeData) : NodeData :=
  match capacities !! node_char node with
  | Some c => set_capacity c node
  | None => node
  end.

Definition apply_controller (controllers : gset ascii) (node : NodeData) : NodeData :=
  if decide (node_char node ∈ controllers)
  then set_node_type TRAFFIC_CONTROLLER node else node.

(** "Set up adjacency lists": the two nested loops over [i] and [j]. *)
Definition link (adjacency_matrix : list (list Z)) (i : nat) (ns : list NodeData)
    (j : nat) : list NodeData :=
  if adj_entry adjacency_matrix i j >? 0 then alter (push_adjacent j) i ns else ns.

Definition set_up_adjacency (adjacency_matrix : list (list Z)) (n : nat)
    (ns : list NodeData) : list NodeData :=
  foldl (λ ns i, foldl (link adjacency_matrix i) ns (seq 0 n)) ns (seq 0 n).

(** [destinations.count(node_idx) ? destinations[node_idx] : (node_idx + 1) % n] *)
Definition destination_of (destinations : gmap Z Z) (node_idx : Z) (n : Z) : Z :=
  match destinations !! node_idx with
  | Some dest => dest
  | None => Z.rem (int_succ node_idx) n
  end.

(** The state of the loops that create vehicles at a node: the node, the
    counter [next_vehicle_id], and the number of vehicles constructed so far,
    which selects the reading of the clock. *)
Definition LoadState : Type := NodeData * Z * nat.

(** One iteration of a loop of [add_vehicles_to_nodes]: construct the
    vehicle with [next_vehicle_id++], push it, count it. *)
Definition add_vehicle (clock : nat → Z) (t : VehicleType)
    (push : Vehicle → NodeData → NodeData) (dest : Z) (st : LoadState) : LoadState :=
  let '(node, next_id, created) := st in
  let vehicle := new_vehicle (clock created) next_id t (node_id node) dest in
  (enter_node (push vehicle node), int_succ next_id, S created).

(** [for (int i = 0; i < count; ++i)] *)
Definition add_vehicles (clock : nat → Z) (t : VehicleType)
    (push : Vehicle → NodeData → NodeData) (dest : Z) (count : Z) (st : LoadState)
  : LoadState :=
  Nat.iter (Z.to_nat count) (add_vehicle clock t push dest) st.

(** The body of the loop of [add_vehicles_to_nodes] over the nodes. *)
Definition add_vehicles_to_node (clock : nat → Z) (destinations : gmap Z Z)
    (traffic ambulances fire_trucks : gmap ascii Z) (n : Z) (st : LoadState)
  : LoadState :=
  let node_idx := node_id st.1.1 in
  let node_char := node_char st.1.1 in
  let dest := destination_of destinations node_idx n in
  let st :=
    match traffic !! node_char with
    | Some count =>
        let regular_count := Z.min count (Z.max 1 (int_pred (capacity st.1.1))) in
        add_vehicles clock REGULAR push_waiting dest regular_count st
    | None => st
    end in
  let st :=
    match ambulances !! node_char with
    | Some amb_count => add_vehicles clock AMBULANCE push_emergency dest amb_count st
    | None => st
    end in
  match fire_trucks !! node_char with
  | Some fire_count => add_vehicles clock FIRE_TRUCK push_emergency dest fire_count st
  | None => st
  end.

(** [TrafficNetwork::add_vehicles_to_nodes]: [for (auto& node : nodes)]. *)
Fixpoint add_vehicles_to_nodes (clock : nat → Z) (destinations : gmap Z Z)
    (traffic ambulances fire_trucks : gmap ascii Z) (n : Z)
    (ns : list NodeData) (next_id : Z) (created : nat) : list NodeData * Z * nat :=
  match ns with
  | [] => ([], next_id, created)
  | node :: rest =>
      let '(node, next_id, created) :=
        add_vehicles_to_node clock destinations traffic ambulances fire_trucks n
          (node, next_id, created) in
      let '(rest, next_id, created) :=
        add_vehicles_to_nodes clock destinations traffic ambulances fire_trucks n
          rest next_id created in
      (node :: rest, next_id, created)
  end.

(** [TrafficNetwork::apply_configuration]; the result carries the number of
    vehicles constructed. *)
Definition apply_configuration (clock : nat → Z) (adjacency_matrix : list (list Z))
    (destinations : gmap Z Z) (capacities : gmap ascii Z) (controllers : gset ascii)
    (traffic ambulances fire_trucks : gmap ascii Z) (n : nat)
    (net : TrafficNetwork) : TrafficNetwork * nat :=
  let ns := apply_capacity capacities <$> nodes net in
  let ns := apply_controller controllers <$> ns in
  let ns := set_up_adjacency adjacency_matrix n ns in
  let '(ns, next_id, created) :=
    add_vehicles_to_nodes clock destinations traffic ambulances fire_trucks
      (Z.of_nat n) ns (next_vehicle_id net) 0 in
  (mkNet ns (stats net) next_id (console net), created).

(** The network after the constructor of [TrafficNetwork]. *)
Definition empty_network : TrafficNetwork :=
  mkNet [] (mkSystemStats 0 0 0 0 0 0) 1 [].

(** [TrafficNetwork::load_input] from the point where the matrix has been
    read and the sections of the file have been parsed into their maps: the
    nodes are created and the configuration is applied. *)
Definition load_input (clock : nat → Z) (adjacency_matrix : list (list Z))
    (destinations : gmap Z Z) (capacities : gmap ascii Z) (controllers : gset ascii)
    (traffic ambulances fire_trucks : gmap ascii Z) : TrafficNetwork * nat :=
  let n := length adjacency_matrix in
  apply_configuration clock adjacency_matrix destinations capacities controllers
    traffic ambulances fire_trucks n (set_nodes (initial_nodes n) empty_network).

(** ** traffic_network.cpp: the step-by-step simulation *)

(** [stats.step_count = step] *)
Definition set_step_count (step : Z) (s : SystemStats) : SystemStats :=
  mkSystemStats (total_vehicles_processed s) (emergency_vehicles_processed s)
    (successful_routes s) (rerouting_attempts s) (total_moves s) step.

(** The [for] loop of [run_step_by_step_simulation] over the steps still to
    make; [break] leaves it after a step without movement.  The calls that
    only write to the terminal are left out, and so is the test of
    [shutdown_requested], which nothing sets while the loop runs. *)
Fixpoint step_loop (steps : list Z) (net : TrafficNetwork) : option TrafficNetwork :=
  match steps with
  | [] => Some net
  | step :: rest =>
      let net := with_stats (set_step_count step) net in
      '(movement_occurred, net) ← execute_single_step net;
      if movement_occurred : bool then step_loop rest net else Some net
  end.

Definition max_steps : nat := 50.

(** [TrafficNetwork::run_step_by_step_simulation] *)
Definition run_step_by_step_simulation (net : TrafficNetwork)
  : option TrafficNetwork :=
  step_loop (Z.of_nat <$> seq 1 max_steps) net.

(** ** data_structures.cpp: priority weights *)

(** [Vehicle::get_priority_weight] *)
Definition get_priority_weight (v : Vehicle) : float :=
  match type v with
  | AMBULANCE => 10
  | FIRE_TRUCK => 8
  | REGULAR => 1
  end%float.

(** ** traffic_network.cpp: the sections of the input file *)

(** [s[0]]; [operator[]] at the length of the string gives the null
    character. *)
Definition first_char (s : string) : ascii :=
  match s with
  | String c _ => c
  | EmptyString => "000"%char
  end.

(** [s.find(c)]: the position of the first [c], [None] for [npos]. *)
Fixpoint find_char (c : ascii) (s : string) : option nat :=
  match s with
  | EmptyString => None
  | String a rest => if Ascii.eqb a c then Some 0%nat else S <$> find_char c rest
  end.

(** [s.find(pattern) != string::npos] *)
Fixpoint contains (pattern s : string) : bool :=
  String.prefix pattern s ||
  match s with
  | EmptyString => false
  | String _ rest => contains pattern rest
  end.

(** [s.substr(pos)] for [pos <= s.length()], the only use here. *)
Fixpoint substr (pos : nat) (s : string) : string :=
  match pos, s with
  | O, _ => s
  | S pos, String _ rest => substr pos rest
  | S _, EmptyString => EmptyString
  end.

(** The value of a decimal digit. *)
Definition digit_value (c : ascii) : option Z :=
  let k := Z.of_N (N_of_ascii c) in
  if (48 <=? k) && (k <=? 57) then Some (k - 48) else None.

Fixpoint skip_spaces (s : string) : string :=
  match s with
  | String c rest => if Ascii.is_space c then skip_spaces rest else s
  | EmptyString => s
  end.

(** The number that the leading digits of [s] denote, after [acc]. *)
Fixpoint read_digits (s : string) (acc : Z) : Z :=
  match s with
  | String c rest =>
      match digit_value c with
      | Some d => read_digits rest (10 * acc + d)
      | None => acc
      end
  | EmptyString => acc
  end.

(** [std::stoi(str)]: white space is skipped, a sign is optional, the digits
    that follow are the number and what follows them is ignored.  [None]
    stands for the exceptions: [invalid_argument] when there is no digit,
    [out_of_range] when the number is no [int]. *)
Definition stoi (str : string) : option Z :=
  let s := skip_spaces str in
  let '(negative, s) :=
    match s with
    | String "-"%char rest => (true, rest)
    | String "+"%char rest => (false, rest)
    | _ => (false, s)
    end in
  match digit_value (first_char s) with
  | Some _ =>
      let v := read_digits s 0 in
      let v := if negative : bool then - v else v in
      if (INT_MIN <=? v) && (v <=? INT_MAX) then Some v else None
  | None => None
  end.

(** The strings that [while (getline(ss, node_str, delim))] yields for a
    stream over [s]: the fields between the delimiters; no field follows a
    delimiter that ends the string. *)
Fixpoint getline_fields (delim : ascii) (s : string) : list string :=
  match s with
  | EmptyString => []
  | String c rest =>
      if Ascii.eqb c delim then EmptyString :: getline_fields delim rest
      else match getline_fields delim rest with
           | field :: fields => String c field :: fields
           | [] => [String c EmptyString]
           end
  end.

(** [isalpha] in the "C" locale. *)
Definition isalpha (c : ascii) : bool :=
  let k := Z.of_N (N_of_ascii c) in
  (65 <=? k) && (k <=? 90) || (97 <=? k) && (k <=? 122).

(** A [char] as an [int]; whether [char] is signed is the platform's
    choice. *)
Definition char_to_int (char_is_signed : bool) (c : ascii) : Z :=
  let k := Z.of_N (N_of_ascii c) in
  if char_is_signed && (128 <=? k) then k - 256 else k.

(** The maps that [parse_config_sections] fills; its [ambulances] and
    [fire_trucks] are [initial_ambulances] and [initial_fire_trucks] here. *)
Record Sections := mkSections {
  node_capacities : gmap ascii Z;
  traffic_controllers : gset ascii;
  initial_traffic : gmap ascii Z;
  initial_ambulances : gmap ascii Z;
  initial_fire_trucks : gmap ascii Z
}.

Definition no_sections : Sections := mkSections ∅ ∅ ∅ ∅ ∅.

(** [int count = stoi(line.substr(line.find(':') + 1))] *)
Definition number_after_colon (line : string) : option Z :=
  match find_char ":" line with
  | Some colon_pos => stoi (substr (colon_pos + 1) line)
  | None => None
  end.

(** The loop of the section "controllers" over the fields of the line. *)
Definition insert_controllers (fields : list string) (controllers : gset ascii)
  : gset ascii :=
  foldl (λ controllers node_str,
           if negb (String.eqb node_str "") && isalpha (first_char node_str)
           then {[ first_char node_str ]} ∪ controllers else controllers)
        controllers fields.

(** The section "destinations" of [parse_section_line], for a line with a
    colon at [colon_pos]. *)
Definition parse_destination (char_is_signed : bool) (line : string) (colon_pos : nat)
    (n : Z) (destinations : gmap Z Z) : gmap Z Z :=
  let src := first_char line in
  match String.get (colon_pos + 1) line with
  | Some dest =>
      let src_idx := char_to_int char_is_signed src - 65 in
      let dest_idx := char_to_int char_is_signed dest - 65 in
      if (src_idx >=? 0) && (src_idx <? n) && (dest_idx >=? 0) && (dest_idx <? n)
      then <[src_idx := dest_idx]> destinations
      else destinations
  | None => destinations
  end.

(** [TrafficNetwork::parse_section_line]; the member [destinations] is
    passed along with the maps, and [None] is an exception of [stoi]. *)
Definition parse_section_line (char_is_signed : bool) (line section : string)
    (n : Z) (destinations : gmap Z Z) (s : Sections)
  : option (gmap Z Z * Sections) :=
  let has_colon := bool_decide (is_Some (find_char ":" line)) in
  let node_char := first_char line in
  if String.eqb section "capacities" && has_colon then
    capacity ← number_after_colon line;
    Some (destinations,
          mkSections (<[node_char := capacity]> (node_capacities s))
            (traffic_controllers s) (initial_traffic s) (initial_ambulances s)
            (initial_fire_trucks s))
  else if String.eqb section "controllers" then
    Some (destinations,
          mkSections (node_capacities s)
            (insert_controllers (getline_fields "," line) (traffic_controllers s))
            (initial_traffic s) (initial_ambulances s) (initial_fire_trucks s))
  else if String.eqb section "traffic" && has_colon then
    count ← number_after_colon line;
    Some (destinations,
          mkSections (node_capacities s) (traffic_controllers s)
            (<[node_char := count]> (initial_traffic s)) (initial_ambulances s)
            (initial_fire_trucks s))
  else if String.eqb section "ambulances" && has_colon then
    count ← number_after_colon line;
    Some (destinations,
          mkSections (node_capacities s) (traffic_controllers s) (initial_traffic s)
            (<[node_char := count]> (initial_ambulances s)) (initial_fire_trucks s))
  else if String.eqb section "fire_trucks" && has_colon then
    count ← number_after_colon line;
    Some (destinations,
          mkSections (node_capacities s) (traffic_controllers s) (initial_traffic s)
            (initial_ambulances s) (<[node_char := count]> (initial_fire_trucks s)))
  else if String.eqb section "destinations" && has_colon then
    match find_char ":" line with
    | Some colon_pos =>
        Some (parse_destination char_is_signed line colon_pos n destinations, s)
    | None => Some (destinations, s)
    end
  else Some (destinations, s).

(** The section that a header line opens. *)
Definition section_header (line : string) : option string :=
  if contains "# Node Capacities" line then Some "capacities"
  else if contains "# Traffic Controller Nodes" line then Some "controllers"
  else if contains "# Initial Traffic Allocation" line then Some "traffic"
  else if contains "# Ambulances" line then Some "ambulances"
  else if contains "# Fire Trucks" line then Some "fire_trucks"
  else if contains "# Destination Nodes" line then Some "destinations"
  else None.

(** The loop [while (getline(file, line))] of [parse_config_sections] over
    the lines of the file that follow the matrix.  The result is the member
    [destinations] and, unless [stoi] threw, the maps. *)
Fixpoint parse_lines (char_is_signed : bool) (n : Z) (lines : list string)
    (current_section : string) (destinations : gmap Z Z) (s : Sections)
  : gmap Z Z * option Sections :=
  match lines with
  | [] => (destinations, Some s)
  | line :: rest =>
      if String.eqb line "" then
        parse_lines char_is_signed n rest current_section destinations s
      else
        match section_header line with
        | Some section => parse_lines char_is_signed n rest section destinations s
        | None =>
            match parse_section_line char_is_signed line current_section n
                    destinations s with
            | Some (destinations, s) =>
                parse_lines char_is_signed n rest current_section destinations s
            | None => (destinations, None)
            end
        end
  end.

(** [TrafficNetwork::parse_config_sections] *)
Definition parse_config_sections (char_is_signed : bool) (clock : nat → Z)
    (adjacency_matrix : list (list Z)) (lines : list string) (n : nat)
    (destinations : gmap Z Z) (net : TrafficNetwork)
  : gmap Z Z * option (TrafficNetwork * nat) :=
  let '(destinations, parsed) :=
    parse_lines char_is_signed (Z.of_nat n) lines "" destinations no_sections in
  (destinations,
   s ← parsed;
   Some (apply_configuration clock adjacency_matrix destinations
           (node_capacities s) (traffic_controllers s) (initial_traffic s)
           (initial_ambulances s) (initial_fire_trucks s) n net)).

(** ** traffic_network.cpp: the sample network *)

(** The class of a sample vehicle: [draw k] is the [k]-th number that
    [type_dist(gen)] yields, and the second test draws again. *)
Definition sample_vehicle_type (draw : nat → Z) (drawn : nat) : VehicleType * nat :=
  if draw drawn =? 0 then (AMBULANCE, S drawn)
  else if draw (S drawn) =? 1 then (FIRE_TRUCK, S (S drawn))
  else (REGULAR, S (S drawn)).

(** The state of the loops of [add_sample_vehicles]: the nodes, the counter
    [next_vehicle_id], the number of vehicles constructed and the number of
    draws made. *)
Definition SampleState : Type := list NodeData * Z * nat * nat.

(** The body of the inner loop of [add_sample_vehicles] for the node [i]. *)
Definition add_sample_vehicle (clock : nat → Z) (draw : nat → Z)
    (destinations : gmap Z Z) (i : nat) (st : SampleState) : SampleState :=
  let '(ns, next_id, created, drawn) := st in
  let '(t, drawn) := sample_vehicle_type draw drawn in
  let dest :=
    match destinations !! Z.of_nat i with
    | Some dest => dest
    | None => Z.of_nat ((i + 1) `mod` length ns)
    end in
  let vehicle := new_vehicle (clock created) next_id t (Z.of_nat i) dest in
  let push := if bool_decide (t = REGULAR) then push_waiting else push_emergency in
  (alter (λ nd, enter_node (push vehicle nd)) i ns, int_succ next_id, S created, drawn).

(** [TrafficNetwork::add_sample_vehicles] *)
Definition add_sample_vehicles (clock : nat → Z) (draw : nat → Z)
    (destinations : gmap Z Z) (st : SampleState) : SampleState :=
  foldl (λ st i,
           let num_vehicles := (1 + i `mod` 2)%nat in
           Nat.iter num_vehicles (add_sample_vehicle clock draw destinations i) st)
        st (seq 0 (length st.1.1.1)).

(** The members that the loader sets, with the number of vehicles
    constructed. *)
Record Loaded := mkLoaded {
  loaded_net : TrafficNetwork;
  loaded_matrix : list (list Z);
  loaded_destinations : gmap Z Z;
  loaded_created : nat
}.

(** The adjacency loops of [create_sample_input], over the rows and over
    the entries of a row. *)
Definition sample_adjacency (adjacency_matrix : list (list Z)) (ns : list NodeData)
  : list NodeData :=
  foldl (λ ns i,
           foldl (link adjacency_matrix i) ns
                 (seq 0 (length (default [] (adjacency_matrix !! i)))))
        ns (seq 0 (length adjacency_matrix)).

(** ** thread_pool.cpp and the loops of the automatic simulation *)

(** The functions that [run_automatic_simulation] hands to the pool.  Each
    of them is a loop [while (!shutdown_requested)] between
    [active_threads++] and [active_threads--]; exceptions of the body are
    caught inside the loop. *)
Inductive Task :=
  | TokenAllocationLoop
  | TrafficProcessingLoop (node_idx : nat)
  | UiUpdateLoop.

(** The pool and the flags of the network that its tasks use: the queue
    [tasks], for every worker thread the task that it runs, the flag
    [shutdown_requested], and the counter [active_threads].  [to_enqueue]
    holds the calls of [enqueue] that [run_automatic_simulation] has still to
    make, and [entered] records the loops whose body was entered. *)
Record PoolState := mkPool {
  tasks : list Task;
  workers : list (option Task);
  shutdown_requested : bool;
  active_threads : Z;
  to_enqueue : list Task;
  entered : list Task
}.

(** What a thread can do next. *)
Inductive PoolAction :=
  | Enqueue
  | TakeTask (w : nat)
  | EnterBody (w : nat)
  | LeaveLoop (w : nat)
  | RequestShutdown.

(** One action:
    - [Enqueue]: the next call of [ThreadPool::enqueue] pushes its task;
    - [TakeTask w]: the waiting worker [w] finds [tasks] not empty, pops the
      front and calls it, which begins with [active_threads++];
    - [EnterBody w]: the loop of the task of worker [w] finds
      [shutdown_requested] false and enters its body;
    - [LeaveLoop w]: the loop finds [shutdown_requested] true, the task ends
      with [active_threads--] and the worker waits again;
    - [RequestShutdown]: [shutdown_requested = true]. *)
Definition pool_step (a : PoolAction) (s : PoolState) : option PoolState :=
  match a with
  | Enqueue =>
      match to_enqueue s with
      | task :: rest =>
          Some (mkPool (tasks s ++ [task]) (workers s) (shutdown_requested s)
                       (active_threads s) rest (entered s))
      | [] => None
      end
  | TakeTask w =>
      match workers s !! w, tasks s with
      | Some None, task :: rest =>
          Some (mkPool rest (<[w := Some task]> (workers s)) (shutdown_requested s)
                       (active_threads s + 1) (to_enqueue s) (entered s))
      | _, _ => None
      end
  | EnterBody w =>
      match workers s !! w with
      | Some (Some task) =>
          if shutdown_requested s then None
          else Some (mkPool (tasks s) (workers s) (shutdown_requested s)
                            (active_threads s) (to_enqueue s) (entered s ++ [task]))
      | _ => None
      end
  | LeaveLoop w =>
      match workers s !! w with
      | Some (Some task) =>
          if shutdown_requested s
          then Some (mkPool (tasks s) (<[w := None]> (workers s)) (shutdown_requested s)
                            (active_threads s - 1) (to_enqueue s) (entered s))
          else None
      | _ => None
      end
  | RequestShutdown =>
      Some (mkPool (tasks s) (workers s) true (active_threads s) (to_enqueue s)
                   (entered s))
  end.

(** The tasks of [run_automatic_simulation] for a network of [n] nodes, in
    the order of the calls of [enqueue]; [automatic] is
    [config.mode == SimulationMode::AUTOMATIC]. *)
Definition simulation_tasks (n : nat) (automatic : bool) : list Task :=
  TokenAllocationLoop :: (TrafficProcessingLoop <$> seq 0 n)
  ++ (if automatic then [UiUpdateLoop] else []).

(** [ThreadPool(threads)] when [run_automatic_simulation] begins. *)
Definition pool_start (threads : nat) (n : nat) (automatic : bool) : PoolState :=
  mkPool [] (replicate threads None) false 0 (simulation_tasks n automatic) [].

(** The pool of [TrafficNetwork::TrafficNetwork] has four threads. *)
Definition pool_threads : nat := 4.

(** ** display.cpp *)

(** The ANSI colour codes. *)
Definition ESC : ascii := "027"%char.
Definition RESET : string := String ESC "[0m".
Definition BOLD : string := String ESC "[1m".
Definition RED : string := String ESC "[31m".
Definition GREEN : string := String ESC "[32m".
Definition YELLOW : string := String ESC "[33m".
Definition CYAN : string := String ESC "[36m".

(** What [<< endl] writes. *)
Definition endl : string := String "010"%char "".

Fixpoint repeat_char (count : nat) (ch : ascii) : string :=
  match count with
  | O => ""
  | S count => String ch (repeat_char count ch)
  end.

(** [string(count, ch)] for an [int] count: a negative count becomes a
    [size_t] above [max_size()], and the constructor throws
    [length_error]. *)
Definition string_of_count (count : Z) (ch : ascii) : option string :=
  if count <? 0 then None else Some (repeat_char (Z.to_nat count) ch).

(** [Display::print_header]: what it writes to [cout], [None] when it
    throws. *)
Definition print_header (title : string) : option string :=
  let border := "+" +:+ repeat_char 78 "-" +:+ "+" in
  let total_width := 78 in
  let title_len := int_wrap (Z.of_nat (String.length title)) in
  let padding := (total_width - 2 - title_len) `quot` 2 in
  let right_padding := total_width - 2 - title_len - padding in
  left_spaces ← string_of_count padding " ";
  right_spaces ← string_of_count right_padding " ";
  let row := "|" +:+ left_spaces +:+ title +:+ right_spaces +:+ "|" in
  Some (BOLD +:+ CYAN +:+ border +:+ endl +:+ row +:+ endl
        +:+ border +:+ RESET +:+ endl).

(** [Display::get_vehicle_color] *)
Definition get_vehicle_color (type_str : string) : string :=
  if contains "AMB" type_str then RED
  else if contains "FIRE" type_str then YELLOW
  else GREEN.

(** ** data_structures.cpp: the name of a vehicle *)

(** [std::to_string] of an [int]. *)
Definition int_to_string (z : Z) : string := NilZero.string_of_int (Z.to_int z).

(** [Vehicle::to_string] *)
Definition to_string (v : Vehicle) : string :=
  let type_str :=
    match type v with
    | AMBULANCE => "AMB"
    | FIRE_TRUCK => "FIRE"
    | REGULAR => "REG"
    end in
  "[" +:+ type_str +:+ "-" +:+ int_to_string (vehicle_id v) +:+ "]".

(** * Examples: the sample network of [create_sample_input] *)

Definition sample_matrix : list (list Z) :=
  [[0; 1; 1; 0]; [0; 0; 1; 1]; [0; 0; 0; 1]; [1; 0; 0; 0]].

Definition sample_node (id : Z) (t : NodeType) (cap : Z) (adj : list nat) : NodeData :=
  mkNodeData id t cap 0 [] [] adj.

Definition sample_nodes : list NodeData :=
  [ sample_node 0 TRAFFIC_CONTROLLER 5 [1; 2]%nat;
    sample_node 1 WAIT_NODE 3 [2; 3]%nat;
    sample_node 2 TRAFFIC_CONTROLLER 4 [3]%nat;
    sample_node 3 WAIT_NODE 6 [0]%nat ].

Definition sample_destinations : gmap Z Z :=
  <[0 := 3]> (<[1 := 2]> (<[2 := 0]> (<[3 := 1]> ∅))).

(** ** traffic_network.cpp: the sample network and the loader of a file *)

(** [TrafficNetwork::create_sample_input]: the matrix and the nodes are
    replaced, four entries of [destinations] are set and the others stay. *)
Definition create_sample_input (clock : nat → Z) (draw : nat → Z)
    (destinations : gmap Z Z) (net : TrafficNetwork) : Loaded :=
  let adjacency_matrix := sample_matrix in
  let ns := [new_node 0 TRAFFIC_CONTROLLER 5; new_node 1 WAIT_NODE 3;
             new_node 2 TRAFFIC_CONTROLLER 4; new_node 3 WAIT_NODE 6] in
  let ns := sample_adjacency adjacency_matrix ns in
  let destinations := <[3 := 1]> (<[2 := 0]> (<[1 := 2]> (<[0 := 3]> destinations))) in
  let '(ns, next_id, created, _) :=
    add_sample_vehicles clock draw destinations (ns, next_vehicle_id net, 0, 0)%nat in
  mkLoaded (mkNet ns (stats net) next_id (console net)) adjacency_matrix destinations
           created.

(** [TrafficNetwork::load_input] on a new network, from the point where the
    matrix has been read: the nodes are created and the [lines] that follow
    the matrix in the file are parsed; when [stoi] throws, the handler
    creates the sample network. *)
Definition load_input_lines (char_is_signed : bool) (clock : nat → Z)
    (draw : nat → Z) (adjacency_matrix : list (list Z)) (lines : list string)
  : Loaded :=
  let n := length adjacency_matrix in
  let net := set_nodes (initial_nodes n) empty_network in
  match parse_config_sections char_is_signed clock adjacency_matrix lines n ∅ net with
  | (destinations, Some (net, created)) =>
      mkLoaded net adjacency_matrix destinations created
  | (destinations, None) => create_sample_input clock draw destinations net
  end.

(** * Specification: predicates, invariants and example networks *)

(** ** Configurations *)

(** The configuration of a node: everything but its occupancy and queues. *)
Definition node_config (nd : NodeData) : Z * NodeType * Z * list nat :=
  (node_id nd, node_type nd, capacity nd, adjacent_nodes nd).

(** ** Admission control *)

(** The capacity the admission check compares the occupancy with. *)
Definition effective_capacity (nd : NodeData) (t : VehicleType) : Z :=
  match t with REGULAR => capacity nd | _ => capacity nd + 1 end.

(** A single node of capacity 3 that holds 3 vehicles. *)
Definition boundary_net : TrafficNetwork :=
  mkNet [mkNodeData 0 WAIT_NODE 3 3 [] [] []] (mkSystemStats 0 0 0 0 0 0) 1 [].

(** ** Worklist searches *)

(** The number of nodes marked in a [vector<bool> visited]. *)
Fixpoint count_true (l : list bool) : nat :=
  match l with
  | [] => 0%nat
  | b :: r => ((if b then 1 else 0) + count_true r)%nat
  end.

(** [visited[v]] holds. *)
Definition vis (visited : list bool) (v : nat) : Prop := visited !! v = Some true.

#[global] Instance vis_dec visited v : Decision (vis visited v).
Proof. unfold vis. apply _. Defined.

(** The invariant of a search from [src] with the given worklist, in the
    graph whose edges are [edge]. *)
Record search_inv (edge : nat → nat → Prop) (src : nat) (visited : list bool)
    (work : list nat) : Prop := {
  si_src : vis visited src;
  si_sound : ∀ v, vis visited v → rtc edge src v;
  si_work : ∀ x, x ∈ work → vis visited x;
  si_closed : ∀ u w, vis visited u → u ∉ work → edge u w → vis visited w
}.

(** What one pass over the candidate successors [cols] of the current node
    does to the visited vector and to the worklist, when [E v] says that
    there is an edge from the current node to [v]. *)
Record visit_post (E : nat → Prop) (cols : list nat)
    (visited : list bool) (work : list nat)
    (visited' : list bool) (work' : list nat) : Prop := {
  vp_len : length visited' = length visited;
  vp_vis : ∀ v, vis visited' v ↔ vis visited v ∨ (v ∈ cols ∧ E v);
  vp_work : ∀ x, x ∈ work' ↔ x ∈ work ∨ (x ∈ cols ∧ E x ∧ ¬ vis visited x);
  vp_measure :
    (length work' + count_true visited = length work + count_true visited')%nat
}.

(** ** The validator *)

(** A directed edge of the adjacency matrix between two of its nodes. *)
Definition medge (adj_matrix : list (list Z)) (u w : nat) : Prop :=
  (w < length adj_matrix)%nat ∧ 0 < adj_entry adj_matrix u w.

(** Every node of the matrix can be reached from node [0] along directed
    edges (and there is a node [0]). *)
Definition all_reachable_from_0 (adj_matrix : list (list Z)) : Prop :=
  (0 < length adj_matrix)%nat ∧
  ∀ v, (v < length adj_matrix)%nat → rtc (medge adj_matrix) 0%nat v.

(** There is a directed path between two nodes of the matrix. *)
Definition directed_path (adj_matrix : list (list Z)) (src dest : Z) : Prop :=
  0 ≤ src < Z.of_nat (length adj_matrix) ∧
  0 ≤ dest < Z.of_nat (length adj_matrix) ∧
  rtc (medge adj_matrix) (Z.to_nat src) (Z.to_nat dest).

(** Every pair of the destinations map is joined by a directed path. *)
Definition destinations_reachable (adj_matrix : list (list Z))
    (destinations : gmap Z Z) : Prop :=
  ∀ src dest, destinations !! src = Some dest → directed_path adj_matrix src dest.

(** Every node has a positive capacity. *)
Definition capacities_positive (nodes : list NodeData) : Prop :=
  ∀ node, node ∈ nodes → 0 < capacity node.

(** Every node of the matrix can be reached from node [0] when the edges may
    be followed in both directions. *)
Definition all_reachable_undirected (adj_matrix : list (list Z)) : Prop :=
  ∀ v, (v < length adj_matrix)%nat → rtsc (medge adj_matrix) 0%nat v.

(** Two nodes and the single edge from node 1 to node 0. *)
Definition one_way_matrix : list (list Z) := [[0; 0]; [1; 0]].
Definition one_way_nodes : list NodeData :=
  [sample_node 0 WAIT_NODE 1 []; sample_node 1 WAIT_NODE 1 [0%nat]].

(** ** The router *)

(** A directed edge of the adjacency lists. *)
Definition aedge (ns : list NodeData) (u w : nat) : Prop := w ∈ adjacent_of ns u.

(** Every adjacency list names nodes of the network. *)
Definition wf_adjacency (ns : list NodeData) : Prop :=
  ∀ u w, w ∈ adjacent_of ns u → (w < length ns)%nat.

(** [h] is the first hop of a shortest directed path from [from] to [dest]:
    an edge leads from [from] to [h], some path of [d] edges leads from [h]
    to [dest], and no path from [from] to [dest] has fewer than [d + 1]
    edges. *)
Definition shortest_first_hop (ns : list NodeData) (from dest h : nat) : Prop :=
  aedge ns from h ∧
  ∃ d, nsteps (aedge ns) d h dest ∧
       ∀ k, nsteps (aedge ns) k from dest → (S d ≤ k)%nat.

(** The invariant of the breadth-first search: [dist v] is the number of
    edges between [from_node] and a visited node [v] along the parent
    pointers, and it is the least length of a path to [v]. *)
Record bfs_inv (ns : list NodeData) (from_node : nat) (destination : Z)
    (dist : nat → nat) (st : BfsState) : Prop := {
  bi_vlen : length (bfs_visited st) = length ns;
  bi_plen : length (bfs_parent st) = length ns;
  bi_search : search_inv (aedge ns) from_node (bfs_visited st) (bfs_queue st);
  bi_dist0 : dist from_node = 0%nat;
  bi_root : bfs_parent st !! from_node = Some (-1);
  bi_parent : ∀ v, vis (bfs_visited st) v → v ≠ from_node →
    ∃ u, bfs_parent st !! v = Some (Z.of_nat u) ∧ vis (bfs_visited st) u ∧
         aedge ns u v ∧ dist v = S (dist u);
  bi_path : ∀ v, vis (bfs_visited st) v → nsteps (aedge ns) (dist v) from_node v;
  bi_min : ∀ v k, vis (bfs_visited st) v →
    nsteps (aedge ns) k from_node v → (dist v ≤ k)%nat;
  bi_sorted : ∀ i j x y, bfs_queue st !! i = Some x → bfs_queue st !! j = Some y →
    (i ≤ j)%nat → (dist x ≤ dist y)%nat ∧ (dist y ≤ S (dist x))%nat;
  bi_front : ∀ w k, nsteps (aedge ns) k from_node w → ¬ vis (bfs_visited st) w →
    ∃ x, x ∈ bfs_queue st ∧ (dist x < k)%nat;
  bi_count : ∀ v, vis (bfs_visited st) v →
    (dist v < count_true (bfs_visited st))%nat;
  bi_dest : ∀ v, vis (bfs_visited st) v → Z.of_nat v = destination →
    v ∈ bfs_queue st
}.

(** Two nodes joined by an edge in each direction. *)
Definition two_cycle_nodes : list NodeData :=
  [sample_node 0 WAIT_NODE 2 [1%nat]; sample_node 1 WAIT_NODE 2 [0%nat]].

(** ** Engine invariants *)

(** The vehicle that an engine holds between taking it from a queue of its
    node and moving or requeueing it still counts in [current_vehicles]. *)
Definition pending_count (p : option Vehicle) : Z :=
  match p with Some _ => 1 | None => 0 end.

(** The state of a node of a network of [n] nodes while the engine holds the
    vehicle [p] of that node ([None] between two operations).  With
    [strict = true] the invariant includes the capacity bound. *)
Record node_inv (n : nat) (strict : bool) (p : option Vehicle) (nd : NodeData)
  : Prop := {
  ni_adj : Forall (λ w, (w < n)%nat) (adjacent_nodes nd);
  ni_wait : Forall (λ v, type v = REGULAR) (waiting_queue nd);
  ni_emer : Forall (λ v, type v ≠ REGULAR) (emergency_queue nd);
  ni_cap : in_int (capacity nd);
  ni_occ : current_vehicles nd = Z.of_nat (get_queue_size nd) + pending_count p;
  ni_bound : strict = true → current_vehicles nd ≤ capacity nd + 1;
  ni_int : current_vehicles nd ≤ INT_MAX;
  ni_over : strict = true → capacity nd < current_vehicles nd →
            emergency_queue nd ≠ [] ∨ ∃ v, p = Some v ∧ type v ≠ REGULAR
}.

(** The engine holds [v], taken from node [from]; the engine holds nothing. *)
Definition pending_at (from : nat) (v : Vehicle) (j : nat) : option Vehicle :=
  if decide (j = from) then Some v else None.

Definition no_pending (j : nat) : option Vehicle := None.

(** Every node of the network satisfies [node_inv] for the vehicle that the
    engine holds there. *)
Definition net_inv (n : nat) (strict : bool) (p : nat → option Vehicle)
    (net : TrafficNetwork) : Prop :=
  length (nodes net) = n ∧
  ∀ j nd, nodes net !! j = Some nd → node_inv n strict (p j) nd.

(** The flag [is_emergency] the engines pass along with a vehicle. *)
Definition emergency_flag (v : Vehicle) : bool := negb (bool_decide (type v = REGULAR)).

(** The admission bound of [can_move_to_node_safe] and [perform_vehicle_move]. *)
Definition max_allowed (nd : NodeData) (t : VehicleType) : Z :=
  if negb (bool_decide (t = REGULAR)) then int_succ (capacity nd) else capacity nd.

(** ** Conservation of vehicles *)

(** [sum(node.current_occupancy)] *)
Fixpoint total_occupancy (ns : list NodeData) : Z :=
  match ns with
  | [] => 0
  | nd :: rest => current_vehicles nd + total_occupancy rest
  end.

(** The number of vehicles that wait in the queues of the network. *)
Fixpoint total_queued (ns : list NodeData) : Z :=
  match ns with
  | [] => 0
  | nd :: rest => Z.of_nat (get_queue_size nd) + total_queued rest
  end.

(** Vehicles created by the loader, and vehicles that completed their trip. *)
Definition vehicles_created (net : TrafficNetwork) : Z := next_vehicle_id net - 1.
Definition vehicles_completed (net : TrafficNetwork) : Z :=
  total_vehicles_processed (stats net) + emergency_vehicles_processed (stats net).

(** Vehicles that exist and wait in no queue. *)
Definition vehicles_in_transit_externally (net : TrafficNetwork) : Z :=
  vehicles_created net - vehicles_completed net - total_queued (nodes net).

(** The bookkeeping behind the conservation law. *)
Record cons_inv (net : TrafficNetwork) : Prop := {
  ci_sum : total_occupancy (nodes net) + vehicles_completed net = vehicles_created net;
  ci_regular : 0 ≤ total_vehicles_processed (stats net);
  ci_emergency : 0 ≤ emergency_vehicles_processed (stats net);
  ci_created : vehicles_created net < INT_MAX
}.

(** ** Admitted moves *)

(** The occupancy of the source of a move after "remove from source": one
    less when it was positive, else as it was. *)
Definition departed_occupancy (c : Z) : Z := if c >? 0 then c - 1 else c.

(** What a move of [vehicle] from [from_node] into the admitted node
    [to_node] leaves behind, apart from the console.  The vehicle is at
    [to_node] and the move is counted.  The occupancy of the source is
    decremented when it was positive.  If [to_node] is the destination of
    the vehicle the trip is recorded, for the class of the vehicle, and
    nothing else changes: no occupancy is incremented and the vehicle joins
    no queue.  Otherwise the occupancy of [to_node] is incremented and the
    vehicle joins the queue of its class there, and no trip is recorded. *)
Definition admitted_move_post (vehicle : Vehicle) (from_node : nat) (to_node : Z)
    (net : TrafficNetwork) (res : Vehicle * TrafficNetwork) : Prop :=
  let arrives := bool_decide (to_node = destination_node vehicle) in
  let regular := bool_decide (type vehicle = REGULAR) in
  let count (b : bool) (c : Z) : Z := if b then int_succ c else c in
  res.1 = set_current_node to_node vehicle ∧
  next_vehicle_id res.2 = next_vehicle_id net ∧
  total_moves (stats res.2) = int_succ (total_moves (stats net)) ∧
  successful_routes (stats res.2) = count arrives (successful_routes (stats net)) ∧
  total_vehicles_processed (stats res.2)
    = count (arrives && regular) (total_vehicles_processed (stats net)) ∧
  emergency_vehicles_processed (stats res.2)
    = count (arrives && negb regular) (emergency_vehicles_processed (stats net)) ∧
  rerouting_attempts (stats res.2) = rerouting_attempts (stats net) ∧
  step_count (stats res.2) = step_count (stats net) ∧
  length (nodes res.2) = length (nodes net) ∧
  ∀ j nd, nodes net !! j = Some nd →
    ∃ nd', nodes res.2 !! j = Some nd' ∧
      node_config nd' = node_config nd ∧
      let enters := bool_decide (j = Z.to_nat to_node) && negb arrives in
      current_vehicles nd'
        = count enters
            (if bool_decide (j = from_node)
             then departed_occupancy (current_vehicles nd)
             else current_vehicles nd) ∧
      waiting_queue nd'
        = (if enters && regular then queue_push res.1 (waiting_queue nd)
           else waiting_queue nd) ∧
      emergency_queue nd'
        = (if enters && negb regular then pq_push res.1 (emergency_queue nd)
           else emergency_queue nd).

(** The statistics of a network that has just been loaded. *)
Definition zero_stats : SystemStats := mkSystemStats 0 0 0 0 0 0.

(** A Regular vehicle taken from node 0 whose destination, node 1, is
    adjacent and empty, and an Ambulance taken from node 0 on its way to
    node 2 through node 1. *)
Definition arriving_vehicle : Vehicle := mkVehicle 1 REGULAR 0 1 0 0 0.
Definition passing_vehicle : Vehicle := mkVehicle 1 AMBULANCE 0 2 0 0 0.
Definition arrival_net : TrafficNetwork :=
  mkNet [mkNodeData 0 WAIT_NODE 2 1 [] [] [1%nat];
         mkNodeData 1 WAIT_NODE 2 0 [] [] [0%nat]]
        zero_stats 2 [].

(** ** Runs of the engine *)

(** The operations a single thread of the engine performs on the network:
    one call of [execute_single_step], one call of
    [process_single_vehicle_movement] or of [process_node_vehicles] for a
    node, and one sweep of the coordinating loop. *)
Inductive EngineOp :=
  | OpStep
  | OpVehicle (i : nat)
  | OpNode (i : nat)
  | OpSweep.

(** The network after an operation, if the operation returns. *)
Definition run_op (op : EngineOp) (net : TrafficNetwork) : option TrafficNetwork :=
  match op with
  | OpStep => snd <$> execute_single_step net
  | OpVehicle i => snd <$> process_single_vehicle_movement i net
  | OpNode i => process_node_vehicles i net
  | OpSweep => token_allocation_sweep net
  end.

(** Some operation takes [net] to [net']; a run of the engine is a sequence
    of such steps, [rtc engine_step]. *)
Definition engine_step (net net' : TrafficNetwork) : Prop :=
  ∃ op, run_op op net = Some net'.

(** What the loader guarantees about the representation: adjacency lists
    name nodes of the network, each queue holds vehicles of its class, and
    the [int] fields hold [int] values. *)
Record wf_network (net : TrafficNetwork) : Prop := {
  wf_adj : ∀ nd, nd ∈ nodes net →
           Forall (λ w, (w < length (nodes net))%nat) (adjacent_nodes nd);
  wf_wait : ∀ nd, nd ∈ nodes net → Forall (λ v, type v = REGULAR) (waiting_queue nd);
  wf_emer : ∀ nd, nd ∈ nodes net → Forall (λ v, type v ≠ REGULAR) (emergency_queue nd);
  wf_cap : ∀ nd, nd ∈ nodes net → in_int (capacity nd);
  wf_occ : ∀ nd, nd ∈ nodes net → in_int (current_vehicles nd)
}.

(** The occupancy of every node is the number of vehicles in its queues. *)
Definition occupancy_is_queue_size (net : TrafficNetwork) : Prop :=
  ∀ nd, nd ∈ nodes net → current_vehicles nd = Z.of_nat (get_queue_size nd).

(** No node holds more vehicles than its capacity. *)
Definition within_capacity (net : TrafficNetwork) : Prop :=
  ∀ nd, nd ∈ nodes net → current_vehicles nd ≤ capacity nd.

(** No node is pushed above its capacity by the change from [net] to
    [net']: capacities stay, and an occupancy that was within the capacity
    remains within it. *)
Definition occupancy_bounded (net net' : TrafficNetwork) : Prop :=
  ∀ j nd nd', nodes net !! j = Some nd → nodes net' !! j = Some nd' →
    capacity nd' = capacity nd ∧
    current_vehicles nd' ≤ Z.max (current_vehicles nd) (capacity nd).

(** ** The step-by-step scan *)

(** The services the console reports: the vehicle and the node of every
    line "Processing vehicle ... at Node ...". *)
Definition processed (evs : list Event) : list (Vehicle * nat) :=
  omap (λ e, match e with EvProcessing v i => Some (v, i) | _ => None end) evs.

(** The number of lines "... moves from Node ... to Node ...". *)
Fixpoint count_moves (evs : list Event) : nat :=
  match evs with
  | [] => 0%nat
  | EvMove _ _ _ :: rest => S (count_moves rest)
  | _ :: rest => count_moves rest
  end.

(** Node 0 holds a Regular vehicle for the full node 1; node 1 holds a
    Regular vehicle for the empty node 2. *)
Definition scan_vehicle_a : Vehicle := mkVehicle 1 REGULAR 0 1 0 10 0.
Definition scan_vehicle_b : Vehicle := mkVehicle 2 REGULAR 1 2 1 20 0.
Definition scan_net : TrafficNetwork :=
  mkNet [mkNodeData 0 WAIT_NODE 2 1 [scan_vehicle_a] [] [1%nat];
         mkNodeData 1 WAIT_NODE 1 1 [scan_vehicle_b] [] [2%nat];
         mkNodeData 2 WAIT_NODE 2 0 [] [] [0%nat]]
        zero_stats 3 [].

(** ** Example runs *)

(** An Ambulance at node 0 on its way to node 2 through node 1, which holds
    as many vehicles as its capacity. *)
Definition overflow_net : TrafficNetwork :=
  mkNet [mkNodeData 0 WAIT_NODE 2 1 [] [mkVehicle 1 AMBULANCE 0 2 0 0 0] [1%nat];
         mkNodeData 1 WAIT_NODE 1 1 [mkVehicle 2 REGULAR 1 2 1 0 0] [] [2%nat];
         mkNodeData 2 WAIT_NODE 1 1 [mkVehicle 3 REGULAR 2 0 2 0 0] [] [0%nat]]
        zero_stats 4 [].

(** The network after node 0 has been served once. *)
Definition overflow_net_after : TrafficNetwork :=
  Eval vm_compute in default overflow_net (run_op (OpVehicle 0) overflow_net).

(** Node 0 holds a Regular vehicle whose destination, the adjacent node 1,
    is full and stays full. *)
Definition blocked_vehicle : Vehicle := mkVehicle 1 REGULAR 0 1 0 0 0.
Definition blocked_net : TrafficNetwork :=
  mkNet [mkNodeData 0 WAIT_NODE 2 1 [blocked_vehicle] [] [1%nat];
         mkNodeData 1 WAIT_NODE 1 1 [mkVehicle 2 REGULAR 1 0 1 0 0] [] []]
        zero_stats 3 [].

(** [k] sweeps of the coordinating loop. *)
Fixpoint sweeps (k : nat) (net : TrafficNetwork) : option TrafficNetwork :=
  match k with
  | O => Some net
  | S k' => net' ← token_allocation_sweep net; sweeps k' net'
  end.

(** ** Services *)

(** The queue an engine pushes a vehicle to, by the flag [is_emergency]. *)
Definition push_flag (is_emergency : bool) (v : Vehicle) : NodeData → NodeData :=
  if is_emergency then push_emergency v else push_waiting v.

(** What the service of node [i] does to the nodes and to the statistics. *)
Inductive served (i : nat) (net net' : TrafficNetwork) : Prop :=
  | served_idle :
      nodes net' = nodes net → stats net' = stats net → served i net net'
  | served_requeue nd v e nd' :
      nodes net !! i = Some nd → select_vehicle nd = Some (v, e, nd') →
      nodes net' = alter (push_flag e v) i (<[i:=nd']> (nodes net)) →
      stats net' = stats net ∨
        (5 < int_succ (blocked_attempts v) ∧
         stats net' = incr_rerouting_attempts (stats net)) →
      served i net net'
  | served_arrive nd v e nd' :
      nodes net !! i = Some nd → select_vehicle nd = Some (v, e, nd') →
      nodes net' = nodes (remove_from_source i (set_nodes (<[i:=nd']> (nodes net)) net)) →
      stats net' = record_arrival v (incr_total_moves (stats net)) →
      served i net net'
  | served_enter nd v e nd' to j :
      nodes net !! i = Some nd → select_vehicle nd = Some (v, e, nd') →
      to ≠ destination_node v →
      nodes net' =
        alter (push_flag (negb (bool_decide (type v = REGULAR))) (set_current_node to v)) j
          (alter enter_node j
             (nodes (remove_from_source i (set_nodes (<[i:=nd']> (nodes net)) net)))) →
      stats net' = incr_total_moves (stats net) →
      served i net net'.

(** Some node is served. *)
Definition service_step (net net' : TrafficNetwork) : Prop := ∃ i, served i net net'.

(** ** Queued vehicles *)

(** The vehicles that wait at a node, and in the network. *)
Definition vehicles_of (nd : NodeData) : list Vehicle :=
  waiting_queue nd ++ emergency_queue nd.
Definition queued_vehicles (net : TrafficNetwork) : list Vehicle :=
  nodes net ≫= vehicles_of.

(** A vehicle without its position: the engine changes nothing else. *)
Definition forget_position (v : Vehicle) : Vehicle := set_current_node 0 v.

(** ** One service, spelled out *)

(** Node [nd'] is node [nd] without the vehicle [v] that a service takes
    from it.  With [is_emergency] the vehicle comes from the emergency
    queue and [operator<] puts it below no vehicle of that queue: it is an
    Ambulance if the queue holds one, and no queued vehicle of its class
    arrived before it.  Which of several such vehicles is taken, and the
    order in which the queue keeps the others, is left open, as the
    standard leaves it open for [std::priority_queue].  Without
    [is_emergency] the emergency queue is empty and the vehicle is the
    front of the waiting queue. *)
Record extracted (nd : NodeData) (v : Vehicle) (is_emergency : bool)
    (nd' : NodeData) : Prop := {
  extracted_config : node_config nd' = node_config nd;
  extracted_occupancy : current_vehicles nd' = current_vehicles nd;
  extracted_emergency :
    if is_emergency
    then emergency_queue nd ≡ₚ v :: emergency_queue nd' ∧
         Forall (λ w, vehicle_lt v w = false) (emergency_queue nd)
    else emergency_queue nd = [] ∧ emergency_queue nd' = [];
  extracted_waiting :
    if is_emergency then waiting_queue nd' = waiting_queue nd
    else waiting_queue nd = v :: waiting_queue nd'
}.

(** What becomes of the attempt to move the vehicle. *)
Inductive Attempt :=
  | NoPath                (* the router knows no next hop *)
  | Blocked (next : Z)    (* the next hop admits no vehicle of the class *)
  | Moved (next : Z).     (* the vehicle moves to the next hop *)

Definition moves (a : Attempt) : bool :=
  match a with Moved _ => true | _ => false end.

(** The attempt that is due for vehicle [v] at node [i] of [net]: the
    answer of the router and of the admission check. *)
Definition attempt_due (net : TrafficNetwork) (i : nat) (v : Vehicle)
    (a : Attempt) : Prop :=
  match a with
  | NoPath => find_best_next_hop (nodes net) i (destination_node v) = Some (-1)
  | Blocked next =>
      find_best_next_hop (nodes net) i (destination_node v) = Some next ∧
      next ≠ -1 ∧ can_move_to_node_safe net next (type v) = false
  | Moved next =>
      find_best_next_hop (nodes net) i (destination_node v) = Some next ∧
      next ≠ -1 ∧ can_move_to_node_safe net next (type v) = true
  end.

(** The node a vehicle has left, and the node vehicle [v] has entered. *)
Definition left_node (nd : NodeData) : NodeData :=
  set_current_vehicles (departed_occupancy (current_vehicles nd)) nd.
Definition entered_node (v : Vehicle) (nd : NodeData) : NodeData :=
  push_flag (emergency_flag v) v (set_current_vehicles (current_vehicles nd + 1) nd).

(** The nodes after the service of node [i] that took [v] and left [nd']:
    a vehicle that does not move goes back to the queue it came from; a
    vehicle that moves leaves node [i] and, unless it has arrived, enters
    the next hop and the queue of its class there. *)
Definition nodes_after (i : nat) (v : Vehicle) (is_emergency : bool)
    (nd' : NodeData) (a : Attempt) (ns : list NodeData) : list NodeData :=
  match a with
  | NoPath | Blocked _ => <[i := push_flag is_emergency v nd']> ns
  | Moved next =>
      let ns := <[i := left_node nd']> ns in
      if bool_decide (next = destination_node v) then ns
      else alter (entered_node (set_current_node next v)) (Z.to_nat next) ns
  end.

(** The statistics after the service: a move is counted, and so is the
    trip of a vehicle that has arrived. *)
Definition stats_after (v : Vehicle) (a : Attempt) (s : SystemStats) : SystemStats :=
  match a with
  | NoPath | Blocked _ => s
  | Moved next =>
      if bool_decide (next = destination_node v)
      then record_arrival v (incr_total_moves s)
      else incr_total_moves s
  end.


(** The lines the step-by-step engine prints for the service. *)
Definition report (i : nat) (v : Vehicle) (a : Attempt) : list Event :=
  EvProcessing v i ::
  match a with
  | NoPath => [EvNoPath]
  | Blocked next => [EvBlocked next]
  | Moved next =>
      let v' := set_current_node next v in
      [EvMove v' i next;
       if bool_decide (next = destination_node v) then EvReached
       else EvQueued v' next]
  end.

(** ** The scan of a single step *)

(** What the scan did at a node it passed without moving a vehicle: the
    vehicle it took there, the queue the vehicle came from, the node
    without the vehicle, and the attempt that failed.  A node with empty
    queues has no such record. *)
Record Service := mkService {
  taken : Vehicle;
  from_emergency : bool;
  remainder : NodeData;
  attempt : Attempt
}.

(** The record [o] is the one due at node [j], which is [nd] in [net]. *)
Definition passed (net : TrafficNetwork) (j : nat) (nd : NodeData)
    (o : option Service) : Prop :=
  match o with
  | None => get_queue_size nd = 0%nat
  | Some s =>
      extracted nd (taken s) (from_emergency s) (remainder s) ∧
      attempt_due net j (taken s) (attempt s) ∧
      moves (attempt s) = false
  end.

(** The nodes after the scan passed the nodes of [log]: the vehicle taken
    at a node is back in the queue it came from. *)
Definition requeued (o : option (option Service)) (nd : NodeData) : NodeData :=
  match o with
  | Some (Some s) => push_flag (from_emergency s) (taken s) (remainder s)
  | _ => nd
  end.
Definition passed_nodes (log : list (option Service)) (ns : list NodeData)
  : list NodeData :=
  imap (λ j nd, requeued (log !! j) nd) ns.

(** The lines printed while the scan passed the nodes of [log]. *)
Definition passed_report (log : list (option Service)) : list Event :=
  concat (imap (λ j o, match o with
                       | Some s => report j (taken s) (attempt s)
                       | None => []
                       end) log).

(** ** Dispatch order *)




(** A vehicle at node 0 bound for node 1. *)
Definition example_vehicle (id : Z) (t : VehicleType) (arrival : Z) : Vehicle :=
  mkVehicle id t 0 1 0 arrival 0.

(** Two Regular vehicles, an older Ambulance and a newer FireTruck; the
    FireTruck entered the emergency queue first. *)
Definition dispatch_example_node : NodeData :=
  mkNodeData 0 WAIT_NODE 5 4
    [example_vehicle 3 REGULAR 3; example_vehicle 4 REGULAR 4]
    [example_vehicle 2 FIRE_TRUCK 2; example_vehicle 1 AMBULANCE 1]
    [1%nat].

(** The example node in a network: node 1, the destination of its four
    vehicles, is adjacent and empty. *)
Definition dispatch_example_net : TrafficNetwork :=
  mkNet [dispatch_example_node; mkNodeData 1 WAIT_NODE 5 0 [] [] [0%nat]]
        zero_stats 5 [].

(** ** The loader *)

(** The columns of row [i] of the matrix that hold a positive entry. *)
Definition row_edges (adjacency_matrix : list (list Z)) (i : nat) : list nat :=
  filter (λ j, 0 < adj_entry adjacency_matrix i j) (seq 0 (length adjacency_matrix)).

Definition extend_adjacent (l : list nat) (nd : NodeData) : NodeData :=
  mkNodeData (node_id nd) (node_type nd) (capacity nd) (current_vehicles nd)
             (waiting_queue nd) (emergency_queue nd) (adjacent_nodes nd ++ l).

(** The vehicles a loop of [add_vehicles_to_nodes] constructs: [count]
    vehicles of class [t] at node [idx], the first of them with the id [id0]
    at the clock reading number [c0]. *)
Definition made (clock : nat → Z) (t : VehicleType) (idx dest : Z) (id0 : Z)
    (c0 count : nat) : list Vehicle :=
  (λ k : nat, new_vehicle (clock (c0 + k)%nat) (id0 + Z.of_nat k) t idx dest)
    <$> seq 0 count.

(** A node with more vehicles in its queues, all counted. *)
Definition with_vehicles (ws es : list Vehicle) (nd : NodeData) : NodeData :=
  mkNodeData (node_id nd) (node_type nd) (capacity nd)
    (current_vehicles nd + Z.of_nat (length ws) + Z.of_nat (length es))
    (waiting_queue nd ++ ws) (emergency_queue nd ++ es) (adjacent_nodes nd).

(** The numbers of vehicles that [add_vehicles_to_nodes] creates at a node:
    the Regular ones are limited by the capacity, the others are not. *)
Definition regular_count (traffic : gmap ascii Z) (nd : NodeData) : nat :=
  match traffic !! node_char nd with
  | Some count => Z.to_nat (Z.min count (Z.max 1 (int_pred (capacity nd))))
  | None => 0
  end.

Definition configured_count (counts : gmap ascii Z) (nd : NodeData) : nat :=
  match counts !! node_char nd with
  | Some count => Z.to_nat count
  | None => 0
  end.

Definition loaded_count (traffic ambulances fire_trucks : gmap ascii Z)
    (nd : NodeData) : nat :=
  (regular_count traffic nd + configured_count ambulances nd
   + configured_count fire_trucks nd)%nat.

(** What the loader gives a vehicle that it creates at the node [nd]. *)
Definition fresh_at (destinations : gmap Z Z) (n : Z) (nd : NodeData) (v : Vehicle)
  : Prop :=
  source_node v = node_id nd ∧ current_node v = node_id nd ∧
  destination_node v = destination_of destinations (node_id nd) n ∧
  blocked_attempts v = 0.

(** A node as the loader leaves it. *)
Record loaded_node (destinations : gmap Z Z)
    (traffic ambulances fire_trucks : gmap ascii Z) (n : Z) (nd : NodeData) : Prop := {
  ln_occ : current_vehicles nd = Z.of_nat (get_queue_size nd);
  ln_wait : Forall (λ v, type v = REGULAR) (waiting_queue nd);
  ln_emer : Forall (λ v, type v ≠ REGULAR) (emergency_queue nd);
  ln_regular : length (waiting_queue nd) = regular_count traffic nd;
  ln_emergency :
    length (emergency_queue nd)
    = (configured_count ambulances nd + configured_count fire_trucks nd)%nat;
  ln_fresh : Forall (fresh_at destinations n nd) (vehicles_of nd)
}.

(** The id and the arrival time of the [k]-th vehicle constructed. *)
Definition stamp (clock : nat → Z) (id0 : Z) (c0 k : nat) : Z * Z :=
  (id0 + Z.of_nat k, clock (c0 + k)%nat).
Definition stamp_of (v : Vehicle) : Z * Z := (vehicle_id v, arrival_time v).

(** The number of vehicles the loader creates at the nodes [ns]. *)
Definition loaded_total (traffic ambulances fire_trucks : gmap ascii Z)
    (ns : list NodeData) : nat :=
  sum_list (loaded_count traffic ambulances fire_trucks <$> ns).

(** The nodes of [load_input] when the loops that create vehicles begin. *)
Definition configured_node (adjacency_matrix : list (list Z))
    (capacities : gmap ascii Z) (controllers : gset ascii) (i : nat) : NodeData :=
  extend_adjacent (row_edges adjacency_matrix i)
    (apply_controller controllers
       (apply_capacity capacities (new_node (Z.of_nat i) WAIT_NODE 5))).

(** ** The step-by-step simulation *)

(** The node after the vehicle that the engine selects there went back to
    the queue it was taken from. *)
Definition requeue_selected (nd : NodeData) : NodeData :=
  match select_vehicle nd with
  | Some (v, e, nd') => push_flag e v nd'
  | None => nd
  end.

(** Node 0 holds two Regular vehicles: the first is bound for the full node
    1, the second for the empty node 2. *)
Definition stalled_net : TrafficNetwork :=
  mkNet [mkNodeData 0 WAIT_NODE 3 2
           [mkVehicle 1 REGULAR 0 1 0 10 0; mkVehicle 2 REGULAR 0 2 0 20 0] []
           [1%nat; 2%nat];
         mkNodeData 1 WAIT_NODE 1 1 [mkVehicle 3 REGULAR 1 0 1 30 0] [] [];
         mkNodeData 2 WAIT_NODE 2 0 [] [] []]
        zero_stats 4 [].

(** ** The order of vehicles *)

(** Neither vehicle is below the other for [operator<]. *)
Definition unordered (a b : Vehicle) : Prop :=
  vehicle_lt a b = false ∧ vehicle_lt b a = false.

(** ** Example configurations *)

(** A configuration file for the sample matrix: node B has capacity 3, node
    A is a controller, A asks for 2 Regular vehicles and B for 9, and C holds
    an ambulance. *)
Definition example_clock (k : nat) : Z := 100 + Z.of_nat k.
Definition example_capacities : gmap ascii Z := {[ "B"%char := 3 ]}.
Definition example_controllers : gset ascii := {[ "A"%char ]}.
Definition example_traffic : gmap ascii Z := <[ "A"%char := 2 ]> {[ "B"%char := 9 ]}.
Definition example_ambulances : gmap ascii Z := {[ "C"%char := 1 ]}.

Definition example_load (ambulances : gmap ascii Z) : TrafficNetwork * nat :=
  load_input example_clock sample_matrix sample_destinations example_capacities
    example_controllers example_traffic ambulances ∅.

(** The stalled network after two steps: the first moves nothing, the
    second takes the second vehicle of node 0 to its destination. *)
Definition stalled_net_after : TrafficNetwork :=
  Eval vm_compute in
    default stalled_net
      (net ← run_op OpStep stalled_net; run_op OpStep net).

(** ** The sample network *)

(** A node after the vehicles [vs] entered it, each joining the queue of
    its class. *)
Definition place (vs : list Vehicle) (nd : NodeData) : NodeData :=
  with_vehicles (filter (λ v, type v = REGULAR) vs)
                (filter (λ v, type v ≠ REGULAR) vs) nd.

(** The classes of the next [k] sample vehicles after [drawn] draws. *)
Fixpoint sample_types (draw : nat → Z) (drawn : nat) (k : nat) : list VehicleType :=
  match k with
  | O => []
  | S k =>
      let '(t, drawn) := sample_vehicle_type draw drawn in
      t :: sample_types draw drawn k
  end.

(** The [k]-th vehicle of the sample network, of class [ts !! k], created
    at node [src] and bound for [dest]. *)
Definition sample_vehicle (clock : nat → Z) (ts : list VehicleType) (k : nat)
    (src dest : Z) : Vehicle :=
  new_vehicle (clock k) (1 + Z.of_nat k) (default REGULAR (ts !! k)) src dest.

Definition sample_fleet (clock : nat → Z) (ts : list VehicleType) : list Vehicle :=
  [sample_vehicle clock ts 0 0 3; sample_vehicle clock ts 1 1 2;
   sample_vehicle clock ts 2 1 2; sample_vehicle clock ts 3 2 0;
   sample_vehicle clock ts 4 3 1; sample_vehicle clock ts 5 3 1].

(** The nodes of the sample network for vehicles of the classes [ts]. *)
Definition sample_loaded (clock : nat → Z) (ts : list VehicleType) : list NodeData :=
  imap (λ i nd,
          place (filter (λ v, source_node v = Z.of_nat i) (sample_fleet clock ts)) nd)
       sample_nodes.

(** The entries that [create_sample_input] sets, over the entries left. *)
Definition sample_destinations_over (destinations : gmap Z Z) : gmap Z Z :=
  <[3 := 1]> (<[2 := 0]> (<[1 := 2]> (<[0 := 3]> destinations))).

(** ** The sections of the input file *)

(** Every entry of [destinations] joins two nodes of a network of [n]
    nodes. *)
Definition destinations_in_range (n : Z) (destinations : gmap Z Z) : Prop :=
  map_Forall (λ src dest, 0 ≤ src < n ∧ 0 ≤ dest < n) destinations.

(** ** Example files *)

(** The lines of an input file that follow the matrix of the sample
    network. *)
Definition example_lines : list string :=
  ["# Node Capacities"; "A:5"; "B: 3"; "";
   "# Traffic Controller Nodes"; "A,C";
   "# Initial Traffic Allocation"; "A:2"; "B:9";
   "# Ambulances"; "C:1";
   "# Destination Nodes"; "A:D"; "B:C"; "C:A"].

(** A ring of five nodes, and a file for it in which a capacity is no
    number; the line before gives the fifth node a destination. *)
Definition five_ring : list (list Z) :=
  [[0; 1; 0; 0; 0]; [0; 0; 1; 0; 0]; [0; 0; 0; 1; 0]; [0; 0; 0; 0; 1];
   [1; 0; 0; 0; 0]].

Definition broken_lines : list string :=
  ["# Destination Nodes"; "E:A"; "# Node Capacities"; "A:five"].

(** The numbers that the random generator yields, for the examples. *)
Definition example_draw (k : nat) : Z := Z.of_nat k.

(** The sample network with the example file after three steps. *)
Definition example_run : TrafficNetwork :=
  Eval vm_compute in
    let net := loaded_net (load_input_lines true example_clock example_draw
                             sample_matrix example_lines) in
    default net (net ← run_op OpStep net; net ← run_op OpSweep net; run_op OpStep net).

(** ** The thread pool *)

(** Some thread acts. *)
Definition pool_run (s s' : PoolState) : Prop := ∃ a, pool_step a s = Some s'.

(** The tasks that the workers run. *)
Definition running (ws : list (option Task)) : list Task := omap id ws.

(** The state of the pool for the tasks [all] of the simulation: the tasks
    taken so far, the queue and the calls still to make are [all]; until the
    shutdown is requested every task taken is still running; and the loops
    that entered their body are among the first tasks, as many as there are
    workers. *)
Record pool_inv (threads : nat) (all : list Task) (s : PoolState) : Prop := {
  pi_workers : length (workers s) = threads;
  pi_taken : ∃ taken, all = taken ++ tasks s ++ to_enqueue s ∧
                      (shutdown_requested s = false → running (workers s) ≡ₚ taken);
  pi_entered : Forall (λ task, task ∈ take threads all) (entered s);
  pi_active : active_threads s = Z.of_nat (length (running (workers s)))
}.

(** ** The display *)

(** The rows of the box that [print_header] draws. *)
Definition header_border : string := "+" +:+ repeat_char 78 "-" +:+ "+".
Definition header_row (title : string) (p q : nat) : string :=
  "|" +:+ repeat_char p " " +:+ title +:+ repeat_char q " " +:+ "|".

(** The colour of a class of vehicles. *)
Definition class_colour (t : VehicleType) : string :=
  match t with
  | AMBULANCE => RED
  | FIRE_TRUCK => YELLOW
  | REGULAR => GREEN
  end.

(** The character [c] occurs in [s]. *)
Fixpoint occurs (c : ascii) (s : string) : Prop :=
  match s with
  | EmptyString => False
  | String a rest => a = c ∨ occurs c rest
  end.

(** ** Example schedules *)

(** A schedule of the threads. *)
Fixpoint run_actions (actions : list PoolAction) (s : PoolState) : option PoolState :=
  match actions with
  | [] => Some s
  | a :: rest => s ← pool_step a s; run_actions rest s
  end.

(** The automatic simulation of the sample network: the six tasks are
    handed to the pool, the workers take the first four, three of them enter
    their loops; then the shutdown is requested, two tasks end and their
    workers take the two tasks left, which end at once. *)
Definition pool_example_actions : list PoolAction :=
  [Enqueue; Enqueue; TakeTask 0; Enqueue; Enqueue; Enqueue; Enqueue;
   TakeTask 2; TakeTask 1; TakeTask 3; EnterBody 0; EnterBody 3; EnterBody 2;
   EnterBody 0; RequestShutdown; LeaveLoop 0; LeaveLoop 3; TakeTask 3; TakeTask 0;
   LeaveLoop 0; LeaveLoop 3]%nat.

Definition pool_example : PoolState :=
  Eval vm_compute in
    default (pool_start pool_threads 4 true)
      (run_actions pool_example_actions (pool_start pool_threads 4 true)).

(** ** Lines of the input file *)

(** The maps after the number [v] was stored for the node [c] in a section
    that holds numbers. *)
Definition store_number (section : string) (c : ascii) (v : Z) (s : Sections)
  : Sections :=
  if String.eqb section "capacities" then
    mkSections (<[c := v]> (node_capacities s)) (traffic_controllers s)
      (initial_traffic s) (initial_ambulances s) (initial_fire_trucks s)
  else if String.eqb section "traffic" then
    mkSections (node_capacities s) (traffic_controllers s)
      (<[c := v]> (initial_traffic s)) (initial_ambulances s) (initial_fire_trucks s)
  else if String.eqb section "ambulances" then
    mkSections (node_capacities s) (traffic_controllers s) (initial_traffic s)
      (<[c := v]> (initial_ambulances s)) (initial_fire_trucks s)
  else
    mkSections (node_capacities s) (traffic_controllers s) (initial_traffic s)
      (initial_ambulances s) (<[c := v]> (initial_fire_trucks s)).

(** The sections whose lines hold a number. *)
Definition number_section (section : string) : Prop :=
  section = "capacities" ∨ section = "traffic" ∨ section = "ambulances"
  ∨ section = "fire_trucks".

(** No digit begins [s]. *)
Definition no_leading_digit (s : string) : Prop := digit_value (first_char s) = None.

(** * Proofs *)

(** ** Machine integers *)

Lemma int_wrap_id z : in_int z → int_wrap z = z.
Proof. unfold in_int, int_wrap, INT_MIN, INT_MAX. intros. Z.div_mod_to_equations. lia. Qed.

Lemma int_wrap_in_int z : in_int (int_wrap z).
Proof. unfold in_int, int_wrap, INT_MIN, INT_MAX. Z.div_mod_to_equations. lia. Qed.

Lemma int_succ_eq z : INT_MIN - 1 ≤ z < INT_MAX → int_succ z = z + 1.
Proof. intros. apply int_wrap_id. unfold in_int, INT_MIN, INT_MAX in *. lia. Qed.

Lemma int_pred_eq z : INT_MIN < z ≤ INT_MAX + 1 → int_pred z = z - 1.
Proof. intros. apply int_wrap_id. unfold in_int, INT_MIN, INT_MAX in *. lia. Qed.

(** ** Admission control *)

Lemma can_move_to_node_safe_lookup net (i : nat) nd t :
  nodes net !! i = Some nd →
  can_move_to_node_safe net (Z.of_nat i) t =
    (current_vehicles nd <?
       if negb (bool_decide (t = REGULAR)) then int_succ (capacity nd) else capacity nd).
Proof.
  intros Hnd. unfold can_move_to_node_safe.
  pose proof (lookup_lt_Some _ _ _ Hnd) as Hlt.
  destruct (Z.of_nat i <? 0) eqn:E1; [lia|].
  destruct (Z.of_nat i >=? Z.of_nat (length (nodes net))) eqn:E2; [lia|].
  simpl. rewrite Nat2Z.id. by rewrite (list_lookup_total_correct _ _ _ Hnd).
Qed.

(** C1.  For a node of the network whose capacity is an [int] below
    [INT_MAX], admission succeeds exactly when the occupancy is strictly below
    the capacity for a Regular vehicle and strictly below capacity + 1 for an
    Ambulance or a FireTruck.  At occupancy = capacity a Regular vehicle is
    denied and an emergency vehicle admitted; at occupancy = capacity + 1
    every class is denied. *)
Theorem can_move_to_node_safe_boundary net (i : nat) nd t :
  nodes net !! i = Some nd →
  INT_MIN ≤ capacity nd < INT_MAX →
  (can_move_to_node_safe net (Z.of_nat i) t = true
     ↔ current_vehicles nd < effective_capacity nd t) ∧
  (current_vehicles nd = capacity nd →
     can_move_to_node_safe net (Z.of_nat i) REGULAR = false ∧
     can_move_to_node_safe net (Z.of_nat i) AMBULANCE = true ∧
     can_move_to_node_safe net (Z.of_nat i) FIRE_TRUCK = true) ∧
  (current_vehicles nd = capacity nd + 1 →
     ∀ t', can_move_to_node_safe net (Z.of_nat i) t' = false).
Proof.
  intros Hnd Hcap.
  assert (Hs : int_succ (capacity nd) = capacity nd + 1)
    by (apply int_succ_eq; lia).
  split; [|split].
  - rewrite (can_move_to_node_safe_lookup _ _ _ _ Hnd), Hs.
    destruct t; simpl; lia.
  - intros Heq. rewrite !(can_move_to_node_safe_lookup _ _ _ _ Hnd), Hs.
    simpl. lia.
  - intros Heq t'. rewrite (can_move_to_node_safe_lookup _ _ _ _ Hnd), Hs.
    destruct t'; simpl; lia.
Qed.

Lemma can_move_to_node_safe_boundary_witness :
  can_move_to_node_safe boundary_net 0 REGULAR = false ∧
  can_move_to_node_safe boundary_net 0 AMBULANCE = true ∧
  can_move_to_node_safe boundary_net 0 FIRE_TRUCK = true.
Proof.
  refine (proj1 (proj2 (can_move_to_node_safe_boundary boundary_net 0
            (mkNodeData 0 WAIT_NODE 3 3 [] [] []) REGULAR _ _)) _).
  - reflexivity.
  - unfold INT_MIN, INT_MAX. simpl. lia.
  - reflexivity.
Defined.

(** ** Worklist searches

    The three graph loops of the sources ([is_graph_connected],
    [is_path_exists], [find_best_next_hop]) keep a [vector<bool> visited] and a
    worklist.  What they share is proved once: [count_true] bounds the number
    of iterations, and [search_inv] makes the visited set the set of
    reachable nodes once the worklist is empty. *)

Section Search.
Local Open Scope nat_scope.

Lemma count_true_le l : count_true l ≤ length l.
Proof. induction l as [|[] l IH]; simpl; lia. Qed.

Lemma count_true_insert l i :
  l !! i = Some false → count_true (<[i:=true]> l) = S (count_true l).
Proof.
  revert i. induction l as [|b l IH]; intros [|i] Hi; simplify_eq/=; [done|].
  rewrite (IH i Hi). lia.
Qed.

Lemma count_true_full l :
  count_true l = length l ↔ ∀ i, i < length l → l !! i = Some true.
Proof.
  induction l as [|b l IH]; simpl.
  - split; [intros _ i Hi; lia | done].
  - pose proof (count_true_le l). split.
    + intros Hc [|i] Hi; destruct b; simpl in *; try lia; [done|].
      apply IH; lia.
    + intros Hall. pose proof (Hall 0 ltac:(lia)) as H0. simpl in H0.
      injection H0 as ->. f_equal. apply IH. intros i Hi. apply (Hall (S i)). lia.
Qed.

Lemma vis_lt visited v : vis visited v → v < length visited.
Proof. apply lookup_lt_Some. Qed.

Lemma vis_total visited v :
  v < length visited → visited !!! v = true ↔ vis visited v.
Proof.
  intros Hv. destruct (lookup_lt_is_Some_2 _ _ Hv) as [b Hb].
  unfold vis. rewrite (list_lookup_total_correct _ _ _ Hb), Hb. naive_solver.
Qed.

Lemma not_vis_total visited v :
  v < length visited → visited !!! v = false ↔ ¬ vis visited v.
Proof.
  intros Hv. rewrite <- (vis_total _ _ Hv). destruct (visited !!! v); naive_solver.
Qed.

Lemma not_vis_lookup visited v :
  v < length visited → ¬ vis visited v → visited !! v = Some false.
Proof.
  intros Hv Hn. destruct (lookup_lt_is_Some_2 _ _ Hv) as [[] Hb]; [done|done].
Qed.

Lemma vis_insert visited i v :
  i < length visited → vis (<[i:=true]> visited) v ↔ v = i ∨ vis visited v.
Proof.
  intros Hi. unfold vis. destruct (decide (v = i)) as [->|Hne].
  - rewrite list_lookup_insert_eq by done. split; [by left|done].
  - rewrite list_lookup_insert_ne by done. split; [by right|by intros [?|?]].
Qed.

Lemma vis_start n s v :
  s < n → vis (<[s:=true]> (replicate n false)) v ↔ v = s.
Proof.
  intros Hs. rewrite vis_insert by (by rewrite length_replicate).
  unfold vis. split; [|by left]. intros [->|H]; [done|].
  apply lookup_replicate in H. by destruct H.
Qed.

Context (edge : nat → nat → Prop).

Lemma search_inv_start n s :
  s < n → search_inv edge s (<[s:=true]> (replicate n false)) [s].
Proof.
  intros Hs. split.
  - by apply vis_start.
  - intros v ->%vis_start; done.
  - intros x ->%list_elem_of_singleton. by apply vis_start.
  - intros u w ->%vis_start; [|done]. rewrite list_elem_of_singleton. done.
Qed.

(** Taking [curr] from the worklist and visiting its successors. *)
Lemma search_inv_step src visited curr work visited' work' :
  search_inv edge src visited (curr :: work) →
  (∀ v, vis visited' v ↔ vis visited v ∨ edge curr v) →
  (∀ x, x ∈ work' ↔ x ∈ work ∨ (edge curr x ∧ ¬ vis visited x)) →
  search_inv edge src visited' work'.
Proof.
  intros [Hsrc Hsound Hwork Hclosed] Hvis Hwk.
  assert (Hcurr : vis visited curr) by (apply Hwork; left).
  split.
  - apply Hvis. by left.
  - intros v [Hv|He]%Hvis; [by apply Hsound|].
    eapply rtc_r; [by apply Hsound|done].
  - intros x [Hx|[He Hn]]%Hwk; apply Hvis; [left; apply Hwork; by right|by right].
  - intros u w Hu Hnw He. apply Hvis.
    destruct (decide (u = curr)) as [->|Hne]; [by right|].
    apply Hvis in Hu as [Hu|Hcu].
    + left. apply (Hclosed u w); [done| |done].
      intros [->|Hin]%elem_of_cons; [done|]. apply Hnw, Hwk. by left.
    + destruct (decide (vis visited u)) as [Hu|Hu].
      * left. apply (Hclosed u w); [done| |done].
        intros [->|Hin]%elem_of_cons; [done|]. apply Hnw, Hwk. by left.
      * exfalso. apply Hnw, Hwk. by right.
Qed.

(** With an empty worklist the visited nodes are the reachable ones. *)
Lemma search_inv_done src visited v :
  search_inv edge src visited [] → vis visited v ↔ rtc edge src v.
Proof.
  intros [Hsrc Hsound _ Hclosed]. split; [apply Hsound|].
  revert v. apply rtc_ind_r; [done|]. intros y z _ Hyz Hy.
  apply (Hclosed y z); [done| |done]. apply not_elem_of_nil.
Qed.
End Search.

Section VisitPost.
Local Open Scope nat_scope.
Context (E : nat → Prop).

Lemma visit_post_nil visited work : visit_post E [] visited work visited work.
Proof.
  split; [done| | |done].
  - intros v. split; [by left|]. intros [?|[[]%elem_of_nil _]]. done.
  - intros x. split; [by left|]. intros [?|[[]%elem_of_nil _]]. done.
Qed.

Lemma visit_post_skip i rest visited work visited' work' :
  (E i → vis visited i) →
  visit_post E rest visited work visited' work' →
  visit_post E (i :: rest) visited work visited' work'.
Proof.
  intros Hskip [Hlen Hvis Hwork Hm]. split; [done| | |done].
  - intros v. rewrite Hvis, elem_of_cons. split.
    + intros [?|[? ?]]; [by left|right; split; [by right|done]].
    + intros [?|[[->|?] ?]]; [by left|left; by apply Hskip|right; done].
  - intros x. rewrite Hwork, elem_of_cons. split.
    + intros [?|(? & ? & ?)]; [by left|right; split; [by right|done]].
    + intros [?|([->|?] & ? & Hn)]; [by left| |right; done].
      exfalso. by apply Hn, Hskip.
Qed.

Lemma visit_post_visit i rest visited work work1 visited' work' :
  E i → ¬ vis visited i → i < length visited →
  (∀ x, x ∈ work1 ↔ x = i ∨ x ∈ work) →
  length work1 = S (length work) →
  visit_post E rest (<[i:=true]> visited) work1 visited' work' →
  visit_post E (i :: rest) visited work visited' work'.
Proof.
  intros HE Hnv Hi Hw1 Hl1 [Hlen Hvis Hwork Hm].
  rewrite length_insert in Hlen.
  rewrite (count_true_insert visited i) in Hm by by apply not_vis_lookup.
  split; [done| | |lia].
  - intros v. rewrite Hvis, vis_insert, elem_of_cons by done. split.
    + intros [[->|?]|[? ?]]; [right; split; [by left|done]|by left|].
      right; split; [by right|done].
    + intros [?|[[->|?] ?]]; [left; by right|left; by left|right; done].
  - intros x. rewrite Hwork, Hw1, vis_insert, elem_of_cons by done. split.
    + intros [[->|?]|(? & ? & Hn)]; [right; split; [by left|done]|by left|].
      right. split; [by right|]. split; [done|]. intros ?. apply Hn. by right.
    + intros [?|([->|?] & ? & Hn)]; [left; by right|left; by left|].
      destruct (decide (x = i)) as [->|Hne]; [left; by left|].
      right. split; [done|]. split; [done|]. intros [?|?]; done.
Qed.
End VisitPost.

(** ** The validator *)

Section Validator.
Local Open Scope nat_scope.
Context (adj_matrix : list (list Z)).

Lemma dfs_scan_post curr cols st :
  (∀ i, i ∈ cols → i < length (dfs_visited st)) →
  let st' := foldl (dfs_visit adj_matrix curr) st cols in
  visit_post (λ v, (0 < adj_entry adj_matrix curr v)%Z) cols
    (dfs_visited st) (dfs_stack st) (dfs_visited st') (dfs_stack st') ∧
  dfs_count st' + count_true (dfs_visited st)
    = dfs_count st + count_true (dfs_visited st').
Proof.
  revert st. induction cols as [|i rest IH]; intros st Hcols; simpl.
  - split; [apply visit_post_nil|done].
  - assert (Hi : i < length (dfs_visited st)) by (apply Hcols; by left).
    assert (Hbody : dfs_visit adj_matrix curr st i =
      if (adj_entry adj_matrix curr i >? 0)%Z && negb (dfs_visited st !!! i)
      then mkDfs (<[i := true]> (dfs_visited st)) (i :: dfs_stack st)
                 (S (dfs_count st))
      else st) by done.
    rewrite Hbody. clear Hbody. rewrite Z.gtb_ltb.
    destruct (0 <? adj_entry adj_matrix curr i)%Z eqn:He; simpl.
    + destruct (dfs_visited st !!! i) eqn:Hv; simpl.
      * destruct (IH st) as [Hp Hc]; [intros; apply Hcols; by right|].
        split; [|done]. apply visit_post_skip; [|done].
        intros _. by apply vis_total.
      * destruct (IH (mkDfs (<[i:=true]> (dfs_visited st)) (i :: dfs_stack st)
                       (S (dfs_count st)))) as [Hp Hc].
        { simpl. intros j Hj. rewrite length_insert. apply Hcols. by right. }
        simpl in *.
        assert (Hnv : ¬ vis (dfs_visited st) i) by by apply not_vis_total.
        split.
        -- apply (visit_post_visit _ _ _ _ _ (i :: dfs_stack st));
             [lia|done|done| |done|done].
           intros x. by rewrite elem_of_cons.
        -- rewrite (count_true_insert (dfs_visited st) i) in Hc
             by by apply not_vis_lookup.
           lia.
    + destruct (IH st) as [Hp Hc]; [intros; apply Hcols; by right|].
      split; [|done]. apply visit_post_skip; [|done]. lia.
Qed.

Lemma dfs_loop_correct fuel st :
  length (dfs_visited st) = length adj_matrix →
  search_inv (medge adj_matrix) 0 (dfs_visited st) (dfs_stack st) →
  dfs_count st = count_true (dfs_visited st) →
  length adj_matrix - count_true (dfs_visited st) + length (dfs_stack st) < fuel →
  ∃ c, dfs_loop fuel adj_matrix (length adj_matrix) st = Some c ∧
       (c = length adj_matrix ↔ ∀ v, v < length adj_matrix → rtc (medge adj_matrix) 0 v).
Proof.
  revert st. induction fuel as [|fuel IH]; intros st Hlen Hinv Hcount Hfuel; [lia|].
  simpl. destruct (dfs_stack st) as [|curr rest] eqn:Hst.
  - exists (dfs_count st). split; [done|].
    rewrite Hcount, <- Hlen, count_true_full. rewrite Hlen.
    split; intros H v Hv.
    + apply (proj1 (search_inv_done (medge adj_matrix) 0 _ v Hinv)). by apply H.
    + apply (proj2 (search_inv_done (medge adj_matrix) 0 _ v Hinv)). by apply H.
  - set (st0 := mkDfs (dfs_visited st) rest (dfs_count st)).
    destruct (dfs_scan_post curr (seq 0 (length adj_matrix)) st0) as [Hp Hc].
    { intros i Hi%elem_of_seq. simpl. lia. }
    set (st' := foldl _ _ _) in *. simpl in Hp, Hc.
    destruct Hp as [Hlen' Hvis Hwork Hm].
    pose proof (count_true_le (dfs_visited st')) as Hle.
    apply IH.
    + congruence.
    + eapply search_inv_step; [exact Hinv| |].
      * intros v. rewrite Hvis, elem_of_seq. unfold medge. intuition lia.
      * intros x. rewrite Hwork, elem_of_seq. unfold medge. intuition lia.
    + lia.
    + simpl in Hfuel. lia.
Qed.

Lemma is_graph_connected_correct :
  ∃ b, is_graph_connected adj_matrix = Some b ∧
       (b = true ↔ all_reachable_from_0 adj_matrix).
Proof.
  unfold is_graph_connected, all_reachable_from_0.
  case_bool_decide as Hn.
  - exists false. split; [done|]. split; [done|]. lia.
  - assert (H0 : 0 < length adj_matrix) by lia.
    destruct (dfs_loop_correct (S (length adj_matrix))
                (mkDfs (<[0:=true]> (replicate (length adj_matrix) false)) [0] 1))
      as (c & Hc & Hiff).
    + simpl. by rewrite length_insert, length_replicate.
    + by apply search_inv_start.
    + simpl. rewrite count_true_insert; [|by apply lookup_replicate_2].
      clear. induction (length adj_matrix); simpl; lia.
    + simpl. rewrite count_true_insert; [|by apply lookup_replicate_2]. lia.
    + rewrite Hc. simpl. eexists; split; [done|].
      rewrite bool_decide_eq_true. tauto.
Qed.

Lemma path_scan_found curr dest cols st :
  path_scan adj_matrix curr dest cols st = Found →
  dest ∈ cols ∧ (0 < adj_entry adj_matrix curr dest)%Z.
Proof.
  revert st. induction cols as [|i rest IH]; intros st; simpl; [done|].
  rewrite Z.gtb_ltb.
  destruct (0 <? adj_entry adj_matrix curr i)%Z eqn:He; simpl.
  - destruct (path_visited st !!! i); simpl.
    + intros [? ?]%IH. split; [by right|done].
    + case_bool_decide as Hd.
      * subst i. intros _. split; [by left|lia].
      * intros [? ?]%IH. split; [by right|done].
  - intros [? ?]%IH. split; [by right|done].
Qed.

Lemma path_scan_post curr dest cols st st' :
  (∀ i, i ∈ cols → i < length (path_visited st)) →
  path_scan adj_matrix curr dest cols st = Scanned st' →
  visit_post (λ v, (0 < adj_entry adj_matrix curr v)%Z) cols
    (path_visited st) (path_queue st) (path_visited st') (path_queue st') ∧
  (¬ vis (path_visited st) dest →
   ¬ (dest ∈ cols ∧ (0 < adj_entry adj_matrix curr dest)%Z)).
Proof.
  revert st. induction cols as [|i rest IH]; intros st Hcols; simpl.
  - intros [= <-]. split; [apply visit_post_nil|].
    intros _ [[]%elem_of_nil _].
  - assert (Hi : i < length (path_visited st)) by (apply Hcols; by left).
    assert (Hrest : ∀ j, j ∈ rest → j < length (path_visited st))
      by (intros; apply Hcols; by right).
    rewrite Z.gtb_ltb.
    destruct (0 <? adj_entry adj_matrix curr i)%Z eqn:He; simpl.
    + destruct (path_visited st !!! i) eqn:Hv; simpl.
      * intros [Hp Hd]%IH; [|done]. split.
        -- apply visit_post_skip; [|done]. intros _. by apply vis_total.
        -- intros Hnd [[->|Hin]%elem_of_cons HE]; [|by apply Hd].
           by apply Hnd, vis_total.
      * assert (Hnv : ¬ vis (path_visited st) i) by by apply not_vis_total.
        case_bool_decide as Hne; [done|].
        intros [Hp Hd]%IH; [|simpl; by rewrite length_insert].
        simpl in *. split.
        -- apply (visit_post_visit _ _ _ _ _ (path_queue st ++ [i]));
             [lia|done|done| | |done].
           ++ intros x. rewrite elem_of_app, list_elem_of_singleton. tauto.
           ++ rewrite length_app. simpl. lia.
        -- intros Hnd [[->|Hin]%elem_of_cons HE]; [done|].
           apply Hd; [|done]. rewrite vis_insert by done. intros [->|?]; done.
    + intros [Hp Hd]%IH; [|done]. split.
      * apply visit_post_skip; [|done]. lia.
      * intros Hnd [[->|Hin]%elem_of_cons HE]; [lia|by apply Hd].
Qed.

Lemma path_loop_correct fuel src dest st :
  length (path_visited st) = length adj_matrix →
  search_inv (medge adj_matrix) src (path_visited st) (path_queue st) →
  ¬ vis (path_visited st) dest →
  length adj_matrix - count_true (path_visited st) + length (path_queue st) < fuel →
  ∃ b, path_loop fuel adj_matrix (length adj_matrix) dest st = Some b ∧
       (b = true ↔ rtc (medge adj_matrix) src dest).
Proof.
  revert st. induction fuel as [|fuel IH]; intros st Hlen Hinv Hnd Hfuel; [lia|].
  simpl. destruct (path_queue st) as [|curr q] eqn:Hq.
  - exists false. split; [done|]. split; [done|].
    intros Hr. exfalso. by apply Hnd, (search_inv_done (medge adj_matrix) src _ dest Hinv).
  - set (st0 := mkPath (path_visited st) q).
    assert (Hcols : ∀ i, i ∈ seq 0 (length adj_matrix) → i < length (path_visited st0)).
    { intros i Hi%elem_of_seq. simpl. lia. }
    destruct (path_scan _ _ _ _ st0) as [|st'] eqn:Hscan.
    + exists true. split; [done|]. split; [|done]. intros _.
      apply path_scan_found in Hscan as [Hin%elem_of_seq HE].
      eapply rtc_r; [apply (si_sound _ _ _ _ Hinv), (si_work _ _ _ _ Hinv); by left|].
      split; [lia|done].
    + destruct (path_scan_post _ _ _ _ _ Hcols Hscan) as [[Hlen' Hvis Hwork Hm] Hd].
      simpl in *. specialize (Hd Hnd).
      pose proof (count_true_le (path_visited st')) as Hle.
      apply IH.
      * congruence.
      * eapply search_inv_step; [exact Hinv| |].
        -- intros v. rewrite Hvis, elem_of_seq. unfold medge.
           split; (intros [?|?]; [by left|right; split; [lia|tauto]]).
        -- intros x. rewrite Hwork, elem_of_seq. unfold medge.
           split; (intros [?|?]; [by left|right; split; [split; [lia|tauto]|tauto]]).
      * rewrite Hvis. intros [?|?]; [done|by apply Hd].
      * lia.
Qed.

Lemma is_path_exists_correct src dest :
  ∃ b, is_path_exists adj_matrix src dest = Some b ∧
       (b = true ↔ directed_path adj_matrix src dest).
Proof.
  unfold is_path_exists, directed_path.
  destruct (_ || _ || _ || _) eqn:Hrange.
  - exists false. split; [done|]. split; [done|]. intros (? & ? & _). lia.
  - destruct (src =? dest)%Z eqn:Heq.
    + exists true. split; [done|]. split; [|done]. intros _.
      assert (src = dest) as -> by lia. split; [lia|]. split; [lia|done].
    + assert (Hs : Z.to_nat src < length adj_matrix) by lia.
      destruct (path_loop_correct (S (length adj_matrix)) (Z.to_nat src)
                  (Z.to_nat dest)
                  (mkPath (<[Z.to_nat src:=true]> (replicate (length adj_matrix) false))
                          [Z.to_nat src])) as (b & Hb & Hiff).
      * simpl. by rewrite length_insert, length_replicate.
      * by apply search_inv_start.
      * simpl. rewrite vis_start by done. lia.
      * simpl. rewrite count_true_insert; [|by apply lookup_replicate_2]. lia.
      * exists b. split; [done|]. rewrite Hiff. split; [|tauto].
        intros ?. split; [lia|]. split; [lia|done].
Qed.

Lemma all_paths_exist_correct pairs :
  ∃ b, all_paths_exist adj_matrix pairs = Some b ∧
       (b = true ↔ ∀ src dest, (src, dest) ∈ pairs → directed_path adj_matrix src dest).
Proof.
  induction pairs as [|[src dest] rest (b & Hb & Hiff)]; simpl.
  - exists true. split; [done|]. split; [|done]. intros _ ? ? []%elem_of_nil.
  - destruct (is_path_exists_correct src dest) as ([] & -> & Hp); simpl.
    + exists b. split; [done|]. rewrite Hiff. split.
      * intros H s d [[= -> ->]|?]%elem_of_cons; [by apply Hp|by apply H].
      * intros H s d ?. apply H. by right.
    + exists false. split; [done|]. split; [done|]. intros H.
      apply Hp, H. by left.
Qed.

Lemma are_destinations_reachable_correct destinations :
  ∃ b, are_destinations_reachable adj_matrix destinations = Some b ∧
       (b = true ↔ destinations_reachable adj_matrix destinations).
Proof.
  unfold are_destinations_reachable, destinations_reachable.
  destruct (all_paths_exist_correct (map_to_list destinations)) as (b & Hb & Hiff).
  exists b. split; [done|]. rewrite Hiff.
  split; intros H s d Hsd; apply H; by apply elem_of_map_to_list.
Qed.
End Validator.

Lemma capacity_check_correct nodes :
  existsb (λ node, capacity node <=? 0) nodes = false ↔ capacities_positive nodes.
Proof.
  unfold capacities_positive. induction nodes as [|nd rest IH]; simpl.
  - split; [intros _ ? []%elem_of_nil|done].
  - rewrite orb_false_iff, IH, Z.leb_gt. split.
    + intros [? H] node [->|?]%elem_of_cons; [done|by apply H].
    + intros H. split; [apply H; by left|]. intros node ?. apply H. by right.
Qed.

(** The validator as a decision list: the first failing check gives the code. *)
Lemma validate_input_cases adj_matrix nodes destinations :
  ∃ r, validate_input adj_matrix nodes destinations = Some r ∧
    ((¬ all_reachable_from_0 adj_matrix ∧ r = DISCONNECTED_GRAPH) ∨
     (all_reachable_from_0 adj_matrix ∧
      ¬ destinations_reachable adj_matrix destinations ∧
      r = UNREACHABLE_DESTINATION) ∨
     (all_reachable_from_0 adj_matrix ∧
      destinations_reachable adj_matrix destinations ∧
      ¬ capacities_positive nodes ∧ r = INVALID_CAPACITY) ∨
     (all_reachable_from_0 adj_matrix ∧
      destinations_reachable adj_matrix destinations ∧
      capacities_positive nodes ∧ r = INPUT_VALID)).
Proof.
  unfold validate_input.
  destruct (is_graph_connected_correct adj_matrix) as ([] & -> & Hc); simpl.
  - destruct (are_destinations_reachable_correct adj_matrix destinations)
      as ([] & -> & Hd); simpl.
    + destruct (existsb _ nodes) eqn:Hcap.
      * eexists. split; [done|]. right; right; left.
        split; [by apply Hc|]. split; [by apply Hd|]. split; [|done].
        rewrite <- capacity_check_correct. congruence.
      * eexists. split; [done|]. right; right; right.
        split; [by apply Hc|]. split; [by apply Hd|]. split; [|done].
        by apply capacity_check_correct.
    + eexists. split; [done|]. right; left.
      split; [by apply Hc|]. split; [|done]. intros ?%Hd. done.
  - eexists. split; [done|]. left. split; [|done]. intros ?%Hc. done.
Qed.

(** C2, as stated, fails: in the two-node graph whose only edge goes from
    node 1 to node 0 every node is reachable from node 0 when edges are read
    as undirected, there is no destination pair, and both capacities are
    positive, yet the validator answers [DISCONNECTED_GRAPH]. *)
Lemma validate_input_undirected_counterexample :
  all_reachable_undirected one_way_matrix ∧
  destinations_reachable one_way_matrix ∅ ∧
  capacities_positive one_way_nodes ∧
  validate_input one_way_matrix one_way_nodes ∅ = Some DISCONNECTED_GRAPH.
Proof.
  split; [|split; [|split]].
  - intros v Hv. simpl in Hv.
    destruct v as [|[|v]]; [done| |lia].
    apply rtc_once. right. split; [simpl; lia|]. by vm_compute.
  - intros src dest Hsd. by rewrite lookup_empty in Hsd.
  - intros node Hn. unfold one_way_nodes in Hn.
    repeat (apply elem_of_cons in Hn as [->|Hn]); [done..|].
    by apply elem_of_nil in Hn.
  - by vm_compute.
Qed.

(** C2, amended.  The validator always answers, and it answers [INPUT_VALID]
    exactly when (1) the matrix has a node 0 from which every node can be
    reached along directed edges, (2) every pair of the destinations map is
    joined by a directed path between nodes of the matrix, and (3) every
    capacity is positive.  The checks are made in that order and the first
    one that fails gives the code: [DISCONNECTED_GRAPH], then
    [UNREACHABLE_DESTINATION], then [INVALID_CAPACITY]. *)
Theorem validate_input_directed adj_matrix nodes destinations :
  ∃ r, validate_input adj_matrix nodes destinations = Some r ∧
    (r = INPUT_VALID ↔
       all_reachable_from_0 adj_matrix ∧
       destinations_reachable adj_matrix destinations ∧
       capacities_positive nodes) ∧
    (r = DISCONNECTED_GRAPH ↔ ¬ all_reachable_from_0 adj_matrix) ∧
    (r = UNREACHABLE_DESTINATION ↔
       all_reachable_from_0 adj_matrix ∧
       ¬ destinations_reachable adj_matrix destinations) ∧
    (r = INVALID_CAPACITY ↔
       all_reachable_from_0 adj_matrix ∧
       destinations_reachable adj_matrix destinations ∧
       ¬ capacities_positive nodes).
Proof.
  destruct (validate_input_cases adj_matrix nodes destinations) as (r & Hr & Hcases).
  exists r. split; [done|].
  destruct Hcases as [(? & ->)|[(? & ? & ->)|[(? & ? & ? & ->)|(? & ? & ? & ->)]]];
    (split; [|split; [|split]]); (split; [try done; tauto|tauto]).
Qed.

(** C10.  The validator always answers, with one of [INPUT_VALID],
    [DISCONNECTED_GRAPH], [UNREACHABLE_DESTINATION] and [INVALID_CAPACITY];
    it never answers [INVALID_TRAFFIC_CONTROLLER] or
    [INVALID_ADJACENCY_MATRIX], and each of the four codes is the answer for
    some input. *)
Theorem validate_input_outcomes :
  (∀ adj_matrix nodes destinations,
     ∃ r, validate_input adj_matrix nodes destinations = Some r ∧
       (r = INPUT_VALID ∨ r = DISCONNECTED_GRAPH ∨
        r = UNREACHABLE_DESTINATION ∨ r = INVALID_CAPACITY) ∧
       r ≠ INVALID_TRAFFIC_CONTROLLER ∧ r ≠ INVALID_ADJACENCY_MATRIX) ∧
  validate_input sample_matrix sample_nodes sample_destinations = Some INPUT_VALID ∧
  validate_input one_way_matrix one_way_nodes ∅ = Some DISCONNECTED_GRAPH ∧
  validate_input sample_matrix sample_nodes {[ 0 := 7 ]} = Some UNREACHABLE_DESTINATION ∧
  validate_input sample_matrix (sample_node 4 WAIT_NODE 0 [] :: sample_nodes)
    sample_destinations = Some INVALID_CAPACITY.
Proof.
  split; [|by vm_compute].
  intros adj_matrix nodes destinations.
  destruct (validate_input_cases adj_matrix nodes destinations) as (r & Hr & Hcases).
  exists r. split; [done|].
  destruct Hcases as [(? & ->)|[(? & ? & ->)|[(? & ? & ? & ->)|(? & ? & ? & ->)]]];
    (split; [tauto|done]).
Qed.

(** ** The router *)

Section Router.
Local Open Scope nat_scope.
Context (ns : list NodeData) (from_node : nat) (destination : Z).
Context (Hwf : wf_adjacency ns).

Lemma bfs_visit_post curr nbrs st :
  (∀ i, i ∈ nbrs → i < length (bfs_visited st)) →
  length (bfs_parent st) = length (bfs_visited st) →
  let st' := foldl (bfs_visit curr) st nbrs in
  visit_post (λ _, True) nbrs (bfs_visited st) (bfs_queue st)
    (bfs_visited st') (bfs_queue st') ∧
  length (bfs_parent st') = length (bfs_parent st) ∧
  (∀ v, v ∈ nbrs → ¬ vis (bfs_visited st) v →
        bfs_parent st' !! v = Some (Z.of_nat curr)) ∧
  (∀ v, vis (bfs_visited st) v ∨ v ∉ nbrs →
        bfs_parent st' !! v = bfs_parent st !! v) ∧
  ∃ news, bfs_queue st' = bfs_queue st ++ news ∧
          ∀ x, x ∈ news → x ∈ nbrs ∧ ¬ vis (bfs_visited st) x.
Proof.
  revert st. induction nbrs as [|i rest IH]; intros st Hn Hlen; simpl.
  - split; [apply visit_post_nil|]. split; [done|]. split; [by intros ? ?%elem_of_nil|].
    split; [done|]. exists []. split; [by rewrite app_nil_r|by intros ? ?%elem_of_nil].
  - assert (Hi : i < length (bfs_visited st)) by (apply Hn; by left).
    assert (Hbody : bfs_visit curr st i =
      if negb (bfs_visited st !!! i)
      then mkBfs (<[i := Z.of_nat curr]> (bfs_parent st))
                 (<[i := true]> (bfs_visited st)) (bfs_queue st ++ [i])
      else st) by done.
    rewrite Hbody. clear Hbody.
    destruct (bfs_visited st !!! i) eqn:Hv; simpl.
    + destruct (IH st) as (Hp & Hl & Hp1 & Hp2 & news & Hq & Hnews);
        [intros; apply Hn; by right|done|].
      assert (Hvi : vis (bfs_visited st) i) by by apply vis_total.
      split; [by apply visit_post_skip|]. split; [done|]. split; [|split].
      * intros v [->|Hin]%elem_of_cons Hnv; [done|by apply Hp1].
      * intros v [Hvv|Hnin]; apply Hp2; [by left|].
        right. intros ?. apply Hnin. by right.
      * exists news. split; [done|]. intros x [? ?]%Hnews. split; [by right|done].
    + assert (Hnv : ¬ vis (bfs_visited st) i) by by apply not_vis_total.
      destruct (IH (mkBfs (<[i := Z.of_nat curr]> (bfs_parent st))
                      (<[i := true]> (bfs_visited st)) (bfs_queue st ++ [i])))
        as (Hp & Hl & Hp1 & Hp2 & news & Hq & Hnews); simpl.
      { intros j Hj. rewrite length_insert. apply Hn. by right. }
      { by rewrite !length_insert. }
      simpl in *. rewrite length_insert in Hl.
      split; [|split; [done|split; [|split]]].
      * apply (visit_post_visit _ _ _ _ _ (bfs_queue st ++ [i]));
          [done|done|done| | |done].
        -- intros x. rewrite elem_of_app, list_elem_of_singleton. tauto.
        -- rewrite length_app. simpl. lia.
      * intros v Hin Hvn. destruct (decide (v = i)) as [->|Hne].
        -- rewrite Hp2; [|left; apply vis_insert; [done|by left]].
           apply list_lookup_insert_eq. lia.
        -- apply elem_of_cons in Hin as [->|Hin]; [done|].
           apply Hp1; [done|]. rewrite vis_insert by done. intros [?|?]; done.
      * intros v Hv'. assert (Hne : v ≠ i).
        { intros ->. destruct Hv' as [?|Hnin]; [done|]. apply Hnin. by left. }
        rewrite Hp2; [by rewrite list_lookup_insert_ne|].
        destruct Hv' as [?|Hnin]; [left; apply vis_insert; [done|by right]|].
        right. intros ?. apply Hnin. by right.
      * exists (i :: news). split; [by rewrite Hq, <- app_assoc|].
        intros x [->|Hx]%elem_of_cons; [split; [by left|done]|].
        apply Hnews in Hx as [? Hx]. split; [by right|].
        intros ?. apply Hx, vis_insert; [done|by right].
Qed.

Lemma bfs_inv_start :
  from_node < length ns →
  bfs_inv ns from_node destination (λ _, 0)
    (mkBfs (replicate (length ns) (-1)%Z)
           (<[from_node := true]> (replicate (length ns) false)) [from_node]).
Proof.
  intros Hfrom. split; simpl.
  - by rewrite length_insert, length_replicate.
  - by rewrite length_replicate.
  - by apply search_inv_start.
  - done.
  - by apply lookup_replicate_2.
  - intros v ->%vis_start; done.
  - intros v ->%vis_start; [constructor|done].
  - intros; lia.
  - intros i j x y Hi Hj _. lia.
  - intros w k Hk Hnv. exists from_node. split; [by left|].
    destruct k; [|lia]. inversion Hk; subst. exfalso. by apply Hnv, vis_start.
  - intros v _. rewrite count_true_insert; [lia|by apply lookup_replicate_2].
  - intros v ->%vis_start; [|done]. intros _. by left.
Qed.

(** One iteration of the [while] loop that does not return. *)
Lemma bfs_inv_step dist st curr q :
  bfs_inv ns from_node destination dist st → bfs_queue st = curr :: q → Z.of_nat curr ≠ destination →
  let st' := foldl (bfs_visit curr) (mkBfs (bfs_parent st) (bfs_visited st) q)
                   (adjacent_of ns curr) in
  (∃ dist', bfs_inv ns from_node destination dist' st') ∧
  length (bfs_queue st') + count_true (bfs_visited st)
    = length q + count_true (bfs_visited st').
Proof.
  intros Hinv Hq Hnd st'.
  destruct Hinv as [Hvlen Hplen Hsearch Hd0 Hroot Hpar Hpath Hmin Hsorted
                    Hfront Hcount Hdest].
  rewrite Hq in Hsearch, Hsorted, Hfront, Hdest.
  set (nbrs := adjacent_of ns curr) in *.
  assert (Hcurr : vis (bfs_visited st) curr)
    by (apply (si_work _ _ _ _ Hsearch); by left).
  destruct (bfs_visit_post curr nbrs (mkBfs (bfs_parent st) (bfs_visited st) q))
    as (Hp & Hl & Hp1 & Hp2 & news & Hq' & Hnews).
  { simpl. intros i Hi. rewrite Hvlen. by apply (Hwf curr). }
  { simpl. congruence. }
  fold st' in Hp, Hl, Hp1, Hp2, Hq'. simpl in Hp, Hl, Hp1, Hp2, Hq', Hnews.
  destruct Hp as [Hlen' Hvis Hwork Hm].
  split; [|done].
  assert (Hsearch' : search_inv (aedge ns) from_node (bfs_visited st') (bfs_queue st')).
  { eapply search_inv_step; [exact Hsearch| |].
    - intros v. rewrite Hvis. unfold aedge. fold nbrs. tauto.
    - intros x. rewrite Hwork. unfold aedge. fold nbrs. tauto. }
  set (c := dist curr).
  set (fresh := λ v, v ∈ nbrs ∧ ¬ vis (bfs_visited st) v).
  set (dist' := λ v, if decide (fresh v) then S c else dist v).
  assert (F1 : ∀ v, vis (bfs_visited st) v → dist' v = dist v).
  { intros v Hv. unfold dist'. case_decide as Hf; [by destruct Hf|done]. }
  assert (F2 : ∀ v, fresh v → dist' v = S c).
  { intros v Hv. unfold dist'. by case_decide. }
  assert (F3 : ∀ v, vis (bfs_visited st') v ↔ vis (bfs_visited st) v ∨ fresh v).
  { intros v. rewrite Hvis. unfold fresh. split.
    - intros [?|[? _]]; [by left|].
      destruct (decide (vis (bfs_visited st) v)); [by left|by right].
    - intros [?|[? ?]]; [by left|by right]. }
  assert (F4 : ∀ x, x ∈ q → vis (bfs_visited st) x).
  { intros x Hx. apply (si_work _ _ _ _ Hsearch). by right. }
  assert (F5 : ∀ x, x ∈ news → fresh x) by (intros x Hx; by apply Hnews).
  assert (F6 : ∀ v, fresh v → v ∈ news).
  { intros v [Hin Hnv].
    assert (Hv : v ∈ bfs_queue st') by (apply Hwork; right; done).
    rewrite Hq', elem_of_app in Hv. destruct Hv as [Hv|Hv]; [|done].
    by apply F4 in Hv. }
  assert (F7 : ∀ x, x ∈ curr :: q → c ≤ dist x ≤ S c).
  { intros x [j Hj]%list_elem_of_lookup.
    apply (Hsorted 0 j curr x); [done|done|lia]. }
  assert (F8 : ∀ x, x ∈ bfs_queue st' → dist' x ≤ S c).
  { intros x. rewrite Hq', elem_of_app. intros [Hx|Hx].
    - rewrite F1 by by apply F4. apply F7. by right.
    - rewrite F2 by by apply F5. done. }
  rewrite Hq', length_app in Hm.
  exists dist'. split.
  - congruence.
  - congruence.
  - done.
  - rewrite F1; [done|apply (si_src _ _ _ _ Hsearch)].
  - rewrite Hp2; [done|left; apply (si_src _ _ _ _ Hsearch)].
  - intros v [Hv|Hv]%F3 Hne.
    + destruct (Hpar v Hv Hne) as (u & Hu1 & Hu2 & Hu3 & Hu4).
      exists u. rewrite Hp2 by by left. rewrite !F1 by done.
      split; [done|]. split; [apply F3; by left|done].
    + exists curr. rewrite Hp1 by apply Hv. rewrite F2, F1 by done.
      split; [done|]. split; [apply F3; by left|]. split; [apply Hv|done].
  - intros v [Hv|Hv]%F3.
    + rewrite F1 by done. by apply Hpath.
    + rewrite F2 by done. eapply nsteps_r; [by apply Hpath|apply Hv].
  - intros v k [Hv|Hv]%F3 Hk.
    + rewrite F1 by done. by apply Hmin.
    + rewrite F2 by done.
      destruct (Hfront v k Hk) as (x & Hx & Hlt); [apply Hv|].
      apply F7 in Hx. lia.
  - intros i j x y Hi Hj Hij. rewrite Hq' in Hi, Hj.
    apply lookup_app_Some in Hi as [Hi|[Hil Hi]];
      apply lookup_app_Some in Hj as [Hj|[Hjl Hj]].
    + rewrite !F1 by (apply F4, list_elem_of_lookup; eauto).
      apply (Hsorted (S i) (S j)); [done|done|lia].
    + rewrite (F1 x) by (apply F4, list_elem_of_lookup; eauto).
      rewrite (F2 y) by (apply F5, list_elem_of_lookup; eauto).
      assert (c ≤ dist x ≤ S c)
        by (apply F7; right; apply list_elem_of_lookup; eauto).
      lia.
    + apply lookup_lt_Some in Hj. lia.
    + rewrite !F2 by (apply F5, list_elem_of_lookup; eauto). lia.
  - intros w k Hk Hnw.
    assert (Hnw0 : ¬ vis (bfs_visited st) w) by (intros ?; apply Hnw, F3; by left).
    destruct (Hfront w k Hk Hnw0) as (x & Hx & Hlt).
    apply elem_of_cons in Hx as [->|Hx].
    2: { exists x. split; [rewrite Hq'; apply elem_of_app; by left|].
         rewrite F1 by by apply F4. done. }
    fold c in Hlt.
    destruct (decide (S c < k)) as [Hbig|Hsmall].
    + destruct (bfs_queue st') as [|y ys] eqn:Hqs.
      * exfalso. apply Hnw.
        apply (search_inv_done (aedge ns) from_node _ w Hsearch').
        by eapply rtc_nsteps_2.
      * exists y. split; [by left|].
        assert (dist' y ≤ S c) by (apply F8; by left). lia.
    + assert (k = S c) by lia. subst k.
      apply nsteps_inv_r in Hk as (p & Hkp & Hpw).
      destruct (decide (vis (bfs_visited st) p)) as [Hvp|Hvp].
      2: { destruct (Hfront p c Hkp Hvp) as (x & Hx & Hlt').
           apply F7 in Hx. lia. }
      destruct (decide (p ∈ curr :: q)) as [Hin|Hnin].
      * apply elem_of_cons in Hin as [->|Hin].
        -- exfalso. apply Hnw, Hvis. right. done.
        -- exists p. split; [rewrite Hq'; apply elem_of_app; by left|].
           rewrite F1 by done. pose proof (Hmin p c Hvp Hkp). lia.
      * exfalso. apply Hnw0. by apply (si_closed _ _ _ _ Hsearch p w).
  - intros v [Hv|Hv]%F3.
    + rewrite F1 by done. pose proof (Hcount v Hv). lia.
    + rewrite F2 by done. pose proof (Hcount curr Hcurr).
      assert (0 < length news).
      { apply F6 in Hv. destruct news; [by apply elem_of_nil in Hv|simpl; lia]. }
      fold c in H. lia.
  - intros v [Hv|Hv]%F3 Hvd.
    + pose proof (Hdest v Hv Hvd) as [->|Hin]%elem_of_cons; [done|].
      rewrite Hq'. apply elem_of_app; by left.
    + rewrite Hq'. apply elem_of_app. right. by apply F6.
Qed.

(** Walking the parent pointers back from a visited node stops at the
    node of its path that follows [from_node]. *)
Lemma walk_back_correct dist st fuel v :
  bfs_inv ns from_node destination dist st → vis (bfs_visited st) v → dist v < fuel →
  ∃ r, walk_back fuel (bfs_parent st) from_node v = Some r ∧
    ((v = from_node ∧ r = from_node) ∨
     (v ≠ from_node ∧ aedge ns from_node r ∧
      ∃ d, dist v = S d ∧ nsteps (aedge ns) d r v)).
Proof.
  intros Hinv. revert v. induction fuel as [|fuel IH]; intros v Hv Hfuel; [lia|].
  simpl. destruct (decide (v = from_node)) as [->|Hne].
  - rewrite (list_lookup_total_correct _ _ _ (bi_root _ _ _ _ _ Hinv)).
    rewrite andb_false_r. exists from_node. split; [done|by left].
  - destruct (bi_parent _ _ _ _ _ Hinv v Hv Hne) as (u & Hu1 & Hu2 & Hu3 & Hu4).
    rewrite (list_lookup_total_correct _ _ _ Hu1).
    destruct (decide (u = from_node)) as [->|Hune].
    + rewrite Z.eqb_refl. simpl. exists v. split; [done|]. right.
      split; [done|]. split; [done|]. exists 0.
      rewrite Hu4, (bi_dist0 _ _ _ _ _ Hinv). split; [done|constructor].
    + destruct (Z.of_nat u =? Z.of_nat from_node)%Z eqn:E1; [lia|].
      destruct (Z.of_nat u =? -1)%Z eqn:E2; [lia|]. simpl.
      rewrite Nat2Z.id.
      destruct (IH u Hu2) as (r & Hr & [[? _]|(_ & Hfr & d & Hd & Hsteps)]);
        [lia|done|].
      exists r. split; [done|]. right. split; [done|]. split; [done|].
      exists (S d). split; [lia|]. by eapply nsteps_r.
Qed.

Lemma bfs_loop_correct fuel dist st :
  bfs_inv ns from_node destination dist st →
  length ns - count_true (bfs_visited st) + length (bfs_queue st) < fuel →
  match bfs_loop fuel ns from_node destination st with
  | Return r =>
      ∃ c, Z.of_nat c = destination ∧ rtc (aedge ns) from_node c ∧
        ((c = from_node ∧ r = Z.of_nat from_node) ∨
         (c ≠ from_node ∧ ∃ h, r = Z.of_nat h ∧ shortest_first_hop ns from_node c h))
  | Fallthrough => ∀ c, Z.of_nat c = destination → ¬ rtc (aedge ns) from_node c
  | OutOfFuel => False
  end.
Proof.
  revert dist st. induction fuel as [|fuel IH]; intros dist st Hinv Hfuel; [lia|].
  simpl. destruct (bfs_queue st) as [|curr q] eqn:Hq.
  - intros c Hc Hr.
    apply (search_inv_done (aedge ns) from_node (bfs_visited st) c) in Hr.
    + pose proof (bi_dest _ _ _ _ _ Hinv c Hr Hc) as Hin. rewrite Hq in Hin.
      by apply elem_of_nil in Hin.
    + rewrite <- Hq. apply (bi_search _ _ _ _ _ Hinv).
  - assert (Hcurr : vis (bfs_visited st) curr).
    { apply (si_work _ _ _ _ (bi_search _ _ _ _ _ Hinv)). rewrite Hq. by left. }
    destruct (Z.of_nat curr =? destination)%Z eqn:Hd.
    + destruct (walk_back_correct dist st (length ns) curr Hinv Hcurr)
        as (r & -> & Hr).
      { pose proof (bi_count _ _ _ _ _ Hinv curr Hcurr).
        pose proof (count_true_le (bfs_visited st)).
        rewrite (bi_vlen _ _ _ _ _ Hinv) in *. lia. }
      exists curr. split; [lia|].
      split; [by apply (si_sound _ _ _ _ (bi_search _ _ _ _ _ Hinv))|].
      destruct Hr as [[-> ->]|(Hne & Hfr & d & Hdist & Hsteps)]; [by left|].
      right. split; [done|]. exists r. split; [done|]. split; [done|].
      exists d. split; [done|]. intros k Hk.
      pose proof (bi_min _ _ _ _ _ Hinv curr k Hcurr Hk). lia.
    + destruct (bfs_inv_step dist st curr q Hinv Hq) as [[dist' Hinv'] Hm]; [lia|].
      apply (IH dist' _ Hinv').
      pose proof (count_true_le (bfs_visited (foldl (bfs_visit curr)
        (mkBfs (bfs_parent st) (bfs_visited st) q) (adjacent_of ns curr)))) as Hle.
      rewrite (bi_vlen _ _ _ _ _ Hinv') in Hle. simpl in Hfuel. lia.
Qed.
End Router.

Lemma adjacent_of_out_of_range ns i : (length ns ≤ i)%nat → adjacent_of ns i = [].
Proof.
  intros Hi. unfold adjacent_of.
  by rewrite list_lookup_total_alt, (lookup_ge_None_2 _ _ Hi).
Qed.

(** What [find_best_next_hop] returns, case by case. *)
Lemma find_best_next_hop_cases ns from_node destination :
  wf_adjacency ns →
  ∃ r, find_best_next_hop ns from_node destination = Some r ∧
    match adjacent_of ns from_node with
    | [] => r = -1
    | first :: _ =>
        if existsb (λ adj, Z.of_nat adj =? destination) (adjacent_of ns from_node)
        then r = destination
        else
          (∃ c, Z.of_nat c = destination ∧ rtc (aedge ns) from_node c ∧
             ((c = from_node ∧ r = Z.of_nat from_node) ∨
              (c ≠ from_node ∧
               ∃ h, r = Z.of_nat h ∧ shortest_first_hop ns from_node c h))) ∨
          ((∀ c, Z.of_nat c = destination → ¬ rtc (aedge ns) from_node c) ∧
           r = Z.of_nat first)
    end.
Proof.
  intros Hwf. unfold find_best_next_hop.
  destruct (decide (length ns ≤ from_node)%nat) as [Hge|Hlt].
  { rewrite adjacent_of_out_of_range by done. by exists (-1). }
  destruct (adjacent_of ns from_node) as [|first rest] eqn:Hadj; [by exists (-1)|].
  destruct (existsb _ _) eqn:Hex; [by exists destination|].
  pose proof (bfs_loop_correct ns from_node destination Hwf (S (length ns)) (λ _, 0%nat)
    (mkBfs (replicate (length ns) (-1))
           (<[from_node := true]> (replicate (length ns) false)) [from_node])) as Hloop.
  destruct (bfs_loop _ _ _ _ _) as [r| |].
  - exists r. split; [done|]. left. apply Hloop.
    + apply bfs_inv_start. lia.
    + simpl. rewrite count_true_insert; [lia|apply lookup_replicate_2; lia].
  - eexists. split; [done|]. right. split; [|done]. apply Hloop.
    + apply bfs_inv_start. lia.
    + simpl. rewrite count_true_insert; [lia|apply lookup_replicate_2; lia].
  - exfalso. apply Hloop.
    + apply bfs_inv_start. lia.
    + simpl. rewrite count_true_insert; [lia|apply lookup_replicate_2; lia].
Qed.

Lemma existsb_elem_of {A} (p : A → bool) (l : list A) :
  existsb p l = true ↔ ∃ x, x ∈ l ∧ p x = true.
Proof.
  rewrite existsb_exists. split; intros (x & Hx & Hp); exists x; split; try done;
    by apply list_elem_of_In.
Qed.

(** C4, amended.  On a network whose adjacency lists name nodes of the
    network the router always answers; it answers -1 exactly when
    [from_node] has no outgoing edge; when the destination is a direct
    neighbour it answers the destination; otherwise, when the destination is
    [from_node] itself it answers [from_node]; when the destination is
    another node that can be reached along directed edges it answers the
    first hop of a shortest directed path; and when the destination cannot be
    reached it answers the first adjacent node. *)
Theorem find_best_next_hop_contract ns from_node destination :
  wf_adjacency ns →
  ∃ r, find_best_next_hop ns from_node destination = Some r ∧
    (r = -1 ↔ adjacent_of ns from_node = []) ∧
    ((∃ a, a ∈ adjacent_of ns from_node ∧ Z.of_nat a = destination) →
     r = destination) ∧
    (adjacent_of ns from_node ≠ [] →
     ¬ (∃ a, a ∈ adjacent_of ns from_node ∧ Z.of_nat a = destination) →
     (destination = Z.of_nat from_node → r = Z.of_nat from_node) ∧
     (∀ c, Z.of_nat c = destination → c ≠ from_node →
           rtc (aedge ns) from_node c →
           ∃ h, r = Z.of_nat h ∧ shortest_first_hop ns from_node c h) ∧
     ((∀ c, Z.of_nat c = destination → ¬ rtc (aedge ns) from_node c) →
      ∃ first rest, adjacent_of ns from_node = first :: rest ∧ r = Z.of_nat first)).
Proof.
  intros Hwf.
  destruct (find_best_next_hop_cases ns from_node destination Hwf) as (r & Hr & Hc).
  exists r. split; [done|].
  destruct (adjacent_of ns from_node) as [|first rest] eqn:Hadj.
  { split; [done|]. split; [|done]. by intros (a & []%elem_of_nil & _). }
  destruct (existsb _ _) eqn:Hex.
  - apply existsb_elem_of in Hex as (a & Ha & Heq%Z.eqb_eq). subst r.
    split; [split; [lia|done]|]. split; [done|].
    intros _ Hn. exfalso. apply Hn. exists a. split; [done|lia].
  - assert (Hnd : ¬ ∃ a, a ∈ first :: rest ∧ Z.of_nat a = destination).
    { intros (a & Ha & Heq).
      assert (existsb (λ adj, Z.of_nat adj =? destination) (first :: rest) = true);
        [|congruence].
      apply existsb_elem_of. exists a. split; [done|by apply Z.eqb_eq]. }
    split; [|split; [done|]].
    + split; [|done]. intros ->.
      destruct Hc as [(c & _ & _ & [[_ ?]|(_ & h & ? & _)])|[_ ?]]; lia.
    + intros _ _. split; [|split].
      * intros ->.
        destruct Hc as [(c & Hc & _ & [[_ ?]|(Hne & _)])|[Hun _]]; [done|lia|].
        exfalso. by apply (Hun from_node).
      * intros c Hcd Hne Hreach.
        destruct Hc as [(c' & Hc' & _ & [[-> _]|(_ & h & ? & Hh)])|[Hun _]].
        -- lia.
        -- assert (c' = c) as -> by lia. by exists h.
        -- exfalso. by apply (Hun c).
      * intros Hun.
        destruct Hc as [(c & Hc & Hreach & _)|[_ ->]]; [by apply Hun in Hreach|].
        by exists first, rest.
Qed.

Lemma sample_nodes_wf : wf_adjacency sample_nodes.
Proof.
  intros u w. unfold adjacent_of.
  destruct u as [|[|[|[|u]]]]; simpl; rewrite ?elem_of_cons, ?elem_of_nil;
    intros H; decompose [or] H; subst; try lia; done.
Qed.

Lemma find_best_next_hop_contract_witness :
  ∃ r, find_best_next_hop sample_nodes 0 3 = Some r ∧
       ∃ h, r = Z.of_nat h ∧ shortest_first_hop sample_nodes 0 3 h.
Proof.
  destruct (find_best_next_hop_contract sample_nodes 0 3 sample_nodes_wf)
    as (r & Hr & _ & _ & Hrest).
  exists r. split; [exact Hr|].
  destruct Hrest as (_ & Hhop & _).
  - discriminate.
  - intros (a & Ha & Heq). unfold adjacent_of in Ha. simpl in Ha.
    rewrite !elem_of_cons, elem_of_nil in Ha. lia.
  - apply (Hhop 3%nat); [reflexivity|lia|].
    apply (rtc_l _ _ 1%nat); [unfold aedge, adjacent_of; simpl; by left|].
    apply rtc_once. unfold aedge, adjacent_of. simpl. right; by left.
Defined.

(** C4, as stated, fails when the destination is [from_node] itself: in the
    two-node cycle node 0 can be reached from node 0 along directed edges
    (0 → 1 → 0) and is not a direct neighbour of itself, and the router
    answers 0, which no edge joins to node 0 and which therefore is not the
    first hop of any path. *)
Lemma find_best_next_hop_self_counterexample :
  wf_adjacency two_cycle_nodes ∧
  adjacent_of two_cycle_nodes 0 ≠ [] ∧
  ¬ (∃ a, a ∈ adjacent_of two_cycle_nodes 0 ∧ Z.of_nat a = 0) ∧
  nsteps (aedge two_cycle_nodes) 2 0%nat 0%nat ∧
  find_best_next_hop two_cycle_nodes 0 0 = Some 0 ∧
  ¬ aedge two_cycle_nodes 0 0 ∧
  ¬ shortest_first_hop two_cycle_nodes 0 0 0.
Proof.
  assert (Hno : ¬ aedge two_cycle_nodes 0 0).
  { unfold aedge, adjacent_of. simpl. rewrite elem_of_cons, elem_of_nil. lia. }
  split; [|split; [|split; [|split; [|split; [|split]]]]].
  - intros u w. unfold adjacent_of.
    destruct u as [|[|u]]; simpl; rewrite ?elem_of_cons, ?elem_of_nil;
      intros H; decompose [or] H; subst; try lia; done.
  - discriminate.
  - intros (a & Ha & Heq). unfold adjacent_of in Ha. simpl in Ha.
    rewrite elem_of_cons, elem_of_nil in Ha. lia.
  - apply (nsteps_l _ _ _ 1%nat); [unfold aedge, adjacent_of; simpl; by left|].
    apply nsteps_once. unfold aedge, adjacent_of. simpl. by left.
  - by vm_compute.
  - done.
  - by intros [? _].
Qed.

(** ** The order of vehicles and the priority queue *)

Lemma type_to_int_inj t1 t2 : type_to_int t1 = type_to_int t2 → t1 = t2.
Proof. by destruct t1, t2. Qed.

(** [operator<] compares the class first and then prefers the older vehicle. *)
Lemma vehicle_lt_spec a b :
  vehicle_lt a b = true ↔
  type_to_int (type a) < type_to_int (type b) ∨
  (type_to_int (type a) = type_to_int (type b) ∧ arrival_time b < arrival_time a).
Proof.
  unfold vehicle_lt. case_bool_decide as Ht; simpl.
  - rewrite Ht, Z.gtb_ltb, Z.ltb_lt. lia.
  - rewrite Z.ltb_lt. split; [by left|]. intros [?|[?%type_to_int_inj ?]]; done.
Qed.

Lemma vehicle_lt_false a b :
  vehicle_lt a b = false ↔
  type_to_int (type b) < type_to_int (type a) ∨
  (type_to_int (type a) = type_to_int (type b) ∧ arrival_time a ≤ arrival_time b).
Proof.
  rewrite <- not_true_iff_false, vehicle_lt_spec. lia.
Qed.

Lemma vehicle_lt_asym a b : vehicle_lt a b = true → vehicle_lt b a = false.
Proof. rewrite vehicle_lt_spec, vehicle_lt_false. lia. Qed.

Lemma vehicle_lt_false_trans a b c :
  vehicle_lt a b = false → vehicle_lt b c = false → vehicle_lt a c = false.
Proof. rewrite !vehicle_lt_false. lia. Qed.

Lemma pq_extract_None q : pq_extract q = None ↔ q = [].
Proof.
  destruct q as [|x r]; simpl; [done|].
  destruct (pq_extract r) as [[m r']|]; [destruct (vehicle_lt x m)|]; done.
Qed.

(** [top] is an element that is not below any other, and [pop] removes it. *)
Lemma pq_extract_Some q m r :
  pq_extract q = Some (m, r) →
  q ≡ₚ m :: r ∧ Forall (λ y, vehicle_lt m y = false) r.
Proof.
  revert m r. induction q as [|x q IH]; intros m r; simpl; [done|].
  destruct (pq_extract q) as [[m' r']|] eqn:Hq.
  - destruct (IH m' r' eq_refl) as [Hperm Hmax].
    destruct (vehicle_lt x m') eqn:Hlt; intros [= <- <-].
    + split; [rewrite Hperm; apply perm_swap|].
      constructor; [by apply vehicle_lt_asym|done].
    + split; [done|]. rewrite Hperm. constructor; [done|].
      eapply Forall_impl; [exact Hmax|]. intros y Hy. simpl in Hy.
      by eapply vehicle_lt_false_trans.
  - apply pq_extract_None in Hq as ->. intros [= <- <-]. split; [done|constructor].
Qed.

(** ** Engine invariants *)

Lemma length_queue_push v q : length (queue_push v q) = S (length q).
Proof. unfold queue_push. rewrite length_app. simpl. lia. Qed.

Lemma length_pq_push v q : length (pq_push v q) = S (length q).
Proof. unfold pq_push. rewrite length_app. simpl. lia. Qed.

Section NodeInv.
Context (n : nat) (strict : bool).

Lemma select_vehicle_inv nd v is_emergency nd' :
  node_inv n strict None nd →
  select_vehicle nd = Some (v, is_emergency, nd') →
  node_inv n strict (Some v) nd' ∧ is_emergency = emergency_flag v ∧
  get_queue_size nd = S (get_queue_size nd').
Proof.
  intros [Hadj Hw He Hcap Hocc Hb Hint Hover]. unfold select_vehicle, emergency_flag.
  destruct (pq_extract (emergency_queue nd)) as [[m r]|] eqn:Hq.
  - intros [= <- <- <-].
    destruct (pq_extract_Some _ _ _ Hq) as [Hperm _].
    pose proof (Permutation_length Hperm) as Hlen. simpl in Hlen.
    rewrite Hperm in He. apply Forall_cons in He as [Hm Hr].
    split; [|split].
    + split; simpl; [done|done|done|done| |done|done|].
      * unfold get_queue_size in *. simpl in *. lia.
      * intros _ _. right. by exists m.
    + by rewrite bool_decide_eq_false_2.
    + unfold get_queue_size. simpl. lia.
  - apply pq_extract_None in Hq.
    destruct (waiting_queue nd) as [|w rest] eqn:Hwq; [done|].
    intros [= <- <- <-]. apply Forall_cons in Hw as [Hw Hrest].
    split; [|split].
    + split; simpl; [done|done|done|done| |done|done|].
      * unfold get_queue_size in *. rewrite Hwq in Hocc. simpl in *. lia.
      * intros Hs Hlt. destruct (Hover Hs Hlt) as [?|(? & ? & _)]; done.
    + by rewrite bool_decide_eq_true_2.
    + unfold get_queue_size. rewrite Hwq. simpl. lia.
Qed.

Lemma requeue_inv nd v :
  node_inv n strict (Some v) nd →
  node_inv n strict None
    (if emergency_flag v then push_emergency v nd else push_waiting v nd).
Proof.
  intros [Hadj Hw He Hcap Hocc Hb Hint Hover]. unfold emergency_flag.
  case_bool_decide as Ht; simpl.
  - split; simpl; [done| |done|done| |done|done|].
    + apply Forall_app. split; [done|]. by constructor.
    + unfold get_queue_size in *. simpl in *. rewrite length_queue_push. lia.
    + intros Hs Hlt.
      destruct (Hover Hs Hlt) as [?|(? & [= <-] & ?)]; [by left|done].
  - split; simpl; [done|done| |done| |done|done|].
    + apply Forall_app. split; [done|]. by constructor.
    + unfold get_queue_size in *. simpl in *. rewrite length_pq_push. lia.
    + intros _ _. left. unfold pq_push. by destruct (emergency_queue nd).
Qed.

Lemma leave_inv nd v :
  node_inv n strict (Some v) nd →
  0 < current_vehicles nd ∧
  node_inv n strict None (leave_node nd) ∧
  current_vehicles (leave_node nd) = current_vehicles nd - 1.
Proof.
  intros [Hadj Hw He Hcap Hocc Hb Hint Hover]. simpl in Hocc.
  assert (Hpos : 0 < current_vehicles nd) by lia.
  assert (Hpred : int_pred (current_vehicles nd) = current_vehicles nd - 1).
  { apply int_pred_eq. unfold INT_MIN, INT_MAX in *. lia. }
  split; [done|]. split; [|done].
  split; simpl; rewrite ?Hpred; [done|done|done|done| | | |].
  - unfold get_queue_size in *. simpl. lia.
  - intros Hs. specialize (Hb Hs). lia.
  - lia.
  - intros Hs Hlt. specialize (Hb Hs). lia.
Qed.

Lemma enter_inv nd v :
  node_inv n strict None nd →
  current_vehicles nd < max_allowed nd (type v) →
  let nd' := (if bool_decide (type v = REGULAR)
              then push_waiting v else push_emergency v) (enter_node nd) in
  node_inv n strict None nd' ∧ current_vehicles nd' = current_vehicles nd + 1.
Proof.
  intros [Hadj Hw He Hcap Hocc Hb Hint Hover] Hlt. simpl in Hocc.
  unfold max_allowed in Hlt.
  assert (Hsucc : int_succ (current_vehicles nd) = current_vehicles nd + 1).
  { apply int_succ_eq. pose proof (int_wrap_in_int (capacity nd + 1)) as Hw'.
    unfold int_succ, in_int, INT_MIN, INT_MAX in *.
    destruct (bool_decide (type v = REGULAR)); simpl in Hlt; lia. }
  case_bool_decide as Ht; simpl in *.
  - split; [|done].
    split; simpl; rewrite ?Hsucc; [done| |done|done| | | |].
    + apply Forall_app. split; [done|]. by constructor.
    + unfold get_queue_size in *. simpl. rewrite length_queue_push. lia.
    + intros _. lia.
    + unfold in_int, INT_MAX in *. lia.
    + intros _ ?. lia.
  - assert (Hlt' : current_vehicles nd < capacity nd + 1).
    { unfold int_succ, int_wrap, in_int, INT_MIN, INT_MAX in *.
      revert Hlt. Z.div_mod_to_equations. lia. }
    assert (Hlt'' : current_vehicles nd < INT_MAX).
    { pose proof (int_wrap_in_int (capacity nd + 1)) as Hw'.
      unfold int_succ, in_int, INT_MIN, INT_MAX in *. lia. }
    split; [|done].
    split; simpl; rewrite ?Hsucc; [done|done| |done| | | |].
    + apply Forall_app. split; [done|]. by constructor.
    + unfold get_queue_size in *. simpl. rewrite length_pq_push. lia.
    + intros _. lia.
    + lia.
    + intros _ _. left. unfold pq_push. by destruct (emergency_queue nd).
Qed.
End NodeInv.

Lemma total_occupancy_alter f i ns nd :
  ns !! i = Some nd →
  total_occupancy (alter f i ns)
  = total_occupancy ns - current_vehicles nd + current_vehicles (f nd).
Proof.
  revert i. induction ns as [|x ns IH]; intros [|i] Hi; simplify_eq/=; [lia|].
  rewrite (IH i Hi). lia.
Qed.

Lemma total_occupancy_insert i ns nd nd' :
  ns !! i = Some nd →
  total_occupancy (<[i:=nd']> ns)
  = total_occupancy ns - current_vehicles nd + current_vehicles nd'.
Proof.
  revert i. induction ns as [|x ns IH]; intros [|i] Hi; simplify_eq/=; [lia|].
  rewrite (IH i Hi). lia.
Qed.

Lemma total_occupancy_nonneg ns :
  (∀ j nd, ns !! j = Some nd → 0 ≤ current_vehicles nd) → 0 ≤ total_occupancy ns.
Proof.
  induction ns as [|x ns IH]; intros H; simpl; [lia|].
  pose proof (H 0%nat x eq_refl). 
  assert (0 ≤ total_occupancy ns); [|lia].
  apply IH. intros j nd Hj. by apply (H (S j)).
Qed.

Lemma total_queued_occupancy ns :
  (∀ j nd, ns !! j = Some nd → current_vehicles nd = Z.of_nat (get_queue_size nd)) →
  total_queued ns = total_occupancy ns.
Proof.
  induction ns as [|x ns IH]; intros H; simpl; [done|].
  rewrite (H 0%nat x eq_refl), IH; [done|].
  intros j nd Hj. by apply (H (S j)).
Qed.

Section NetInv.
Context (n : nat) (strict : bool).

Lemma net_inv_wf p net : net_inv n strict p net → wf_adjacency (nodes net).
Proof.
  intros [Hlen Hall] u w. unfold adjacent_of. rewrite list_lookup_total_alt.
  destruct (nodes net !! u) as [nd|] eqn:Hu; simpl.
  - intros Hw. rewrite Hlen.
    by apply (proj1 (Forall_forall _ _) (ni_adj _ _ _ _ (Hall u nd Hu))).
  - by intros ?%elem_of_nil.
Qed.

Lemma net_inv_nonneg p net j nd :
  net_inv n strict p net → nodes net !! j = Some nd → 0 ≤ current_vehicles nd.
Proof.
  intros [_ Hall] Hj. rewrite (ni_occ _ _ _ _ (Hall j nd Hj)).
  destruct (p j); simpl; lia.
Qed.

Lemma net_inv_alter p p' net i f nd :
  net_inv n strict p net → nodes net !! i = Some nd →
  node_inv n strict (p' i) (f nd) → (∀ j, j ≠ i → p' j = p j) →
  net_inv n strict p' (update_node i f net).
Proof.
  intros [Hlen Hall] Hi Hf Hp. split; simpl; [by rewrite length_alter|].
  intros j nd'. destruct (decide (j = i)) as [->|Hne].
  - rewrite list_lookup_alter_eq, Hi. by intros [= <-].
  - rewrite list_lookup_alter_ne by done. rewrite Hp by done. apply Hall.
Qed.

Lemma net_inv_insert p p' net i nd nd' :
  net_inv n strict p net → nodes net !! i = Some nd →
  node_inv n strict (p' i) nd' → (∀ j, j ≠ i → p' j = p j) →
  net_inv n strict p' (set_nodes (<[i:=nd']> (nodes net)) net).
Proof.
  intros [Hlen Hall] Hi Hf Hp. split; simpl; [by rewrite length_insert|].
  intros j nd''. destruct (decide (j = i)) as [->|Hne].
  - rewrite list_lookup_insert_eq by by eapply lookup_lt_Some. by intros [= <-].
  - rewrite list_lookup_insert_ne by done. rewrite Hp by done. apply Hall.
Qed.

(** Requeueing the vehicle the engine holds. *)
Lemma return_vehicle_to_queue_inv v from net :
  net_inv n strict (pending_at from v) net → (from < n)%nat →
  let net' := return_vehicle_to_queue v from (emergency_flag v) net in
  net_inv n strict no_pending net' ∧
  total_occupancy (nodes net') = total_occupancy (nodes net) ∧
  stats net' = stats net ∧ next_vehicle_id net' = next_vehicle_id net.
Proof.
  intros Hinv Hfrom. pose proof Hinv as [Hlen Hall].
  destruct (lookup_lt_is_Some_2 (nodes net) from) as [nd Hnd]; [lia|].
  pose proof (Hall from nd Hnd) as Hni. unfold pending_at in Hni.
  rewrite decide_True in Hni by done.
  pose proof (requeue_inv n strict nd v Hni) as Hre.
  unfold return_vehicle_to_queue. destruct (emergency_flag v); simpl.
  - split; [|split; [|done]].
    + eapply net_inv_alter; [exact Hinv|exact Hnd|exact Hre|].
      intros j Hj. unfold pending_at, no_pending. by rewrite decide_False.
    + rewrite (total_occupancy_alter _ _ _ _ Hnd). simpl. lia.
  - split; [|split; [|done]].
    + eapply net_inv_alter; [exact Hinv|exact Hnd|exact Hre|].
      intros j Hj. unfold pending_at, no_pending. by rewrite decide_False.
    + rewrite (total_occupancy_alter _ _ _ _ Hnd). simpl. lia.
Qed.

(** "Remove from source" while the engine holds a vehicle of the node. *)
Lemma remove_from_source_inv v from net :
  net_inv n strict (pending_at from v) net → (from < n)%nat →
  let net' := remove_from_source from net in
  nodes net' = alter leave_node from (nodes net) ∧
  net_inv n strict no_pending net' ∧
  total_occupancy (nodes net') = total_occupancy (nodes net) - 1 ∧
  stats net' = stats net ∧ next_vehicle_id net' = next_vehicle_id net ∧
  console net' = console net.
Proof.
  intros Hinv Hfrom. pose proof Hinv as [Hlen Hall].
  destruct (lookup_lt_is_Some_2 (nodes net) from) as [nd Hnd]; [lia|].
  pose proof (Hall from nd Hnd) as Hni. unfold pending_at in Hni.
  rewrite decide_True in Hni by done.
  destruct (leave_inv n strict nd v Hni) as (Hpos & Hleave & Hocc).
  unfold remove_from_source. rewrite (list_lookup_total_correct _ _ _ Hnd).
  rewrite Z.gtb_ltb. destruct (0 <? current_vehicles nd) eqn:E; [|lia].
  simpl. split; [done|]. split; [|split; [|done]].
  - eapply net_inv_alter; [exact Hinv|exact Hnd|exact Hleave|].
    intros j Hj. unfold pending_at, no_pending. by rewrite decide_False.
  - rewrite (total_occupancy_alter _ _ _ _ Hnd), Hocc. lia.
Qed.

(** The admission check answers for a node of the network. *)
Lemma can_move_to_node_safe_true net to t :
  can_move_to_node_safe net to t = true →
  0 ≤ to < Z.of_nat (length (nodes net)) ∧
  current_vehicles (nodes net !!! Z.to_nat to)
    < max_allowed (nodes net !!! Z.to_nat to) t.
Proof.
  unfold can_move_to_node_safe, max_allowed.
  destruct (to <? 0) eqn:E1; simpl; [done|].
  destruct (to >=? Z.of_nat (length (nodes net))) eqn:E2; simpl; [done|].
  intros H%Z.ltb_lt. split; [lia|done].
Qed.

(** Entering the admitted node and joining the queue of the class. *)
Lemma enter_and_push_inv v to net :
  net_inv n strict no_pending net → (to < n)%nat →
  current_vehicles (nodes net !!! to) < max_allowed (nodes net !!! to) (type v) →
  let net1 := update_node to enter_node net in
  let net' := if bool_decide (type v = REGULAR)
              then update_node to (push_waiting v) net1
              else update_node to (push_emergency v) net1 in
  net_inv n strict no_pending net' ∧
  total_occupancy (nodes net') = total_occupancy (nodes net) + 1 ∧
  stats net' = stats net ∧ next_vehicle_id net' = next_vehicle_id net.
Proof.
  intros Hinv Hto Hlt. pose proof Hinv as [Hlen Hall].
  destruct (lookup_lt_is_Some_2 (nodes net) to) as [nd Hnd]; [lia|].
  rewrite (list_lookup_total_correct _ _ _ Hnd) in Hlt.
  destruct (enter_inv n strict nd v (Hall to nd Hnd) Hlt) as [Hni Hocc].
  assert (H1 : nodes (update_node to enter_node net) !! to = Some (enter_node nd)).
  { simpl. by rewrite list_lookup_alter_eq, Hnd. }
  assert (Hinv1 : ∀ f, node_inv n strict None (f (enter_node nd)) →
            net_inv n strict no_pending (update_node to f (update_node to enter_node net))).
  { intros f Hf. split; simpl; [by rewrite !length_alter|].
    intros j nd'. destruct (decide (j = to)) as [->|Hne].
    - rewrite !list_lookup_alter_eq, Hnd. by intros [= <-].
    - rewrite !list_lookup_alter_ne by done. apply Hall. }
  assert (Hsum : ∀ f, total_occupancy (nodes (update_node to f (update_node to enter_node net)))
            = total_occupancy (nodes net) - current_vehicles nd
              + current_vehicles (f (enter_node nd))).
  { intros f. simpl. rewrite (total_occupancy_alter f to _ (enter_node nd));
      [|by rewrite list_lookup_alter_eq, Hnd].
    rewrite (total_occupancy_alter _ _ _ _ Hnd). lia. }
  simpl in Hni, Hocc. case_bool_decide as Ht; simpl; simpl in Hocc.
  - split; [by apply Hinv1|]. split; [|done].
    specialize (Hsum (push_waiting v)). simpl in Hsum. rewrite Hsum. lia.
  - split; [by apply Hinv1|]. split; [|done].
    specialize (Hsum (push_emergency v)). simpl in Hsum. rewrite Hsum. lia.
Qed.
End NetInv.

(** ** Admitted moves *)

Lemma remove_from_source_lookup from net j nd :
  in_int (current_vehicles (nodes net !!! from)) →
  nodes net !! j = Some nd →
  ∃ nd', nodes (remove_from_source from net) !! j = Some nd' ∧
         capacity nd' = capacity nd ∧
         current_vehicles nd' ≤ current_vehicles nd.
Proof.
  intros Hint Hj. unfold remove_from_source. rewrite Z.gtb_ltb.
  destruct (0 <? current_vehicles (nodes net !!! from)) eqn:E.
  - simpl. destruct (decide (j = from)) as [->|Hne].
    + rewrite list_lookup_alter_eq, Hj. simpl. eexists. split; [done|].
      rewrite (list_lookup_total_correct _ _ _ Hj) in Hint, E.
      simpl. split; [done|]. rewrite int_pred_eq; [lia|].
      unfold in_int, INT_MIN, INT_MAX in *. lia.
    + rewrite list_lookup_alter_ne by done. exists nd. split; [done|]. split; [done|lia].
  - exists nd. split; [done|]. split; [done|lia].
Qed.

Lemma remove_from_source_length from net :
  length (nodes (remove_from_source from net)) = length (nodes net).
Proof.
  unfold remove_from_source. destruct (_ >? _); simpl; [by rewrite length_alter|done].
Qed.

Lemma remove_from_source_node from net j nd :
  in_int (current_vehicles (nodes net !!! from)) →
  nodes net !! j = Some nd →
  nodes (remove_from_source from net) !! j
  = Some (if bool_decide (j = from)
          then set_current_vehicles (departed_occupancy (current_vehicles nd)) nd
          else nd).
Proof.
  intros Hint Hj. unfold remove_from_source, departed_occupancy.
  case_bool_decide as Hjf.
  - subst j. rewrite (list_lookup_total_correct _ _ _ Hj) in *.
    destruct (current_vehicles nd >? 0) eqn:E.
    + simpl. rewrite list_lookup_alter_eq, Hj. simpl. unfold leave_node.
      rewrite int_pred_eq; [done|]. unfold in_int, INT_MIN, INT_MAX in *. lia.
    + rewrite Hj. by destruct nd.
  - destruct (_ >? 0); [|done]. simpl. by rewrite list_lookup_alter_ne.
Qed.

Lemma admitted_move_display vehicle from_node to_node net :
  in_int (current_vehicles (nodes net !!! from_node)) →
  can_move_to_node_safe net to_node (type vehicle) = true →
  admitted_move_post vehicle from_node to_node net
    (perform_vehicle_move_with_display vehicle from_node to_node net).
Proof.
  intros Hint [Hrange _]%can_move_to_node_safe_true.
  unfold admitted_move_post, perform_vehicle_move_with_display.
  set (src := remove_from_source from_node net).
  assert (Hs : stats src = stats net ∧ next_vehicle_id src = next_vehicle_id net).
  { unfold src, remove_from_source. by destruct (_ >? _). }
  destruct Hs as [Hs Hid].
  assert (Hlen : length (nodes src) = length (nodes net))
    by apply remove_from_source_length.
  assert (Hsrc : ∀ j nd, nodes net !! j = Some nd →
            nodes src !! j
            = Some (if bool_decide (j = from_node)
                    then set_current_vehicles
                           (departed_occupancy (current_vehicles nd)) nd
                    else nd))
    by (intros j nd; by apply remove_from_source_node).
  clearbody src.
  change (destination_node (set_current_node to_node vehicle))
    with (destination_node vehicle).
  change (type (set_current_node to_node vehicle)) with (type vehicle).
  destruct (to_node =? destination_node vehicle) eqn:Hdest.
  - apply Z.eqb_eq in Hdest. rewrite (bool_decide_true (to_node = _)) by done.
    simpl. rewrite Hs, Hid, Hlen. unfold record_arrival.
    case_bool_decide as Ht; simpl; (repeat (split; [done|])); intros j nd Hj;
      rewrite (Hsrc _ _ Hj); eexists; (split; [done|]);
      rewrite andb_false_r; simpl; by case_bool_decide.
  - apply Z.eqb_neq in Hdest. rewrite (bool_decide_false (to_node = _)) by done.
    assert (Hin : ∀ f g j nd, nodes net !! j = Some nd →
              alter f (Z.to_nat to_node) (alter g (Z.to_nat to_node) (nodes src)) !! j
              = Some (let nd0 := if bool_decide (j = from_node)
                                 then set_current_vehicles
                                        (departed_occupancy (current_vehicles nd)) nd
                                 else nd in
                      if bool_decide (j = Z.to_nat to_node) then f (g nd0) else nd0)).
    { intros f g j nd Hj. destruct (decide (j = Z.to_nat to_node)) as [->|Hjt].
      - rewrite !list_lookup_alter_eq, (Hsrc _ _ Hj).
        by rewrite (bool_decide_true (_ = Z.to_nat _)).
      - rewrite !list_lookup_alter_ne, (Hsrc _ _ Hj) by done.
        by rewrite (bool_decide_false (_ = Z.to_nat _)). }
    case_bool_decide as Ht; simpl; rewrite Hs, Hid, !length_alter, Hlen;
      (repeat (split; [done|])); intros j nd Hj; rewrite (Hin _ _ _ _ Hj);
      eexists; (split; [done|]); rewrite andb_true_r; simpl;
      destruct (bool_decide (j = Z.to_nat to_node)); simpl;
      by case_bool_decide.
Qed.

(** After an allowed admission the second capacity test of
    [perform_vehicle_move] succeeds, and the function ends in the state of
    [perform_vehicle_move_with_display], console apart. *)
Lemma perform_vehicle_move_admitted vehicle from_node to_node net :
  in_int (current_vehicles (nodes net !!! from_node)) →
  can_move_to_node_safe net to_node (type vehicle) = true →
  let res := perform_vehicle_move vehicle from_node to_node net in
  let res' := perform_vehicle_move_with_display vehicle from_node to_node net in
  res.1 = res'.1 ∧ nodes res.2 = nodes res'.2 ∧ stats res.2 = stats res'.2 ∧
  next_vehicle_id res.2 = next_vehicle_id res'.2 ∧ console res.2 = console net.
Proof.
  intros Hint [Hrange Hlt]%can_move_to_node_safe_true.
  unfold perform_vehicle_move, perform_vehicle_move_with_display.
  set (src := remove_from_source from_node net).
  assert (Hc : console src = console net).
  { unfold src, remove_from_source. by destruct (_ >? _). }
  change (destination_node (set_current_node to_node vehicle))
    with (destination_node vehicle).
  change (type (set_current_node to_node vehicle)) with (type vehicle).
  destruct (to_node =? destination_node vehicle) eqn:Hdest; simpl; [done|].
  destruct (lookup_lt_is_Some_2 (nodes net) (Z.to_nat to_node)) as [nd Hnd]; [lia|].
  destruct (remove_from_source_lookup from_node net _ nd Hint Hnd)
    as (nd' & Hnd' & Hcap & Hocc).
  fold src in Hnd'.
  rewrite (list_lookup_total_correct _ _ _ Hnd) in Hlt.
  rewrite (list_lookup_total_correct _ _ _ Hnd').
  unfold max_allowed in Hlt. rewrite Hcap.
  destruct (current_vehicles nd' <? _) eqn:E.
  - by case_bool_decide.
  - apply Z.ltb_ge in E. lia.
Qed.

Lemma admitted_move_automatic vehicle from_node to_node net :
  in_int (current_vehicles (nodes net !!! from_node)) →
  can_move_to_node_safe net to_node (type vehicle) = true →
  admitted_move_post vehicle from_node to_node net
    (perform_vehicle_move vehicle from_node to_node net).
Proof.
  intros Hint Hcan.
  destruct (perform_vehicle_move_admitted vehicle from_node to_node net Hint Hcan)
    as (Hv & Hn & Hs & Hid & _).
  pose proof (admitted_move_display vehicle from_node to_node net Hint Hcan) as Hpost.
  unfold admitted_move_post in *. by rewrite Hv, Hn, Hs, Hid.
Qed.

(** C9, amended.  When the admission of the vehicle to the candidate node is
    allowed (and the occupancy of the source is an [int]), both move
    functions decrement the occupancy of the source when it is positive, set
    the current node of the vehicle and increment the total-move counter, in
    both branches.  Then, if the candidate is the destination of the
    vehicle, the per-class processed counter and the successful-route
    counter are incremented, the vehicle enters no queue and no occupancy is
    incremented; otherwise the occupancy of the candidate is incremented,
    the vehicle is pushed to the queue of its class there, and the trip
    counters stay.  Nothing else changes in the nodes or in the
    statistics. *)
Theorem admitted_move_postcondition vehicle from_node to_node net :
  in_int (current_vehicles (nodes net !!! from_node)) →
  can_move_to_node_safe net to_node (type vehicle) = true →
  admitted_move_post vehicle from_node to_node net
    (perform_vehicle_move_with_display vehicle from_node to_node net) ∧
  admitted_move_post vehicle from_node to_node net
    (perform_vehicle_move vehicle from_node to_node net).
Proof.
  intros Hint Hcan. split.
  - by apply admitted_move_display.
  - by apply admitted_move_automatic.
Qed.

Lemma admitted_move_postcondition_witness :
  (admitted_move_post arriving_vehicle 0 1 arrival_net
     (perform_vehicle_move_with_display arriving_vehicle 0 1 arrival_net) ∧
   admitted_move_post arriving_vehicle 0 1 arrival_net
     (perform_vehicle_move arriving_vehicle 0 1 arrival_net)) ∧
  (admitted_move_post passing_vehicle 0 1 arrival_net
     (perform_vehicle_move_with_display passing_vehicle 0 1 arrival_net) ∧
   admitted_move_post passing_vehicle 0 1 arrival_net
     (perform_vehicle_move passing_vehicle 0 1 arrival_net)).
Proof.
  split.
  - refine (admitted_move_postcondition arriving_vehicle 0 1 arrival_net _ _).
    + vm_compute. split; discriminate.
    + reflexivity.
  - refine (admitted_move_postcondition passing_vehicle 0 1 arrival_net _ _).
    + vm_compute. split; discriminate.
    + reflexivity.
Defined.

(** C9, as stated, fails on a completed trip: the admission of the vehicle
    to node 1, its destination, is allowed; both move functions decrement
    the occupancy of node 0, leave the occupancy of node 1 as it was and
    increment the total-move counter. *)
Lemma completed_trip_counterexample :
  can_move_to_node_safe arrival_net 1 (type arriving_vehicle) = true ∧
  destination_node arriving_vehicle = 1 ∧
  current_vehicles (nodes arrival_net !!! 0%nat) = 1 ∧
  current_vehicles (nodes arrival_net !!! 1%nat) = 0 ∧
  total_moves (stats arrival_net) = 0 ∧
  (let net' := (perform_vehicle_move arriving_vehicle 0 1 arrival_net).2 in
   current_vehicles (nodes net' !!! 0%nat) = 0 ∧
   current_vehicles (nodes net' !!! 1%nat) = 0 ∧
   total_moves (stats net') = 1 ∧ successful_routes (stats net') = 1) ∧
  (let net' := (perform_vehicle_move_with_display arriving_vehicle 0 1 arrival_net).2 in
   current_vehicles (nodes net' !!! 0%nat) = 0 ∧
   current_vehicles (nodes net' !!! 1%nat) = 0 ∧
   total_moves (stats net') = 1 ∧ successful_routes (stats net') = 1).
Proof. by vm_compute. Qed.

(** ** Preservation of the invariants *)

Lemma net_inv_ext n strict p net net' :
  nodes net' = nodes net → net_inv n strict p net → net_inv n strict p net'.
Proof. unfold net_inv. by intros ->. Qed.

Lemma cons_inv_ext net net' :
  total_occupancy (nodes net') = total_occupancy (nodes net) →
  total_vehicles_processed (stats net') = total_vehicles_processed (stats net) →
  emergency_vehicles_processed (stats net')
    = emergency_vehicles_processed (stats net) →
  next_vehicle_id net' = next_vehicle_id net →
  cons_inv net → cons_inv net'.
Proof.
  intros Hn Ht He Hid [H1 H2 H3 H4].
  unfold vehicles_completed, vehicles_created in *.
  split; unfold vehicles_completed, vehicles_created; rewrite ?Hn, ?Ht, ?He, ?Hid; done.
Qed.

Section Preservation.
Context (n : nat) (strict : bool).

Lemma held_vehicle_int v from net :
  net_inv n strict (pending_at from v) net → (from < n)%nat →
  in_int (current_vehicles (nodes net !!! from)).
Proof.
  intros Hinv Hfrom. pose proof Hinv as [Hlen Hall].
  destruct (lookup_lt_is_Some_2 (nodes net) from) as [nd Hnd]; [lia|].
  rewrite (list_lookup_total_correct _ _ _ Hnd).
  pose proof (net_inv_nonneg n strict _ net from nd Hinv Hnd).
  pose proof (ni_int _ _ _ _ (Hall from nd Hnd)).
  unfold in_int, INT_MIN. lia.
Qed.

Lemma perform_vehicle_move_with_display_inv v from to net :
  net_inv n strict (pending_at from v) net → (from < n)%nat →
  can_move_to_node_safe net to (type v) = true →
  let res := perform_vehicle_move_with_display v from to net in
  net_inv n strict no_pending res.2 ∧ (cons_inv net → cons_inv res.2).
Proof.
  intros Hinv Hfrom Hcan.
  destruct (remove_from_source_inv n strict v from net Hinv Hfrom)
    as (Hsrc & Hinv' & Hsum & Hst & Hid & _).
  pose proof Hinv as [Hlen Hall].
  pose proof (held_vehicle_int v from net Hinv Hfrom) as Hint.
  apply can_move_to_node_safe_true in Hcan as [Hrange Hlt].
  assert (Hnn : 0 ≤ total_occupancy (nodes (remove_from_source from net))).
  { apply total_occupancy_nonneg. intros j nd Hj.
    by apply (net_inv_nonneg n strict _ _ j nd Hinv'). }
  unfold perform_vehicle_move_with_display.
  set (src := remove_from_source from net) in *.
  change (destination_node (set_current_node to v)) with (destination_node v).
  change (type (set_current_node to v)) with (type v).
  destruct (to =? destination_node v) eqn:Hdest; simpl.
  - split; [by eapply net_inv_ext; [|exact Hinv']|].
    intros [H1 H2 H3 H4]. unfold vehicles_completed, vehicles_created in *.
    unfold record_arrival.
    change (type (set_current_node to v)) with (type v).
    destruct (bool_decide (type v = REGULAR));
      split; unfold vehicles_completed, vehicles_created; simpl;
      rewrite ?Hst, ?Hid; simpl;
      rewrite ?int_succ_eq by (unfold INT_MIN, INT_MAX in *; lia);
      unfold INT_MAX in *; lia.
  - destruct (lookup_lt_is_Some_2 (nodes net) (Z.to_nat to)) as [nd Hnd]; [lia|].
    destruct (remove_from_source_lookup from net _ nd Hint Hnd)
      as (nd' & Hnd' & Hcap & Hocc).
    fold src in Hnd'.
    rewrite (list_lookup_total_correct _ _ _ Hnd) in Hlt.
    set (net2 := with_stats incr_total_moves
                   (emit (EvMove (set_current_node to v) from to) src)).
    destruct (enter_and_push_inv n strict (set_current_node to v) (Z.to_nat to) net2)
      as (Hinv2 & Hsum2 & Hst2 & Hid2).
    { by eapply net_inv_ext; [|exact Hinv']. }
    { lia. }
    { change (nodes net2) with (nodes src).
      rewrite (list_lookup_total_correct _ _ _ Hnd').
      unfold max_allowed in *. rewrite Hcap. simpl. lia. }
    change (type (set_current_node to v)) with (type v) in *.
    simpl in Hinv2, Hsum2, Hst2, Hid2.
    destruct (bool_decide (type v = REGULAR)); simpl; simpl in Hsum2, Hst2, Hid2.
    + split; [by eapply net_inv_ext; [|exact Hinv2]|].
      intros [H1 H2 H3 H4]. unfold vehicles_completed, vehicles_created in *.
      split; unfold vehicles_completed, vehicles_created; simpl;
        rewrite ?Hsum2, ?Hst2, ?Hid2, ?Hst, ?Hid; simpl; lia.
    + split; [by eapply net_inv_ext; [|exact Hinv2]|].
      intros [H1 H2 H3 H4]. unfold vehicles_completed, vehicles_created in *.
      split; unfold vehicles_completed, vehicles_created; simpl;
        rewrite ?Hsum2, ?Hst2, ?Hid2, ?Hst, ?Hid; simpl; lia.
Qed.

Lemma find_best_next_hop_total p net from destination :
  net_inv n strict p net →
  ∃ r, find_best_next_hop (nodes net) from destination = Some r.
Proof.
  intros Hinv.
  destruct (find_best_next_hop_cases (nodes net) from destination
              (net_inv_wf n strict p net Hinv)) as (r & Hr & _).
  by exists r.
Qed.

Lemma requeue_keeps v from net net0 :
  net_inv n strict (pending_at from v) net → (from < n)%nat →
  nodes net0 = nodes net → stats net0 = stats net →
  next_vehicle_id net0 = next_vehicle_id net →
  let net' := return_vehicle_to_queue v from (emergency_flag v) net0 in
  net_inv n strict no_pending net' ∧ (cons_inv net → cons_inv net') ∧
  stats net' = stats net.
Proof.
  intros Hinv Hfrom Hn Hs Hid.
  destruct (return_vehicle_to_queue_inv n strict v from net0)
    as (Hi & Hsum & Hst & Hid');
    [by eapply net_inv_ext; [|exact Hinv]|done|].
  split; [done|]. split; [|congruence].
  intros Hcons. eapply cons_inv_ext; [| | | |exact Hcons]; congruence.
Qed.

Lemma process_vehicle_step_by_step_inv v from net :
  net_inv n strict (pending_at from v) net → (from < n)%nat →
  ∃ b v' net',
    process_vehicle_step_by_step v from (emergency_flag v) net = Some (b, v', net') ∧
    net_inv n strict no_pending net' ∧ (cons_inv net → cons_inv net').
Proof.
  intros Hinv Hfrom. unfold process_vehicle_step_by_step.
  set (net0 := emit (EvProcessing v from) net).
  destruct (find_best_next_hop_total _ net from (destination_node v) Hinv)
    as (next & Hnext).
  change (nodes net0) with (nodes net). rewrite Hnext. simpl.
  destruct (next =? -1) eqn:Hno.
  - destruct (requeue_keeps v from net (emit EvNoPath net0)) as (? & ? & _);
      [done..|].
    by eexists _, _, _.
  - destruct (can_move_to_node_safe net0 next (type v)) eqn:Hcan.
    + destruct (perform_vehicle_move_with_display_inv v from next net0) as [Hi Hc];
        [by eapply net_inv_ext; [|exact Hinv]|done|done|].
      destruct (perform_vehicle_move_with_display v from next net0) as [v' net'].
      eexists _, _, _. split; [done|]. split; [done|].
      intros Hcons. apply Hc. eapply cons_inv_ext; [| | | |exact Hcons]; done.
    + destruct (requeue_keeps v from net (emit (EvBlocked next) net0))
        as (? & ? & _); [done..|].
      by eexists _, _, _.
Qed.

Lemma perform_vehicle_move_inv v from to net :
  net_inv n strict (pending_at from v) net → (from < n)%nat →
  can_move_to_node_safe net to (type v) = true →
  let res := perform_vehicle_move v from to net in
  net_inv n strict no_pending res.2 ∧ (cons_inv net → cons_inv res.2).
Proof.
  intros Hinv Hfrom Hcan.
  destruct (perform_vehicle_move_with_display_inv v from to net) as [Hi Hc];
    [done..|].
  destruct (perform_vehicle_move_admitted v from to net) as (_ & Hn & Hs & Hid & _);
    [by eapply held_vehicle_int|done|].
  simpl. split; [by eapply net_inv_ext; [|exact Hi]|].
  intros Hcons. eapply cons_inv_ext; [| | | |exact (Hc Hcons)]; congruence.
Qed.

Lemma process_vehicle_inv v from net :
  net_inv n strict (pending_at from v) net → (from < n)%nat →
  ∃ v' net',
    process_vehicle v from (emergency_flag v) net = Some (v', net') ∧
    net_inv n strict no_pending net' ∧ (cons_inv net → cons_inv net').
Proof.
  intros Hinv Hfrom. unfold process_vehicle.
  destruct (find_best_next_hop_total _ net from (destination_node v) Hinv)
    as (next & Hnext).
  rewrite Hnext. simpl.
  destruct (requeue_keeps v from net net) as (Hri & Hrc & Hrs); [done..|].
  destruct (next =? -1) eqn:Hno; [by eexists _, _|].
  destruct (can_move_to_node_safe net next (type v)) eqn:Hcan.
  - destruct (perform_vehicle_move_inv v from next net) as [? ?]; [done..|].
    destruct (perform_vehicle_move v from next net) as [v' net'].
    by eexists _, _.
  - destruct (_ >? 5); [|by eexists _, _].
    eexists _, _. split; [done|]. unfold attempt_rerouting. simpl.
    split; [by eapply net_inv_ext; [|exact Hri]|].
    intros Hcons. eapply cons_inv_ext; [| | | |exact (Hrc Hcons)]; done.
Qed.

(** Taking the selected vehicle out of its queue. *)
Lemma select_vehicle_net_inv net i nd v is_emergency nd' :
  net_inv n strict no_pending net →
  nodes net !! i = Some nd →
  select_vehicle nd = Some (v, is_emergency, nd') →
  let net' := set_nodes (<[i:=nd']> (nodes net)) net in
  net_inv n strict (pending_at i v) net' ∧ (cons_inv net → cons_inv net') ∧
  is_emergency = emergency_flag v.
Proof.
  intros Hinv Hi Hsel. pose proof Hinv as [Hlen Hall].
  pose proof (Hall i nd Hi) as Hni. unfold no_pending in Hni.
  destruct (select_vehicle_inv n strict nd v is_emergency nd' Hni Hsel)
    as (Hni' & Hflag & Hsize).
  split; [|split; [|done]].
  - eapply net_inv_insert; [exact Hinv|exact Hi| |].
    + unfold pending_at. by rewrite decide_True.
    + intros j Hj. unfold pending_at, no_pending. by rewrite decide_False.
  - intros Hcons. eapply cons_inv_ext; [| | | |exact Hcons]; try done.
    simpl. rewrite (total_occupancy_insert _ _ _ _ Hi).
    rewrite (ni_occ _ _ _ _ Hni), (ni_occ _ _ _ _ Hni'), Hsize. simpl. lia.
Qed.

Lemma process_single_vehicle_movement_inv i net :
  net_inv n strict no_pending net →
  ∃ b net', process_single_vehicle_movement i net = Some (b, net') ∧
            net_inv n strict no_pending net' ∧ (cons_inv net → cons_inv net').
Proof.
  intros Hinv. unfold process_single_vehicle_movement.
  pose proof Hinv as [Hlen Hall].
  destruct (decide (length (nodes net) ≤ i)%nat) as [Hge|Hlt]; [by eexists _, _|].
  destruct (lookup_lt_is_Some_2 (nodes net) i) as [nd Hnd]; [lia|].
  rewrite (list_lookup_total_correct _ _ _ Hnd).
  destruct (select_vehicle nd) as [[[v is_emergency] nd']|] eqn:Hsel;
    [|by eexists _, _].
  destruct (select_vehicle_net_inv net i nd v is_emergency nd' Hinv Hnd Hsel)
    as (Hmid & Hcmid & ->).
  destruct (process_vehicle_step_by_step_inv v i _ Hmid ltac:(lia))
    as (b & v' & net' & Hp & Hi' & Hc').
  simpl in Hp |- *. rewrite Hp. simpl. eexists _, _. split; [done|].
  split; [done|]. intros Hcons. by apply Hc', Hcmid.
Qed.

Lemma process_node_vehicles_inv i net :
  net_inv n strict no_pending net →
  ∃ net', process_node_vehicles i net = Some net' ∧
          net_inv n strict no_pending net' ∧ (cons_inv net → cons_inv net').
Proof.
  intros Hinv. unfold process_node_vehicles.
  pose proof Hinv as [Hlen Hall].
  destruct (decide (length (nodes net) ≤ i)%nat) as [Hge|Hlt]; [by eexists|].
  destruct (lookup_lt_is_Some_2 (nodes net) i) as [nd Hnd]; [lia|].
  rewrite (list_lookup_total_correct _ _ _ Hnd).
  destruct (select_vehicle nd) as [[[v is_emergency] nd']|] eqn:Hsel;
    [|by eexists].
  destruct (select_vehicle_net_inv net i nd v is_emergency nd' Hinv Hnd Hsel)
    as (Hmid & Hcmid & ->).
  destruct (process_vehicle_inv v i _ Hmid ltac:(lia))
    as (v' & net' & Hp & Hi' & Hc').
  simpl in Hp |- *. rewrite Hp. simpl. eexists. split; [done|].
  split; [done|]. intros Hcons. by apply Hc', Hcmid.
Qed.

Lemma step_scan_inv idxs net :
  net_inv n strict no_pending net →
  ∃ b net', step_scan idxs net = Some (b, net') ∧
            net_inv n strict no_pending net' ∧ (cons_inv net → cons_inv net').
Proof.
  revert net. induction idxs as [|i rest IH]; intros net Hinv; simpl.
  - by eexists _, _.
  - case_bool_decide; [|by apply IH].
    destruct (process_single_vehicle_movement_inv i net Hinv)
      as ([] & net' & -> & Hi & Hc); simpl; [by eexists _, _|].
    destruct (IH net' Hi) as (b & net'' & -> & Hi' & Hc').
    eexists _, _. split; [done|]. split; [done|]. intros ?. by apply Hc', Hc.
Qed.

Lemma sweep_nodes_inv idxs net :
  net_inv n strict no_pending net →
  ∃ net', sweep_nodes idxs net = Some net' ∧
          net_inv n strict no_pending net' ∧ (cons_inv net → cons_inv net').
Proof.
  revert net. induction idxs as [|i rest IH]; intros net Hinv; simpl.
  - by eexists.
  - case_bool_decide; [|by apply IH].
    destruct (process_node_vehicles_inv i net Hinv)
      as (net' & -> & Hi & Hc); simpl.
    destruct (IH net' Hi) as (net'' & -> & Hi' & Hc').
    eexists. split; [done|]. split; [done|]. intros ?. by apply Hc', Hc.
Qed.
End Preservation.

(** ** Runs of the engine *)

Lemma initial_net_inv strict net :
  wf_network net → occupancy_is_queue_size net →
  (strict = true → within_capacity net) →
  net_inv (length (nodes net)) strict no_pending net.
Proof.
  intros [Hadj Hw He Hcap Hocc] Hsize Hwithin. split; [done|].
  intros j nd Hj. assert (Hin : nd ∈ nodes net) by by eapply list_elem_of_lookup_2.
  pose proof (Hocc nd Hin) as [_ ?].
  split; simpl; auto.
  - rewrite (Hsize nd Hin). simpl. lia.
  - intros Hs. specialize (Hwithin Hs nd Hin). lia.
  - intros Hs Hlt. specialize (Hwithin Hs nd Hin). lia.
Qed.

Lemma run_op_inv n strict op net :
  net_inv n strict no_pending net →
  ∃ net', run_op op net = Some net' ∧
          net_inv n strict no_pending net' ∧ (cons_inv net → cons_inv net').
Proof.
  intros Hinv. destruct op as [|i|i|]; simpl.
  - unfold execute_single_step.
    destruct (step_scan_inv n strict (seq 0 (length (nodes net))) net Hinv)
      as (b & net' & -> & ? & ?). by exists net'.
  - destruct (process_single_vehicle_movement_inv n strict i net Hinv)
      as (b & net' & -> & ? & ?). by exists net'.
  - by apply process_node_vehicles_inv.
  - by apply sweep_nodes_inv.
Qed.

Lemma engine_run_inv n strict net0 net :
  net_inv n strict no_pending net0 → rtc engine_step net0 net →
  net_inv n strict no_pending net ∧ (cons_inv net0 → cons_inv net).
Proof.
  intros Hinv Hrun. induction Hrun as [|net0 net1 net2 [op Hop] _ IH]; [done|].
  destruct (run_op_inv n strict op net0 Hinv) as (net' & Hop' & Hi & Hc).
  rewrite Hop in Hop'. injection Hop' as <-.
  destruct (IH Hi) as [Hi2 Hc2]. split; [done|]. intros ?. by apply Hc2, Hc.
Qed.

Lemma occupancy_bounded_same net net' :
  nodes net' = nodes net → occupancy_bounded net net'.
Proof. intros Hn j nd nd' Hj Hj'. rewrite Hn, Hj in Hj'. injection Hj' as <-. lia. Qed.

Lemma occupancy_bounded_alter net net0 i f :
  nodes net0 = nodes net →
  (∀ nd, capacity (f nd) = capacity nd ∧ current_vehicles (f nd) = current_vehicles nd) →
  occupancy_bounded net (update_node i f net0).
Proof.
  intros Hn Hf j nd nd' Hj. simpl. rewrite Hn.
  destruct (decide (j = i)) as [->|Hne].
  - rewrite list_lookup_alter_eq, Hj. intros [= <-]. destruct (Hf nd) as [-> ->]. lia.
  - rewrite list_lookup_alter_ne, Hj by done. intros [= <-]. lia.
Qed.

Lemma occupancy_bounded_requeue net net0 v from b :
  nodes net0 = nodes net →
  occupancy_bounded net (return_vehicle_to_queue v from b net0).
Proof.
  intros Hn. unfold return_vehicle_to_queue.
  destruct b; by apply occupancy_bounded_alter.
Qed.

Section RegularAdmission.
Context (n : nat) (strict : bool).

Lemma regular_move_bound v from to net res :
  type v = REGULAR →
  net_inv n strict (pending_at from v) net → (from < n)%nat →
  can_move_to_node_safe net to (type v) = true →
  admitted_move_post v from to net res →
  occupancy_bounded net res.2.
Proof.
  intros Ht Hinv Hfrom Hcan Hpost.
  apply can_move_to_node_safe_true in Hcan as [Hrange Hlt].
  unfold admitted_move_post in Hpost.
  destruct Hpost as (_ & _ & _ & _ & _ & _ & _ & _ & _ & Hnodes).
  intros j nd nd' Hj Hj'.
  destruct (Hnodes j nd Hj) as (nd1 & Hnd1 & Hcfg & Hocc & _).
  rewrite Hnd1 in Hj'. injection Hj' as <-.
  split; [unfold node_config in Hcfg; by simplify_eq|].
  pose proof (net_inv_nonneg n strict _ _ _ _ Hinv Hj) as Hnn.
  pose proof (ni_cap _ _ _ _ (proj2 Hinv _ _ Hj)) as [_ Hcmax].
  assert (Hdep : 0 ≤ (if bool_decide (j = from)
                      then departed_occupancy (current_vehicles nd)
                      else current_vehicles nd) ≤ current_vehicles nd).
  { unfold departed_occupancy. destruct (bool_decide (j = from)); [|lia].
    destruct (current_vehicles nd >? 0) eqn:E; lia. }
  rewrite Hocc. destruct (bool_decide (j = Z.to_nat to)) eqn:Hjt; simpl; [|lia].
  apply bool_decide_eq_true in Hjt as ->.
  destruct (negb _); [|lia].
  rewrite (list_lookup_total_correct _ _ _ Hj) in Hlt.
  unfold max_allowed in Hlt. rewrite Ht in Hlt. simpl in Hlt.
  rewrite int_succ_eq by (unfold INT_MIN, INT_MAX in *; lia). lia.
Qed.

Lemma regular_vehicle_bound v from net :
  type v = REGULAR →
  net_inv n strict (pending_at from v) net → (from < n)%nat →
  (∀ res, process_vehicle_step_by_step v from (emergency_flag v) net = Some res →
          occupancy_bounded net res.2) ∧
  (∀ res, process_vehicle v from (emergency_flag v) net = Some res →
          occupancy_bounded net res.2).
Proof.
  intros Ht Hinv Hfrom.
  pose proof (held_vehicle_int n strict v from net Hinv Hfrom) as Hint.
  split; intros res.
  - unfold process_vehicle_step_by_step.
    destruct (find_best_next_hop _ _ _) as [next|]; simpl; [|done].
    destruct (next =? -1).
    { intros [= <-]. by apply occupancy_bounded_requeue. }
    destruct (can_move_to_node_safe _ next (type v)) eqn:Hcan.
    + pose proof (admitted_move_display v from next
                    (emit (EvProcessing v from) net) Hint Hcan) as Hpost.
      destruct (perform_vehicle_move_with_display v from next _) as [v' net'] eqn:Hm.
      intros [= <-]. simpl.
      assert (Hb : occupancy_bounded (emit (EvProcessing v from) net) net').
      { by apply (regular_move_bound v from next _ (v', net')). }
      exact Hb.
    + intros [= <-]. by apply occupancy_bounded_requeue.
  - unfold process_vehicle.
    destruct (find_best_next_hop _ _ _) as [next|]; simpl; [|done].
    destruct (next =? -1).
    { intros [= <-]. by apply occupancy_bounded_requeue. }
    destruct (can_move_to_node_safe _ next (type v)) eqn:Hcan.
    + pose proof (admitted_move_automatic v from next _ Hint Hcan) as Hpost.
      intros [= <-]. by apply (regular_move_bound v from next net).
    + destruct (_ >? 5); intros [= <-]; simpl.
      * pose proof (occupancy_bounded_requeue net net v from (emergency_flag v) eq_refl).
        done.
      * by apply occupancy_bounded_requeue.
Qed.

Lemma regular_service_bound i net v is_emergency nd net' :
  net_inv n strict no_pending net →
  select_vehicle (nodes net !!! i) = Some (v, is_emergency, nd) →
  type v = REGULAR →
  run_op (OpVehicle i) net = Some net' ∨ run_op (OpNode i) net = Some net' →
  occupancy_bounded net net'.
Proof.
  intros Hinv Hsel Ht Hrun. pose proof Hinv as [Hlen Hall].
  destruct (decide (length (nodes net) ≤ i)%nat) as [Hge|Hlt].
  { apply occupancy_bounded_same. simpl in Hrun.
    unfold process_single_vehicle_movement, process_node_vehicles in Hrun.
    rewrite !decide_True in Hrun by done. simpl in Hrun.
    by destruct Hrun as [[= <-]|[= <-]]. }
  destruct (lookup_lt_is_Some_2 (nodes net) i) as [nd0 Hnd0]; [lia|].
  rewrite (list_lookup_total_correct _ _ _ Hnd0) in Hsel.
  destruct (select_vehicle_net_inv n strict net i nd0 v is_emergency nd Hinv Hnd0 Hsel)
    as (Hmid & _ & ->).
  set (mid := set_nodes (<[i:=nd]> (nodes net)) net) in *.
  destruct (regular_vehicle_bound v i mid Ht Hmid ltac:(lia)) as [Hstep Hauto].
  assert (Hsame : ∀ j nda ndb, nodes net !! j = Some nda → nodes mid !! j = Some ndb →
            capacity ndb = capacity nda ∧ current_vehicles ndb = current_vehicles nda).
  { intros j nda ndb Hj. simpl. destruct (decide (j = i)) as [->|Hne].
    - rewrite list_lookup_insert_eq by (by eapply lookup_lt_Some).
      intros [= <-]. rewrite Hnd0 in Hj. injection Hj as <-.
      unfold select_vehicle in Hsel.
      destruct (pq_extract _) as [[? ?]|]; [by injection Hsel as _ _ <-|].
      destruct (waiting_queue nd0); [done|]. by injection Hsel as _ _ <-.
    - rewrite list_lookup_insert_ne, Hj by done. by intros [= <-]. }
  assert (Hcompose : ∀ net'', occupancy_bounded mid net'' → occupancy_bounded net net'').
  { intros net'' Hb j nda ndc Hj Hj''.
    destruct (lookup_lt_is_Some_2 (nodes mid) j) as [ndb Hjb].
    { simpl. rewrite length_insert. by eapply lookup_lt_Some. }
    destruct (Hsame j nda ndb Hj Hjb) as [Hc Ho].
    destruct (Hb j ndb ndc Hjb Hj'') as [Hc' Ho']. lia. }
  simpl in Hrun.
  unfold process_single_vehicle_movement, process_node_vehicles in Hrun.
  rewrite !decide_False in Hrun by done.
  rewrite (list_lookup_total_correct _ _ _ Hnd0), Hsel in Hrun.
  fold mid in Hrun. apply Hcompose.
  destruct Hrun as [Hrun|Hrun].
  - destruct (process_vehicle_step_by_step v i (emergency_flag v) mid)
      as [[[b v'] net1]|] eqn:Hp; [|done].
    simpl in Hrun. injection Hrun as <-. by apply (Hstep (b, v', net1)).
  - destruct (process_vehicle v i (emergency_flag v) mid)
      as [[v' net1]|] eqn:Hp; [|done].
    simpl in Hrun. injection Hrun as <-. by apply (Hauto (v', net1)).
Qed.
End RegularAdmission.

(** The engine creates no vehicle. *)
Lemma remove_from_source_id from net :
  next_vehicle_id (remove_from_source from net) = next_vehicle_id net.
Proof. unfold remove_from_source. by destruct (_ >? _). Qed.

Lemma return_vehicle_to_queue_id v i b net :
  next_vehicle_id (return_vehicle_to_queue v i b net) = next_vehicle_id net.
Proof. unfold return_vehicle_to_queue. by destruct b. Qed.

Lemma perform_vehicle_move_with_display_id v from to net :
  next_vehicle_id (perform_vehicle_move_with_display v from to net).2
  = next_vehicle_id net.
Proof.
  unfold perform_vehicle_move_with_display.
  destruct (_ =? _); simpl; [apply remove_from_source_id|].
  destruct (bool_decide _); simpl; apply remove_from_source_id.
Qed.

Lemma perform_vehicle_move_id v from to net :
  next_vehicle_id (perform_vehicle_move v from to net).2 = next_vehicle_id net.
Proof.
  unfold perform_vehicle_move.
  destruct (_ =? _); simpl; [apply remove_from_source_id|].
  destruct (_ <? _); simpl.
  - destruct (bool_decide _); simpl; apply remove_from_source_id.
  - rewrite return_vehicle_to_queue_id. simpl. apply remove_from_source_id.
Qed.

Lemma process_vehicle_step_by_step_id v from b net res :
  process_vehicle_step_by_step v from b net = Some res →
  next_vehicle_id res.2 = next_vehicle_id net.
Proof.
  unfold process_vehicle_step_by_step.
  destruct (find_best_next_hop _ _ _) as [next|]; simpl; [|done].
  destruct (next =? -1); [intros [= <-]; simpl; by rewrite return_vehicle_to_queue_id|].
  destruct (can_move_to_node_safe _ _ _).
  - pose proof (perform_vehicle_move_with_display_id v from next
                  (emit (EvProcessing v from) net)) as Hid.
    destruct (perform_vehicle_move_with_display _ _ _ _) as [v' net'].
    by intros [= <-].
  - intros [= <-]. simpl. by rewrite return_vehicle_to_queue_id.
Qed.

Lemma process_vehicle_id v from b net res :
  process_vehicle v from b net = Some res →
  next_vehicle_id res.2 = next_vehicle_id net.
Proof.
  unfold process_vehicle.
  destruct (find_best_next_hop _ _ _) as [next|]; simpl; [|done].
  destruct (next =? -1); [intros [= <-]; simpl; by rewrite return_vehicle_to_queue_id|].
  destruct (can_move_to_node_safe _ _ _).
  - intros [= <-]. apply perform_vehicle_move_id.
  - destruct (_ >? 5); intros [= <-]; simpl; by rewrite return_vehicle_to_queue_id.
Qed.

Lemma process_single_vehicle_movement_id i net b net' :
  process_single_vehicle_movement i net = Some (b, net') →
  next_vehicle_id net' = next_vehicle_id net.
Proof.
  unfold process_single_vehicle_movement.
  destruct (decide _); [by intros [= _ <-]|].
  destruct (select_vehicle _) as [[[v e] nd]|]; [|by intros [= _ <-]].
  destruct (process_vehicle_step_by_step _ _ _ _) as [[[b' v'] net1]|] eqn:Hp; [|done].
  simpl. intros [= _ <-]. by apply process_vehicle_step_by_step_id in Hp.
Qed.

Lemma process_node_vehicles_id i net net' :
  process_node_vehicles i net = Some net' →
  next_vehicle_id net' = next_vehicle_id net.
Proof.
  unfold process_node_vehicles.
  destruct (decide _); [by intros [= <-]|].
  destruct (select_vehicle _) as [[[v e] nd]|]; [|by intros [= <-]].
  destruct (process_vehicle _ _ _ _) as [[v' net1]|] eqn:Hp; [|done].
  simpl. intros [= <-]. by apply process_vehicle_id in Hp.
Qed.

Lemma step_scan_id idxs net b net' :
  step_scan idxs net = Some (b, net') → next_vehicle_id net' = next_vehicle_id net.
Proof.
  revert net. induction idxs as [|i rest IH]; intros net; simpl; [by intros [= _ <-]|].
  case_bool_decide; [|apply IH].
  destruct (process_single_vehicle_movement i net) as [[[] net1]|] eqn:Hp; simpl;
    [|intros ?%IH|done]; apply process_single_vehicle_movement_id in Hp;
    [by intros [= _ <-]|congruence].
Qed.

Lemma sweep_nodes_id idxs net net' :
  sweep_nodes idxs net = Some net' → next_vehicle_id net' = next_vehicle_id net.
Proof.
  revert net. induction idxs as [|i rest IH]; intros net; simpl; [by intros [= <-]|].
  case_bool_decide; [|apply IH].
  destruct (process_node_vehicles i net) as [net1|] eqn:Hp; simpl; [|done].
  intros ?%IH. apply process_node_vehicles_id in Hp. congruence.
Qed.

Lemma engine_run_id net0 net :
  rtc engine_step net0 net → next_vehicle_id net = next_vehicle_id net0.
Proof.
  induction 1 as [|net0 net1 net2 [op Hop] _ IH]; [done|]. rewrite IH.
  destruct op as [|i|i|]; simpl in Hop.
  - destruct (execute_single_step net0) as [[b n1]|] eqn:He; [|done].
    injection Hop as <-. by apply step_scan_id in He.
  - destruct (process_single_vehicle_movement i net0) as [[b n1]|] eqn:He; [|done].
    injection Hop as <-. by apply process_single_vehicle_movement_id in He.
  - by apply process_node_vehicles_id in Hop.
  - by apply sweep_nodes_id in Hop.
Qed.

(** C7.  From a well-formed state in which every occupancy is the number of
    queued vehicles and is at most the capacity, after any sequence of engine
    operations (steps, single services of a node in either mode, sweeps):
    every operation returns; every occupancy is at most capacity + 1; a node
    above its capacity holds an emergency vehicle in its emergency queue;
    and serving a node whose selected vehicle is Regular pushes no node
    above its capacity. *)
Theorem occupancy_invariant net0 net :
  wf_network net0 → occupancy_is_queue_size net0 → within_capacity net0 →
  rtc engine_step net0 net →
  (∀ op, ∃ net', run_op op net = Some net') ∧
  (∀ j nd, nodes net !! j = Some nd →
     current_vehicles nd ≤ capacity nd + 1 ∧
     (capacity nd < current_vehicles nd →
      ∃ v, v ∈ emergency_queue nd ∧ type v ≠ REGULAR)) ∧
  (∀ i v is_emergency nd net',
     select_vehicle (nodes net !!! i) = Some (v, is_emergency, nd) →
     type v = REGULAR →
     run_op (OpVehicle i) net = Some net' ∨ run_op (OpNode i) net = Some net' →
     occupancy_bounded net net').
Proof.
  intros Hwf Hsize Hcap Hrun.
  pose proof (initial_net_inv true net0 Hwf Hsize (λ _, Hcap)) as Hinv0.
  destruct (engine_run_inv _ _ _ _ Hinv0 Hrun) as [Hinv _].
  split; [|split].
  - intros op. destruct (run_op_inv _ _ op net Hinv) as (net' & ? & _). by exists net'.
  - intros j nd Hj. destruct Hinv as [_ Hall].
    destruct (Hall j nd Hj) as [_ _ He _ _ Hb _ Hover].
    split; [by apply Hb|]. intros Hlt.
    destruct (Hover eq_refl Hlt) as [Hne|(? & ? & _)]; [|done].
    destruct (emergency_queue nd) as [|v r]; [done|].
    exists v. split; [by left|]. by apply Forall_cons in He as [? _].
  - intros i v is_emergency nd net'. by eapply regular_service_bound.
Qed.

(** C8.  From a well-formed state in which every occupancy is the number of
    queued vehicles and every vehicle created and not completed waits in a
    queue, after any sequence of engine operations the occupancies and the
    vehicles in transit outside the queues add up to the vehicles created
    minus the vehicles completed; no vehicle is in transit between two
    operations and none is created. *)
Theorem vehicle_conservation net0 net :
  wf_network net0 → occupancy_is_queue_size net0 →
  vehicles_in_transit_externally net0 = 0 →
  0 ≤ total_vehicles_processed (stats net0) →
  0 ≤ emergency_vehicles_processed (stats net0) →
  vehicles_created net0 < INT_MAX →
  rtc engine_step net0 net →
  total_occupancy (nodes net) + vehicles_in_transit_externally net
    = vehicles_created net - vehicles_completed net ∧
  vehicles_in_transit_externally net = 0 ∧
  vehicles_created net = vehicles_created net0.
Proof.
  intros Hwf Hsize Htransit Hr He Hcreated Hrun.
  assert (Hinv0 : net_inv (length (nodes net0)) false no_pending net0)
    by by apply initial_net_inv.
  assert (Hq : ∀ n net, net_inv n false no_pending net →
            total_queued (nodes net) = total_occupancy (nodes net)).
  { intros n net1 [_ Hall]. apply total_queued_occupancy. intros j nd Hj.
    rewrite (ni_occ _ _ _ _ (Hall j nd Hj)). simpl. lia. }
  assert (Hcons0 : cons_inv net0).
  { split; try done. unfold vehicles_in_transit_externally in Htransit.
    rewrite (Hq _ _ Hinv0) in Htransit. lia. }
  destruct (engine_run_inv _ _ _ _ Hinv0 Hrun) as [Hinv Hcons].
  destruct (Hcons Hcons0) as [Hsum _ _ _].
  unfold vehicles_in_transit_externally. rewrite (Hq _ _ Hinv).
  split; [lia|]. split; [lia|].
  unfold vehicles_created. by rewrite (engine_run_id _ _ Hrun).
Qed.

(** ** The step-by-step scan *)

Lemma count_moves_app evs1 evs2 :
  count_moves (evs1 ++ evs2) = (count_moves evs1 + count_moves evs2)%nat.
Proof. induction evs1 as [|[] evs1 IH]; simpl; lia. Qed.

Lemma select_vehicle_nonempty nd :
  (0 < get_queue_size nd)%nat → is_Some (select_vehicle nd).
Proof.
  unfold get_queue_size, select_vehicle. intros Hpos.
  destruct (pq_extract (emergency_queue nd)) as [[m r]|] eqn:Hq; [done|].
  apply pq_extract_None in Hq. rewrite Hq in Hpos.
  destruct (waiting_queue nd); [simpl in Hpos; lia|done].
Qed.

Lemma select_vehicle_empty nd :
  ¬ (0 < get_queue_size nd)%nat → select_vehicle nd = None.
Proof.
  unfold get_queue_size, select_vehicle. intros Hz.
  destruct (emergency_queue nd); [|simpl in Hz; lia].
  destruct (waiting_queue nd); [done|simpl in Hz; lia].
Qed.

Lemma return_vehicle_to_queue_console v i b net :
  console (return_vehicle_to_queue v i b net) = console net.
Proof. unfold return_vehicle_to_queue. by destruct b. Qed.

Lemma return_vehicle_to_queue_stats v i b net :
  stats (return_vehicle_to_queue v i b net) = stats net.
Proof. unfold return_vehicle_to_queue. by destruct b. Qed.

Lemma return_vehicle_to_queue_nodes v i b net :
  nodes (return_vehicle_to_queue v i b net)
  = alter (if b then push_emergency v else push_waiting v) i (nodes net).
Proof. unfold return_vehicle_to_queue. by destruct b. Qed.

Lemma remove_from_source_console from net :
  console (remove_from_source from net) = console net.
Proof. unfold remove_from_source. by destruct (_ >? _). Qed.

Lemma remove_from_source_stats from net :
  stats (remove_from_source from net) = stats net.
Proof. unfold remove_from_source. by destruct (_ >? _). Qed.

Lemma perform_vehicle_move_with_display_events v from to net :
  let res := perform_vehicle_move_with_display v from to net in
  ∃ evs, console res.2 = console net ++ evs ∧ processed evs = [] ∧
         count_moves evs = 1%nat ∧
         total_moves (stats res.2) = int_succ (total_moves (stats net)).
Proof.
  unfold perform_vehicle_move_with_display.
  destruct (_ =? _); simpl.
  - eexists [_; _]. rewrite remove_from_source_console, <- app_assoc.
    split; [done|]. split; [done|]. split; [done|].
    unfold record_arrival. rewrite remove_from_source_stats.
    by destruct (bool_decide _).
  - eexists [_; _].
    destruct (bool_decide _); simpl;
      rewrite remove_from_source_console, remove_from_source_stats, <- app_assoc; done.
Qed.

Lemma process_vehicle_step_by_step_events v from e net b v' net' :
  process_vehicle_step_by_step v from e net = Some (b, v', net') →
  ∃ evs, console net' = console net ++ EvProcessing v from :: evs ∧
    processed evs = [] ∧ count_moves evs = (if b then 1 else 0)%nat ∧
    if b then total_moves (stats net') = int_succ (total_moves (stats net))
    else stats net' = stats net ∧
         nodes net' = alter (if e then push_emergency v else push_waiting v)
                            from (nodes net).
Proof.
  unfold process_vehicle_step_by_step.
  destruct (find_best_next_hop _ _ _) as [next|]; simpl; [|done].
  destruct (next =? -1).
  { intros [= <- <- <-]. exists [EvNoPath].
    rewrite return_vehicle_to_queue_console, return_vehicle_to_queue_stats,
      return_vehicle_to_queue_nodes. simpl. by rewrite <- app_assoc. }
  destruct (can_move_to_node_safe _ _ _).
  - destruct (perform_vehicle_move_with_display_events v from next
                (emit (EvProcessing v from) net)) as (evs & Hc & Hp & Hm & Ht).
    destruct (perform_vehicle_move_with_display _ _ _ _) as [v1 net1].
    intros [= <- <- <-]. exists evs. simpl in *.
    rewrite Hc, <- app_assoc. done.
  - intros [= <- <- <-]. exists [EvBlocked next].
    rewrite return_vehicle_to_queue_console, return_vehicle_to_queue_stats,
      return_vehicle_to_queue_nodes. simpl. by rewrite <- app_assoc.
Qed.

Lemma process_single_vehicle_movement_moves i net b net' :
  process_single_vehicle_movement i net = Some (b, net') →
  ∃ evs, console net' = console net ++ evs ∧
         count_moves evs = (if b then 1 else 0)%nat.
Proof.
  unfold process_single_vehicle_movement.
  destruct (decide _);
    [intros [= <- <-]; exists []; by rewrite app_nil_r|].
  destruct (select_vehicle (nodes net !!! i)) as [[[v e] nd]|]; simpl;
    [|intros [= <- <-]; exists []; by rewrite app_nil_r].
  destruct (process_vehicle_step_by_step _ _ _ _) as [[[b1 v1] net1]|] eqn:Hp;
    simpl; [|done].
  intros [= <- <-].
  apply process_vehicle_step_by_step_events in Hp as (evs & Hc & _ & Hm & _).
  by exists (EvProcessing v i :: evs).
Qed.

Lemma step_scan_moves idxs net b net' :
  step_scan idxs net = Some (b, net') →
  ∃ evs, console net' = console net ++ evs ∧
         count_moves evs = (if b then 1 else 0)%nat.
Proof.
  revert net. induction idxs as [|i rest IH]; intros net; simpl.
  - intros [= <- <-]. exists []. by rewrite app_nil_r.
  - case_bool_decide; [|apply IH].
    destruct (process_single_vehicle_movement i net) as [[m net1]|] eqn:Hp;
      simpl; [|done].
    apply process_single_vehicle_movement_moves in Hp as (evs1 & Hc1 & Hm1).
    destruct m; [intros [= <- <-]; by exists evs1|].
    intros (evs & Hc & Hm)%IH. exists (evs1 ++ evs).
    split; [by rewrite Hc, Hc1, <- app_assoc|].
    by rewrite count_moves_app, Hm1, Hm.
Qed.

(** ** Example runs *)

Ltac solve_in_list :=
  let nd := fresh "nd" in
  let Hnd := fresh "Hnd" in
  intros nd Hnd;
  repeat (apply elem_of_cons in Hnd as [->|Hnd];
          [simpl; unfold in_int, INT_MIN, INT_MAX;
           first [ lia | done | repeat constructor; simpl; first [lia | done] ] |]);
  by apply elem_of_nil in Hnd.

Lemma scan_net_wf : wf_network scan_net.
Proof. split; solve_in_list. Qed.

Lemma scan_net_sizes : occupancy_is_queue_size scan_net.
Proof. solve_in_list. Qed.

(** C6, as stated, fails: node 0 is the first node with a non-empty queue,
    its vehicle is denied admission to node 1, and the same invocation goes
    on to node 1, extracts a second vehicle there, moves it and returns
    true. *)
Lemma execute_single_step_continues_counterexample :
  (0 < get_queue_size (nodes scan_net !!! 0%nat))%nat ∧
  (∃ net0, process_single_vehicle_movement 0 scan_net = Some (false, net0)) ∧
  ∃ net', execute_single_step scan_net = Some (true, net') ∧
    processed (console net') = [(scan_vehicle_a, 0%nat); (scan_vehicle_b, 1%nat)] ∧
    waiting_queue (nodes scan_net !!! 1%nat) = [scan_vehicle_b] ∧
    waiting_queue (nodes net' !!! 1%nat) = [].
Proof.
  split; [vm_compute; lia|]. split; [by eexists; vm_compute|].
  eexists. split; [by vm_compute|]. by vm_compute.
Qed.

Lemma overflow_net_wf : wf_network overflow_net.
Proof. split; solve_in_list. Qed.

Lemma overflow_net_sizes : occupancy_is_queue_size overflow_net.
Proof. solve_in_list. Qed.

Lemma overflow_net_within : within_capacity overflow_net.
Proof. solve_in_list. Qed.

Lemma overflow_net_run : rtc engine_step overflow_net overflow_net_after.
Proof. apply rtc_once. exists (OpVehicle 0). by vm_compute. Qed.

Lemma occupancy_invariant_witness :
  ∃ nd, nodes overflow_net_after !! 1%nat = Some nd ∧
        current_vehicles nd = capacity nd + 1 ∧
        ∃ v, v ∈ emergency_queue nd ∧ type v ≠ REGULAR.
Proof.
  destruct (occupancy_invariant overflow_net overflow_net_after overflow_net_wf
              overflow_net_sizes overflow_net_within overflow_net_run)
    as (_ & Hocc & _).
  eexists. split; [reflexivity|].
  destruct (Hocc 1%nat _ eq_refl) as [_ Hover].
  split; [reflexivity|]. apply Hover. reflexivity.
Defined.

Lemma vehicle_conservation_witness :
  total_occupancy (nodes overflow_net_after)
    + vehicles_in_transit_externally overflow_net_after
  = vehicles_created overflow_net_after - vehicles_completed overflow_net_after.
Proof.
  refine (proj1 (vehicle_conservation overflow_net overflow_net_after overflow_net_wf
                   overflow_net_sizes _ _ _ _ overflow_net_run)).
  - reflexivity.
  - vm_compute. discriminate.
  - vm_compute. discriminate.
  - reflexivity.
Defined.

(** ** Blocked attempts *)

(** A denied admission in [process_vehicle] requeues the vehicle as it was
    taken from the queue: the counter is incremented after the copy has been
    pushed. *)
Lemma process_vehicle_denied vehicle from_node is_emergency net next :
  find_best_next_hop (nodes net) from_node (destination_node vehicle) = Some next →
  next ≠ -1 →
  can_move_to_node_safe net next (type vehicle) = false →
  0 ≤ blocked_attempts vehicle < 5 →
  process_vehicle vehicle from_node is_emergency net
  = Some (set_blocked_attempts (blocked_attempts vehicle + 1) vehicle,
          return_vehicle_to_queue vehicle from_node is_emergency net).
Proof.
  intros Hnext Hne Hcan Hb. unfold process_vehicle. rewrite Hnext. simpl.
  destruct (next =? -1) eqn:E; [lia|]. rewrite Hcan. simpl.
  rewrite int_succ_eq by (unfold INT_MIN, INT_MAX; lia).
  destruct (_ >? 5) eqn:E5; [lia|done].
Qed.

(** C3 on the failing input: the vehicle is denied admission in each of six
    sweeps in a row; afterwards the rerouting statistic is still 0 and the
    vehicle waits at its source with the counter 0 it started with. *)
Theorem blocked_vehicle_never_escalates :
  can_move_to_node_safe blocked_net 1 (type blocked_vehicle) = false ∧
  find_best_next_hop (nodes blocked_net) 0 (destination_node blocked_vehicle) = Some 1 ∧
  ∃ net', sweeps 6 blocked_net = Some net' ∧
    rerouting_attempts (stats net') = 0 ∧
    waiting_queue (nodes net' !!! 0%nat) = [blocked_vehicle] ∧
    blocked_attempts blocked_vehicle = 0 ∧
    nodes net' = nodes blocked_net.
Proof.
  split; [by vm_compute|]. split; [by vm_compute|].
  eexists. split; [by vm_compute|]. by vm_compute.
Qed.

(** ** What a service does *)

Lemma remove_from_source_next_id from net :
  next_vehicle_id (remove_from_source from net) = next_vehicle_id net.
Proof. unfold remove_from_source. by destruct (_ >? _). Qed.

Lemma remove_from_source_nodes_ext from net1 net2 :
  nodes net1 = nodes net2 →
  nodes (remove_from_source from net1) = nodes (remove_from_source from net2).
Proof.
  intros Hn. unfold remove_from_source. rewrite Hn.
  destruct (_ >? _); simpl; by rewrite Hn.
Qed.

Lemma perform_vehicle_move_with_display_shape v from to net :
  let res := perform_vehicle_move_with_display v from to net in
  let src := remove_from_source from net in
  if to =? destination_node v then
    nodes res.2 = nodes src ∧ stats res.2 = record_arrival v (incr_total_moves (stats net))
  else
    nodes res.2 =
      alter (push_flag (negb (bool_decide (type v = REGULAR))) (set_current_node to v))
        (Z.to_nat to) (alter enter_node (Z.to_nat to) (nodes src)) ∧
    stats res.2 = incr_total_moves (stats net).
Proof.
  unfold perform_vehicle_move_with_display.
  change (destination_node (set_current_node to v)) with (destination_node v).
  change (type (set_current_node to v)) with (type v).
  destruct (to =? destination_node v); simpl.
  - by rewrite remove_from_source_stats.
  - unfold push_flag. destruct (bool_decide (type v = REGULAR)); simpl;
      by rewrite remove_from_source_stats.
Qed.

Lemma perform_vehicle_move_shape v from to net :
  let res := perform_vehicle_move v from to net in
  let src := remove_from_source from net in
  if to =? destination_node v then
    nodes res.2 = nodes src ∧ stats res.2 = record_arrival v (incr_total_moves (stats net))
  else
    (∃ j, nodes res.2 =
      alter (push_flag (negb (bool_decide (type v = REGULAR))) (set_current_node to v))
        j (alter enter_node j (nodes src))) ∧
    stats res.2 = incr_total_moves (stats net).
Proof.
  unfold perform_vehicle_move.
  change (destination_node (set_current_node to v)) with (destination_node v).
  change (type (set_current_node to v)) with (type v).
  destruct (to =? destination_node v); simpl.
  - by rewrite remove_from_source_stats.
  - destruct (_ <? _); simpl.
    + split; [exists (Z.to_nat to)|]; unfold push_flag;
        destruct (bool_decide (type v = REGULAR)); simpl;
        by rewrite ?remove_from_source_stats.
    + rewrite return_vehicle_to_queue_stats, return_vehicle_to_queue_nodes. simpl.
      rewrite remove_from_source_stats. split; [|done]. by exists from.
Qed.

Lemma process_vehicle_step_by_step_served i nd v e nd' net b v' net' :
  nodes net !! i = Some nd → select_vehicle nd = Some (v, e, nd') →
  process_vehicle_step_by_step v i e (set_nodes (<[i:=nd']> (nodes net)) net)
    = Some (b, v', net') →
  served i net net'.
Proof.
  intros Hi Hsel. unfold process_vehicle_step_by_step.
  destruct (find_best_next_hop _ _ _) as [next|]; simpl; [|done].
  destruct (next =? -1).
  { intros [= <- <- <-]. eapply served_requeue; [done..| |].
    - by rewrite return_vehicle_to_queue_nodes.
    - left. by rewrite return_vehicle_to_queue_stats. }
  destruct (can_move_to_node_safe _ _ _).
  - pose proof (perform_vehicle_move_with_display_shape v i next
      (emit (EvProcessing v i) (set_nodes (<[i:=nd']> (nodes net)) net))) as Hshape.
    destruct (perform_vehicle_move_with_display _ _ _ _) as [v1 net1].
    intros [= <- <- <-]. simpl in Hshape.
    destruct (next =? destination_node v) eqn:Hd.
    + destruct Hshape as [Hn Hs]. eapply served_arrive; [done..| |done].
      rewrite Hn. by apply remove_from_source_nodes_ext.
    + destruct Hshape as [Hn Hs]. eapply served_enter; [done..|by apply Z.eqb_neq| |done].
      rewrite Hn. f_equal. f_equal. by apply remove_from_source_nodes_ext.
  - intros [= <- <- <-]. eapply served_requeue; [done..| |].
    + by rewrite return_vehicle_to_queue_nodes.
    + left. by rewrite return_vehicle_to_queue_stats.
Qed.

Lemma process_vehicle_served i nd v e nd' net v' net' :
  nodes net !! i = Some nd → select_vehicle nd = Some (v, e, nd') →
  process_vehicle v i e (set_nodes (<[i:=nd']> (nodes net)) net) = Some (v', net') →
  served i net net'.
Proof.
  intros Hi Hsel. unfold process_vehicle.
  destruct (find_best_next_hop _ _ _) as [next|]; simpl; [|done].
  destruct (next =? -1).
  { intros [= <- <-]. eapply served_requeue; [done..| |].
    - by rewrite return_vehicle_to_queue_nodes.
    - left. by rewrite return_vehicle_to_queue_stats. }
  destruct (can_move_to_node_safe _ _ _).
  - pose proof (perform_vehicle_move_shape v i next
      (set_nodes (<[i:=nd']> (nodes net)) net)) as Hshape.
    destruct (perform_vehicle_move _ _ _ _) as [v1 net1].
    intros [= <- <-]. simpl in Hshape.
    destruct (next =? destination_node v) eqn:Hd.
    + destruct Hshape as [Hn Hs]. by eapply served_arrive.
    + destruct Hshape as [[j Hn] Hs]. eapply served_enter; [done..|by apply Z.eqb_neq|exact Hn|done].
  - destruct (_ >? 5) eqn:H5.
    + intros [= <- <-]. eapply served_requeue; [done..| |].
      * simpl. by rewrite return_vehicle_to_queue_nodes.
      * right. simpl. rewrite return_vehicle_to_queue_stats. split; [|done].
        simpl in H5. lia.
    + intros [= <- <-]. eapply served_requeue; [done..| |].
      * by rewrite return_vehicle_to_queue_nodes.
      * left. by rewrite return_vehicle_to_queue_stats.
Qed.

Lemma process_single_vehicle_movement_served i net b net' :
  process_single_vehicle_movement i net = Some (b, net') → served i net net'.
Proof.
  unfold process_single_vehicle_movement.
  destruct (decide _) as [Hge|Hlt]; [intros [= <- <-]; by apply served_idle|].
  destruct (lookup_lt_is_Some_2 (nodes net) i) as [nd Hnd]; [lia|].
  rewrite (list_lookup_total_correct _ _ _ Hnd).
  destruct (select_vehicle nd) as [[[v e] nd']|] eqn:Hsel;
    [|intros [= <- <-]; by apply served_idle].
  destruct (process_vehicle_step_by_step _ _ _ _) as [[[b1 v1] net1]|] eqn:Hp;
    simpl; [|done].
  intros [= <- <-]. by eapply process_vehicle_step_by_step_served.
Qed.

Lemma process_node_vehicles_served i net net' :
  process_node_vehicles i net = Some net' → served i net net'.
Proof.
  unfold process_node_vehicles.
  destruct (decide _) as [Hge|Hlt]; [intros [= <-]; by apply served_idle|].
  destruct (lookup_lt_is_Some_2 (nodes net) i) as [nd Hnd]; [lia|].
  rewrite (list_lookup_total_correct _ _ _ Hnd).
  destruct (select_vehicle nd) as [[[v e] nd']|] eqn:Hsel;
    [|intros [= <-]; by apply served_idle].
  destruct (process_vehicle _ _ _ _) as [[v1 net1]|] eqn:Hp; simpl; [|done].
  intros [= <-]. by eapply process_vehicle_served.
Qed.

Lemma step_scan_served idxs net b net' :
  step_scan idxs net = Some (b, net') → rtc service_step net net'.
Proof.
  revert net. induction idxs as [|i rest IH]; intros net; simpl.
  - by intros [= <- <-].
  - case_bool_decide; [|apply IH].
    destruct (process_single_vehicle_movement i net) as [[m net1]|] eqn:Hp;
      simpl; [|done].
    apply process_single_vehicle_movement_served in Hp.
    destruct m.
    + intros [= <- <-]. apply rtc_once. by exists i.
    + intros ?%IH. eapply rtc_l; [by exists i|done].
Qed.

Lemma sweep_nodes_served idxs net net' :
  sweep_nodes idxs net = Some net' → rtc service_step net net'.
Proof.
  revert net. induction idxs as [|i rest IH]; intros net; simpl.
  - by intros [= <-].
  - case_bool_decide; [|apply IH].
    destruct (process_node_vehicles i net) as [net1|] eqn:Hp; simpl; [|done].
    apply process_node_vehicles_served in Hp.
    intros ?%IH. eapply rtc_l; [by exists i|done].
Qed.

Lemma run_op_served op net net' :
  run_op op net = Some net' → rtc service_step net net'.
Proof.
  destruct op as [|i|i|]; simpl.
  - destruct (execute_single_step net) as [[b n1]|] eqn:He; [|done].
    intros [= <-]. by eapply step_scan_served.
  - destruct (process_single_vehicle_movement i net) as [[b n1]|] eqn:He; [|done].
    intros [= <-]. apply rtc_once. exists i.
    by eapply process_single_vehicle_movement_served.
  - intros Hp. apply rtc_once. exists i. by apply process_node_vehicles_served.
  - by apply sweep_nodes_served.
Qed.

Lemma engine_run_served net0 net :
  rtc engine_step net0 net → rtc service_step net0 net.
Proof.
  induction 1 as [|net0 net1 net2 [op Hop] _ IH]; [done|].
  etrans; [by eapply run_op_served|done].
Qed.

(** ** What a run keeps *)

Lemma select_vehicle_vehicles nd v e nd' :
  select_vehicle nd = Some (v, e, nd') →
  vehicles_of nd ≡ₚ v :: vehicles_of nd' ∧ node_config nd' = node_config nd ∧
  current_vehicles nd' = current_vehicles nd.
Proof.
  unfold select_vehicle, vehicles_of.
  destruct (pq_extract (emergency_queue nd)) as [[m r]|] eqn:Hq.
  - intros [= <- <- <-]. destruct (pq_extract_Some _ _ _ Hq) as [Hperm _].
    simpl. split; [|done]. rewrite Hperm. by rewrite Permutation_middle.
  - apply pq_extract_None in Hq. destruct (waiting_queue nd) as [|w rest]; [done|].
    intros [= <- <- <-]. simpl. by rewrite Hq.
Qed.

Lemma push_flag_vehicles e v nd :
  vehicles_of (push_flag e v nd) ≡ₚ v :: vehicles_of nd ∧
  node_config (push_flag e v nd) = node_config nd ∧
  current_vehicles (push_flag e v nd) = current_vehicles nd.
Proof.
  unfold push_flag, vehicles_of. destruct e; simpl; (split; [|done]).
  - unfold pq_push. rewrite app_assoc. by rewrite <- Permutation_cons_append.
  - unfold queue_push. rewrite <- app_assoc. simpl. by rewrite <- Permutation_middle.
Qed.

Lemma bind_vehicles_alter_perm f i ns nd x :
  ns !! i = Some nd → vehicles_of (f nd) ≡ₚ x :: vehicles_of nd →
  alter f i ns ≫= vehicles_of ≡ₚ x :: (ns ≫= vehicles_of).
Proof.
  revert i. induction ns as [|y ns IH]; intros [|i] Hi Hf; simpl in Hi; simplify_eq.
  - change (alter f 0%nat (nd :: ns)) with (f nd :: ns).
    by rewrite !bind_cons, Hf.
  - change (alter f (S i) (y :: ns)) with (y :: alter f i ns).
    rewrite !bind_cons, (IH i Hi Hf). by rewrite Permutation_middle.
Qed.

Lemma bind_vehicles_alter_same f i ns :
  (∀ nd, vehicles_of (f nd) = vehicles_of nd) →
  alter f i ns ≫= vehicles_of = ns ≫= vehicles_of.
Proof.
  intros Hf. revert i. induction ns as [|y ns IH]; intros [|i]; [done|done| |].
  - change (alter f 0%nat (y :: ns)) with (f y :: ns). by rewrite !bind_cons, Hf.
  - change (alter f (S i) (y :: ns)) with (y :: alter f i ns).
    by rewrite !bind_cons, IH.
Qed.

Lemma bind_vehicles_insert_perm i ns nd nd' x :
  ns !! i = Some nd → vehicles_of nd ≡ₚ x :: vehicles_of nd' →
  ns ≫= vehicles_of ≡ₚ x :: (<[i:=nd']> ns ≫= vehicles_of).
Proof.
  revert i. induction ns as [|y ns IH]; intros [|i] Hi Hf; simpl in Hi; simplify_eq.
  - change (<[0%nat:=nd']> (nd :: ns)) with (nd' :: ns).
    by rewrite !bind_cons, Hf.
  - change (<[S i:=nd']> (y :: ns)) with (y :: <[i:=nd']> ns).
    rewrite !bind_cons, (IH i Hi Hf). by rewrite Permutation_middle.
Qed.

Lemma list_alter_ge {A} (f : A → A) (l : list A) i :
  (length l ≤ i)%nat → alter f i l = l.
Proof.
  revert i. induction l as [|x l IH]; intros [|i] Hi; [done|done|simpl in Hi; lia|].
  change (alter f (S i) (x :: l)) with (x :: alter f i l).
  rewrite IH; [done|simpl in Hi; lia].
Qed.

Lemma remove_from_source_vehicles from net :
  nodes (remove_from_source from net) ≫= vehicles_of = nodes net ≫= vehicles_of.
Proof.
  unfold remove_from_source. destruct (_ >? _); simpl; [|done].
  by apply bind_vehicles_alter_same.
Qed.

(** A service takes at most one vehicle out of the queues and puts at most
    that vehicle back, possibly at another position. *)
Lemma served_vehicles i net net' :
  served i net net' →
  queued_vehicles net' ≡ₚ queued_vehicles net ∨
  ∃ v rest, queued_vehicles net ≡ₚ v :: rest ∧
    (queued_vehicles net' ≡ₚ rest ∨
     ∃ c, queued_vehicles net' ≡ₚ set_current_node c v :: rest).
Proof.
  unfold queued_vehicles.
  intros [Hn _|nd v e nd' Hi Hsel Hn _|nd v e nd' Hi Hsel Hn _
         |nd v e nd' to j Hi Hsel _ Hn _]; rewrite Hn; clear Hn.
  - by left.
  - left. destruct (select_vehicle_vehicles _ _ _ _ Hsel) as [Hperm _].
    rewrite (bind_vehicles_insert_perm i _ nd nd' v Hi Hperm).
    apply bind_vehicles_alter_perm with (nd := nd').
    + apply list_lookup_insert_eq. by eapply lookup_lt_Some.
    + apply push_flag_vehicles.
  - right. destruct (select_vehicle_vehicles _ _ _ _ Hsel) as [Hperm _].
    exists v, (<[i:=nd']> (nodes net) ≫= vehicles_of).
    split; [by apply (bind_vehicles_insert_perm i _ nd nd' v Hi Hperm)|].
    left. by rewrite remove_from_source_vehicles.
  - right. destruct (select_vehicle_vehicles _ _ _ _ Hsel) as [Hperm _].
    exists v, (<[i:=nd']> (nodes net) ≫= vehicles_of).
    split; [by apply (bind_vehicles_insert_perm i _ nd nd' v Hi Hperm)|].
    set (src := nodes (remove_from_source i _)).
    assert (Hsrc : src ≫= vehicles_of = <[i:=nd']> (nodes net) ≫= vehicles_of)
      by apply remove_from_source_vehicles.
    destruct (alter enter_node j src !! j) as [ndj|] eqn:Hj.
    + right. exists to. rewrite <- Hsrc.
      rewrite (bind_vehicles_alter_perm _ j _ ndj (set_current_node to v) Hj);
        [|apply push_flag_vehicles].
      by rewrite bind_vehicles_alter_same.
    + left. rewrite <- Hsrc. apply lookup_ge_None in Hj.
      rewrite list_alter_ge by done. by rewrite bind_vehicles_alter_same.
Qed.

Lemma forget_position_set c v :
  forget_position (set_current_node c v) = forget_position v.
Proof. done. Qed.

Lemma service_step_vehicles net net' :
  service_step net net' →
  forget_position <$> queued_vehicles net' ⊆+ forget_position <$> queued_vehicles net.
Proof.
  intros [i [Hp|(v & rest & Hp & [Hp'|[c Hp']])]%served_vehicles].
  - by rewrite Hp.
  - rewrite Hp', Hp. by apply submseteq_cons.
  - by rewrite Hp', Hp, !fmap_cons, forget_position_set.
Qed.

Lemma service_run_vehicles net net' :
  rtc service_step net net' →
  forget_position <$> queued_vehicles net' ⊆+ forget_position <$> queued_vehicles net.
Proof.
  induction 1 as [|net0 net1 net2 Hstep _ IH]; [done|].
  etrans; [exact IH|by apply service_step_vehicles].
Qed.

(** The configuration of the nodes is not touched. *)
Lemma fmap_alter_same {A B} (g : A → B) (f : A → A) i (l : list A) :
  (∀ x, g (f x) = g x) → g <$> alter f i l = g <$> l.
Proof.
  intros Hf. revert i. induction l as [|x l IH]; intros [|i]; [done|done| |].
  - change (alter f 0%nat (x :: l)) with (f x :: l). by rewrite !fmap_cons, Hf.
  - change (alter f (S i) (x :: l)) with (x :: alter f i l).
    by rewrite !fmap_cons, IH.
Qed.

Lemma fmap_insert_same {A B} (g : A → B) i (l : list A) x y :
  l !! i = Some x → g y = g x → g <$> <[i:=y]> l = g <$> l.
Proof.
  intros Hi Hg. rewrite list_fmap_insert, Hg. apply list_insert_id.
  by rewrite list_lookup_fmap, Hi.
Qed.

Lemma remove_from_source_config from net :
  node_config <$> nodes (remove_from_source from net) = node_config <$> nodes net.
Proof.
  unfold remove_from_source. destruct (_ >? _); simpl; [|done].
  by apply fmap_alter_same.
Qed.

Lemma served_config i net net' :
  served i net net' → node_config <$> nodes net' = node_config <$> nodes net.
Proof.
  intros [Hn _|nd v e nd' Hi Hsel Hn _|nd v e nd' Hi Hsel Hn _
         |nd v e nd' to j Hi Hsel _ Hn _]; rewrite Hn; clear Hn.
  - done.
  - destruct (select_vehicle_vehicles _ _ _ _ Hsel) as (_ & Hc & _).
    rewrite fmap_alter_same by (intros; apply push_flag_vehicles).
    by apply (fmap_insert_same _ _ _ nd).
  - destruct (select_vehicle_vehicles _ _ _ _ Hsel) as (_ & Hc & _).
    rewrite remove_from_source_config. simpl. by apply (fmap_insert_same _ _ _ nd).
  - destruct (select_vehicle_vehicles _ _ _ _ Hsel) as (_ & Hc & _).
    rewrite fmap_alter_same by (intros; apply push_flag_vehicles).
    rewrite fmap_alter_same by done.
    rewrite remove_from_source_config. simpl. by apply (fmap_insert_same _ _ _ nd).
Qed.

Lemma service_run_config net net' :
  rtc service_step net net' → node_config <$> nodes net' = node_config <$> nodes net.
Proof.
  induction 1 as [|net0 net1 net2 [i Hstep] _ IH]; [done|].
  rewrite IH. by eapply served_config.
Qed.

(** The router reads nothing but the adjacency lists. *)
Lemma config_adjacent_of ns ns' i :
  node_config <$> ns = node_config <$> ns' → adjacent_of ns i = adjacent_of ns' i.
Proof.
  intros Hc. unfold adjacent_of. rewrite !list_lookup_total_alt.
  pose proof (f_equal (λ l, l !! i) Hc) as Hi. simpl in Hi.
  rewrite !list_lookup_fmap in Hi.
  destruct (ns !! i) as [nd|], (ns' !! i) as [nd'|]; simplify_eq/=; [|done].
  unfold node_config in Hi. by simplify_eq.
Qed.

Lemma bfs_loop_ext ns ns' fuel from_node destination st :
  length ns = length ns' → (∀ i, adjacent_of ns i = adjacent_of ns' i) →
  bfs_loop fuel ns from_node destination st
  = bfs_loop fuel ns' from_node destination st.
Proof.
  intros Hlen Hadj. revert st. induction fuel as [|fuel IH]; intros st; [done|].
  simpl. destruct (bfs_queue st) as [|curr q]; [done|].
  rewrite Hlen, Hadj. destruct (_ =? _); [done|]. apply IH.
Qed.

Lemma find_best_next_hop_ext ns ns' from_node destination :
  node_config <$> ns = node_config <$> ns' →
  find_best_next_hop ns from_node destination
  = find_best_next_hop ns' from_node destination.
Proof.
  intros Hc.
  assert (Hlen : length ns = length ns').
  { by rewrite <- (length_fmap node_config ns), Hc, length_fmap. }
  unfold find_best_next_hop. rewrite Hlen, (config_adjacent_of ns ns' _ Hc).
  destruct (decide _); [done|]. destruct (adjacent_of ns' from_node); [done|].
  destruct (existsb _ _); [done|].
  by rewrite (bfs_loop_ext ns ns') by (done || intros; by apply config_adjacent_of).
Qed.

Lemma selected_is_queued net i nd v e nd' :
  nodes net !! i = Some nd → select_vehicle nd = Some (v, e, nd') →
  v ∈ queued_vehicles net.
Proof.
  intros Hi Hsel. destruct (select_vehicle_vehicles _ _ _ _ Hsel) as [Hperm _].
  unfold queued_vehicles. apply list_elem_of_bind. exists nd.
  split; [rewrite Hperm; by left|by eapply list_elem_of_lookup_2].
Qed.

Lemma Forall_forget_position (P : Vehicle → Prop) l l' :
  (∀ v, P (forget_position v) ↔ P v) →
  forget_position <$> l' ⊆+ forget_position <$> l → Forall P l → Forall P l'.
Proof.
  intros HP Hsub Hl. apply Forall_forall. intros v' Hv'.
  assert (Hin : forget_position v' ∈ forget_position <$> l).
  { eapply elem_of_submseteq; [|exact Hsub]. by apply list_elem_of_fmap_2. }
  apply list_elem_of_fmap in Hin as (v & Heq & Hv).
  apply HP. rewrite Heq. apply HP. by eapply (proj1 (Forall_forall _ _) Hl).
Qed.

Lemma service_step_rerouting net net' :
  Forall (λ v, 0 ≤ blocked_attempts v < 5) (queued_vehicles net) →
  service_step net net' →
  rerouting_attempts (stats net') = rerouting_attempts (stats net) ∧
  Forall (λ v, 0 ≤ blocked_attempts v < 5) (queued_vehicles net').
Proof.
  intros Hall Hstep. split.
  - destruct Hstep as [i [_ ->|nd v e nd' Hi Hsel _ Hs|nd v e nd' Hi Hsel _ ->
                         |nd v e nd' to j Hi Hsel _ _ ->]]; [done| | |done].
    + destruct Hs as [->|[Hlt _]]; [done|]. exfalso.
      pose proof (selected_is_queued _ _ _ _ _ _ Hi Hsel) as Hv.
      apply (proj1 (Forall_forall _ _) Hall) in Hv.
      rewrite int_succ_eq in Hlt by (unfold INT_MIN, INT_MAX; lia). lia.
    + unfold record_arrival. by destruct (bool_decide _).
  - eapply Forall_forget_position; [|by apply service_step_vehicles|done]. done.
Qed.

Lemma int_wrap_add_l a b : int_wrap (int_wrap a + b) = int_wrap (a + b).
Proof. unfold int_wrap. Z.div_mod_to_equations. lia. Qed.

Lemma service_step_routes net net' :
  successful_routes (stats net)
    = int_wrap (total_vehicles_processed (stats net)
                + emergency_vehicles_processed (stats net)) →
  service_step net net' →
  successful_routes (stats net')
    = int_wrap (total_vehicles_processed (stats net')
                + emergency_vehicles_processed (stats net')).
Proof.
  intros Hinv [i [_ ->|nd v e nd' Hi Hsel _ Hs|nd v e nd' Hi Hsel _ ->
                 |nd v e nd' to j Hi Hsel _ _ ->]]; [done| | |done].
  - by destruct Hs as [->|[_ ->]].
  - unfold record_arrival. destruct (bool_decide _); simpl; rewrite Hinv;
      unfold int_succ.
    + rewrite !int_wrap_add_l. f_equal. lia.
    + rewrite int_wrap_add_l, (Z.add_comm (total_vehicles_processed _) (int_wrap _)),
        int_wrap_add_l. f_equal. lia.
Qed.

(** X1.  The configuration of the network (ids, kinds, capacities and adjacency
    lists of the nodes) is the same after any sequence of engine operations,
    and so is every answer of the router. *)
Theorem engine_run_keeps_configuration net0 net :
  rtc engine_step net0 net →
  node_config <$> nodes net = node_config <$> nodes net0 ∧
  ∀ from_node destination,
    find_best_next_hop (nodes net) from_node destination
    = find_best_next_hop (nodes net0) from_node destination.
Proof.
  intros Hrun%engine_run_served%service_run_config.
  split; [done|]. intros. by apply find_best_next_hop_ext.
Qed.

Lemma engine_run_keeps_configuration_witness :
  node_config <$> nodes overflow_net_after = node_config <$> nodes overflow_net ∧
  ∀ from_node destination,
    find_best_next_hop (nodes overflow_net_after) from_node destination
    = find_best_next_hop (nodes overflow_net) from_node destination.
Proof. exact (engine_run_keeps_configuration _ _ overflow_net_run). Defined.

(** X2.  The vehicles queued after any sequence of engine operations are, their
    positions apart, some of the vehicles queued before it, each at most
    once; so vehicle ids that were distinct stay distinct. *)
Theorem engine_run_keeps_vehicles net0 net :
  rtc engine_step net0 net →
  forget_position <$> queued_vehicles net ⊆+ forget_position <$> queued_vehicles net0 ∧
  vehicle_id <$> queued_vehicles net ⊆+ vehicle_id <$> queued_vehicles net0 ∧
  (NoDup (vehicle_id <$> queued_vehicles net0) →
   NoDup (vehicle_id <$> queued_vehicles net)).
Proof.
  intros Hrun%engine_run_served%service_run_vehicles.
  assert (Hid : vehicle_id <$> queued_vehicles net ⊆+ vehicle_id <$> queued_vehicles net0).
  { apply (fmap_submseteq vehicle_id) in Hrun. by rewrite <- !list_fmap_compose in Hrun. }
  split; [done|]. split; [done|]. intros Hnd.
  apply submseteq_Permutation in Hid as [k Hk]. rewrite Hk in Hnd.
  by apply NoDup_app in Hnd as [? _].
Qed.

Lemma engine_run_keeps_vehicles_witness :
  forget_position <$> queued_vehicles overflow_net_after
    ⊆+ forget_position <$> queued_vehicles overflow_net ∧
  vehicle_id <$> queued_vehicles overflow_net_after
    ⊆+ vehicle_id <$> queued_vehicles overflow_net ∧
  (NoDup (vehicle_id <$> queued_vehicles overflow_net) →
   NoDup (vehicle_id <$> queued_vehicles overflow_net_after)).
Proof. exact (engine_run_keeps_vehicles _ _ overflow_net_run). Defined.

(** X3.  When every queued vehicle has between 0 and 4 blocked attempts (the
    constructor gives 0), no sequence of engine operations changes the
    counter of rerouting attempts, and the queued vehicles still have
    between 0 and 4 blocked attempts afterwards. *)
Theorem rerouting_never_attempted net0 net :
  Forall (λ v, 0 ≤ blocked_attempts v < 5) (queued_vehicles net0) →
  rtc engine_step net0 net →
  rerouting_attempts (stats net) = rerouting_attempts (stats net0) ∧
  Forall (λ v, 0 ≤ blocked_attempts v < 5) (queued_vehicles net).
Proof.
  intros Hall Hrun%engine_run_served.
  induction Hrun as [|net0 net1 net2 Hstep _ IH]; [done|].
  destruct (service_step_rerouting _ _ Hall Hstep) as [Hr Hall1].
  destruct (IH Hall1) as [Hr2 Hall2]. split; [congruence|done].
Qed.

Lemma rerouting_never_attempted_witness :
  rerouting_attempts (stats overflow_net_after) = rerouting_attempts (stats overflow_net) ∧
  Forall (λ v, 0 ≤ blocked_attempts v < 5) (queued_vehicles overflow_net_after).
Proof.
  apply (rerouting_never_attempted overflow_net overflow_net_after);
    [|exact overflow_net_run].
  vm_compute. repeat constructor; discriminate.
Defined.

Lemma service_run_routes net net' :
  successful_routes (stats net)
    = int_wrap (total_vehicles_processed (stats net)
                + emergency_vehicles_processed (stats net)) →
  rtc service_step net net' →
  successful_routes (stats net')
    = int_wrap (total_vehicles_processed (stats net')
                + emergency_vehicles_processed (stats net')).
Proof.
  intros Hinv Hrun. induction Hrun as [|net0 net1 net2 Hstep _ IH]; [done|].
  apply IH. by eapply service_step_routes.
Qed.

Lemma cons_inv_completed n net :
  net_inv n false no_pending net → cons_inv net →
  0 ≤ vehicles_completed net ≤ vehicles_created net ∧
  in_int (vehicles_completed net).
Proof.
  intros Hinv [Hsum Hr He Hc].
  assert (0 ≤ total_occupancy (nodes net)).
  { apply total_occupancy_nonneg. intros j nd Hj.
    by apply (net_inv_nonneg n false _ _ j nd Hinv). }
  unfold vehicles_completed, in_int, INT_MIN, INT_MAX in *. lia.
Qed.

(** X4.  Every completed trip is a successful route: from a state in which the
    two counts agree (a fresh network has both at 0) they agree after any
    sequence of engine operations, and they never exceed the number of
    vehicles created. *)
Theorem successful_routes_are_completed_trips net0 net :
  wf_network net0 → occupancy_is_queue_size net0 →
  vehicles_in_transit_externally net0 = 0 →
  0 ≤ total_vehicles_processed (stats net0) →
  0 ≤ emergency_vehicles_processed (stats net0) →
  vehicles_created net0 < INT_MAX →
  successful_routes (stats net0) = vehicles_completed net0 →
  rtc engine_step net0 net →
  successful_routes (stats net) = vehicles_completed net ∧
  0 ≤ vehicles_completed net ≤ vehicles_created net0.
Proof.
  intros Hwf Hsize Htransit Hr He Hcreated Hroutes Hrun.
  assert (Hinv0 : net_inv (length (nodes net0)) false no_pending net0)
    by by apply initial_net_inv.
  assert (Hcons0 : cons_inv net0).
  { split; try done. unfold vehicles_in_transit_externally in Htransit.
    rewrite (total_queued_occupancy (nodes net0)) in Htransit; [lia|].
    intros j nd Hj. destruct Hinv0 as [_ Hall].
    rewrite (ni_occ _ _ _ _ (Hall j nd Hj)). simpl. lia. }
  destruct (engine_run_inv _ _ _ _ Hinv0 Hrun) as [Hinv Hcons].
  specialize (Hcons Hcons0).
  destruct (cons_inv_completed _ _ Hinv0 Hcons0) as [_ Hint0].
  destruct (cons_inv_completed _ _ Hinv Hcons) as [Hle Hint].
  pose proof (service_run_routes net0 net) as Hinvr.
  unfold vehicles_completed in *.
  rewrite int_wrap_id in Hinvr by done.
  specialize (Hinvr Hroutes (engine_run_served _ _ Hrun)).
  rewrite int_wrap_id in Hinvr by done. split; [done|].
  unfold vehicles_created in *. by rewrite <- (engine_run_id _ _ Hrun).
Qed.

(** X5.  When no emergency vehicle is queued, none ever is, and after any
    sequence of engine operations every occupancy is within the capacity:
    the extra place of a node is used by emergency vehicles only. *)
Theorem regular_traffic_within_capacity net0 net :
  wf_network net0 → occupancy_is_queue_size net0 → within_capacity net0 →
  Forall (λ v, type v = REGULAR) (queued_vehicles net0) →
  rtc engine_step net0 net →
  within_capacity net ∧ Forall (λ v, type v = REGULAR) (queued_vehicles net).
Proof.
  intros Hwf Hsize Hcap Hreg Hrun.
  assert (Hreg' : Forall (λ v, type v = REGULAR) (queued_vehicles net)).
  { eapply Forall_forget_position; [|exact (service_run_vehicles _ _
      (engine_run_served _ _ Hrun))|exact Hreg]. done. }
  split; [|done].
  pose proof (initial_net_inv true net0 Hwf Hsize (λ _, Hcap)) as Hinv0.
  destruct (engine_run_inv _ _ _ _ Hinv0 Hrun) as [[_ Hall] _].
  intros nd [j Hj]%list_elem_of_lookup_1.
  destruct (Hall j nd Hj) as [_ _ He _ _ _ _ Hover].
  destruct (decide (current_vehicles nd ≤ capacity nd)) as [|Hgt]; [done|].
  exfalso. destruct (Hover eq_refl ltac:(lia)) as [Hne|(? & ? & _)]; [|done].
  destruct (emergency_queue nd) as [|v r] eqn:Hq; [done|].
  apply Forall_cons in He as [Hv _]. apply Hv.
  apply (proj1 (Forall_forall _ _) Hreg'). unfold queued_vehicles.
  apply list_elem_of_bind. exists nd. split; [|by eapply list_elem_of_lookup_2].
  unfold vehicles_of. rewrite Hq. apply elem_of_app. right. by left.
Qed.

(** ** One service, spelled out *)

Lemma wf_network_adjacency net : wf_network net → wf_adjacency (nodes net).
Proof.
  intros Hwf u w Hw. unfold adjacent_of in Hw.
  destruct (nodes net !! u) as [nd|] eqn:Hnd.
  - rewrite (list_lookup_total_correct _ _ _ Hnd) in Hw.
    pose proof (wf_adj net Hwf nd (list_elem_of_lookup_2 _ _ _ Hnd)) as Hall.
    by apply (proj1 (Forall_forall _ _) Hall).
  - rewrite list_lookup_total_alt, Hnd in Hw. simpl in Hw.
    by apply elem_of_nil in Hw.
Qed.

Lemma vehicle_lt_irrefl v : vehicle_lt v v = false.
Proof. apply vehicle_lt_false. lia. Qed.

Lemma select_vehicle_extracted nd v e nd' :
  select_vehicle nd = Some (v, e, nd') → extracted nd v e nd'.
Proof.
  unfold select_vehicle.
  destruct (pq_extract (emergency_queue nd)) as [[m r]|] eqn:Hq.
  - intros [= <- <- <-]. destruct (pq_extract_Some _ _ _ Hq) as [Hperm Hmax].
    split; simpl; [done|done| |done]. split; [done|].
    rewrite Hperm. constructor; [apply vehicle_lt_irrefl|done].
  - apply pq_extract_None in Hq. destruct (waiting_queue nd) as [|w rest] eqn:Hw; [done|].
    intros [= <- <- <-]. split; simpl; done.
Qed.

(** The admission check reads the number of nodes and, of the node asked
    for, the occupancy and the capacity. *)
Lemma can_move_to_node_safe_ext net net' to t :
  node_config <$> nodes net' = node_config <$> nodes net →
  current_vehicles <$> nodes net' = current_vehicles <$> nodes net →
  can_move_to_node_safe net' to t = can_move_to_node_safe net to t.
Proof.
  intros Hc Ho.
  assert (Hlen : length (nodes net') = length (nodes net)).
  { by rewrite <- (length_fmap node_config (nodes net')), Hc, length_fmap. }
  unfold can_move_to_node_safe. rewrite Hlen.
  destruct (_ || _) eqn:Hrange; [done|].
  apply orb_false_iff in Hrange as [H0 Hn].
  destruct (lookup_lt_is_Some_2 (nodes net) (Z.to_nat to)) as [nd Hnd]; [lia|].
  destruct (lookup_lt_is_Some_2 (nodes net') (Z.to_nat to)) as [nd' Hnd']; [lia|].
  rewrite (list_lookup_total_correct _ _ _ Hnd), (list_lookup_total_correct _ _ _ Hnd').
  pose proof (f_equal (λ l, l !! Z.to_nat to) Hc) as Hc1.
  pose proof (f_equal (λ l, l !! Z.to_nat to) Ho) as Ho1.
  simpl in Hc1, Ho1. rewrite !list_lookup_fmap, Hnd, Hnd' in Hc1.
  rewrite !list_lookup_fmap, Hnd, Hnd' in Ho1.
  simpl in Hc1, Ho1. unfold node_config in Hc1.
  injection Hc1 as _ _ Hcap _. injection Ho1 as Ho1. by rewrite Hcap, Ho1.
Qed.

Lemma insert_extracted_config (ns : list NodeData) (i : nat) nd v e nd' :
  ns !! i = Some nd → extracted nd v e nd' →
  node_config <$> <[i:=nd']> ns = node_config <$> ns ∧
  current_vehicles <$> <[i:=nd']> ns = current_vehicles <$> ns.
Proof.
  intros Hi [Hc Ho _ _]. split; by apply (fmap_insert_same _ _ _ nd).
Qed.

Lemma alter_insert_eq {A} (f : A → A) (i : nat) (l : list A) x :
  alter f i (<[i:=x]> l) = <[i:=f x]> l.
Proof.
  apply list_eq. intros j. destruct (decide (j = i)) as [->|Hne].
  - destruct (decide (i < length l)%nat) as [Hlt|Hge].
    + by rewrite list_lookup_alter_eq, !list_lookup_insert_eq.
    + rewrite list_lookup_alter_eq, !lookup_ge_None_2;
        [done|rewrite length_insert; lia..].
  - by rewrite list_lookup_alter_ne, !list_lookup_insert_ne.
Qed.

Lemma entered_node_eq v nd :
  INT_MIN - 1 ≤ current_vehicles nd < INT_MAX →
  push_flag (emergency_flag v) v (enter_node nd) = entered_node v nd.
Proof. intros Hc. unfold entered_node, enter_node. by rewrite int_succ_eq. Qed.

Lemma max_allowed_int nd t : in_int (capacity nd) → max_allowed nd t ≤ INT_MAX.
Proof.
  intros [_ Hc]. unfold max_allowed. destruct (negb _); [|done].
  apply int_wrap_in_int.
Qed.

Lemma remove_from_source_insert i net nd' (ns : list NodeData) :
  in_int (current_vehicles nd') → (i < length ns)%nat →
  nodes net = <[i:=nd']> ns →
  nodes (remove_from_source i net) = <[i:=left_node nd']> ns.
Proof.
  intros Hint Hi Hn. unfold remove_from_source.
  rewrite Hn, list_lookup_total_insert_eq by done.
  unfold left_node, departed_occupancy.
  destruct (current_vehicles nd' >? 0) eqn:E.
  - simpl. rewrite Hn, alter_insert_eq. unfold leave_node.
    rewrite int_pred_eq; [done|]. unfold in_int, INT_MIN, INT_MAX in *. lia.
  - rewrite Hn. by destruct nd'.
Qed.

(** After an allowed admission the vehicle enters the next hop. *)
Lemma enter_admitted net i nd nd' v next :
  wf_network net → nodes net !! i = Some nd →
  current_vehicles nd' = current_vehicles nd → capacity nd' = capacity nd →
  can_move_to_node_safe net next (type v) = true →
  alter (push_flag (emergency_flag v) v) (Z.to_nat next)
    (alter enter_node (Z.to_nat next) (<[i:=left_node nd']> (nodes net)))
  = alter (entered_node v) (Z.to_nat next) (<[i:=left_node nd']> (nodes net)).
Proof.
  intros Hwf Hi Hocc Hcap [Hrange Hlt]%can_move_to_node_safe_true.
  rewrite list_alter_alter_eq. apply list_alter_ext; [|done].
  intros x Hx. simpl. apply entered_node_eq.
  destruct (lookup_lt_is_Some_2 (nodes net) (Z.to_nat next)) as [nt Hnt]; [lia|].
  rewrite (list_lookup_total_correct _ _ _ Hnt) in Hlt.
  assert (Hin : nt ∈ nodes net) by by eapply list_elem_of_lookup_2.
  pose proof (max_allowed_int nt (type v) (wf_cap net Hwf nt Hin)) as Hmax.
  pose proof (wf_occ net Hwf nt Hin) as [Hlo Hhi].
  destruct (decide (Z.to_nat next = i)) as [Heq|Hne].
  - rewrite Heq, list_lookup_insert_eq in Hx by (by eapply lookup_lt_Some).
    injection Hx as <-. rewrite Heq, Hi in Hnt. injection Hnt as <-.
    simpl. rewrite Hocc. unfold departed_occupancy.
    destruct (_ >? 0); unfold INT_MIN in *; lia.
  - rewrite list_lookup_insert_ne, Hnt in Hx by done. injection Hx as <-.
    unfold INT_MIN in *. lia.
Qed.

Lemma display_move_after net i nd nd' v e next net1 :
  wf_network net → nodes net !! i = Some nd →
  node_config nd' = node_config nd → current_vehicles nd' = current_vehicles nd →
  nodes net1 = <[i:=nd']> (nodes net) → stats net1 = stats net →
  can_move_to_node_safe net next (type v) = true →
  let res := perform_vehicle_move_with_display v i next net1 in
  nodes res.2 = nodes_after i v e nd' (Moved next) (nodes net) ∧
  stats res.2 = stats_after v (Moved next) (stats net).
Proof.
  intros Hwf Hi Hcfg Hocc Hn1 Hs1 Hcan.
  pose proof (perform_vehicle_move_with_display_shape v i next net1) as Hshape.
  assert (Hsrc : nodes (remove_from_source i net1) = <[i:=left_node nd']> (nodes net)).
  { apply remove_from_source_insert; [|by eapply lookup_lt_Some|done].
    rewrite Hocc. apply (wf_occ net Hwf). by eapply list_elem_of_lookup_2. }
  simpl in *. rewrite Hsrc, Hs1 in Hshape.
  unfold nodes_after, stats_after.
  destruct (decide (next = destination_node v)) as [Hd|Hd].
  - rewrite !(bool_decide_true (next = _)) by done.
    by rewrite (proj2 (Z.eqb_eq _ _) Hd) in Hshape.
  - rewrite !(bool_decide_false (next = _)) by done.
    rewrite (proj2 (Z.eqb_neq _ _) Hd) in Hshape. destruct Hshape as [-> ->].
    split; [|done].
    apply (enter_admitted net i nd nd' (set_current_node next v) next); try done.
    unfold node_config in Hcfg. by injection Hcfg as _ _ Hcap _.
Qed.

(** The service of a node by the step-by-step engine, for the vehicle that
    [select_vehicle] takes. *)
Lemma process_single_vehicle_movement_service i net nd v e nd' :
  wf_network net → nodes net !! i = Some nd →
  select_vehicle nd = Some (v, e, nd') →
  ∃ a net',
    attempt_due net i v a ∧
    process_single_vehicle_movement i net = Some (moves a, net') ∧
    console net' = console net ++ report i v a ∧
    nodes net' = nodes_after i v e nd' a (nodes net) ∧
    stats net' = stats_after v a (stats net) ∧
    next_vehicle_id net' = next_vehicle_id net.
Proof.
  intros Hwf Hi Hsel.
  pose proof (select_vehicle_extracted _ _ _ _ Hsel) as Hex.
  destruct (insert_extracted_config _ _ _ _ _ _ Hi Hex) as [Hcfg Hocc].
  assert (Hlt : (i < length (nodes net))%nat) by by eapply lookup_lt_Some.
  unfold process_single_vehicle_movement.
  rewrite decide_False by lia.
  rewrite (list_lookup_total_correct _ _ _ Hi), Hsel.
  unfold process_vehicle_step_by_step.
  set (net1 := emit (EvProcessing v i) (set_nodes (<[i:=nd']> (nodes net)) net)).
  assert (Hn1 : nodes net1 = <[i:=nd']> (nodes net)) by done.
  destruct (find_best_next_hop_cases (nodes net) i (destination_node v)
              (wf_network_adjacency _ Hwf)) as (next & Hnext & _).
  rewrite Hn1, (find_best_next_hop_ext _ _ _ _ Hcfg), Hnext. simpl.
  destruct (next =? -1) eqn:Hm1.
  { apply Z.eqb_eq in Hm1 as ->. exists NoPath. eexists. split; [done|].
    split; [done|].
    rewrite return_vehicle_to_queue_console, return_vehicle_to_queue_stats,
      return_vehicle_to_queue_nodes. simpl.
    rewrite <- app_assoc. split; [done|].
    split; [destruct e; apply alter_insert_eq|]. split; [done|]. by destruct e. }
  apply Z.eqb_neq in Hm1.
  rewrite (can_move_to_node_safe_ext net net1) by done.
  destruct (can_move_to_node_safe net next (type v)) eqn:Hcan.
  - exists (Moved next).
    assert (Hc : console (perform_vehicle_move_with_display v i next net1).2
                 = console net ++ report i v (Moved next)).
    { unfold perform_vehicle_move_with_display.
      change (destination_node (set_current_node next v)) with (destination_node v).
      change (type (set_current_node next v)) with (type v).
      unfold report. destruct (decide (next = destination_node v)) as [Hd|Hd].
      - rewrite (bool_decide_true (next = _)), (proj2 (Z.eqb_eq _ _) Hd) by done.
        simpl. rewrite remove_from_source_console. simpl. by rewrite <- !app_assoc.
      - rewrite (bool_decide_false (next = _)), (proj2 (Z.eqb_neq _ _) Hd) by done.
        simpl. destruct (bool_decide (type v = REGULAR)); simpl;
          rewrite remove_from_source_console; simpl; by rewrite <- !app_assoc. }
    assert (Hid : next_vehicle_id (perform_vehicle_move_with_display v i next net1).2
                  = next_vehicle_id net).
    { unfold perform_vehicle_move_with_display. simpl.
      destruct (_ =? _); simpl; [by rewrite remove_from_source_next_id|].
      destruct (bool_decide _); simpl; by rewrite remove_from_source_next_id. }
    destruct (display_move_after net i nd nd' v e next net1 Hwf Hi
                (extracted_config _ _ _ _ Hex) (extracted_occupancy _ _ _ _ Hex)
                Hn1 eq_refl Hcan) as [Hn Hs].
    destruct (perform_vehicle_move_with_display v i next net1) as [v1 net2].
    simpl in *. by exists net2.
  - exists (Blocked next). eexists. split; [done|]. split; [done|].
    rewrite return_vehicle_to_queue_console, return_vehicle_to_queue_stats,
      return_vehicle_to_queue_nodes. simpl.
    rewrite <- app_assoc. split; [done|].
    split; [destruct e; apply alter_insert_eq|]. split; [done|]. by destruct e.
Qed.


(** ** The scan of a single step *)

Lemma net_inv_wf_network n net :
  net_inv n false no_pending net → wf_network net.
Proof.
  intros [Hlen Hall]. split; intros nd [j Hj]%list_elem_of_lookup_1;
    pose proof (Hall j nd Hj) as Hni.
  - rewrite Hlen. apply (ni_adj _ _ _ _ Hni).
  - apply (ni_wait _ _ _ _ Hni).
  - apply (ni_emer _ _ _ _ Hni).
  - apply (ni_cap _ _ _ _ Hni).
  - pose proof (ni_occ _ _ _ _ Hni) as Ho. pose proof (ni_int _ _ _ _ Hni).
    simpl in Ho. unfold in_int, INT_MIN. lia.
Qed.

Lemma step_scan_app idxs1 idxs2 net :
  step_scan (idxs1 ++ idxs2) net
  = match step_scan idxs1 net with
    | Some (false, net1) => step_scan idxs2 net1
    | r => r
    end.
Proof.
  revert net. induction idxs1 as [|i rest IH]; intros net; [done|].
  simpl. case_bool_decide; [|apply IH].
  destruct (process_single_vehicle_movement i net) as [[[] net1]|]; simpl;
    [done|apply IH|done].
Qed.

Lemma passed_nodes_lookup log (ns : list NodeData) (j : nat) :
  passed_nodes log ns !! j = requeued (log !! j) <$> ns !! j.
Proof. unfold passed_nodes. by rewrite list_lookup_imap. Qed.

Lemma length_passed_nodes log (ns : list NodeData) :
  length (passed_nodes log ns) = length ns.
Proof. unfold passed_nodes. by rewrite length_imap. Qed.

Lemma passed_nodes_snoc log o (ns : list NodeData) nd :
  ns !! length log = Some nd →
  passed_nodes (log ++ [o]) ns
  = <[length log := requeued (Some o) nd]> (passed_nodes log ns).
Proof.
  intros Hnd. apply list_eq. intros j. rewrite passed_nodes_lookup.
  destruct (decide (j = length log)) as [->|Hne].
  - rewrite list_lookup_insert_eq
      by (rewrite length_passed_nodes; by eapply lookup_lt_Some).
    by rewrite Hnd, lookup_app_r, Nat.sub_diag.
  - rewrite list_lookup_insert_ne, passed_nodes_lookup by done.
    destruct (decide (j < length log)%nat) as [Hlt|Hge].
    + by rewrite lookup_app_l.
    + rewrite (lookup_ge_None_2 log), (lookup_ge_None_2 (log ++ [o])); [done|..].
      * rewrite length_app. simpl. lia.
      * lia.
Qed.

Lemma passed_report_snoc log o :
  passed_report (log ++ [o])
  = passed_report log
    ++ match o with
       | Some s => report (length log) (taken s) (attempt s)
       | None => []
       end.
Proof.
  unfold passed_report. rewrite imap_app, concat_app. simpl.
  by rewrite Nat.add_0_r, app_nil_r.
Qed.

(** The nodes the scan has passed keep their configuration and their
    occupancy: the router and the admission check answer as before. *)
Lemma passed_nodes_config net log :
  (∀ j o nd, log !! j = Some o → nodes net !! j = Some nd → passed net j nd o) →
  node_config <$> passed_nodes log (nodes net) = node_config <$> nodes net ∧
  current_vehicles <$> passed_nodes log (nodes net) = current_vehicles <$> nodes net.
Proof.
  intros Hdue.
  assert (Hnode : ∀ j nd, nodes net !! j = Some nd →
            node_config (requeued (log !! j) nd) = node_config nd ∧
            current_vehicles (requeued (log !! j) nd) = current_vehicles nd).
  { intros j nd Hj. destruct (log !! j) as [[s|]|] eqn:Hlog; [|done|done].
    destruct (Hdue j _ nd Hlog Hj) as ([Hc Ho _ _] & _). simpl.
    destruct (push_flag_vehicles (from_emergency s) (taken s) (remainder s))
      as (_ & Hc' & Ho').
    split; congruence. }
  split; apply list_eq; intros j;
    rewrite !list_lookup_fmap, passed_nodes_lookup;
    destruct (nodes net !! j) as [nd|] eqn:Hj; simpl; [|done| |done];
    f_equal; apply (Hnode j nd Hj).
Qed.

Lemma attempt_due_ext net net' i v a :
  node_config <$> nodes net' = node_config <$> nodes net →
  current_vehicles <$> nodes net' = current_vehicles <$> nodes net →
  attempt_due net' i v a → attempt_due net i v a.
Proof.
  intros Hc Ho. destruct a; simpl;
    rewrite (find_best_next_hop_ext _ _ _ _ Hc),
      ?(can_move_to_node_safe_ext net net') by done; done.
Qed.

(** The state in which the scan reaches node [m], or the state in which it
    stopped before. *)
Lemma step_scan_prefix net (m : nat) :
  wf_network net → occupancy_is_queue_size net →
  (m ≤ length (nodes net))%nat →
  ∃ b net' (log : list (option Service)),
    step_scan (seq 0 m) net = Some (b, net') ∧
    next_vehicle_id net' = next_vehicle_id net ∧
    (∀ j o nd, log !! j = Some o → nodes net !! j = Some nd → passed net j nd o) ∧
    if b then
      ∃ nd v e nd' next,
        (length log < m)%nat ∧
        nodes net !! length log = Some nd ∧ extracted nd v e nd' ∧
        attempt_due net (length log) v (Moved next) ∧
        console net'
        = console net ++ passed_report log ++ report (length log) v (Moved next) ∧
        nodes net'
        = nodes_after (length log) v e nd' (Moved next)
            (passed_nodes log (nodes net)) ∧
        stats net' = stats_after v (Moved next) (stats net)
    else
      length log = m ∧
      console net' = console net ++ passed_report log ∧
      nodes net' = passed_nodes log (nodes net) ∧ stats net' = stats net.
Proof.
  intros Hwf Hsize.
  assert (Hinv : net_inv (length (nodes net)) false no_pending net)
    by by apply initial_net_inv.
  induction m as [|m IH]; intros Hm.
  { exists false, net, []. split; [done|]. split; [done|].
    split; [intros j o nd Hj; by rewrite lookup_nil in Hj|].
    split; [done|]. split; [by rewrite app_nil_r|]. split; [|done].
    apply list_eq. intros j. rewrite passed_nodes_lookup, lookup_nil. simpl.
    by destruct (nodes net !! j). }
  destruct IH as (b & cur & log & Hscan & Hid & Hdue & Hb); [lia|].
  rewrite seq_S, step_scan_app, Hscan. simpl.
  destruct b.
  { exists true, cur, log. split; [done|]. split; [done|]. split; [done|].
    destruct Hb as (nd & v & e & nd' & next & Hlt & Hrest).
    exists nd, v, e, nd', next. split; [lia|done]. }
  destruct Hb as (Hlen & Hc & Hn & Hs).
  destruct (lookup_lt_is_Some_2 (nodes net) m) as [nd Hnd]; [lia|].
  assert (Hcur : nodes cur !! m = Some nd).
  { rewrite Hn, passed_nodes_lookup, Hnd, lookup_ge_None_2 by lia. done. }
  rewrite (list_lookup_total_correct _ _ _ Hcur).
  case_bool_decide as Hne.
  - (* node [m] has a vehicle *)
    destruct (step_scan_inv _ _ (seq 0 m) net Hinv) as (b1 & cur1 & Hscan1 & Hinv1 & _).
    rewrite Hscan in Hscan1. injection Hscan1 as <- <-.
    apply net_inv_wf_network in Hinv1.
    destruct (select_vehicle_nonempty _ Hne) as [[[v e] nd'] Hsel].
    pose proof (select_vehicle_extracted _ _ _ _ Hsel) as Hex.
    destruct (process_single_vehicle_movement_service m cur nd v e nd' Hinv1 Hcur Hsel)
      as (a & net' & Ha & Hp & Hc' & Hn' & Hs' & Hid').
    rewrite Hp. simpl.
    destruct (passed_nodes_config net log Hdue) as [Hcfg Hocc].
    rewrite <- Hn in Hcfg, Hocc.
    apply (attempt_due_ext net cur) in Ha; [|done|done].
    destruct (moves a) eqn:Hmoves.
    + exists true, net', log. split; [done|]. split; [congruence|]. split; [done|].
      destruct a as [| |next]; [done|done|].
      exists nd, v, e, nd', next. rewrite Hlen.
      split; [lia|]. split; [done|]. split; [done|]. split; [done|].
      split; [by rewrite Hc', Hc, <- app_assoc|]. split; [by rewrite Hn', Hn|].
      by rewrite Hs', Hs.
    + exists false, net', (log ++ [Some (mkService v e nd' a)]).
      split; [done|]. split; [congruence|]. split.
      { intros j o nd0 Hj Hj0. apply lookup_app_Some in Hj as [Hj|[Hge Hj]].
        - by eapply Hdue.
        - apply list_lookup_singleton_Some in Hj as [Hz <-].
          assert (j = m) as -> by lia. rewrite Hnd in Hj0. injection Hj0 as <-.
          done. }
      split; [rewrite length_app; simpl; lia|].
      rewrite passed_report_snoc, Hlen. simpl.
      split; [by rewrite Hc', Hc, <- app_assoc|].
      split; [|rewrite Hs', Hs; by destruct a].
      rewrite (passed_nodes_snoc _ _ _ nd) by (by rewrite Hlen).
      rewrite Hn', Hn, Hlen. simpl. by destruct a.
  - (* node [m] has no vehicle *)
    exists false, cur, (log ++ [None]). split; [done|]. split; [done|]. split.
    { intros j o nd0 Hj Hj0. apply lookup_app_Some in Hj as [Hj|[Hge Hj]].
      - by eapply Hdue.
      - apply list_lookup_singleton_Some in Hj as [Hz <-].
        assert (j = m) as -> by lia. rewrite Hnd in Hj0. injection Hj0 as <-.
        simpl. lia. }
    split; [rewrite length_app; simpl; lia|].
    rewrite passed_report_snoc, app_nil_r. split; [done|]. split; [|done].
    rewrite (passed_nodes_snoc _ _ _ nd) by (by rewrite Hlen).
    rewrite Hn, Hlen. simpl. symmetry. apply list_insert_id.
    by rewrite <- Hn.
Qed.

(** C6, amended.  On a well-formed network whose occupancies are the queue
    sizes an invocation of the single-step operation returns.  It visits
    the nodes in increasing index order.  At a node with empty queues it
    does nothing.  At any other node it takes one vehicle, from the
    emergency queue if that is non-empty (a vehicle that [operator<] puts
    below no other vehicle of the queue), else the front of the Regular
    queue, and attempts one move: the vehicle moves exactly when the router
    names a next hop and the admission check allows it.  A vehicle that does
    not move goes back to the queue it came from, nothing else changes, and
    the scan goes on.  The scan stops at the first node [m] whose vehicle
    moves: that vehicle leaves node [m] and arrives or enters the next hop,
    the move is counted, and no node after [m] is touched.  The invocation
    returns true exactly in that case; when it returns false it has passed
    every node and the statistics are unchanged.  The console shows the
    services in that order. *)
Theorem execute_single_step_scan net :
  wf_network net → occupancy_is_queue_size net →
  ∃ b net' (log : list (option Service)),
    execute_single_step net = Some (b, net') ∧
    next_vehicle_id net' = next_vehicle_id net ∧
    (∀ j o nd, log !! j = Some o → nodes net !! j = Some nd → passed net j nd o) ∧
    let m := length log in
    if b then
      ∃ nd v e nd' next,
        nodes net !! m = Some nd ∧ extracted nd v e nd' ∧
        attempt_due net m v (Moved next) ∧
        console net' = console net ++ passed_report log ++ report m v (Moved next) ∧
        nodes net'
        = nodes_after m v e nd' (Moved next) (passed_nodes log (nodes net)) ∧
        stats net' = stats_after v (Moved next) (stats net)
    else
      m = length (nodes net) ∧
      console net' = console net ++ passed_report log ∧
      nodes net' = passed_nodes log (nodes net) ∧ stats net' = stats net.
Proof.
  intros Hwf Hsize.
  destruct (step_scan_prefix net (length (nodes net)) Hwf Hsize)
    as (b & net' & log & Hscan & Hid & Hdue & Hb); [done|].
  exists b, net', log. split; [done|]. split; [done|]. split; [done|].
  destruct b; [|done].
  destruct Hb as (nd & v & e & nd' & next & _ & Hrest).
  by exists nd, v, e, nd', next.
Qed.

Lemma execute_single_step_scan_witness :
  wf_network scan_net ∧ occupancy_is_queue_size scan_net ∧
  ∃ b net' (log : list (option Service)),
    execute_single_step scan_net = Some (b, net') ∧
    next_vehicle_id net' = next_vehicle_id scan_net ∧
    (∀ j o nd, log !! j = Some o → nodes scan_net !! j = Some nd →
       passed scan_net j nd o) ∧
    let m := length log in
    if b then
      ∃ nd v e nd' next,
        nodes scan_net !! m = Some nd ∧ extracted nd v e nd' ∧
        attempt_due scan_net m v (Moved next) ∧
        console net'
        = console scan_net ++ passed_report log ++ report m v (Moved next) ∧
        nodes net'
        = nodes_after m v e nd' (Moved next) (passed_nodes log (nodes scan_net)) ∧
        stats net' = stats_after v (Moved next) (stats scan_net)
    else
      m = length (nodes scan_net) ∧
      console net' = console scan_net ++ passed_report log ∧
      nodes net' = passed_nodes log (nodes scan_net) ∧ stats net' = stats scan_net.
Proof.
  split; [exact scan_net_wf|]. split; [exact scan_net_sizes|].
  exact (execute_single_step_scan scan_net scan_net_wf scan_net_sizes).
Defined.

(** ** Dispatch order *)










Lemma dispatch_example_net_sizes : occupancy_is_queue_size dispatch_example_net.
Proof. solve_in_list. Qed.



(** ** The loader *)

(** A loop that changes the elements at distinct indices of a vector. *)
Lemma foldl_alter_lookup {A} (F : nat → A → A) (idxs : list nat) (l : list A) j :
  NoDup idxs →
  foldl (λ l i, alter (F i) i l) l idxs !! j
  = if decide (j ∈ idxs) then F j <$> l !! j else l !! j.
Proof.
  revert l. induction idxs as [|i idxs IH]; intros l Hnd.
  - destruct (decide (j ∈ [])) as [?%elem_of_nil|]; done.
  - apply NoDup_cons in Hnd as [Hi Hnd]. cbn [foldl]. rewrite IH by done.
    destruct (decide (j = i)) as [->|Hne].
    + rewrite (decide_False _ _ Hi). rewrite decide_True by by left.
      by rewrite list_lookup_alter_eq.
    + rewrite list_lookup_alter_ne by done.
      destruct (decide (j ∈ idxs)) as [Hin|Hout].
      * rewrite decide_True; [done|by right].
      * rewrite decide_False; [done|]. by intros [->|?]%elem_of_cons.
Qed.

Lemma foldl_ext_eq {A B} (f g : A → B → A) (l : list B) (a : A) :
  (∀ a b, f a b = g a b) → foldl f a l = foldl g a l.
Proof.
  intros Hfg. revert a. induction l as [|b l IH]; intros a; simpl; [done|].
  by rewrite Hfg, IH.
Qed.

Lemma link_row adjacency_matrix i cols ns :
  foldl (link adjacency_matrix i) ns cols
  = alter (extend_adjacent (filter (λ j, 0 < adj_entry adjacency_matrix i j) cols)) i ns.
Proof.
  revert ns. induction cols as [|j cols IH]; intros ns; simpl.
  - symmetry. apply list_alter_id. intros [] . unfold extend_adjacent. simpl.
    by rewrite app_nil_r.
  - rewrite IH. unfold link. rewrite Z.gtb_ltb.
    destruct (0 <? adj_entry adjacency_matrix i j) eqn:E.
    + apply Z.ltb_lt in E. rewrite filter_cons_True by done.
      rewrite list_alter_alter_eq. apply list_alter_ext; [|done].
      intros nd _. unfold extend_adjacent, push_adjacent. simpl.
      by rewrite <- app_assoc.
    + apply Z.ltb_ge in E. rewrite filter_cons_False by lia. done.
Qed.

Lemma set_up_adjacency_lookup adjacency_matrix n ns i :
  set_up_adjacency adjacency_matrix n ns !! i
  = (if decide (i < n)%nat
     then extend_adjacent (filter (λ j, 0 < adj_entry adjacency_matrix i j) (seq 0 n))
     else id) <$> ns !! i.
Proof.
  unfold set_up_adjacency.
  rewrite (foldl_ext_eq _ (λ ns i, alter (extend_adjacent
    (filter (λ j, 0 < adj_entry adjacency_matrix i j) (seq 0 n))) i ns))
    by (intros; apply link_row).
  rewrite (foldl_alter_lookup (λ i, extend_adjacent
    (filter (λ j, 0 < adj_entry adjacency_matrix i j) (seq 0 n)))) by apply NoDup_seq.
  destruct (decide (i ∈ seq 0 n)) as [Hin|Hout]; rewrite elem_of_seq in *.
  - by rewrite decide_True by lia.
  - rewrite decide_False by lia. by destruct (ns !! i).
Qed.

Lemma made_S clock t idx dest id0 c0 k :
  made clock t idx dest id0 c0 (S k)
  = made clock t idx dest id0 c0 k
    ++ [new_vehicle (clock (c0 + k)%nat) (id0 + Z.of_nat k) t idx dest].
Proof. unfold made. by rewrite seq_S, fmap_app. Qed.

Lemma length_made clock t idx dest id0 c0 k :
  length (made clock t idx dest id0 c0 k) = k.
Proof. unfold made. by rewrite length_fmap, length_seq. Qed.

Lemma with_vehicles_nil nd : with_vehicles [] [] nd = nd.
Proof.
  destruct nd. unfold with_vehicles. simpl. rewrite !app_nil_r. f_equal. lia.
Qed.

Lemma with_vehicles_compose ws es ws' es' nd :
  with_vehicles ws' es' (with_vehicles ws es nd)
  = with_vehicles (ws ++ ws') (es ++ es') nd.
Proof.
  unfold with_vehicles. simpl. rewrite !app_assoc, !length_app. f_equal. lia.
Qed.

Lemma add_vehicles_waiting clock dest (k : nat) node id0 c0 :
  INT_MIN - 1 ≤ current_vehicles node →
  current_vehicles node + Z.of_nat k ≤ INT_MAX →
  INT_MIN - 1 ≤ id0 → id0 + Z.of_nat k ≤ INT_MAX →
  Nat.iter k (add_vehicle clock REGULAR push_waiting dest) (node, id0, c0)
  = (with_vehicles (made clock REGULAR (node_id node) dest id0 c0 k) [] node,
     id0 + Z.of_nat k, (c0 + k)%nat).
Proof.
  intros Hcv Hcv' Hid Hid'. induction k as [|k IH].
  - simpl. rewrite with_vehicles_nil, Z.add_0_r, Nat.add_0_r. done.
  - rewrite Nat.iter_succ, IH by lia. unfold add_vehicle. simpl.
    rewrite int_succ_eq by lia. f_equal; [f_equal|lia]; [|lia].
    rewrite made_S.
    unfold with_vehicles, enter_node, push_waiting, queue_push. simpl.
    rewrite length_app, length_made, int_succ_eq by lia.
    rewrite ?app_nil_r, ?app_assoc.
    unfold set_current_vehicles, set_waiting_queue, set_emergency_queue. simpl.
    f_equal. lia.
Qed.

Lemma add_vehicles_emergency clock t dest (k : nat) node id0 c0 :
  INT_MIN - 1 ≤ current_vehicles node →
  current_vehicles node + Z.of_nat k ≤ INT_MAX →
  INT_MIN - 1 ≤ id0 → id0 + Z.of_nat k ≤ INT_MAX →
  Nat.iter k (add_vehicle clock t push_emergency dest) (node, id0, c0)
  = (with_vehicles [] (made clock t (node_id node) dest id0 c0 k) node,
     id0 + Z.of_nat k, (c0 + k)%nat).
Proof.
  intros Hcv Hcv' Hid Hid'. induction k as [|k IH].
  - simpl. rewrite with_vehicles_nil, Z.add_0_r, Nat.add_0_r. done.
  - rewrite Nat.iter_succ, IH by lia. unfold add_vehicle. simpl.
    rewrite int_succ_eq by lia. f_equal; [f_equal|lia]; [|lia].
    rewrite made_S.
    unfold with_vehicles, enter_node, push_emergency, pq_push. simpl.
    rewrite length_app, length_made, int_succ_eq by lia.
    rewrite ?app_nil_r, ?app_assoc.
    unfold set_current_vehicles, set_waiting_queue, set_emergency_queue. simpl.
    f_equal. lia.
Qed.

Lemma add_vehicles_to_node_spec clock destinations traffic ambulances fire_trucks
    n node id0 c0 :
  let r := regular_count traffic node in
  let a := configured_count ambulances node in
  let f := configured_count fire_trucks node in
  let idx := node_id node in
  let dest := destination_of destinations idx n in
  INT_MIN - 1 ≤ current_vehicles node →
  current_vehicles node + Z.of_nat (r + a + f) ≤ INT_MAX →
  INT_MIN - 1 ≤ id0 → id0 + Z.of_nat (r + a + f) ≤ INT_MAX →
  add_vehicles_to_node clock destinations traffic ambulances fire_trucks n
    (node, id0, c0)
  = (with_vehicles (made clock REGULAR idx dest id0 c0 r)
       (made clock AMBULANCE idx dest (id0 + Z.of_nat r) (c0 + r) a
        ++ made clock FIRE_TRUCK idx dest (id0 + Z.of_nat (r + a)) (c0 + r + a) f)
       node,
     id0 + Z.of_nat (r + a + f), (c0 + (r + a + f))%nat).
Proof.
  intros r a f idx dest Hcv Hcv' Hid Hid'.
  unfold add_vehicles_to_node. simpl. fold dest.
  assert (H1 : ∀ st,
    match traffic !! node_char node with
    | Some count =>
        add_vehicles clock REGULAR push_waiting dest
          (Z.min count (Z.max 1 (int_pred (capacity node)))) st
    | None => st
    end = Nat.iter r (add_vehicle clock REGULAR push_waiting dest) st).
  { intros st. subst r. unfold regular_count, add_vehicles.
    by destruct (traffic !! node_char node). }
  assert (H2 : ∀ st,
    match ambulances !! node_char node with
    | Some amb_count => add_vehicles clock AMBULANCE push_emergency dest amb_count st
    | None => st
    end = Nat.iter a (add_vehicle clock AMBULANCE push_emergency dest) st).
  { intros st. subst a. unfold configured_count, add_vehicles.
    by destruct (ambulances !! node_char node). }
  assert (H3 : ∀ st,
    match fire_trucks !! node_char node with
    | Some fire_count => add_vehicles clock FIRE_TRUCK push_emergency dest fire_count st
    | None => st
    end = Nat.iter f (add_vehicle clock FIRE_TRUCK push_emergency dest) st).
  { intros st. subst f. unfold configured_count, add_vehicles.
    by destruct (fire_trucks !! node_char node). }
  rewrite H1, H2, H3. clear H1 H2 H3.
  rewrite add_vehicles_waiting by lia.
  rewrite add_vehicles_emergency
    by (unfold INT_MIN, INT_MAX in *; simpl; rewrite ?length_made; lia).
  rewrite add_vehicles_emergency
    by (unfold INT_MIN, INT_MAX in *; simpl; rewrite ?length_made; lia).
  replace (id0 + Z.of_nat r + Z.of_nat a) with (id0 + Z.of_nat (r + a)) by lia.
  f_equal; [f_equal|]; try lia.
  rewrite !with_vehicles_compose. simpl. by rewrite ?app_nil_r.
Qed.

Lemma stamp_made clock t idx dest id0 c0 k :
  stamp_of <$> made clock t idx dest id0 c0 k = stamp clock id0 c0 <$> seq 0 k.
Proof. unfold made. by rewrite <- list_fmap_compose. Qed.

Lemma stamp_app clock id0 c0 a b :
  stamp clock id0 c0 <$> seq 0 (a + b)
  = (stamp clock id0 c0 <$> seq 0 a)
    ++ (stamp clock (id0 + Z.of_nat a) (c0 + a) <$> seq 0 b).
Proof.
  rewrite seq_app, fmap_app. f_equal. simpl.
  replace (seq a b) with (seq (a + 0) b) by (f_equal; lia).
  rewrite <- (fmap_add_seq a 0 b), <- list_fmap_compose.
  apply list_fmap_ext. intros _ k _. unfold stamp. simpl.
  f_equal; [lia|]. f_equal. lia.
Qed.

Lemma Forall_made (P : Vehicle → Prop) clock t idx dest id0 c0 k :
  (∀ now id, P (new_vehicle now id t idx dest)) →
  Forall P (made clock t idx dest id0 c0 k).
Proof.
  intros HP. unfold made. apply Forall_fmap, Forall_forall. intros j _. apply HP.
Qed.

Lemma add_vehicles_to_node_loaded clock destinations traffic ambulances fire_trucks
    n node id0 c0 :
  let cnt := loaded_count traffic ambulances fire_trucks node in
  current_vehicles node = 0 → waiting_queue node = [] → emergency_queue node = [] →
  Z.of_nat cnt ≤ INT_MAX → INT_MIN - 1 ≤ id0 → id0 + Z.of_nat cnt ≤ INT_MAX →
  ∃ node',
    add_vehicles_to_node clock destinations traffic ambulances fire_trucks n
      (node, id0, c0) = (node', id0 + Z.of_nat cnt, (c0 + cnt)%nat) ∧
    node_config node' = node_config node ∧
    loaded_node destinations traffic ambulances fire_trucks n node' ∧
    stamp_of <$> vehicles_of node' = stamp clock id0 c0 <$> seq 0 cnt.
Proof.
  intros cnt Hcv Hw He Hcnt Hid Hid'. subst cnt. unfold loaded_count in *.
  eexists. split.
  { apply add_vehicles_to_node_spec; rewrite ?Hcv; unfold INT_MIN in *; lia. }
  split; [done|]. split.
  - split; unfold get_queue_size, vehicles_of, regular_count, configured_count,
      node_char; simpl; rewrite ?Hw, ?He, ?Hcv; simpl;
      rewrite ?length_app, ?length_made.
    + lia.
    + by apply Forall_made.
    + apply Forall_app. split; by apply Forall_made.
    + done.
    + done.
    + rewrite !Forall_app. split; [|split]; by apply Forall_made.
  - unfold vehicles_of. simpl. rewrite Hw, He. simpl.
    rewrite !fmap_app, !stamp_made, !stamp_app, <- app_assoc.
    by rewrite Nat.add_assoc.
Qed.

Lemma add_vehicles_to_nodes_loaded clock destinations traffic ambulances fire_trucks
    n ns id0 c0 :
  let total := loaded_total traffic ambulances fire_trucks ns in
  Forall (λ nd, current_vehicles nd = 0 ∧ waiting_queue nd = [] ∧
                emergency_queue nd = []) ns →
  Z.of_nat total ≤ INT_MAX → INT_MIN - 1 ≤ id0 → id0 + Z.of_nat total ≤ INT_MAX →
  ∃ ns',
    add_vehicles_to_nodes clock destinations traffic ambulances fire_trucks n
      ns id0 c0 = (ns', id0 + Z.of_nat total, (c0 + total)%nat) ∧
    node_config <$> ns' = node_config <$> ns ∧
    Forall (loaded_node destinations traffic ambulances fire_trucks n) ns' ∧
    stamp_of <$> (ns' ≫= vehicles_of) = stamp clock id0 c0 <$> seq 0 total.
Proof.
  revert id0 c0. induction ns as [|node rest IH]; intros id0 c0 total Hempty Ht Hid Hid'.
  - exists []. simpl. rewrite Z.add_0_r, Nat.add_0_r. done.
  - apply Forall_cons in Hempty as [(Hcv & Hw & He) Hempty].
    subst total. unfold loaded_total in *. rewrite fmap_cons in *. simpl in Ht, Hid'.
    set (cnt := loaded_count traffic ambulances fire_trucks node) in *.
    set (tot := sum_list (loaded_count traffic ambulances fire_trucks <$> rest)) in *.
    destruct (add_vehicles_to_node_loaded clock destinations traffic ambulances
                fire_trucks n node id0 c0 Hcv Hw He)
      as (node' & Hnode & Hcfg & Hloaded & Hstamp); [fold cnt; lia..|].
    destruct (IH (id0 + Z.of_nat cnt) (c0 + cnt)%nat Hempty)
      as (rest' & Hrest & Hcfgs & Hloadeds & Hstamps);
      [unfold loaded_total; fold tot; unfold INT_MIN in *; lia..|].
    exists (node' :: rest'). fold cnt in Hnode. unfold loaded_total in Hrest.
    fold tot in Hrest.
    split; [|split; [|split]].
    + simpl. fold cnt tot. rewrite Hnode, Hrest.
      f_equal; [f_equal|]; lia.
    + by rewrite !fmap_cons, Hcfg, Hcfgs.
    + by constructor.
    + rewrite bind_cons, fmap_app, Hstamp, Hstamps. simpl. fold cnt tot.
      by rewrite stamp_app.
Qed.

(** Whatever the counts are, the loops that create vehicles leave the
    configuration of the nodes alone and construct the numbers of vehicles
    given by [loaded_count]. *)
Lemma add_vehicle_iter_config clock t push dest k node id0 c0 :
  (∀ v nd, node_config (push v nd) = node_config nd) →
  ∃ node' id',
    Nat.iter k (add_vehicle clock t push dest) (node, id0, c0)
      = (node', id', (c0 + k)%nat) ∧
    node_config node' = node_config node.
Proof.
  intros Hpush. induction k as [|k (node' & id' & IH & Hcfg)].
  - exists node, id0. by rewrite Nat.add_0_r.
  - rewrite Nat.iter_succ, IH. unfold add_vehicle. eexists _, _.
    split; [by rewrite Nat.add_succ_r|].
    rewrite <- Hcfg. unfold enter_node. simpl.
    apply (Hpush _ node').
Qed.

Lemma add_vehicles_to_node_config clock destinations traffic ambulances fire_trucks
    n node id0 c0 :
  ∃ node' id',
    add_vehicles_to_node clock destinations traffic ambulances fire_trucks n
      (node, id0, c0)
    = (node', id', (c0 + loaded_count traffic ambulances fire_trucks node)%nat) ∧
    node_config node' = node_config node.
Proof.
  unfold add_vehicles_to_node, loaded_count, regular_count, configured_count,
    add_vehicles. simpl.
  set (dest := destination_of _ _ _).
  destruct (add_vehicle_iter_config clock REGULAR push_waiting dest
    (match traffic !! node_char node with
     | Some count => Z.to_nat (Z.min count (Z.max 1 (int_pred (capacity node))))
     | None => 0%nat end) node id0 c0) as (node1 & id1 & H1 & Hc1); [done|].
  destruct (add_vehicle_iter_config clock AMBULANCE push_emergency dest
    (match ambulances !! node_char node with
     | Some count => Z.to_nat count | None => 0%nat end) node1 id1
    (c0 + match traffic !! node_char node with
          | Some count => Z.to_nat (Z.min count (Z.max 1 (int_pred (capacity node))))
          | None => 0%nat end)%nat) as (node2 & id2 & H2 & Hc2); [done|].
  destruct (add_vehicle_iter_config clock FIRE_TRUCK push_emergency dest
    (match fire_trucks !! node_char node with
     | Some count => Z.to_nat count | None => 0%nat end) node2 id2
    (c0 + match traffic !! node_char node with
          | Some count => Z.to_nat (Z.min count (Z.max 1 (int_pred (capacity node))))
          | None => 0%nat end
        + match ambulances !! node_char node with
          | Some count => Z.to_nat count | None => 0%nat end)%nat)
    as (node3 & id3 & H3 & Hc3); [done|].
  exists node3, id3. split; [|congruence].
  destruct (traffic !! node_char node), (ambulances !! node_char node),
    (fire_trucks !! node_char node); simpl in *;
    rewrite ?Nat.add_0_r in *; rewrite ?H1, ?H2, ?H3; simplify_eq; try done;
    f_equal; lia.
Qed.

Lemma add_vehicles_to_nodes_config clock destinations traffic ambulances fire_trucks
    n ns id0 c0 :
  ∃ ns' id',
    add_vehicles_to_nodes clock destinations traffic ambulances fire_trucks n ns id0 c0
    = (ns', id', (c0 + loaded_total traffic ambulances fire_trucks ns)%nat) ∧
    node_config <$> ns' = node_config <$> ns.
Proof.
  revert id0 c0. induction ns as [|node rest IH]; intros id0 c0.
  - exists [], id0. simpl. by rewrite Nat.add_0_r.
  - destruct (add_vehicles_to_node_config clock destinations traffic ambulances
                fire_trucks n node id0 c0) as (node' & id1 & Hnode & Hcfg).
    destruct (IH id1 (c0 + loaded_count traffic ambulances fire_trucks node)%nat)
      as (rest' & id2 & Hrest & Hcfgs).
    exists (node' :: rest'), id2. split; [|by rewrite !fmap_cons, Hcfg, Hcfgs].
    simpl. rewrite Hnode, Hrest.
    unfold loaded_total. rewrite fmap_cons. simpl. f_equal. lia.
Qed.

Lemma configured_nodes adjacency_matrix capacities controllers :
  set_up_adjacency adjacency_matrix (length adjacency_matrix)
    (apply_controller controllers <$>
       (apply_capacity capacities <$> initial_nodes (length adjacency_matrix)))
  = configured_node adjacency_matrix capacities controllers
      <$> seq 0 (length adjacency_matrix).
Proof.
  apply list_eq. intros i. rewrite set_up_adjacency_lookup.
  unfold initial_nodes. rewrite !list_lookup_fmap.
  destruct (decide (i < length adjacency_matrix)%nat) as [Hlt|Hge].
  - rewrite lookup_seq_lt by done. done.
  - rewrite lookup_seq_ge by lia. done.
Qed.

Lemma configured_node_fields adjacency_matrix capacities controllers i :
  let nd := configured_node adjacency_matrix capacities controllers i in
  node_id nd = Z.of_nat i ∧ adjacent_nodes nd = row_edges adjacency_matrix i ∧
  capacity nd = default 5 (capacities !! node_char_of (Z.of_nat i)) ∧
  current_vehicles nd = 0 ∧ waiting_queue nd = [] ∧ emergency_queue nd = [].
Proof.
  unfold configured_node, apply_controller, apply_capacity, node_char. simpl.
  destruct (capacities !! node_char_of (Z.of_nat i)); simpl;
    destruct (decide _); done.
Qed.

Lemma load_input_unfold clock adjacency_matrix destinations capacities controllers
    traffic ambulances fire_trucks :
  let n := length adjacency_matrix in
  let res :=
    add_vehicles_to_nodes clock destinations traffic ambulances fire_trucks
      (Z.of_nat n)
      (configured_node adjacency_matrix capacities controllers <$> seq 0 n) 1 0 in
  load_input clock adjacency_matrix destinations capacities controllers
    traffic ambulances fire_trucks
  = (mkNet res.1.1 zero_stats res.1.2 [], res.2).
Proof.
  intros n res. unfold load_input, apply_configuration. simpl.
  rewrite configured_nodes. fold n. fold res. by destruct res as [[ns id] c].
Qed.

Lemma row_edges_spec adjacency_matrix i j :
  j ∈ row_edges adjacency_matrix i ↔ medge adjacency_matrix i j.
Proof.
  unfold row_edges, medge. rewrite list_elem_of_filter, elem_of_seq. lia.
Qed.

Lemma load_input_rows clock adjacency_matrix destinations capacities
    controllers traffic ambulances fire_trucks :
  let net := (load_input clock adjacency_matrix destinations capacities controllers
                traffic ambulances fire_trucks).1 in
  length (nodes net) = length adjacency_matrix ∧
  ∀ i, (i < length adjacency_matrix)%nat →
       adjacent_of (nodes net) i = row_edges adjacency_matrix i.
Proof.
  intros net. subst net. rewrite load_input_unfold. simpl.
  set (n := length adjacency_matrix).
  destruct (add_vehicles_to_nodes_config clock destinations traffic ambulances
    fire_trucks (Z.of_nat n)
    (configured_node adjacency_matrix capacities controllers <$> seq 0 n) 1 0)
    as (ns' & id' & -> & Hcfg). simpl.
  split; [by rewrite <- (length_fmap node_config), Hcfg, !length_fmap, length_seq|].
  intros i Hi.
  rewrite (config_adjacent_of ns' _ i Hcfg). unfold adjacent_of.
  rewrite list_lookup_total_alt, list_lookup_fmap, lookup_seq_lt by done.
  apply configured_node_fields.
Qed.

(** When the adjacency lists are the rows of the matrix, the edges of the
    lists are the edges of the matrix. *)
Lemma rows_edges adjacency_matrix ns :
  length ns = length adjacency_matrix →
  (∀ i, (i < length adjacency_matrix)%nat →
        adjacent_of ns i = row_edges adjacency_matrix i) →
  (∀ u w, aedge ns u w ↔
          (u < length adjacency_matrix)%nat ∧ medge adjacency_matrix u w) ∧
  wf_adjacency ns.
Proof.
  intros Hlen Hadj.
  assert (Hedge : ∀ u w, aedge ns u w ↔
            (u < length adjacency_matrix)%nat ∧ medge adjacency_matrix u w).
  { intros u w. unfold aedge.
    destruct (decide (u < length adjacency_matrix)%nat) as [Hu|Hu].
    - rewrite Hadj, row_edges_spec by done. tauto.
    - rewrite adjacent_of_out_of_range by lia.
      split; [by intros ?%elem_of_nil|tauto]. }
  split; [done|].
  intros u w Hw. apply Hedge in Hw as [_ [Hw _]]. by rewrite Hlen.
Qed.

(** X6.  The loader gives the network one node per row of the matrix, whose
    adjacency list holds the columns of the positive entries of the row in
    increasing order.  So the graph the router searches is the graph the
    validator checks, and every adjacency list names nodes of the network. *)
Theorem load_input_adjacency clock adjacency_matrix destinations capacities
    controllers traffic ambulances fire_trucks :
  let net := (load_input clock adjacency_matrix destinations capacities controllers
                traffic ambulances fire_trucks).1 in
  length (nodes net) = length adjacency_matrix ∧
  (∀ i, (i < length adjacency_matrix)%nat →
        adjacent_of (nodes net) i = row_edges adjacency_matrix i) ∧
  (∀ u w, aedge (nodes net) u w ↔
          (u < length adjacency_matrix)%nat ∧ medge adjacency_matrix u w) ∧
  wf_adjacency (nodes net).
Proof.
  intros net.
  destruct (load_input_rows clock adjacency_matrix destinations capacities
              controllers traffic ambulances fire_trucks) as [Hlen Hadj].
  split; [done|]. split; [done|]. by apply rows_edges.
Qed.

Lemma load_input_loaded clock adjacency_matrix destinations capacities controllers
    traffic ambulances fire_trucks :
  let n := length adjacency_matrix in
  let res := load_input clock adjacency_matrix destinations capacities controllers
               traffic ambulances fire_trucks in
  Z.of_nat res.2 < INT_MAX →
  res.1 = mkNet (nodes res.1) zero_stats (1 + Z.of_nat res.2) [] ∧
  node_config <$> nodes res.1
    = node_config <$> (configured_node adjacency_matrix capacities controllers
                         <$> seq 0 n) ∧
  Forall (loaded_node destinations traffic ambulances fire_trucks (Z.of_nat n))
         (nodes res.1) ∧
  stamp_of <$> queued_vehicles res.1 = stamp clock 1 0 <$> seq 0 res.2.
Proof.
  intros n res. subst res. rewrite load_input_unfold. fold n. simpl.
  set (pre := configured_node adjacency_matrix capacities controllers <$> seq 0 n).
  destruct (add_vehicles_to_nodes_config clock destinations traffic ambulances
    fire_trucks (Z.of_nat n) pre 1 0) as (ns0 & id0 & Heq0 & _).
  rewrite Heq0. simpl. intros Hlt.
  destruct (add_vehicles_to_nodes_loaded clock destinations traffic ambulances
    fire_trucks (Z.of_nat n) pre 1 0) as (ns' & Heq & Hcfg & Hloaded & Hstamp).
  { subst pre. apply Forall_fmap, Forall_forall. intros i _.
    apply configured_node_fields. }
  { lia. }
  { unfold INT_MIN. lia. }
  { lia. }
  rewrite Heq in Heq0. simplify_eq. done.
Qed.

Lemma in_int_default (capacities : gmap ascii Z) (c : ascii) :
  map_Forall (λ _ c, in_int c) capacities → in_int (default 5 (capacities !! c)).
Proof.
  intros Hall. destruct (capacities !! c) as [x|] eqn:Hc; simpl.
  - by apply (Hall c).
  - unfold in_int, INT_MIN, INT_MAX. lia.
Qed.

Lemma configured_capacity_int adjacency_matrix capacities controllers ns nd :
  map_Forall (λ _ c, in_int c) capacities →
  node_config <$> ns
    = node_config <$> (configured_node adjacency_matrix capacities controllers
                         <$> seq 0 (length adjacency_matrix)) →
  nd ∈ ns → in_int (capacity nd).
Proof.
  intros Hcaps Hcfg [i Hi]%list_elem_of_lookup_1.
  pose proof (f_equal (λ l, l !! i) Hcfg) as Hc. simpl in Hc.
  rewrite !list_lookup_fmap, Hi in Hc. simpl in Hc.
  destruct (decide (i < length adjacency_matrix)%nat) as [Hi'|Hi'].
  - rewrite lookup_seq_lt in Hc by done. simpl in Hc.
    unfold node_config in Hc. simplify_eq.
    destruct (configured_node_fields adjacency_matrix capacities controllers i)
      as (_ & _ & Hcap & _).
    replace (capacity nd) with
      (capacity (configured_node adjacency_matrix capacities controllers i))
      by congruence.
    rewrite Hcap. by apply in_int_default.
  - rewrite lookup_seq_ge in Hc by lia. done.
Qed.

Lemma total_queued_length ns :
  total_queued ns = Z.of_nat (length (ns ≫= vehicles_of)).
Proof.
  induction ns as [|nd ns IH]; [done|].
  rewrite bind_cons, length_app. cbn [total_queued]. rewrite IH.
  unfold get_queue_size, vehicles_of. rewrite length_app. lia.
Qed.

(** Nodes whose queues hold vehicles of their class and [created] vehicles
    in all, which are counted in the occupancies, make a well-formed network
    with the counters of a network that has just been loaded. *)
Lemma loaded_representation ns created :
  (∀ nd, nd ∈ ns →
     current_vehicles nd = Z.of_nat (get_queue_size nd) ∧
     Forall (λ v, type v = REGULAR) (waiting_queue nd) ∧
     Forall (λ v, type v ≠ REGULAR) (emergency_queue nd) ∧
     in_int (capacity nd)) →
  wf_adjacency ns → length (ns ≫= vehicles_of) = created →
  Z.of_nat created < INT_MAX →
  let net := mkNet ns zero_stats (1 + Z.of_nat created) [] in
  wf_network net ∧ occupancy_is_queue_size net ∧
  stats net = zero_stats ∧ next_vehicle_id net = 1 + Z.of_nat created ∧
  total_queued (nodes net) = Z.of_nat created ∧
  vehicles_in_transit_externally net = 0.
Proof.
  intros Hnodes Hwf Hcreated Hlt net. subst net.
  assert (Hq : total_queued ns = Z.of_nat created)
    by by rewrite total_queued_length, Hcreated.
  assert (Hsize : ∀ nd, nd ∈ ns →
            Z.of_nat (get_queue_size nd) ≤ Z.of_nat created).
  { intros nd Hnd. rewrite <- Hq. apply list_elem_of_split in Hnd as (l1 & l2 & ->).
    clear. induction l1 as [|x l1 IH]; simpl.
    - induction l2 as [|y l2 IH]; simpl; lia.
    - lia. }
  split; [|split; [|split; [|split; [|split]]]]; cbn [nodes stats next_vehicle_id].
  - split; cbn [nodes].
    + intros nd [i Hi]%list_elem_of_lookup_1. apply Forall_forall. intros w Hw.
      apply (Hwf i w). unfold adjacent_of.
      by rewrite (list_lookup_total_correct _ _ _ Hi).
    + intros nd Hnd. by apply Hnodes.
    + intros nd Hnd. by apply Hnodes.
    + intros nd Hnd. by apply Hnodes.
    + intros nd Hnd. destruct (Hnodes nd Hnd) as [-> _].
      specialize (Hsize nd Hnd). unfold in_int, INT_MIN, INT_MAX in *. lia.
  - intros nd Hnd. by apply Hnodes.
  - done.
  - done.
  - done.
  - unfold vehicles_in_transit_externally, vehicles_created, vehicles_completed.
    cbn [nodes stats next_vehicle_id]. rewrite Hq. simpl. lia.
Qed.

(** X7.  When the capacities given in the file are [int]s and fewer than
    [INT_MAX] vehicles are constructed, the loaded network is well formed,
    the occupancy of every node is the number of vehicles in its queues, the
    statistics are at zero, and every vehicle constructed waits in a queue:
    [next_vehicle_id - 1] vehicles in all. *)
Theorem load_input_well_formed clock adjacency_matrix destinations capacities
    controllers traffic ambulances fire_trucks :
  let net := (load_input clock adjacency_matrix destinations capacities controllers
                traffic ambulances fire_trucks).1 in
  let created := (load_input clock adjacency_matrix destinations capacities
                    controllers traffic ambulances fire_trucks).2 in
  map_Forall (λ _ c, in_int c) capacities →
  Z.of_nat created < INT_MAX →
  wf_network net ∧ occupancy_is_queue_size net ∧
  stats net = zero_stats ∧ next_vehicle_id net = 1 + Z.of_nat created ∧
  total_queued (nodes net) = Z.of_nat created ∧
  vehicles_in_transit_externally net = 0.
Proof.
  intros net created Hcaps Hlt.
  destruct (load_input_loaded clock adjacency_matrix destinations capacities
              controllers traffic ambulances fire_trucks Hlt)
    as (Hnet & Hcfg & Hloaded & Hstamp).
  destruct (load_input_rows clock adjacency_matrix destinations capacities
              controllers traffic ambulances fire_trucks) as [Hlen Hrows].
  destruct (rows_edges _ _ Hlen Hrows) as [_ Hwf].
  fold net in Hnet, Hcfg, Hloaded, Hstamp, Hlen, Hwf. fold created in Hnet, Hstamp.
  rewrite Hnet. apply loaded_representation; [|done| |done].
  - intros nd Hnd. rewrite Forall_forall in Hloaded.
    destruct (Hloaded nd Hnd) as [Hocc Hw He _ _ _].
    repeat split; try done; by eapply configured_capacity_int.
  - change (nodes net ≫= vehicles_of) with (queued_vehicles net).
    by rewrite <- (length_fmap stamp_of), Hstamp, length_fmap, length_seq.
Qed.

(** X8.  The vehicles of a loaded network, read node by node and at each node
    queue by queue, have the ids 1, 2, 3, ... and the clock readings in the
    order of their construction; so the ids are distinct.  Each node holds
    the numbers of vehicles given by [regular_count] and [configured_count],
    each of them at its source with no blocked attempt and with the
    destination given by [destination_of]. *)
Theorem load_input_vehicles clock adjacency_matrix destinations capacities
    controllers traffic ambulances fire_trucks :
  let net := (load_input clock adjacency_matrix destinations capacities controllers
                traffic ambulances fire_trucks).1 in
  let created := (load_input clock adjacency_matrix destinations capacities
                    controllers traffic ambulances fire_trucks).2 in
  Z.of_nat created < INT_MAX →
  vehicle_id <$> queued_vehicles net = (λ k : nat, 1 + Z.of_nat k) <$> seq 0 created ∧
  arrival_time <$> queued_vehicles net = clock <$> seq 0 created ∧
  NoDup (vehicle_id <$> queued_vehicles net) ∧
  ∀ nd, nd ∈ nodes net →
    length (waiting_queue nd) = regular_count traffic nd ∧
    length (emergency_queue nd)
      = (configured_count ambulances nd + configured_count fire_trucks nd)%nat ∧
    Forall (fresh_at destinations (Z.of_nat (length adjacency_matrix)) nd)
           (vehicles_of nd).
Proof.
  intros net created Hlt.
  destruct (load_input_loaded clock adjacency_matrix destinations capacities
              controllers traffic ambulances fire_trucks Hlt)
    as (_ & _ & Hloaded & Hstamp).
  fold net in Hloaded, Hstamp. fold created in Hstamp.
  assert (Hids : vehicle_id <$> queued_vehicles net
                 = (λ k : nat, 1 + Z.of_nat k) <$> seq 0 created).
  { pose proof (f_equal (fmap fst) Hstamp) as H.
    by rewrite <- !list_fmap_compose in H. }
  split; [done|]. split; [|split].
  - pose proof (f_equal (fmap snd) Hstamp) as H.
    by rewrite <- !list_fmap_compose in H.
  - rewrite Hids. apply NoDup_fmap_2; [|apply NoDup_seq].
    intros x y Hxy. lia.
  - intros nd Hnd.
    by destruct (proj1 (Forall_forall _ _) Hloaded nd Hnd) as [_ _ _ ? ? ?].
Qed.

(** X9.  Of a loaded network whose capacities are positive [int]s: the Regular
    vehicles at a node number at most max(1, capacity - 1), which is within
    the capacity; so when the file asks for no ambulance and no fire truck
    no node is loaded above its capacity. *)
Theorem load_input_within_capacity clock adjacency_matrix destinations capacities
    controllers traffic ambulances fire_trucks :
  let net := (load_input clock adjacency_matrix destinations capacities controllers
                traffic ambulances fire_trucks).1 in
  let created := (load_input clock adjacency_matrix destinations capacities
                    controllers traffic ambulances fire_trucks).2 in
  map_Forall (λ _ c, in_int c) capacities →
  Z.of_nat created < INT_MAX →
  capacities_positive (nodes net) →
  (∀ nd, nd ∈ nodes net →
     Z.of_nat (length (waiting_queue nd)) ≤ Z.max 1 (capacity nd - 1) ≤ capacity nd) ∧
  (map_Forall (λ _ c, c ≤ 0) ambulances → map_Forall (λ _ c, c ≤ 0) fire_trucks →
   within_capacity net).
Proof.
  intros net created Hcaps Hlt Hpos.
  destruct (load_input_loaded clock adjacency_matrix destinations capacities
              controllers traffic ambulances fire_trucks Hlt)
    as (_ & Hcfg & Hloaded & _).
  fold net in Hcfg, Hloaded.
  assert (Hcap : ∀ nd, nd ∈ nodes net → in_int (capacity nd))
    by (intros nd Hnd; by eapply configured_capacity_int).
  assert (Hsize : ∀ nd, nd ∈ nodes net →
            current_vehicles nd = Z.of_nat (get_queue_size nd))
    by (intros nd Hnd; by apply (proj1 (Forall_forall _ _) Hloaded)).
  assert (Hreg : ∀ nd, nd ∈ nodes net →
            Z.of_nat (length (waiting_queue nd)) ≤ Z.max 1 (capacity nd - 1) ≤ capacity nd).
  { intros nd Hnd. specialize (Hpos nd Hnd). specialize (Hcap nd Hnd).
    destruct (proj1 (Forall_forall _ _) Hloaded nd Hnd) as [_ _ _ -> _ _].
    unfold regular_count. rewrite int_pred_eq by (unfold in_int, INT_MIN, INT_MAX in *; lia).
    destruct (traffic !! node_char nd); lia. }
  split; [done|]. intros Ha Hf nd Hnd.
  rewrite (Hsize nd Hnd). unfold get_queue_size.
  destruct (proj1 (Forall_forall _ _) Hloaded nd Hnd) as [_ _ _ _ He _].
  assert (length (emergency_queue nd) = 0%nat) as ->.
  { rewrite He. unfold configured_count.
    destruct (ambulances !! node_char nd) as [a|] eqn:Ea;
      [specialize (Ha _ _ Ea); simpl in Ha|];
      (destruct (fire_trucks !! node_char nd) as [f|] eqn:Ef;
         [specialize (Hf _ _ Ef); simpl in Hf|]); lia. }
  specialize (Hreg nd Hnd). lia.
Qed.

Lemma rtc_medge_aedge adjacency_matrix ns (u w : nat) :
  (∀ u w, aedge ns u w ↔ (u < length adjacency_matrix)%nat ∧ medge adjacency_matrix u w) →
  (u < length adjacency_matrix)%nat →
  rtc (medge adjacency_matrix) u w → rtc (aedge ns) u w.
Proof.
  intros Hedge Hu Hrtc. induction Hrtc as [|u v w Huv _ IH]; [done|].
  eapply rtc_l; [by apply Hedge|]. apply IH. by destruct Huv.
Qed.

(** X10.  In a loaded network that the validator accepts, for every pair
    [src:dest] of the destinations map with [src ≠ dest] the router at [src]
    answers the first hop of a shortest directed path to [dest]: never -1
    and never the fallback. *)
Theorem validated_destinations_are_routable clock adjacency_matrix destinations
    capacities controllers traffic ambulances fire_trucks :
  let net := (load_input clock adjacency_matrix destinations capacities controllers
                traffic ambulances fire_trucks).1 in
  validate_input adjacency_matrix (nodes net) destinations = Some INPUT_VALID →
  ∀ src dest, destinations !! src = Some dest → src ≠ dest →
    ∃ h, find_best_next_hop (nodes net) (Z.to_nat src) dest = Some (Z.of_nat h) ∧
         shortest_first_hop (nodes net) (Z.to_nat src) (Z.to_nat dest) h.
Proof.
  intros net Hvalid src dest Hsd Hne.
  destruct (load_input_rows clock adjacency_matrix destinations capacities
              controllers traffic ambulances fire_trucks) as [Hlen Hrows].
  destruct (rows_edges _ _ Hlen Hrows) as [Hedge Hwf].
  fold net in Hlen, Hedge, Hwf.
  destruct (validate_input_cases adjacency_matrix (nodes net) destinations)
    as (r & Hr & Hcases).
  rewrite Hvalid in Hr. injection Hr as <-.
  destruct Hcases as [(_ & [=])|[(_ & _ & [=])|[(_ & _ & _ & [=])|(_ & Hreach & _)]]].
  destruct (Hreach src dest Hsd) as (Hs & Hd & Hpath).
  apply (rtc_medge_aedge _ (nodes net)) in Hpath; [|done|lia].
  assert (Hfrom : Z.to_nat src ≠ Z.to_nat dest) by lia.
  destruct (find_best_next_hop_cases (nodes net) (Z.to_nat src) dest Hwf)
    as (r & Hr & Hcase).
  destruct (rtc_inv _ _ Hpath) as [?|(m & Hstep & _)]; [done|].
  unfold aedge in Hstep.
  destruct (adjacent_of (nodes net) (Z.to_nat src)) as [|first rest] eqn:Hadj;
    [by apply elem_of_nil in Hstep|].
  destruct (existsb _ _) eqn:Hex.
  - apply existsb_elem_of in Hex as (a & Ha & Heq%Z.eqb_eq). subst r.
    exists a. rewrite Hr. split; [by rewrite Heq|].
    assert (a = Z.to_nat dest) as -> by lia.
    split; [unfold aedge; by rewrite Hadj|].
    exists 0%nat. split; [constructor|]. intros k Hk.
    destruct k; [|lia]. by inversion Hk.
  - destruct Hcase as [(c & Hc & _ & [[-> _]|(_ & h & -> & Hh)])|[Hun _]].
    + lia.
    + exists h. split; [done|]. by assert (c = Z.to_nat dest) as -> by lia.
    + exfalso. apply (Hun (Z.to_nat dest)); [lia|done].
Qed.

(** ** The step-by-step simulation *)

Lemma failed_service i net net' :
  process_single_vehicle_movement i net = Some (false, net') →
  stats net' = stats net ∧ nodes net' = alter requeue_selected i (nodes net).
Proof.
  unfold process_single_vehicle_movement.
  destruct (decide _) as [Hge|Hlt].
  { intros [= <-]. split; [done|]. by rewrite list_alter_ge. }
  destruct (lookup_lt_is_Some_2 (nodes net) i) as [nd Hnd]; [lia|].
  rewrite (list_lookup_total_correct _ _ _ Hnd).
  destruct (select_vehicle nd) as [[[v e] nd']|] eqn:Hsel.
  - destruct (process_vehicle_step_by_step _ _ _ _) as [[[b1 v1] net1]|] eqn:Hp;
      simpl; [|done].
    intros [= -> <-].
    apply process_vehicle_step_by_step_events in Hp as (_ & _ & _ & _ & Hs & Hn).
    split; [done|]. rewrite Hn. simpl. apply list_eq. intros j.
    destruct (decide (j = i)) as [->|Hne].
    + rewrite !list_lookup_alter_eq, list_lookup_insert_eq, Hnd by (by eapply lookup_lt_Some).
      simpl. unfold requeue_selected. by rewrite Hsel.
    + by rewrite !list_lookup_alter_ne, list_lookup_insert_ne.
  - intros [= <-]. split; [done|]. apply list_eq. intros j.
    destruct (decide (j = i)) as [->|Hne].
    + rewrite list_lookup_alter_eq, Hnd. simpl. unfold requeue_selected.
      by rewrite Hsel.
    + by rewrite list_lookup_alter_ne.
Qed.

Lemma step_scan_failed idxs net net' :
  NoDup idxs → step_scan idxs net = Some (false, net') →
  stats net' = stats net ∧
  ∀ j, nodes net' !! j
       = if decide (j ∈ idxs) then requeue_selected <$> nodes net !! j
         else nodes net !! j.
Proof.
  revert net. induction idxs as [|i rest IH]; intros net Hnd; simpl.
  - intros [= <-]. split; [done|]. intros j.
    destruct (decide (j ∈ [])) as [?%elem_of_nil|]; done.
  - apply NoDup_cons in Hnd as [Hi Hnd].
    assert (Hcase : ∀ net1, stats net1 = stats net →
              nodes net1 = alter requeue_selected i (nodes net) →
              step_scan rest net1 = Some (false, net') →
              stats net' = stats net ∧
              ∀ j, nodes net' !! j
                   = if decide (j ∈ i :: rest) then requeue_selected <$> nodes net !! j
                     else nodes net !! j).
    { intros net1 Hs Hn Hscan. destruct (IH net1 Hnd Hscan) as [Hs' Hl].
      split; [congruence|]. intros j. rewrite Hl, Hn.
      destruct (decide (j = i)) as [->|Hne].
      - rewrite (decide_False _ _ Hi), decide_True by by left.
        by rewrite list_lookup_alter_eq.
      - rewrite list_lookup_alter_ne by done.
        destruct (decide (j ∈ rest)) as [Hin|Hout].
        + rewrite decide_True; [done|by right].
        + rewrite decide_False; [done|]. by intros [->|?]%elem_of_cons. }
    case_bool_decide as Hne.
    + destruct (process_single_vehicle_movement i net) as [[m net1]|] eqn:Hp;
        simpl; [|done].
      destruct m; [done|]. apply failed_service in Hp as [Hs Hn].
      by apply Hcase.
    + apply Hcase; [done|]. apply list_eq. intros j.
      destruct (decide (j = i)) as [->|Hji].
      * rewrite list_lookup_alter_eq.
        destruct (nodes net !! i) as [nd|] eqn:Hnd'; [|done]. simpl.
        rewrite (list_lookup_total_correct _ _ _ Hnd') in Hne.
        unfold requeue_selected. by rewrite (select_vehicle_empty _ Hne).
      * by rewrite list_lookup_alter_ne.
Qed.

Lemma requeue_selected_spec nd :
  node_config (requeue_selected nd) = node_config nd ∧
  current_vehicles (requeue_selected nd) = current_vehicles nd ∧
  emergency_queue (requeue_selected nd) ≡ₚ emergency_queue nd ∧
  waiting_queue (requeue_selected nd)
  = match emergency_queue nd, waiting_queue nd with
    | [], v :: rest => rest ++ [v]
    | _, _ => waiting_queue nd
    end.
Proof.
  unfold requeue_selected, select_vehicle.
  destruct (pq_extract (emergency_queue nd)) as [[m r]|] eqn:Hq.
  - destruct (pq_extract_Some _ _ _ Hq) as [Hperm _]. simpl.
    split; [done|]. split; [done|]. split.
    + unfold pq_push. by rewrite Hperm, <- Permutation_cons_append.
    + destruct (emergency_queue nd); [|done]. by apply Permutation_nil_cons in Hperm.
  - apply pq_extract_None in Hq. rewrite Hq.
    destruct (waiting_queue nd) as [|w rest] eqn:Hw; simpl; [by rewrite Hq, Hw|].
    by rewrite Hq.
Qed.

(** X11.  A step in which nothing moves leaves the statistics and the occupancies
    as they were and keeps every vehicle at its node.  At a node without
    emergency vehicles the first Regular vehicle goes to the back of the
    queue; at a node with emergency vehicles the Regular queue is untouched
    and the emergency queue holds the same vehicles. *)
Theorem failed_step_requeues net net' :
  execute_single_step net = Some (false, net') →
  stats net' = stats net ∧ length (nodes net') = length (nodes net) ∧
  ∀ j nd, nodes net !! j = Some nd →
    ∃ nd', nodes net' !! j = Some nd' ∧
      node_config nd' = node_config nd ∧
      current_vehicles nd' = current_vehicles nd ∧
      emergency_queue nd' ≡ₚ emergency_queue nd ∧
      waiting_queue nd'
      = match emergency_queue nd, waiting_queue nd with
        | [], v :: rest => rest ++ [v]
        | _, _ => waiting_queue nd
        end.
Proof.
  intros Hstep. unfold execute_single_step in Hstep.
  apply step_scan_failed in Hstep as [Hs Hl]; [|apply NoDup_seq].
  assert (Hn : nodes net' = requeue_selected <$> nodes net).
  { apply list_eq. intros j. rewrite Hl, list_lookup_fmap.
    destruct (decide (j ∈ seq 0 (length (nodes net)))) as [|Hout]; [done|].
    rewrite elem_of_seq in Hout. rewrite lookup_ge_None_2; [done|lia]. }
  split; [done|]. split; [by rewrite Hn, length_fmap|].
  intros j nd Hj. exists (requeue_selected nd).
  split; [by rewrite Hn, list_lookup_fmap, Hj|]. apply requeue_selected_spec.
Qed.

Lemma failed_step_requeues_witness :
  ∃ net', execute_single_step stalled_net = Some (false, net') ∧
    ∃ nd', nodes net' !! 0%nat = Some nd' ∧
      waiting_queue nd'
      = [mkVehicle 2 REGULAR 0 2 0 20 0; mkVehicle 1 REGULAR 0 1 0 10 0].
Proof.
  eexists. split; [reflexivity|].
  destruct (failed_step_requeues stalled_net _ eq_refl) as (_ & _ & Hnodes).
  destruct (Hnodes 0%nat _ eq_refl) as (nd' & Hnd' & _ & _ & _ & Hw).
  exists nd'. split; [exact Hnd'|exact Hw].
Defined.

Lemma service_step_count net net' :
  rtc service_step net net' → step_count (stats net') = step_count (stats net).
Proof.
  induction 1 as [|net0 net1 net2 [i Hstep] _ IH]; [done|]. rewrite IH.
  destruct Hstep as [_ ->|nd v e nd' _ _ _ [->|[_ ->]]|nd v e nd' _ _ _ ->
                    |nd v e nd' to j _ _ _ _ ->]; try done.
  unfold record_arrival. by destruct (bool_decide _).
Qed.

Lemma step_loop_spec n (steps : list Z) net :
  net_inv n false no_pending net →
  ∃ net' evs (k : nat),
    step_loop steps net = Some net' ∧
    net_inv n false no_pending net' ∧
    console net' = console net ++ evs ∧ count_moves evs = k ∧
    ((k = length steps ∧
      step_count (stats net') = default (step_count (stats net)) (last steps)) ∨
     ((k < length steps)%nat ∧ steps !! k = Some (step_count (stats net')))).
Proof.
  revert net. induction steps as [|step rest IH]; intros net Hinv.
  - exists net, [], 0%nat. simpl. rewrite app_nil_r. eauto 10.
  - cbn [step_loop].
    set (net0 := with_stats (set_step_count step) net).
    assert (Hinv0 : net_inv n false no_pending net0) by by eapply net_inv_ext.
    unfold execute_single_step.
    destruct (step_scan_inv n false (seq 0 (length (nodes net0))) net0 Hinv0)
      as (b & net1 & Hscan & Hinv1 & _).
    rewrite Hscan. simpl.
    pose proof (step_scan_moves _ _ _ _ Hscan) as (evs1 & Hc1 & Hm1).
    pose proof (service_step_count _ _ (step_scan_served _ _ _ _ Hscan)) as Hsc.
    simpl in Hsc, Hc1.
    destruct b.
    + destruct (IH net1 Hinv1) as (net' & evs & k & Hloop & Hinv' & Hc & Hm & Hk).
      exists net', (evs1 ++ evs), (S k). split; [done|]. split; [done|].
      split; [by rewrite Hc, Hc1, app_assoc|].
      split; [rewrite count_moves_app, Hm1, Hm; lia|].
      destruct Hk as [[-> Hlast]|(Hlt & Hk)].
      * left. split; [done|]. rewrite Hlast.
        destruct rest as [|r rest]; [simpl; by rewrite Hsc|].
        rewrite last_cons_cons.
        destruct (last (r :: rest)) eqn:E; [done|]. by apply last_None in E.
      * right. split; [simpl; lia|done].
    + exists net1, evs1, 0%nat. split; [done|]. split; [done|].
      split; [done|]. split; [done|].
      right. split; [simpl; lia|]. by rewrite Hsc.
Qed.

(** X12.  On a well-formed network whose occupancies are the queue sizes the
    step-by-step simulation returns after at most 50 steps.  [step_count]
    then is the number of the last step made; every step before it moved
    exactly one vehicle: either the last step moved nothing, or it is step
    50 and moved a vehicle as well. *)
Theorem run_step_by_step_simulation_steps net :
  wf_network net → occupancy_is_queue_size net →
  ∃ net' evs,
    run_step_by_step_simulation net = Some net' ∧
    console net' = console net ++ evs ∧
    1 ≤ step_count (stats net') ≤ 50 ∧
    (Z.of_nat (count_moves evs) = step_count (stats net') - 1 ∨
     (step_count (stats net') = 50 ∧ count_moves evs = 50%nat)).
Proof.
  intros Hwf Hsize.
  assert (Hinv : net_inv (length (nodes net)) false no_pending net)
    by by apply initial_net_inv.
  destruct (step_loop_spec _ (Z.of_nat <$> seq 1 max_steps) net Hinv)
    as (net' & evs & k & Hloop & _ & Hc & Hm & Hk).
  exists net', evs. split; [done|]. split; [done|].
  rewrite length_fmap, length_seq in Hk.
  destruct Hk as [[-> Hlast]|[Hlt Hk]].
  - assert (Hs : step_count (stats net') = 50) by (rewrite Hlast; reflexivity).
    rewrite Hs, Hm. split; [lia|]. by right.
  - rewrite list_lookup_fmap, lookup_seq_lt in Hk by done. simpl in Hk.
    injection Hk as Hk. unfold max_steps in Hlt. rewrite <- Hk, Hm. split; [lia|].
    left. lia.
Qed.

(** ** The order of vehicles *)

(** X13.  [operator<] is a strict weak ordering, as [std::priority_queue] requires
    of its comparison: it is irreflexive and transitive, and being unordered
    is transitive; two vehicles are unordered exactly when they have the
    same class and the same arrival time. *)
Theorem vehicle_lt_strict_weak_order :
  (∀ a, vehicle_lt a a = false) ∧
  (∀ a b c, vehicle_lt a b = true → vehicle_lt b c = true → vehicle_lt a c = true) ∧
  (∀ a b c, unordered a b → unordered b c → unordered a c) ∧
  (∀ a b, unordered a b ↔ type a = type b ∧ arrival_time a = arrival_time b).
Proof.
  assert (Hun : ∀ a b, unordered a b ↔ type a = type b ∧ arrival_time a = arrival_time b).
  { intros a b. unfold unordered. rewrite !vehicle_lt_false. split.
    - intros [H1 H2]. split; [apply type_to_int_inj|]; lia.
    - intros [-> ->]. lia. }
  split; [|split; [|split]].
  - intros a. apply vehicle_lt_false. lia.
  - intros a b c. rewrite !vehicle_lt_spec. lia.
  - intros a b c. rewrite !Hun. intros [-> ->] [-> ->]. done.
  - done.
Qed.

(** X14.  Between vehicles of different classes [operator<] agrees with the order
    of the priority weights. *)
Theorem priority_weight_orders_classes a b :
  type a ≠ type b →
  vehicle_lt a b = PrimFloat.ltb (get_priority_weight a) (get_priority_weight b).
Proof.
  intros Hne. unfold vehicle_lt, get_priority_weight.
  rewrite bool_decide_eq_false_2 by done. simpl.
  destruct (type a), (type b); done.
Qed.

Lemma priority_weight_orders_classes_witness :
  vehicle_lt (mkVehicle 1 FIRE_TRUCK 0 1 0 0 0) (mkVehicle 2 AMBULANCE 0 1 0 5 0) = true.
Proof.
  rewrite (priority_weight_orders_classes (mkVehicle 1 FIRE_TRUCK 0 1 0 0 0)
             (mkVehicle 2 AMBULANCE 0 1 0 5 0)); [reflexivity|discriminate].
Defined.

(** ** Examples of loading and of runs *)

Lemma example_capacities_int : map_Forall (λ _ c, in_int c) example_capacities.
Proof. apply map_Forall_singleton. by vm_compute. Qed.

Lemma example_created ambulances :
  ambulances = example_ambulances ∨ ambulances = ∅ →
  Z.of_nat (example_load ambulances).2 < INT_MAX.
Proof. by intros [->| ->]; vm_compute. Qed.

Lemma load_input_well_formed_witness :
  wf_network (example_load example_ambulances).1 ∧
  occupancy_is_queue_size (example_load example_ambulances).1 ∧
  stats (example_load example_ambulances).1 = zero_stats ∧
  next_vehicle_id (example_load example_ambulances).1 = 6 ∧
  total_queued (nodes (example_load example_ambulances).1) = 5 ∧
  vehicles_in_transit_externally (example_load example_ambulances).1 = 0.
Proof.
  exact (load_input_well_formed example_clock sample_matrix sample_destinations
           example_capacities example_controllers example_traffic
           example_ambulances ∅ example_capacities_int
           (example_created _ (or_introl eq_refl))).
Defined.

Lemma load_input_vehicles_witness :
  vehicle_id <$> queued_vehicles (example_load example_ambulances).1 = [1; 2; 3; 4; 5] ∧
  arrival_time <$> queued_vehicles (example_load example_ambulances).1
    = [100; 101; 102; 103; 104].
Proof.
  destruct (load_input_vehicles example_clock sample_matrix sample_destinations
              example_capacities example_controllers example_traffic
              example_ambulances ∅ (example_created _ (or_introl eq_refl)))
    as (Hid & Hat & _).
  split; [exact Hid|exact Hat].
Defined.

Lemma example_load_positive : capacities_positive (nodes (example_load ∅).1).
Proof.
  intros nd Hnd. vm_compute in Hnd.
  repeat (apply elem_of_cons in Hnd as [->|Hnd]; [by vm_compute|]).
  by apply elem_of_nil in Hnd.
Qed.

Lemma load_input_within_capacity_witness : within_capacity (example_load ∅).1.
Proof.
  apply (load_input_within_capacity example_clock sample_matrix sample_destinations
           example_capacities example_controllers example_traffic ∅ ∅
           example_capacities_int (example_created _ (or_intror eq_refl))
           example_load_positive); apply map_Forall_empty.
Defined.

Lemma example_load_valid :
  validate_input sample_matrix (nodes (example_load example_ambulances).1)
    sample_destinations = Some INPUT_VALID.
Proof. by vm_compute. Qed.

Lemma validated_destinations_are_routable_witness :
  ∃ h, find_best_next_hop (nodes (example_load example_ambulances).1) 2 0
         = Some (Z.of_nat h) ∧
       shortest_first_hop (nodes (example_load example_ambulances).1) 2 0 h.
Proof.
  apply (validated_destinations_are_routable example_clock sample_matrix
           sample_destinations example_capacities example_controllers example_traffic
           example_ambulances ∅ example_load_valid 2 0); [reflexivity|discriminate].
Defined.

Lemma stalled_net_wf : wf_network stalled_net.
Proof. split; solve_in_list. Qed.

Lemma stalled_net_sizes : occupancy_is_queue_size stalled_net.
Proof. solve_in_list. Qed.

Lemma stalled_net_within : within_capacity stalled_net.
Proof. solve_in_list. Qed.

Lemma stalled_net_run : rtc engine_step stalled_net stalled_net_after.
Proof.
  eapply rtc_l; [exists OpStep; by vm_compute|].
  apply rtc_once. exists OpStep. by vm_compute.
Qed.

Lemma successful_routes_are_completed_trips_witness :
  successful_routes (stats stalled_net_after) = vehicles_completed stalled_net_after ∧
  0 ≤ vehicles_completed stalled_net_after ≤ vehicles_created stalled_net.
Proof.
  apply (successful_routes_are_completed_trips stalled_net stalled_net_after
           stalled_net_wf stalled_net_sizes);
    [reflexivity|by vm_compute|by vm_compute|by vm_compute|reflexivity
    |exact stalled_net_run].
Defined.

Lemma regular_traffic_within_capacity_witness :
  within_capacity stalled_net_after ∧
  Forall (λ v, type v = REGULAR) (queued_vehicles stalled_net_after).
Proof.
  apply (regular_traffic_within_capacity stalled_net stalled_net_after
           stalled_net_wf stalled_net_sizes stalled_net_within);
    [|exact stalled_net_run].
  vm_compute. by repeat constructor.
Defined.

Lemma run_step_by_step_simulation_steps_witness :
  ∃ net' evs,
    run_step_by_step_simulation stalled_net = Some net' ∧
    console net' = console stalled_net ++ evs ∧
    1 ≤ step_count (stats net') ≤ 50 ∧
    (Z.of_nat (count_moves evs) = step_count (stats net') - 1 ∨
     (step_count (stats net') = 50 ∧ count_moves evs = 50%nat)).
Proof.
  exact (run_step_by_step_simulation_steps stalled_net stalled_net_wf
           stalled_net_sizes).
Defined.


(** ** The sample network *)

Lemma enter_push_place t v nd :
  type v = t → INT_MIN - 1 ≤ current_vehicles nd < INT_MAX →
  enter_node ((if bool_decide (t = REGULAR) then push_waiting else push_emergency) v nd)
  = place [v] nd.
Proof.
  intros Ht Hcv. unfold place, with_vehicles, enter_node, push_waiting, push_emergency,
    set_current_vehicles, set_waiting_queue, set_emergency_queue, queue_push, pq_push.
  case_bool_decide as Hr.
  - rewrite (filter_cons_True _ v) by congruence.
    rewrite (filter_cons_False (λ v, type v ≠ REGULAR) v) by (intros ?; congruence).
    simpl. rewrite int_succ_eq, app_nil_r by done. f_equal. lia.
  - rewrite (filter_cons_False _ v) by congruence.
    rewrite (filter_cons_True (λ v, type v ≠ REGULAR) v) by congruence.
    simpl. rewrite int_succ_eq, app_nil_r by done. f_equal. lia.
Qed.

Lemma place_compose vs vs' nd : place vs' (place vs nd) = place (vs ++ vs') nd.
Proof. unfold place. by rewrite with_vehicles_compose, !filter_app. Qed.

Lemma length_filter_split {A} (P : A → Prop) `{∀ x, Decision (P x)} (l : list A) :
  (length (filter P l) + length (filter (λ x, ¬ P x) l))%nat = length l.
Proof.
  induction l as [|x l IH]; [done|].
  destruct (decide (P x)).
  - rewrite filter_cons_True, (filter_cons_False (λ x, ¬ P x)) by tauto. simpl. lia.
  - rewrite filter_cons_False, (filter_cons_True (λ x, ¬ P x)) by tauto. simpl. lia.
Qed.

Lemma filter_split_perm {A} (P : A → Prop) `{∀ x, Decision (P x)} (l : list A) :
  filter P l ++ filter (λ x, ¬ P x) l ≡ₚ l.
Proof.
  induction l as [|x l IH]; [done|].
  destruct (decide (P x)).
  - rewrite filter_cons_True, (filter_cons_False (λ x, ¬ P x)) by tauto.
    simpl. by rewrite IH.
  - rewrite filter_cons_False, (filter_cons_True (λ x, ¬ P x)) by tauto.
    rewrite <- Permutation_middle. by rewrite IH.
Qed.

(** The fields of a node that vehicles entered. *)
Lemma place_fields vs nd :
  node_config (place vs nd) = node_config nd ∧
  current_vehicles (place vs nd) = current_vehicles nd + Z.of_nat (length vs) ∧
  Z.of_nat (get_queue_size (place vs nd))
  = Z.of_nat (get_queue_size nd) + Z.of_nat (length vs) ∧
  vehicles_of (place vs nd) ≡ₚ vehicles_of nd ++ vs.
Proof.
  pose proof (length_filter_split (λ v, type v = REGULAR) vs) as Hlen.
  split; [done|]. unfold place, with_vehicles, get_queue_size, vehicles_of. simpl.
  rewrite !length_app. split; [lia|]. split; [lia|].
  rewrite <- (filter_split_perm (λ v, type v = REGULAR) vs) at 3.
  rewrite <- !app_assoc. apply Permutation_app_head.
  rewrite !app_assoc. apply Permutation_app_tail, Permutation_app_comm.
Qed.

Lemma place_queues vs nd :
  Forall (λ v, type v = REGULAR) (waiting_queue nd) →
  Forall (λ v, type v ≠ REGULAR) (emergency_queue nd) →
  Forall (λ v, type v = REGULAR) (waiting_queue (place vs nd)) ∧
  Forall (λ v, type v ≠ REGULAR) (emergency_queue (place vs nd)).
Proof.
  intros Hw He. unfold place, with_vehicles. simpl. split.
  - apply Forall_app. split; [done|]. apply Forall_forall.
    by intros v [? _]%list_elem_of_filter.
  - apply Forall_app. split; [done|]. apply Forall_forall.
    by intros v [? _]%list_elem_of_filter.
Qed.

(** One iteration of the inner loop of [add_sample_vehicles]. *)
Lemma add_sample_vehicle_spec clock draw destinations i dest ns nd next_id created
    drawn :
  ns !! i = Some nd → destinations !! Z.of_nat i = Some dest →
  INT_MIN - 1 ≤ current_vehicles nd < INT_MAX → INT_MIN - 1 ≤ next_id < INT_MAX →
  add_sample_vehicle clock draw destinations i (ns, next_id, created, drawn)
  = (<[i := place [new_vehicle (clock created) next_id
                      (sample_vehicle_type draw drawn).1 (Z.of_nat i) dest] nd]> ns,
     next_id + 1, S created, (sample_vehicle_type draw drawn).2).
Proof.
  intros Hi Hdest Hcv Hid. unfold add_sample_vehicle.
  destruct (sample_vehicle_type draw drawn) as [t d]. simpl.
  rewrite int_succ_eq, Hdest by done. do 3 f_equal.
  apply list_eq. intros j. destruct (decide (j = i)) as [->|Hne].
  - rewrite list_lookup_alter_eq, Hi, list_lookup_insert_eq
      by (by apply lookup_lt_Some in Hi).
    simpl. f_equal. by rewrite enter_push_place.
  - by rewrite list_lookup_alter_ne, list_lookup_insert_ne.
Qed.

Lemma sample_adjacency_nodes :
  sample_adjacency sample_matrix
    [new_node 0 TRAFFIC_CONTROLLER 5; new_node 1 WAIT_NODE 3;
     new_node 2 TRAFFIC_CONTROLLER 4; new_node 3 WAIT_NODE 6]
  = sample_nodes.
Proof. reflexivity. Qed.

Lemma sample_destinations_over_lookup destinations i :
  sample_destinations_over destinations !! i
  = if decide (0 ≤ i < 4) then sample_destinations !! i else destinations !! i.
Proof.
  unfold sample_destinations_over, sample_destinations.
  destruct (decide (0 ≤ i < 4)) as [Hi|Hi].
  - assert (i = 0 ∨ i = 1 ∨ i = 2 ∨ i = 3) as [-> | [-> | [-> | ->]]] by lia;
      repeat (rewrite lookup_insert_ne by done); by rewrite !lookup_insert_eq.
  - by rewrite !lookup_insert_ne by lia.
Qed.

Lemma sample_destinations_range i dest :
  sample_destinations !! i = Some dest → 0 ≤ i < 4 ∧ 0 ≤ dest < 4.
Proof.
  unfold sample_destinations. intros H.
  repeat (apply lookup_insert_Some in H as [[<- <-]|[_ H]]; [lia|]).
  by rewrite lookup_empty in H.
Qed.

Ltac sample_step i :=
  erewrite (add_sample_vehicle_spec _ _ _ i);
  [|reflexivity|by rewrite sample_destinations_over_lookup
   |rewrite ?(proj1 (proj2 (place_fields _ _))); simpl; unfold INT_MIN, INT_MAX; lia
   |unfold INT_MIN, INT_MAX; lia].

(** The sample network, given the classes of its six vehicles. *)
Lemma create_sample_input_spec clock draw destinations ns :
  create_sample_input clock draw destinations (set_nodes ns empty_network)
  = mkLoaded (mkNet (sample_loaded clock (sample_types draw 0 6)) zero_stats 7 [])
             sample_matrix (sample_destinations_over destinations) 6.
Proof.
  unfold create_sample_input. rewrite sample_adjacency_nodes.
  fold (sample_destinations_over destinations).
  unfold add_sample_vehicles.
  change (length (sample_nodes, next_vehicle_id (set_nodes ns empty_network),
                  0%nat, 0%nat).1.1.1) with 4%nat.
  change (next_vehicle_id (set_nodes ns empty_network)) with 1.
  cbn [seq foldl Nat.modulo Nat.iter Nat.add].
  change (S (1 - (Nat.divmod 3 1 0 1).2)) with 2%nat.
  change (S (1 - (Nat.divmod 2 1 0 1).2)) with 1%nat.
  change (S (1 - (Nat.divmod 1 1 0 1).2)) with 2%nat.
  change (S (1 - (Nat.divmod 0 1 0 1).2)) with 1%nat.
  unfold Nat.iter. cbn [nat_rect].
  sample_step 0%nat. sample_step 1%nat. sample_step 1%nat. sample_step 2%nat.
  sample_step 3%nat. sample_step 3%nat.
  unfold sample_loaded, sample_fleet, sample_vehicle. cbn [sample_types].
  destruct (sample_vehicle_type draw 0) as [t1 d1]; cbn [fst snd].
  destruct (sample_vehicle_type draw d1) as [t2 d2]; cbn [fst snd].
  destruct (sample_vehicle_type draw d2) as [t3 d3]; cbn [fst snd].
  destruct (sample_vehicle_type draw d3) as [t4 d4]; cbn [fst snd].
  destruct (sample_vehicle_type draw d4) as [t5 d5]; cbn [fst snd].
  destruct (sample_vehicle_type draw d5) as [t6 d6]; cbn [fst snd].
  rewrite !place_compose. reflexivity.
Qed.

Lemma sample_loaded_nodes clock ts :
  sample_loaded clock ts
  = [place [sample_vehicle clock ts 0 0 3] (sample_node 0 TRAFFIC_CONTROLLER 5 [1; 2]%nat);
     place [sample_vehicle clock ts 1 1 2; sample_vehicle clock ts 2 1 2]
           (sample_node 1 WAIT_NODE 3 [2; 3]%nat);
     place [sample_vehicle clock ts 3 2 0] (sample_node 2 TRAFFIC_CONTROLLER 4 [3]%nat);
     place [sample_vehicle clock ts 4 3 1; sample_vehicle clock ts 5 3 1]
           (sample_node 3 WAIT_NODE 6 [0]%nat)].
Proof. reflexivity. Qed.

(** A sample node that vehicles entered. *)
Lemma place_sample_node vs id t cap adj :
  let nd := place vs (sample_node id t cap adj) in
  node_config nd = (id, t, cap, adj) ∧
  current_vehicles nd = Z.of_nat (length vs) ∧
  get_queue_size nd = length vs ∧
  Forall (λ v, type v = REGULAR) (waiting_queue nd) ∧
  Forall (λ v, type v ≠ REGULAR) (emergency_queue nd) ∧
  vehicles_of nd ≡ₚ vs.
Proof.
  intros nd. subst nd.
  destruct (place_fields vs (sample_node id t cap adj)) as (Hcfg & Hcv & Hsize & Hvs).
  destruct (place_queues vs (sample_node id t cap adj)) as [Hw He]; [done..|].
  split; [done|]. split; [by rewrite Hcv|].
  change (get_queue_size (sample_node id t cap adj)) with 0%nat in Hsize.
  split; [lia|done].
Qed.

(** The vehicles of the sample network. *)
Lemma sample_loaded_vehicles clock ts i nd v :
  sample_loaded clock ts !! i = Some nd → v ∈ vehicles_of nd →
  (i < 4)%nat ∧ node_id nd = Z.of_nat i ∧
  source_node v = Z.of_nat i ∧ current_node v = Z.of_nat i ∧
  sample_destinations !! Z.of_nat i = Some (destination_node v) ∧
  blocked_attempts v = 0 ∧ arrival_time v = clock (Z.to_nat (vehicle_id v - 1)).
Proof.
  rewrite sample_loaded_nodes. intros Hi Hv.
  destruct i as [|[|[|[|i]]]]; simplify_eq/=;
    match type of Hv with
    | _ ∈ vehicles_of (place ?vs (sample_node ?id ?t ?cap ?adj)) =>
        destruct (place_sample_node vs id t cap adj) as (_ & _ & _ & _ & _ & Hp)
    end;
    rewrite Hp in Hv; (split; [lia|]);
    repeat (apply elem_of_cons in Hv as [->|Hv]); try done;
    by apply elem_of_nil in Hv.
Qed.

(** The nodes of the sample network. *)
Lemma sample_loaded_node clock ts nd :
  nd ∈ sample_loaded clock ts →
  current_vehicles nd = Z.of_nat (get_queue_size nd) ∧
  Forall (λ v, type v = REGULAR) (waiting_queue nd) ∧
  Forall (λ v, type v ≠ REGULAR) (emergency_queue nd) ∧
  in_int (capacity nd) ∧ 0 < capacity nd ∧ current_vehicles nd ≤ capacity nd ∧
  Forall (λ w, (w < 4)%nat) (adjacent_nodes nd).
Proof.
  rewrite sample_loaded_nodes. intros Hnd.
  assert (Hcap : capacity nd = (node_config nd).1.2) by done.
  assert (Hadj : adjacent_nodes nd = (node_config nd).2) by done.
  repeat (apply elem_of_cons in Hnd as [->|Hnd]);
    [..|by apply elem_of_nil in Hnd];
    match goal with
    | |- context [place ?vs (sample_node ?id ?t ?cap ?adj)] =>
        destruct (place_sample_node vs id t cap adj) as (Hc & Ho & Hs & Hw & He & _)
    end;
    rewrite Hcap, Hadj, Hc, Ho, Hs; simpl;
    (split; [done|]); (split; [done|]); (split; [done|]); (split; [done|]);
    (split; [lia|]); (split; [lia|]); repeat constructor; lia.
Qed.

Lemma sample_loaded_fleet clock ts :
  sample_loaded clock ts ≫= vehicles_of ≡ₚ sample_fleet clock ts.
Proof.
  rewrite sample_loaded_nodes. simpl.
  repeat match goal with
    | |- context [vehicles_of (place ?vs (sample_node ?id ?t ?cap ?adj))] =>
        rewrite (proj2 (proj2 (proj2 (proj2 (proj2
                   (place_sample_node vs id t cap adj))))))
    end.
  done.
Qed.

Lemma sample_loaded_capacities clock ts :
  capacities_positive (sample_loaded clock ts).
Proof. intros nd Hnd. by apply (sample_loaded_node clock ts). Qed.

(** X16.  The sample network is well formed whatever the random generator
    yields and whatever [destinations] held before: it has the four nodes of
    the sample configuration, each queue holds vehicles of its class, every
    occupancy is the size of the queues and within the capacity, the
    counters are those of a new network, and the nodes hold 1, 2, 1 and 2
    vehicles, which have the ids 1 to 6, start at their node and are bound
    for the sample destination of that node. *)
Theorem create_sample_input_well_formed clock draw destinations ns :
  let r := create_sample_input clock draw destinations (set_nodes ns empty_network) in
  let net := loaded_net r in
  loaded_matrix r = sample_matrix ∧
  node_config <$> nodes net = node_config <$> sample_nodes ∧
  wf_network net ∧ occupancy_is_queue_size net ∧ within_capacity net ∧
  capacities_positive (nodes net) ∧
  stats net = zero_stats ∧ next_vehicle_id net = 7 ∧
  (λ nd, length (vehicles_of nd)) <$> nodes net = [1; 2; 1; 2]%nat ∧
  vehicle_id <$> queued_vehicles net ≡ₚ [1; 2; 3; 4; 5; 6] ∧
  ∀ i nd v, nodes net !! i = Some nd → v ∈ vehicles_of nd →
    source_node v = Z.of_nat i ∧ current_node v = Z.of_nat i ∧
    sample_destinations !! Z.of_nat i = Some (destination_node v) ∧
    blocked_attempts v = 0 ∧ arrival_time v = clock (Z.to_nat (vehicle_id v - 1)).
Proof.
  intros r net. subst net r. rewrite create_sample_input_spec.
  generalize (sample_types draw 0 6). intros ts.
  cbn [loaded_net loaded_matrix nodes stats next_vehicle_id].
  pose proof (sample_loaded_node clock ts) as Hnode.
  split; [done|]. split.
  { rewrite sample_loaded_nodes. simpl.
    repeat match goal with
      | |- context [node_config (place ?vs (sample_node ?id ?t ?cap ?adj))] =>
          rewrite (proj1 (place_sample_node vs id t cap adj))
      end.
    done. }
  split; [split; cbn [nodes]; intros nd Hnd|].
  { destruct (Hnode nd Hnd) as (_ & _ & _ & _ & _ & _ & Hadj).
    by rewrite sample_loaded_nodes. }
  { by apply Hnode. }
  { by apply Hnode. }
  { by apply Hnode. }
  { destruct (Hnode nd Hnd) as (Ho & _ & _ & Hcap & _ & Hle & _).
    rewrite Ho in *. unfold in_int, INT_MIN, INT_MAX in *. lia. }
  split; [intros nd Hnd; by apply Hnode|].
  split; [intros nd Hnd; by apply Hnode|].
  split; [apply sample_loaded_capacities|].
  split; [done|]. split; [done|]. split.
  { rewrite sample_loaded_nodes. simpl.
    repeat match goal with
      | |- context [vehicles_of (place ?vs (sample_node ?id ?t ?cap ?adj))] =>
          rewrite (proj2 (proj2 (proj2 (proj2 (proj2
                     (place_sample_node vs id t cap adj))))))
      end.
    done. }
  split.
  - unfold queued_vehicles. cbn [nodes]. by rewrite sample_loaded_fleet.
  - intros i nd v Hi Hv.
    by destruct (sample_loaded_vehicles clock ts i nd v Hi Hv) as (_ & _ & ?).
Qed.

Lemma sample_matrix_connected : all_reachable_from_0 sample_matrix.
Proof.
  destruct (is_graph_connected_correct sample_matrix) as (b & Hb & Hiff).
  apply Hiff. vm_compute in Hb. congruence.
Qed.

Lemma sample_matrix_paths src dest :
  0 ≤ src < 4 → 0 ≤ dest < 4 → directed_path sample_matrix src dest.
Proof.
  intros Hs Hd.
  destruct (is_path_exists_correct sample_matrix src dest) as (b & Hb & Hiff).
  apply Hiff.
  assert (src = 0 ∨ src = 1 ∨ src = 2 ∨ src = 3) as [-> | [-> | [-> | ->]]] by lia;
    assert (dest = 0 ∨ dest = 1 ∨ dest = 2 ∨ dest = 3) as [-> | [-> | [-> | ->]]]
      by lia;
    vm_compute in Hb; congruence.
Qed.

(** The destinations of the sample network are reachable exactly when no
    entry for a node beyond the fourth was left in the map. *)
Lemma sample_destinations_reachable destinations :
  destinations_reachable sample_matrix (sample_destinations_over destinations)
  ↔ map_Forall (λ src _, 0 ≤ src < 4) destinations.
Proof.
  unfold destinations_reachable. split.
  - intros H src dest Hsrc.
    destruct (decide (0 ≤ src < 4)) as [|Hout]; [done|].
    destruct (H src dest) as (Hrange & _); [|done].
    by rewrite sample_destinations_over_lookup, decide_False.
  - intros H src dest. rewrite sample_destinations_over_lookup.
    destruct (decide (0 ≤ src < 4)) as [Hin|Hout].
    + intros Hsd. apply sample_matrix_paths; [done|].
      assert (src = 0 ∨ src = 1 ∨ src = 2 ∨ src = 3) as [-> | [-> | [-> | ->]]]
        by lia; vm_compute in Hsd; simplify_eq; lia.
    + intros Hsd. by apply H in Hsd.
Qed.

Lemma sample_loaded_validation clock ts destinations :
  validate_input sample_matrix (sample_loaded clock ts)
    (sample_destinations_over destinations)
  = Some (if decide (map_Forall (λ src _, 0 ≤ src < 4) destinations)
          then INPUT_VALID else UNREACHABLE_DESTINATION).
Proof.
  pose proof (sample_loaded_capacities clock ts) as Hcap.
  pose proof sample_matrix_connected as Hconn.
  pose proof (sample_destinations_reachable destinations) as Hreach.
  destruct (validate_input_cases sample_matrix (sample_loaded clock ts)
              (sample_destinations_over destinations))
    as (res & -> & [[? _]|[(_ & Hn & ->)|[(_ & _ & ? & _)|(_ & Hy & _ & ->)]]]);
    [done| | done|].
  - rewrite decide_False; [done|]. by rewrite <- Hreach.
  - rewrite decide_True; [done|]. by apply Hreach.
Qed.

(** X17.  Whether the sample network passes the validation depends on what
    [destinations] held before: [create_sample_input] sets the entries of the
    nodes 0 to 3 and leaves the others, and [validate_input] answers
    UNREACHABLE_DESTINATION as soon as an entry for another node is left;
    otherwise the sample network is valid, whatever the random generator
    yields. *)
Theorem sample_network_validation clock draw destinations ns :
  let r := create_sample_input clock draw destinations (set_nodes ns empty_network) in
  validate_input (loaded_matrix r) (nodes (loaded_net r)) (loaded_destinations r)
  = Some (if decide (map_Forall (λ src _, 0 ≤ src < 4) destinations)
          then INPUT_VALID else UNREACHABLE_DESTINATION).
Proof.
  intros r. subst r. rewrite create_sample_input_spec.
  apply sample_loaded_validation.
Qed.

(** ** The sections of the input file *)

Lemma parse_destination_in_range char_is_signed line colon_pos n destinations :
  destinations_in_range n destinations →
  destinations_in_range n
    (parse_destination char_is_signed line colon_pos n destinations).
Proof.
  intros Hd. unfold parse_destination.
  destruct (String.get _ _) as [dest|]; [|done].
  destruct (_ && _ && _ && _) eqn:Hrange; [|done].
  apply map_Forall_insert_2; [lia|done].
Qed.

Lemma parse_section_line_in_range char_is_signed line section n destinations s
    destinations' s' :
  parse_section_line char_is_signed line section n destinations s
  = Some (destinations', s') →
  destinations_in_range n destinations → destinations_in_range n destinations'.
Proof.
  unfold parse_section_line. intros Hp Hd.
  repeat (case_match; simplify_option_eq; try done).
  by apply parse_destination_in_range.
Qed.

Lemma parse_lines_in_range char_is_signed n lines section destinations s :
  destinations_in_range n destinations →
  destinations_in_range n (parse_lines char_is_signed n lines section destinations s).1.
Proof.
  revert section destinations s.
  induction lines as [|line rest IH]; intros section destinations s Hd; [done|].
  simpl. destruct (String.eqb line ""); [by apply IH|].
  destruct (section_header line); [by apply IH|].
  destruct (parse_section_line _ _ _ _ _ _) as [[destinations' s']|] eqn:Hp; [|done].
  apply IH. by eapply parse_section_line_in_range.
Qed.

Lemma add_vehicle_fresh clock destinations n t push dest node next_id created :
  push = push_waiting ∨ push = push_emergency →
  dest = destination_of destinations (node_id node) n →
  Forall (fresh_at destinations n node) (vehicles_of node) →
  let st := add_vehicle clock t push dest (node, next_id, created) in
  node_id st.1.1 = node_id node ∧
  Forall (fresh_at destinations n st.1.1) (vehicles_of st.1.1).
Proof.
  intros Hpush -> Hf. simpl. split; [by destruct Hpush as [-> | ->]|].
  assert (Hv : fresh_at destinations n node
                 (new_vehicle (clock created) next_id t (node_id node)
                    (destination_of destinations (node_id node) n))) by done.
  destruct Hpush as [-> | ->]; unfold vehicles_of in *; simpl;
    apply Forall_app in Hf as [Hw He]; unfold queue_push, pq_push;
    rewrite !Forall_app; repeat split; try done; by apply Forall_singleton.
Qed.

Lemma add_vehicles_fresh clock destinations n t push dest count node next_id created :
  push = push_waiting ∨ push = push_emergency →
  dest = destination_of destinations (node_id node) n →
  Forall (fresh_at destinations n node) (vehicles_of node) →
  let st := add_vehicles clock t push dest count (node, next_id, created) in
  node_id st.1.1 = node_id node ∧
  Forall (fresh_at destinations n st.1.1) (vehicles_of st.1.1).
Proof.
  intros Hpush Hdest Hf. unfold add_vehicles.
  induction (Z.to_nat count) as [|k [Hid IH]]; [done|].
  rewrite Nat.iter_succ.
  destruct (Nat.iter k _ _) as [[node' id'] c'] eqn:Hit. simpl in Hid, IH.
  destruct (add_vehicle_fresh clock destinations n t push dest node' id' c')
    as [Hid' Hf']; [done|by rewrite Hid|done|].
  split; [by rewrite Hid'|done].
Qed.

Lemma add_vehicles_to_node_fresh clock destinations traffic ambulances fire_trucks n
    node next_id created :
  Forall (fresh_at destinations n node) (vehicles_of node) →
  let st := add_vehicles_to_node clock destinations traffic ambulances fire_trucks n
              (node, next_id, created) in
  node_id st.1.1 = node_id node ∧
  Forall (fresh_at destinations n st.1.1) (vehicles_of st.1.1).
Proof.
  intros Hf. unfold add_vehicles_to_node. cbn [fst snd].
  set (dest := destination_of destinations (node_id node) n).
  set (st1 := match traffic !! node_char node with Some _ => _ | None => _ end).
  assert (H1 : node_id st1.1.1 = node_id node ∧
               Forall (fresh_at destinations n st1.1.1) (vehicles_of st1.1.1)).
  { subst st1. destruct (traffic !! node_char node); [|done].
    apply add_vehicles_fresh; auto. }
  destruct st1 as [[node1 id1] c1]. simpl in H1. destruct H1 as [Hid1 Hf1].
  set (st2 := match ambulances !! node_char node with Some _ => _ | None => _ end).
  assert (H2 : node_id st2.1.1 = node_id node ∧
               Forall (fresh_at destinations n st2.1.1) (vehicles_of st2.1.1)).
  { subst st2. destruct (ambulances !! node_char node); [|done].
    rewrite <- Hid1. apply add_vehicles_fresh; auto. subst dest. by rewrite Hid1. }
  destruct st2 as [[node2 id2] c2]. simpl in H2. destruct H2 as [Hid2 Hf2].
  destruct (fire_trucks !! node_char node); [|done].
  rewrite <- Hid2. apply add_vehicles_fresh; auto. subst dest. by rewrite Hid2.
Qed.

Lemma add_vehicles_to_nodes_fresh clock destinations traffic ambulances fire_trucks n
    ns next_id created :
  Forall (λ nd, Forall (fresh_at destinations n nd) (vehicles_of nd)) ns →
  let res := add_vehicles_to_nodes clock destinations traffic ambulances fire_trucks n
               ns next_id created in
  node_id <$> res.1.1 = node_id <$> ns ∧
  Forall (λ nd, Forall (fresh_at destinations n nd) (vehicles_of nd)) res.1.1.
Proof.
  revert next_id created.
  induction ns as [|node rest IH]; intros next_id created Hf; [done|].
  apply Forall_cons in Hf as [Hnode Hrest]. simpl.
  pose proof (add_vehicles_to_node_fresh clock destinations traffic ambulances
                fire_trucks n node next_id created Hnode) as Hstep.
  destruct (add_vehicles_to_node _ _ _ _ _ _ _) as [[node' id'] c'].
  simpl in Hstep. destruct Hstep as [Hid Hf'].
  specialize (IH id' c' Hrest).
  destruct (add_vehicles_to_nodes _ _ _ _ _ _ _ _ _) as [[rest' id''] c''].
  simpl in *. destruct IH as [Hids Hfs]. split; [by f_equal|].
  by apply Forall_cons.
Qed.

Lemma destination_of_in_range destinations i n :
  destinations_in_range n destinations → 0 ≤ i < n → n ≤ INT_MAX →
  0 ≤ destination_of destinations i n < n.
Proof.
  intros Hd Hi Hn. unfold destination_of.
  destruct (destinations !! i) as [dest|] eqn:Hdest.
  - by apply Hd in Hdest as [_ ?].
  - rewrite int_succ_eq by (unfold INT_MIN; lia).
    apply Z.rem_bound_pos; lia.
Qed.

(** The vehicles of a network that [apply_configuration] made from the
    nodes of [load_input]. *)
Lemma apply_configuration_endpoints clock adjacency_matrix destinations capacities
    controllers traffic ambulances fire_trucks :
  let n := length adjacency_matrix in
  let net := (apply_configuration clock adjacency_matrix destinations capacities
                controllers traffic ambulances fire_trucks n
                (set_nodes (initial_nodes n) empty_network)).1 in
  length (nodes net) = n ∧
  ∀ i nd v, nodes net !! i = Some nd → v ∈ vehicles_of nd →
    node_id nd = Z.of_nat i ∧ fresh_at destinations (Z.of_nat n) nd v.
Proof.
  intros n net. subst net. unfold apply_configuration. cbn [nodes set_nodes].
  subst n. rewrite configured_nodes. set (n := length adjacency_matrix).
  set (ns := configured_node adjacency_matrix capacities controllers <$> seq 0 n).
  assert (Hf : Forall (λ nd, Forall (fresh_at destinations (Z.of_nat n) nd)
                               (vehicles_of nd)) ns).
  { subst ns. apply Forall_fmap, Forall_forall. intros i _. simpl.
    destruct (configured_node_fields adjacency_matrix capacities controllers i)
      as (_ & _ & _ & _ & Hw & He).
    unfold vehicles_of. by rewrite Hw, He. }
  pose proof (add_vehicles_to_nodes_fresh clock destinations traffic ambulances
                fire_trucks (Z.of_nat n) ns
                (next_vehicle_id (set_nodes (initial_nodes n) empty_network)) 0 Hf)
    as Hres.
  destruct (add_vehicles_to_nodes _ _ _ _ _ _ _ _ _) as [[ns' id'] c'].
  simpl in Hres. destruct Hres as [Hids Hfs]. simpl.
  assert (Hlen : length ns' = n).
  { rewrite <- (length_fmap node_id ns'), Hids, length_fmap. subst ns.
    by rewrite length_fmap, length_seq. }
  split; [done|]. intros i nd v Hi Hv.
  assert (Hid : node_id nd = Z.of_nat i).
  { assert (Hl : (node_id <$> ns') !! i = Some (node_id nd))
      by by rewrite list_lookup_fmap, Hi.
    rewrite Hids in Hl. subst ns. rewrite <- list_fmap_compose in Hl.
    rewrite list_lookup_fmap in Hl.
    destruct (seq 0 n !! i) as [j|] eqn:Hj; [|done].
    apply lookup_seq in Hj as [-> _]. simpl in Hl.
    destruct (configured_node_fields adjacency_matrix capacities controllers i)
      as (Hnid & _). simpl in Hnid. congruence. }
  split; [done|].
  rewrite Forall_forall in Hfs. specialize (Hfs nd (list_elem_of_lookup_2 _ _ _ Hi)).
  rewrite Forall_forall in Hfs. by apply Hfs.
Qed.

(** X18.  Every vehicle of a network that [load_input] built, from the file or as
    the sample network after a failed parse, stands at the node that holds
    it and is bound for a node of the network: for the node that
    [destinations] gives for its node, if it gives one. *)
Theorem loaded_vehicles_endpoints char_is_signed clock draw adjacency_matrix lines :
  Z.of_nat (length adjacency_matrix) ≤ INT_MAX →
  let r := load_input_lines char_is_signed clock draw adjacency_matrix lines in
  let n := length (nodes (loaded_net r)) in
  length (loaded_matrix r) = n ∧
  ∀ i nd v, nodes (loaded_net r) !! i = Some nd → v ∈ vehicles_of nd →
    node_id nd = Z.of_nat i ∧
    source_node v = Z.of_nat i ∧ current_node v = Z.of_nat i ∧
    0 ≤ destination_node v < Z.of_nat n ∧
    ∀ dest, loaded_destinations r !! Z.of_nat i = Some dest →
            destination_node v = dest.
Proof.
  intros Hn r n. subst n r. unfold load_input_lines, parse_config_sections.
  set (n := length adjacency_matrix) in *.
  pose proof (parse_lines_in_range char_is_signed (Z.of_nat n) lines "" ∅ no_sections)
    as Hrange.
  destruct (parse_lines _ _ _ _ _ _) as [destinations [s|]]; cbn [fst] in Hrange.
  - simpl.
    destruct (apply_configuration_endpoints clock adjacency_matrix destinations
                (node_capacities s) (traffic_controllers s) (initial_traffic s)
                (initial_ambulances s) (initial_fire_trucks s)) as [Hlen Hv].
    fold n in Hlen, Hv. destruct (apply_configuration _ _ _ _ _ _ _ _ _ _) as [net c].
    simpl in *. split; [done|]. intros i nd v Hi Hin.
    destruct (Hv i nd v Hi Hin) as (Hid & Hsrc & Hcur & Hdest & _).
    rewrite Hid in *. apply lookup_lt_Some in Hi.
    split; [done|]. split; [done|]. split; [done|]. rewrite Hdest, Hlen. split.
    + apply destination_of_in_range; [|lia..]. by apply Hrange.
    + intros dest Hd. unfold destination_of. by rewrite Hd.
  - cbn [fst snd mbind option_bind]. rewrite create_sample_input_spec.
    cbn [loaded_net loaded_matrix loaded_destinations nodes].
    split; [done|]. intros i nd v Hi Hin.
    destruct (sample_loaded_vehicles clock (sample_types draw 0 6) i nd v Hi Hin)
      as (Hlt & Hid & Hsrc & Hcur & Hdest & _).
    split; [done|]. split; [done|]. split; [done|]. split.
    + apply sample_destinations_range in Hdest as [_ Hdest].
      by rewrite sample_loaded_nodes.
    + intros dest. rewrite sample_destinations_over_lookup, decide_True by lia.
      congruence.
Qed.

(** X19.  When a number of the file cannot be read, the network is the sample
    network, and [destinations] keeps the entries of the lines read before:
    these name nodes of the network of the file.  The sample network then
    passes the validation exactly when no entry for a node beyond the fourth
    was read; so it always does when the file has at most four nodes. *)
Theorem failed_parse_validation char_is_signed clock draw adjacency_matrix lines :
  let n := Z.of_nat (length adjacency_matrix) in
  let parsed := parse_lines char_is_signed n lines "" ∅ no_sections in
  parsed.2 = None →
  let r := load_input_lines char_is_signed clock draw adjacency_matrix lines in
  let result :=
    validate_input (loaded_matrix r) (nodes (loaded_net r)) (loaded_destinations r) in
  loaded_matrix r = sample_matrix ∧
  loaded_destinations r = sample_destinations_over parsed.1 ∧
  destinations_in_range n parsed.1 ∧
  result = Some (if decide (map_Forall (λ src _, 0 ≤ src < 4) parsed.1)
                 then INPUT_VALID else UNREACHABLE_DESTINATION) ∧
  (n ≤ 4 → result = Some INPUT_VALID).
Proof.
  intros n parsed Hfail r result. subst result r.
  assert (Hrange : destinations_in_range n parsed.1)
    by by apply parse_lines_in_range.
  unfold load_input_lines, parse_config_sections. fold n. fold parsed.
  destruct parsed as [destinations [s|]]; [done|].
  cbn [fst snd mbind option_bind] in *. rewrite create_sample_input_spec.
  cbn [loaded_net loaded_matrix loaded_destinations nodes].
  split; [done|]. split; [done|]. split; [done|].
  rewrite sample_loaded_validation. split; [done|].
  intros Hn. rewrite decide_True; [done|].
  intros src dest Hsrc. apply Hrange in Hsrc. simpl in Hsrc. lia.
Qed.

Lemma stoi_in_int str v : stoi str = Some v → in_int v.
Proof.
  unfold stoi.
  set (signed := match skip_spaces str with EmptyString => _ | _ => _ end).
  destruct signed as [negative s].
  destruct (digit_value (first_char s)); [|done].
  destruct (_ && _) eqn:Hrange; [|done]. intros [= <-].
  unfold in_int. lia.
Qed.

Lemma parse_section_line_capacities char_is_signed line section n destinations s
    destinations' s' :
  parse_section_line char_is_signed line section n destinations s
  = Some (destinations', s') →
  map_Forall (λ _ c, in_int c) (node_capacities s) →
  map_Forall (λ _ c, in_int c) (node_capacities s').
Proof.
  unfold parse_section_line, number_after_colon. intros Hp Hs.
  repeat (case_match; simplify_option_eq; try done).
  apply map_Forall_insert_2; [|done]. by eapply stoi_in_int.
Qed.

Lemma parse_lines_capacities char_is_signed n lines section destinations s s' :
  (parse_lines char_is_signed n lines section destinations s).2 = Some s' →
  map_Forall (λ _ c, in_int c) (node_capacities s) →
  map_Forall (λ _ c, in_int c) (node_capacities s').
Proof.
  revert section destinations s.
  induction lines as [|line rest IH]; intros section destinations s; simpl.
  - by intros [= <-].
  - destruct (String.eqb line ""); [by apply IH|].
    destruct (section_header line); [by apply IH|].
    destruct (parse_section_line _ _ _ _ _ _) as [[destinations1 s1]|] eqn:Hp;
      [|done].
    intros Hrest Hs. eapply IH; [done|]. by eapply parse_section_line_capacities.
Qed.

(** The network that [load_input] built is well formed whatever the lines
    of the file hold: the numbers of the file are [int]s because [stoi] read
    them. *)
Lemma load_input_lines_representation char_is_signed clock draw adjacency_matrix
    lines :
  let r := load_input_lines char_is_signed clock draw adjacency_matrix lines in
  let net := loaded_net r in
  Z.of_nat (loaded_created r) < INT_MAX →
  wf_network net ∧ occupancy_is_queue_size net ∧
  stats net = zero_stats ∧ next_vehicle_id net = 1 + Z.of_nat (loaded_created r) ∧
  total_queued (nodes net) = Z.of_nat (loaded_created r) ∧
  vehicles_in_transit_externally net = 0.
Proof.
  intros r net. subst net r. unfold load_input_lines, parse_config_sections.
  set (n := length adjacency_matrix).
  pose proof (parse_lines_capacities char_is_signed (Z.of_nat n) lines "" ∅
                no_sections) as Hcaps.
  destruct (parse_lines _ _ _ _ _ _) as [destinations [s|]];
    cbn [fst snd mbind option_bind] in *.
  - specialize (Hcaps s eq_refl (map_Forall_empty _)).
    change (apply_configuration clock adjacency_matrix destinations
              (node_capacities s) (traffic_controllers s) (initial_traffic s)
              (initial_ambulances s) (initial_fire_trucks s) n
              (set_nodes (initial_nodes n) empty_network))
      with (load_input clock adjacency_matrix destinations (node_capacities s)
              (traffic_controllers s) (initial_traffic s) (initial_ambulances s)
              (initial_fire_trucks s)).
    pose proof (load_input_loaded clock adjacency_matrix destinations
                  (node_capacities s) (traffic_controllers s) (initial_traffic s)
                  (initial_ambulances s) (initial_fire_trucks s)) as Hl.
    destruct (load_input_rows clock adjacency_matrix destinations
                (node_capacities s) (traffic_controllers s) (initial_traffic s)
                (initial_ambulances s) (initial_fire_trucks s)) as [Hlen Hrows].
    destruct (rows_edges _ _ Hlen Hrows) as [_ Hwf].
    destruct (load_input _ _ _ _ _ _ _ _) as [net created].
    cbn [fst snd loaded_net loaded_created] in *. intros Hlt.
    destruct (Hl Hlt) as (Hnet & Hcfg & Hloaded & Hstamp).
    rewrite Hnet. apply loaded_representation; [|done| |done].
    + intros nd Hnd. rewrite Forall_forall in Hloaded.
      destruct (Hloaded nd Hnd) as [Hocc Hw He _ _ _].
      repeat split; try done; by eapply configured_capacity_int.
    + change (nodes net ≫= vehicles_of) with (queued_vehicles net).
      by rewrite <- (length_fmap stamp_of), Hstamp, length_fmap, length_seq.
  - rewrite create_sample_input_spec.
    cbn [loaded_net loaded_created]. intros Hlt.
    apply (loaded_representation (sample_loaded clock (sample_types draw 0 6)) 6);
      [| | |done].
    + intros nd Hnd.
      by destruct (sample_loaded_node clock _ nd Hnd) as (? & ? & ? & ? & _).
    + intros u w Hw. unfold adjacent_of in Hw.
      destruct (sample_loaded clock (sample_types draw 0 6) !! u) as [nd|] eqn:Hu.
      * rewrite (list_lookup_total_correct _ _ _ Hu) in Hw.
        destruct (sample_loaded_node clock _ nd (list_elem_of_lookup_2 _ _ _ Hu))
          as (_ & _ & _ & _ & _ & _ & Hadj).
        rewrite Forall_forall in Hadj. rewrite sample_loaded_nodes. by apply Hadj.
      * rewrite list_lookup_total_alt, Hu in Hw. simpl in Hw.
        by apply elem_of_nil in Hw.
    + by rewrite sample_loaded_fleet.
Qed.

(** X20.  Whatever the lines of the file hold, the simulation of the network that
    [load_input] built, from the file or as the sample network after a
    failed parse, never leaves the representation, as long as fewer than
    [INT_MAX] vehicles were constructed: after any sequence of engine
    operations the network is well formed, every operation returns (no
    vector is read out of range), the occupancy of every node is the number
    of vehicles in its queues, and the occupancies add up to the vehicles
    loaded minus the vehicles that completed their trip. *)
Theorem loaded_network_runs char_is_signed clock draw adjacency_matrix lines net :
  let r := load_input_lines char_is_signed clock draw adjacency_matrix lines in
  Z.of_nat (loaded_created r) < INT_MAX →
  rtc engine_step (loaded_net r) net →
  wf_network net ∧ occupancy_is_queue_size net ∧
  (∀ op, ∃ net', run_op op net = Some net') ∧
  length (nodes net) = length (nodes (loaded_net r)) ∧
  total_occupancy (nodes net)
  = Z.of_nat (loaded_created r) - vehicles_completed net ∧
  0 ≤ vehicles_completed net ≤ Z.of_nat (loaded_created r).
Proof.
  intros r Hlt Hrun.
  destruct (load_input_lines_representation char_is_signed clock draw
              adjacency_matrix lines Hlt)
    as (Hwf & Hsize & Hstats & Hid & Hq & Htransit).
  fold r in Hwf, Hsize, Hstats, Hid, Hq, Htransit.
  set (net0 := loaded_net r) in *.
  assert (Hinv0 : net_inv (length (nodes net0)) false no_pending net0)
    by by apply initial_net_inv.
  assert (Hocc : ∀ n net1, net_inv n false no_pending net1 →
            ∀ j nd, nodes net1 !! j = Some nd →
                    current_vehicles nd = Z.of_nat (get_queue_size nd)).
  { intros n net1 [_ Hall] j nd Hj.
    rewrite (ni_occ _ _ _ _ (Hall j nd Hj)). simpl. lia. }
  assert (Hcons0 : cons_inv net0).
  { split; unfold vehicles_completed, vehicles_created; rewrite ?Hstats, ?Hid;
      simpl; try lia.
    rewrite <- (total_queued_occupancy _ (Hocc _ _ Hinv0)). lia. }
  destruct (engine_run_inv _ _ _ _ Hinv0 Hrun) as [Hinv Hcons].
  destruct (Hcons Hcons0) as [Hsum Hr He _].
  pose proof (engine_run_id _ _ Hrun) as Hsame.
  unfold vehicles_created in Hsum. rewrite Hsame, Hid in Hsum.
  pose proof Hinv as [Hlen Hall].
  assert (Hnonneg : 0 ≤ total_occupancy (nodes net)).
  { apply total_occupancy_nonneg. intros j nd Hj. by eapply net_inv_nonneg. }
  split; [split|].
  - intros nd [j Hj]%list_elem_of_lookup_1. rewrite Hlen.
    apply (ni_adj _ _ _ _ (Hall j nd Hj)).
  - intros nd [j Hj]%list_elem_of_lookup_1. apply (ni_wait _ _ _ _ (Hall j nd Hj)).
  - intros nd [j Hj]%list_elem_of_lookup_1. apply (ni_emer _ _ _ _ (Hall j nd Hj)).
  - intros nd [j Hj]%list_elem_of_lookup_1. apply (ni_cap _ _ _ _ (Hall j nd Hj)).
  - intros nd [j Hj]%list_elem_of_lookup_1.
    pose proof (ni_int _ _ _ _ (Hall j nd Hj)).
    pose proof (net_inv_nonneg _ _ _ _ _ _ Hinv Hj).
    unfold in_int, INT_MIN. lia.
  - split; [intros nd [j Hj]%list_elem_of_lookup_1; by eapply Hocc|].
    split.
    { intros op. destruct (run_op_inv _ _ op net Hinv) as (net' & ? & _).
      by exists net'. }
    split; [done|]. unfold vehicles_completed in *. lia.
Qed.

(** ** Examples of files *)

Lemma loaded_vehicles_endpoints_witness :
  let r := load_input_lines true example_clock example_draw sample_matrix example_lines in
  let n := length (nodes (loaded_net r)) in
  length (loaded_matrix r) = n ∧
  ∀ i nd v, nodes (loaded_net r) !! i = Some nd → v ∈ vehicles_of nd →
    node_id nd = Z.of_nat i ∧
    source_node v = Z.of_nat i ∧ current_node v = Z.of_nat i ∧
    0 ≤ destination_node v < Z.of_nat n ∧
    ∀ dest, loaded_destinations r !! Z.of_nat i = Some dest →
            destination_node v = dest.
Proof.
  apply (loaded_vehicles_endpoints true example_clock example_draw sample_matrix
           example_lines).
  by vm_compute.
Defined.

Lemma failed_parse_validation_witness :
  let r := load_input_lines true example_clock example_draw five_ring broken_lines in
  loaded_matrix r = sample_matrix ∧
  validate_input (loaded_matrix r) (nodes (loaded_net r)) (loaded_destinations r)
  = Some UNREACHABLE_DESTINATION.
Proof.
  destruct (failed_parse_validation true example_clock example_draw five_ring
              broken_lines) as (Hm & _ & _ & Hres & _); [reflexivity|].
  split; [exact Hm|]. rewrite Hres. reflexivity.
Defined.

Lemma example_run_steps :
  rtc engine_step
    (loaded_net (load_input_lines true example_clock example_draw sample_matrix
                   example_lines))
    example_run.
Proof.
  eapply rtc_l; [exists OpStep; by vm_compute|].
  eapply rtc_l; [exists OpSweep; by vm_compute|].
  apply rtc_once. exists OpStep. by vm_compute.
Qed.

Lemma loaded_network_runs_witness :
  let r := load_input_lines true example_clock example_draw sample_matrix example_lines in
  wf_network example_run ∧ occupancy_is_queue_size example_run ∧
  (∀ op, ∃ net', run_op op example_run = Some net') ∧
  length (nodes example_run) = length (nodes (loaded_net r)) ∧
  total_occupancy (nodes example_run)
  = Z.of_nat (loaded_created r) - vehicles_completed example_run ∧
  0 ≤ vehicles_completed example_run ≤ Z.of_nat (loaded_created r).
Proof.
  apply (loaded_network_runs true example_clock example_draw sample_matrix
           example_lines example_run); [by vm_compute|exact example_run_steps].
Defined.

(** ** The thread pool *)

Lemma running_cons o ws :
  running (o :: ws) = match o with Some task => task :: running ws | None => running ws end.
Proof. by destruct o. Qed.

Lemma running_length ws : (length (running ws) ≤ length ws)%nat.
Proof.
  induction ws as [|o ws IH]; [done|].
  rewrite running_cons. destruct o; simpl; lia.
Qed.

Lemma running_take ws w task :
  ws !! w = Some None → running (<[w := Some task]> ws) ≡ₚ task :: running ws.
Proof.
  revert w. induction ws as [|o ws IH]; intros [|w] Hw; try done.
  - injection Hw as ->. done.
  - change (<[S w := Some task]> (o :: ws)) with (o :: <[w := Some task]> ws).
    rewrite !running_cons. destruct o; rewrite IH by done;
      [apply Permutation_swap|done].
Qed.

Lemma running_leave ws w task :
  ws !! w = Some (Some task) → running ws ≡ₚ task :: running (<[w := None]> ws).
Proof.
  revert w. induction ws as [|o ws IH]; intros [|w] Hw; try done.
  - injection Hw as ->. done.
  - change (<[S w := None]> (o :: ws)) with (o :: <[w := None]> ws).
    rewrite !running_cons. destruct o; rewrite (IH w) by done;
      [apply Permutation_swap|done].
Qed.

Lemma pool_step_inv threads all a s s' :
  pool_inv threads all s → pool_step a s = Some s' → pool_inv threads all s'.
Proof.
  intros [Hw (taken & Hall & Hrun) Hent Hact] Hstep.
  destruct a as [|w|w|w|]; simpl in Hstep.
  - destruct (to_enqueue s) as [|task rest] eqn:Hq; [done|].
    injection Hstep as <-. split; simpl; [done| |done..].
    exists taken. split; [|done]. by rewrite Hall, <- !app_assoc.
  - destruct (workers s !! w) as [[task'|]|] eqn:Hlw; try done.
    destruct (tasks s) as [|task rest] eqn:Ht; [done|].
    injection Hstep as <-. split; simpl.
    + by rewrite length_insert.
    + exists (taken ++ [task]). split; [by rewrite Hall, <- !app_assoc|].
      intros Hs. rewrite running_take, Hrun by done.
      by rewrite Permutation_cons_append.
    + done.
    + rewrite running_take by done. simpl. lia.
  - destruct (workers s !! w) as [[task|]|] eqn:Hlw; try done.
    destruct (shutdown_requested s) eqn:Hs; [done|].
    injection Hstep as <-. split; simpl; [done|by exists taken| |done].
    apply Forall_app. split; [done|]. apply Forall_singleton.
    assert (Hin : task ∈ taken).
    { rewrite <- Hrun by done. apply list_elem_of_omap. exists (Some task).
      split; [by eapply list_elem_of_lookup_2|done]. }
    assert (Hlen : (length taken ≤ length (workers s))%nat).
    { rewrite <- Hrun by done. apply running_length. }
    rewrite Hall, take_app, (take_ge taken) by lia.
    apply elem_of_app. by left.
  - destruct (workers s !! w) as [[task|]|] eqn:Hlw; try done.
    destruct (shutdown_requested s) eqn:Hs; [|done].
    injection Hstep as <-. split; simpl.
    + by rewrite length_insert.
    + exists taken. split; [done|]. done.
    + done.
    + rewrite Hact, (running_leave _ w task) by done. simpl. lia.
  - injection Hstep as <-. split; simpl; [done| |done..].
    exists taken. by split.
Qed.

Lemma pool_run_inv threads n automatic s :
  rtc pool_run (pool_start threads n automatic) s →
  pool_inv threads (simulation_tasks n automatic) s.
Proof.
  revert s. apply rtc_ind_r.
  - split; simpl.
    + by rewrite length_replicate.
    + exists []. split; [done|]. intros _. by induction threads.
    + done.
    + by induction threads.
  - intros s s' _ [a Ha] IH. by eapply pool_step_inv.
Qed.

(** X21.  While the simulation runs, no loop enters its body but those of the
    first four tasks that [run_automatic_simulation] hands to the pool: each
    of the four workers runs its task until the shutdown is requested.  So
    the processing loops of the nodes 3 and above never do anything, and for
    a network of three nodes or more, the sample network among them, the
    loop that refreshes the dashboard never does.  [active_threads] is the
    number of tasks that run, at most four. *)
Theorem automatic_simulation_starvation n automatic s :
  rtc pool_run (pool_start pool_threads n automatic) s →
  (∀ task, task ∈ entered s → task ∈ take 4 (simulation_tasks n automatic)) ∧
  (∀ node_idx, TrafficProcessingLoop node_idx ∈ entered s → (node_idx < 3)%nat) ∧
  ((3 ≤ n)%nat → UiUpdateLoop ∉ entered s) ∧
  0 ≤ active_threads s ≤ 4.
Proof.
  intros Hrun. apply pool_run_inv in Hrun as [Hw _ Hent Hact].
  rewrite Forall_forall in Hent. change pool_threads with 4%nat in *.
  assert (Hfirst : ∀ task, task ∈ take 4 (simulation_tasks n automatic) →
            task = TokenAllocationLoop ∨
            ∃ i, (i < 3)%nat ∧
                 ((TrafficProcessingLoop <$> seq 0 n)
                  ++ (if automatic then [UiUpdateLoop] else [])) !! i = Some task).
  { intros task (i & Hi & Hlt)%elem_of_take. destruct i as [|i]; simplify_eq/=.
    - by left.
    - right. exists i. split; [lia|done]. }
  split; [done|]. split; [|split].
  - intros i Hi. apply Hent, Hfirst in Hi as [?|(j & Hj & Hl)]; [done|].
    destruct (decide (j < n)%nat) as [Hjn|Hjn].
    + rewrite lookup_app_l in Hl by by rewrite length_fmap, length_seq.
      rewrite list_lookup_fmap, lookup_seq_lt in Hl by done. by simplify_eq/=.
    + rewrite lookup_app_r in Hl by (rewrite length_fmap, length_seq; lia).
      destruct automatic; [|done].
      by destruct (j - _)%nat as [|[|]]; simplify_eq/=.
  - intros Hn Hin. apply Hent, Hfirst in Hin as [?|(j & Hj & Hl)]; [done|].
    rewrite lookup_app_l in Hl by (rewrite length_fmap, length_seq; lia).
    rewrite list_lookup_fmap, lookup_seq_lt in Hl by lia. by simplify_eq/=.
  - pose proof (running_length (workers s)). lia.
Qed.

(** ** The display *)

Lemma length_append (s1 s2 : string) :
  String.length (s1 +:+ s2) = (String.length s1 + String.length s2)%nat.
Proof. induction s1 as [|a s1 IH]; simpl; [done|]. by rewrite <- IH. Qed.

Lemma length_repeat_char count ch : String.length (repeat_char count ch) = count.
Proof. induction count as [|count IH]; simpl; [done|]. by rewrite IH. Qed.

Lemma occurs_append c s1 s2 : occurs c (s1 +:+ s2) ↔ occurs c s1 ∨ occurs c s2.
Proof.
  induction s1 as [|a s1 IH]; simpl; [tauto|].
  change (occurs c (s1 +:+ s2)) with (occurs c (String.append s1 s2)) in IH.
  tauto.
Qed.

(** A pattern whose first character does not occur is not found. *)
Lemma contains_absent c pattern s :
  ¬ occurs c s → contains (String c pattern) s = false.
Proof.
  induction s as [|a s IH]; intros Hc; simpl in *; [done|].
  destruct (ascii_dec c a) as [->|_]; [tauto|]. simpl. apply IH. tauto.
Qed.

(** The numeral of an integer holds digits and the sign. *)
Lemma int_to_string_chars c z :
  occurs c (int_to_string z) → c = "-"%char ∨ is_Some (digit_value c).
Proof.
  assert (Hu : ∀ d, occurs c (NilEmpty.string_of_uint d) → is_Some (digit_value c)).
  { intros d. induction d; simpl; intros H; try done; destruct H as [<-|H]; auto;
      by eexists. }
  assert (Hz : ∀ d, occurs c (NilZero.string_of_uint d) → is_Some (digit_value c)).
  { intros d. destruct d; try apply Hu. simpl. intros [<-|[]]. by eexists. }
  unfold int_to_string, NilZero.string_of_int.
  destruct (Z.to_int z) as [d|d]; simpl; [intros H; right; by apply (Hz d)|].
  intros [<-|H]; [by left|right; by apply (Hz d)].
Qed.

(** X22.  Every vehicle is shown in the colour of its class, whatever its id:
    the name that [Vehicle::to_string] gives an ambulance holds "AMB", the
    name of a fire truck holds "FIRE" and not "AMB", and the name of a
    Regular vehicle holds neither. *)
Theorem vehicle_colour_is_class_colour v :
  get_vehicle_color (to_string v) = class_colour (type v).
Proof.
  unfold get_vehicle_color, to_string, class_colour.
  assert (Hno : ∀ c, c ≠ "-"%char → digit_value c = None → c ≠ "]"%char →
            ¬ occurs c (int_to_string (vehicle_id v) +:+ "]")).
  { intros c H1 H2 H3 [H|H]%occurs_append.
    - apply int_to_string_chars in H as [?|[? ?]]; congruence.
    - simpl in H. destruct H as [?|[]]. congruence. }
  assert (Hreg : ∀ c, c ≠ "-"%char → digit_value c = None → c ≠ "]"%char →
            c ≠ "["%char → c ≠ "R"%char → c ≠ "E"%char → c ≠ "G"%char →
            ¬ occurs c ("[" +:+ "REG" +:+ "-" +:+ int_to_string (vehicle_id v) +:+ "]")).
  { intros c H1 H2 H3 ? ? ? ? H. simpl in H.
    repeat (destruct H as [?|H]; [congruence|]). by eapply Hno. }
  assert (Hfire : ¬ occurs "A" ("[" +:+ "FIRE" +:+ "-"
                                +:+ int_to_string (vehicle_id v) +:+ "]")).
  { intros H. simpl in H. repeat (destruct H as [?|H]; [discriminate|]).
    by eapply (Hno "A"%char). }
  destruct (type v).
  - by rewrite !contains_absent by (by apply Hreg).
  - by rewrite contains_absent by done.
  - reflexivity.
Qed.

(** X23.  The title row of a header is two columns short of the borders: for a
    title of at most 76 characters [print_header] writes a border of 80
    columns, a row of 78 columns that holds the title between [p] and [q]
    spaces, [q] being [p] or [p + 1], and the border again; for a longer
    title a number of spaces is negative and the call throws. *)
Theorem print_header_row_is_short title :
  Z.of_nat (String.length title) ≤ INT_MAX →
  match print_header title with
  | Some out =>
      (String.length title ≤ 76)%nat ∧
      ∃ p q : nat,
        out = BOLD +:+ CYAN +:+ header_border +:+ endl
              +:+ header_row title p q +:+ endl
              +:+ header_border +:+ RESET +:+ endl ∧
        (p + String.length title + q = 76)%nat ∧ (p ≤ q ≤ p + 1)%nat ∧
        String.length header_border = 80%nat ∧
        String.length (header_row title p q) = 78%nat
  | None => (76 < String.length title)%nat
  end.
Proof.
  intros Hlen. unfold print_header.
  rewrite int_wrap_id by (unfold in_int, INT_MIN; lia).
  set (len := String.length title) in *.
  set (padding := (78 - 2 - Z.of_nat len) `quot` 2).
  pose proof (Z.quot_rem' (78 - 2 - Z.of_nat len) 2) as Hqr. fold padding in Hqr.
  unfold string_of_count.
  destruct (decide (len ≤ 76)%nat) as [Hle|Hgt].
  - pose proof (Z.rem_bound_pos (78 - 2 - Z.of_nat len) 2) as Hr.
    destruct (Z.ltb_spec padding 0); [lia|]. simpl.
    destruct (Z.ltb_spec (78 - 2 - Z.of_nat len - padding) 0); [lia|]. simpl.
    split; [done|].
    exists (Z.to_nat padding), (Z.to_nat (78 - 2 - Z.of_nat len - padding)).
    split; [done|]. split; [lia|]. split; [lia|]. split; [done|].
    unfold header_row. rewrite !length_append, !length_repeat_char. fold len.
    simpl. lia.
  - pose proof (Z.rem_bound_neg_pos (78 - 2 - Z.of_nat len) 2) as Hr.
    destruct (Z.ltb_spec padding 0); [simpl; lia|]. simpl.
    destruct (Z.ltb_spec (78 - 2 - Z.of_nat len - padding) 0); [simpl; lia|]. lia.
Qed.

(** ** Examples of schedules and headers *)

Lemma run_actions_rtc actions s s' :
  run_actions actions s = Some s' → rtc pool_run s s'.
Proof.
  revert s. induction actions as [|a rest IH]; intros s Hrun; simpl in Hrun.
  - injection Hrun as ->. apply rtc_refl.
  - destruct (pool_step a s) as [s1|] eqn:Hstep; [|done].
    eapply rtc_l; [by exists a|]. by apply IH.
Qed.

Lemma pool_example_run : rtc pool_run (pool_start pool_threads 4 true) pool_example.
Proof. apply (run_actions_rtc pool_example_actions). reflexivity. Qed.

Lemma automatic_simulation_starvation_witness :
  (∀ task, task ∈ entered pool_example → task ∈ take 4 (simulation_tasks 4 true)) ∧
  (∀ node_idx, TrafficProcessingLoop node_idx ∈ entered pool_example →
               (node_idx < 3)%nat) ∧
  ((3 ≤ 4)%nat → UiUpdateLoop ∉ entered pool_example) ∧
  0 ≤ active_threads pool_example ≤ 4.
Proof.
  exact (automatic_simulation_starvation 4 true pool_example pool_example_run).
Defined.

Lemma print_header_row_is_short_witness :
  match print_header "TRAFFIC MANAGEMENT SYSTEM - INITIALIZATION" with
  | Some out =>
      (String.length "TRAFFIC MANAGEMENT SYSTEM - INITIALIZATION" ≤ 76)%nat ∧
      ∃ p q : nat,
        out = BOLD +:+ CYAN +:+ header_border +:+ endl
              +:+ header_row "TRAFFIC MANAGEMENT SYSTEM - INITIALIZATION" p q +:+ endl
              +:+ header_border +:+ RESET +:+ endl ∧
        (p + String.length "TRAFFIC MANAGEMENT SYSTEM - INITIALIZATION" + q = 76)%nat ∧
        (p ≤ q ≤ p + 1)%nat ∧
        String.length header_border = 80%nat ∧
        String.length (header_row "TRAFFIC MANAGEMENT SYSTEM - INITIALIZATION" p q)
        = 78%nat
  | None => (76 < String.length "TRAFFIC MANAGEMENT SYSTEM - INITIALIZATION")%nat
  end.
Proof.
  apply (print_header_row_is_short "TRAFFIC MANAGEMENT SYSTEM - INITIALIZATION").
  by vm_compute.
Defined.

(** ** Numbers and letters of the input file *)

Lemma append_cons c s rest : String c s +:+ rest = String c (s +:+ rest).
Proof. reflexivity. Qed.

(** Read the digit that begins the string. *)
Ltac read_digit :=
  rewrite append_cons; cbn [read_digits];
  match goal with
  | |- context [digit_value ?c] =>
      let v := eval vm_compute in (digit_value c) in
      change (digit_value c) with v
  end; cbv iota.

Lemma read_digits_acc d rest acc :
  no_leading_digit rest → 0 < acc →
  read_digits (NilEmpty.string_of_uint d +:+ rest) acc
  = Z.pos (Pos.of_uint_acc d (Z.to_pos acc)).
Proof.
  intros Hrest. revert acc.
  induction d as [|d IH|d IH|d IH|d IH|d IH|d IH|d IH|d IH|d IH|d IH]; intros acc Hacc;
    cbn [NilEmpty.string_of_uint Pos.of_uint_acc].
  1: { change ("" +:+ rest) with rest. unfold no_leading_digit in Hrest.
       destruct rest as [|c rest]; simpl in *; [lia|]. rewrite Hrest. lia. }
  all: read_digit;
    rewrite IH by lia; do 2 f_equal; lia.
Qed.

Lemma read_digits_uint d rest :
  no_leading_digit rest →
  read_digits (NilEmpty.string_of_uint d +:+ rest) 0 = Z.of_uint d.
Proof.
  intros Hrest. unfold Z.of_uint.
  induction d as [|d IH|d IH|d IH|d IH|d IH|d IH|d IH|d IH|d IH|d IH];
    cbn [NilEmpty.string_of_uint Pos.of_uint].
  1: { change ("" +:+ rest) with rest. unfold no_leading_digit in Hrest.
       destruct rest as [|c rest]; simpl in *; [done|]. by rewrite Hrest. }
  1: { read_digit.
       exact IH. }
  all: read_digit;
    rewrite read_digits_acc by (done || lia); done.
Qed.

(** The numeral of a natural number begins with a digit. *)
Lemma string_of_uint_digit d rest :
  ∃ c s, NilZero.string_of_uint d +:+ rest = String c s ∧
         is_Some (digit_value c) ∧ Ascii.is_space c = false ∧
         c ≠ "-"%char ∧ c ≠ "+"%char.
Proof.
  destruct d; simpl; rewrite append_cons; eexists _, _; (split; [done|]);
    (split; [by eexists|done]).
Qed.

Lemma read_digits_numeral d rest :
  no_leading_digit rest →
  read_digits (NilZero.string_of_uint d +:+ rest) 0 = Z.of_uint d.
Proof.
  intros Hrest. destruct d; try by apply read_digits_uint.
  change (read_digits (NilZero.string_of_uint Decimal.Nil +:+ rest) 0)
    with (read_digits rest 0).
  unfold no_leading_digit in Hrest.
  destruct rest as [|c rest]; simpl in *; [done|]. by rewrite Hrest.
Qed.

(** [stoi] reads the numeral that [to_string] writes for an [int], after
    spaces and before anything but a digit. *)
Lemma stoi_int_to_string (k : nat) z rest :
  in_int z → no_leading_digit rest →
  stoi (repeat_char k " " +:+ int_to_string z +:+ rest) = Some z.
Proof.
  intros Hz Hrest. unfold stoi.
  assert (Hskip : skip_spaces (repeat_char k " " +:+ int_to_string z +:+ rest)
                  = int_to_string z +:+ rest).
  { induction k as [|k IH]; simpl.
    - change ("" +:+ ?s) with s. unfold int_to_string, NilZero.string_of_int.
      destruct (Z.to_int z) as [d|d].
      + destruct (string_of_uint_digit d rest) as (c & s & -> & _ & Hsp & _).
        simpl. by rewrite Hsp.
      + by rewrite append_cons.
    - exact IH. }
  rewrite Hskip. clear Hskip.
  rewrite <- (DecimalZ.of_to z) at 2. rewrite <- (DecimalZ.of_to z) in Hz.
  unfold int_to_string, NilZero.string_of_int, Z.of_int in *.
  destruct (Z.to_int z) as [d|d].
  - pose proof (read_digits_numeral d rest Hrest) as Hread.
    destruct (string_of_uint_digit d rest) as (c & s & Hs & [x Hx] & _ & Hm & Hp).
    rewrite Hs in *. 
    destruct (ascii_dec c "-") as [->|_]; [done|].
    destruct (ascii_dec c "+") as [->|_]; [done|].
    assert (Hsign : (match String c s with
                     | String "-"%char r => (true, r)
                     | String "+"%char r => (false, r)
                     | _ => (false, String c s)
                     end) = (false, String c s)).
    { destruct c as [[] [] [] [] [] [] [] []]; done. }
    rewrite Hsign. cbn [first_char]. rewrite Hx, Hread.
    unfold in_int in Hz.
    destruct (Z.leb_spec INT_MIN (Z.of_uint d)); [|lia].
    destruct (Z.leb_spec (Z.of_uint d) INT_MAX); [|lia]. done.
  - rewrite append_cons.
    pose proof (read_digits_numeral d rest Hrest) as Hread.
    destruct (string_of_uint_digit d rest) as (c & s & Hs & [x Hx] & _).
    rewrite Hs in *. cbn [first_char]. rewrite Hx, Hread.
    unfold in_int in Hz.
    destruct (Z.leb_spec INT_MIN (- Z.of_uint d)); [|lia].
    destruct (Z.leb_spec (- Z.of_uint d) INT_MAX); [|lia]. done.
Qed.

Lemma find_char_append c s1 s2 :
  ¬ occurs c s1 → find_char c (s1 +:+ String c s2) = Some (String.length s1).
Proof.
  induction s1 as [|a s1 IH]; intros Hc.
  - change ("" +:+ String c s2) with (String c s2). simpl.
    by rewrite Ascii.eqb_refl.
  - rewrite append_cons. simpl in *.
    destruct (Ascii.eqb_spec a c) as [->|_]; [tauto|]. rewrite IH by tauto. done.
Qed.

Lemma substr_append s1 c s2 :
  substr (String.length s1 + 1) (s1 +:+ String c s2) = s2.
Proof.
  induction s1 as [|a s1 IH]; [done|]. rewrite append_cons. exact IH.
Qed.

(** X24.  A line of a section of numbers is read as it is written: the number
    that follows the first colon, in the notation of [to_string], after any
    number of spaces and before anything but a digit, is stored for the
    first character of the line, and [stoi] does not throw. *)
Theorem number_line_is_read char_is_signed section c label (k : nat) v rest n
    destinations s :
  number_section section → ¬ occurs ":" (String c label) → in_int v →
  no_leading_digit rest →
  parse_section_line char_is_signed
    (String c label +:+ ":" +:+ repeat_char k " " +:+ int_to_string v +:+ rest)
    section n destinations s
  = Some (destinations, store_number section c v s).
Proof.
  intros Hsection Hlabel Hv Hrest.
  set (number := repeat_char k " " +:+ int_to_string v +:+ rest).
  assert (Hfind : find_char ":" (String c label +:+ String ":" number)
                  = Some (String.length (String c label)))
    by by apply find_char_append.
  assert (Hnum : number_after_colon (String c label +:+ String ":" number) = Some v).
  { unfold number_after_colon. rewrite Hfind, substr_append.
    by apply stoi_int_to_string. }
  unfold parse_section_line, store_number.
  change (":" +:+ number) with (String ":" number).
  rewrite Hnum, Hfind. rewrite bool_decide_true by by eexists.
  change (first_char (String c label +:+ String ":" number)) with c.
  destruct Hsection as [-> | [-> | [-> | ->]]]; reflexivity.
Qed.

Lemma get_append s1 c a s2 :
  String.get (String.length s1 + 1) (s1 +:+ String c (String a s2)) = Some a.
Proof.
  induction s1 as [|b s1 IH]; [done|]. rewrite append_cons. exact IH.
Qed.

(** The letter of a node is read back as its index, for the first 63
    nodes: their letters are ASCII characters. *)
Lemma char_to_int_node_char char_is_signed i :
  0 ≤ i < 63 → char_to_int char_is_signed (node_char_of i) - 65 = i.
Proof.
  intros Hi. unfold char_to_int, node_char_of.
  rewrite N_ascii_embedding by (rewrite Z.mod_small by lia; lia).
  rewrite Z2N.id, Z.mod_small by (rewrite ?Z.mod_small by lia; lia).
  destruct (Z.leb_spec 128 (65 + i)); [lia|]. rewrite andb_false_r. lia.
Qed.

(** X25.  A line of the section of destinations is read as it is written, in a
    network of at most 63 nodes: the letters of two nodes around the first
    colon give the destination of the first node, whatever follows. *)
Theorem destination_line_is_read char_is_signed i j label rest n destinations s :
  0 ≤ i < n → 0 ≤ j < n → n ≤ 63 →
  ¬ occurs ":" (String (node_char_of i) label) →
  parse_section_line char_is_signed
    (String (node_char_of i) label +:+ ":" +:+ String (node_char_of j) rest)
    "destinations" n destinations s
  = Some (<[i := j]> destinations, s).
Proof.
  intros Hi Hj Hn Hlabel.
  assert (Hfind : find_char ":" (String (node_char_of i) label
                                 +:+ String ":" (String (node_char_of j) rest))
                  = Some (String.length (String (node_char_of i) label)))
    by by apply find_char_append.
  unfold parse_section_line.
  change (":" +:+ String (node_char_of j) rest)
    with (String ":" (String (node_char_of j) rest)).
  rewrite Hfind. rewrite bool_decide_true by by eexists.
  change (String.eqb "destinations" "capacities") with false.
  change (String.eqb "destinations" "controllers") with false.
  change (String.eqb "destinations" "traffic") with false.
  change (String.eqb "destinations" "ambulances") with false.
  change (String.eqb "destinations" "fire_trucks") with false.
  change (String.eqb "destinations" "destinations") with true.
  cbn [andb]. unfold parse_destination. rewrite get_append.
  change (first_char (String (node_char_of i) label +:+ _)) with (node_char_of i).
  rewrite !char_to_int_node_char by lia.
  destruct (Z.geb_spec i 0); [|lia]. destruct (Z.ltb_spec i n); [|lia].
  destruct (Z.geb_spec j 0); [|lia]. destruct (Z.ltb_spec j n); [|lia]. done.
Qed.

(** ** Examples of lines *)

Lemma number_line_is_read_witness :
  parse_section_line true "B: 3 vehicles" "capacities" 4 ∅ no_sections
  = Some (∅, store_number "capacities" "B" 3 no_sections).
Proof.
  apply (number_line_is_read true "capacities" "B" "" 1 3 " vehicles" 4 ∅ no_sections).
  - by left.
  - simpl. intros [?|[]]. discriminate.
  - split; by vm_compute.
  - reflexivity.
Defined.

Lemma destination_line_is_read_witness :
  parse_section_line true "A:D" "destinations" 4 ∅ no_sections
  = Some (<[0 := 3]> ∅, no_sections).
Proof.
  apply (destination_line_is_read true 0 3 "" "" 4 ∅ no_sections); try lia.
  simpl. intros [?|[]]. discriminate.
Defined.
